(** * Zura: the single-pass bytecode compiler of [src/parser/parser.cpp]

    A shallow embedding of the compiler (code emission, jump patching,
    scopes and locals, the Pratt expression parser and the statement
    compiler), followed by the theorems that relate it to the written
    specification.

    Conventions of the embedding.
    - The process-wide variables [parser], [current],
      [inner_most_loop_start] and [inner_most_loop_scope_depth] are the
      fields of one [State] record that every function threads.
    - The chain [current -> enclosing -> ... -> nullptr] is the list
      [compilers], whose head is [current].
    - A C++ [int] is a [Z]; a cast to [uint8_t] is written [mod 256].
    - A [Token] carries its lexeme as a string instead of a pointer and a
      length into the source text.
    - The recursion of the parser is bounded by a fuel argument; running
      out of fuel is [None]. *)

From Stdlib Require Import ZArith List String Bool Lia Arith.
Import ListNotations.
Open Scope string_scope.
Open Scope list_scope.
Open Scope Z_scope.
Set Warnings "-register-all".

(* ================================================================= *)
(** ** Tokens *)

(** The token kinds named by the compiler. *)
Inductive TokenKind : Set :=
| LEFT_PAREN | RIGHT_PAREN | LEFT_BRACE | RIGHT_BRACE | COMMA | SEMICOLON
| PLUS | MINUS | STAR | SLASH | MODULO | POWER
| BANG | BANG_EQUAL | EQUAL | EQUAL_EQUAL
| GREATER | GREATER_EQUAL | LESS | LESS_EQUAL | WALRUS
| IDENTIFIER | STRING | NUMBER
| AND | OR | FALSE | TRUE | NIL
| FUNC | HAVE | INFO | RETURN | IF | ELSE
| CONTINUE | BREAK | WHILE | FOR | USING
| EOF_TOKEN.

Scheme Equality for TokenKind.

Record Token : Set := mkToken {
  kind : TokenKind;
  lexeme : string;      (* the bytes [start, start + length) *)
  line : Z
}.

Definition kind_is (k : TokenKind) (t : Token) : bool :=
  TokenKind_beq (kind t) k.

(* ================================================================= *)
(** ** Bytecode, values and chunks *)

(** The instructions the compiler emits. *)
Inductive OpCode : Set :=
| OP_CONSTANT | OP_NIL | OP_TRUE | OP_FALSE | OP_POP
| OP_GET_LOCAL | OP_SET_LOCAL
| OP_GET_GLOBAL | OP_SET_GLOBAL | OP_DEFINE_GLOBAL
| OP_EQUAL | OP_GREATER | OP_LESS
| OP_ADD | OP_SUBTRACT | OP_MULTIPLY | OP_DIVIDE | OP_MODULO | OP_POWER
| OP_NOT | OP_NEGATE
| OP_INFO | OP_JUMP | OP_JUMP_IF_FALSE | OP_LOOP
| OP_CALL | OP_RETURN | OP_BREAK | OP_IMPORT.

Scheme Equality for OpCode.

(** One byte of a chunk.  The numbering of the [OpCode] enumeration is
    declared outside this file, so an instruction byte keeps its name and
    an operand byte keeps its value in [0, 255]. *)
Inductive Byte : Set :=
| Op (o : OpCode)
| Raw (b : Z).

Definition is_op (o : OpCode) (b : Byte) : bool :=
  match b with
  | Op o' => OpCode_beq o' o
  | Raw _ => false
  end.

(** Runtime values that the compiler places in a constant pool: numbers
    (kept as the text handed to [strtod]), strings, and compiled functions
    (arity, name, and the three arrays of their chunk). *)
Inductive Value : Set :=
| NUMBER_VAL (text : string)
| STRING_OBJ (chars : string)
| FUNCTION_OBJ (fn_arity : Z) (fn_name : option string)
               (fn_code : list Byte) (fn_lines : list Z)
               (fn_constants : list Value).

Record Chunk : Set := mkChunk {
  code : list Byte;
  lines : list Z;
  constants : list Value
}.

Definition count (ch : Chunk) : Z := Z.of_nat (List.length (code ch)).

Record ObjFunction : Set := mkFunction {
  arity : Z;
  chunk : Chunk;
  name : option string
}.

Definition OBJ_VAL (f : ObjFunction) : Value :=
  FUNCTION_OBJ (arity f) (name f)
               (code (chunk f)) (lines (chunk f)) (constants (chunk f)).

(** Modelled from the spec: [new_function] (object.h is not part of the
    sources): arity 0, no name, an empty chunk. *)
Definition new_function : ObjFunction :=
  {| arity := 0; chunk := mkChunk [] [] []; name := None |}.

(** Modelled from the spec: [write_chunk] appends one byte and its source
    line (chunk.h is not part of the sources). *)
Definition write_chunk (ch : Chunk) (b : Byte) (ln : Z) : Chunk :=
  {| code := code ch ++ [b];
     lines := lines ch ++ [ln];
     constants := constants ch |}.

(** Modelled from the spec: [add_constant] appends to the constant pool and
    returns the index of the new entry. *)
Definition add_constant (ch : Chunk) (v : Value) : Chunk * Z :=
  ({| code := code ch; lines := lines ch; constants := constants ch ++ [v] |},
   Z.of_nat (List.length (constants ch))).

(* ================================================================= *)
(** ** Compiler and parser state *)

Record Local : Set := mkLocal {
  l_name : Token;
  depth : Z
}.

Inductive FunctionType : Set := TYPE_FUNCTION | TYPE_SCRIPT.

(** [locals] holds the first [local_count] entries of the fixed array. *)
Record Compiler : Set := mkCompiler {
  function : ObjFunction;
  type : FunctionType;
  locals : list Local;
  scope_depth : Z
}.

Definition local_count (c : Compiler) : Z := Z.of_nat (List.length (locals c)).

(** Modelled from the spec: the [Parser] object of helper/parser_helper.h
    (not part of the sources).  [rest] is what the tokenizer has still to
    deliver after [current]; [errors] is the list of reported messages. *)
Record Parser : Set := mkParser {
  rest : list Token;
  previous : Token;
  current_tok : Token;
  had_error : bool;
  panic_mode : bool;
  errors : list string
}.

Record State : Set := mkState {
  parser : Parser;
  compilers : list Compiler;           (* head = [current] *)
  inner_most_loop_start : Z;
  inner_most_loop_scope_depth : Z
}.

Definition UINT8_MAX : Z := 255.
Definition UINT8_COUNT : Z := 256.
Definition UINT16_MAX : Z := 65535.

Definition null_compiler : Compiler :=
  {| function := new_function; type := TYPE_SCRIPT; locals := []; scope_depth := 0 |}.

(** [current]: the head of the compiler chain. *)
Definition current (s : State) : Compiler := hd null_compiler (compilers s).

Definition set_parser (p : Parser) (s : State) : State :=
  {| parser := p; compilers := compilers s;
     inner_most_loop_start := inner_most_loop_start s;
     inner_most_loop_scope_depth := inner_most_loop_scope_depth s |}.

Definition set_compilers (cs : list Compiler) (s : State) : State :=
  {| parser := parser s; compilers := cs;
     inner_most_loop_start := inner_most_loop_start s;
     inner_most_loop_scope_depth := inner_most_loop_scope_depth s |}.

(** Update through the [current] pointer. *)
Definition with_current (f : Compiler -> Compiler) (s : State) : State :=
  match compilers s with
  | c :: cs => set_compilers (f c :: cs) s
  | [] => s
  end.

Definition set_loop (start scope : Z) (s : State) : State :=
  {| parser := parser s; compilers := compilers s;
     inner_most_loop_start := start;
     inner_most_loop_scope_depth := scope |}.

Definition set_function (f : ObjFunction) (c : Compiler) : Compiler :=
  {| function := f; type := type c; locals := locals c; scope_depth := scope_depth c |}.

Definition set_locals (ls : list Local) (c : Compiler) : Compiler :=
  {| function := function c; type := type c; locals := ls; scope_depth := scope_depth c |}.

Definition set_scope_depth (d : Z) (c : Compiler) : Compiler :=
  {| function := function c; type := type c; locals := locals c; scope_depth := d |}.

Definition set_chunk_of (ch : Chunk) (c : Compiler) : Compiler :=
  set_function {| arity := arity (function c); chunk := ch; name := name (function c) |} c.

(** [compiling_chunk()]: the chunk of the function being compiled. *)
Definition compiling_chunk (s : State) : Chunk := chunk (function (current s)).

Definition set_chunk (ch : Chunk) (s : State) : State :=
  with_current (set_chunk_of ch) s.

(* ================================================================= *)
(** ** The parser's token interface *)

Definition eof_after (t : Token) : Token :=
  {| kind := EOF_TOKEN; lexeme := ""; line := line t |}.

(** Modelled from the spec: [parser.advance()] moves [current] to
    [previous] and takes the next token; past the end of the input the
    tokenizer keeps answering with the end-of-file token. *)
Definition advance (s : State) : State :=
  let p := parser s in
  match rest p with
  | t :: ts =>
      set_parser {| rest := ts; previous := current_tok p; current_tok := t;
                    had_error := had_error p; panic_mode := panic_mode p;
                    errors := errors p |} s
  | [] =>
      set_parser {| rest := []; previous := current_tok p;
                    current_tok := eof_after (current_tok p);
                    had_error := had_error p; panic_mode := panic_mode p;
                    errors := errors p |} s
  end.

(** Modelled from the spec: [parser.error] and [parser.error_at_current]
    record a compile error; while the parser is in panic mode further
    errors are suppressed. *)
Definition error (msg : string) (s : State) : State :=
  let p := parser s in
  if panic_mode p then s
  else set_parser {| rest := rest p; previous := previous p;
                     current_tok := current_tok p;
                     had_error := true; panic_mode := true;
                     errors := errors p ++ [msg] |} s.

Definition error_at_current (msg : string) (s : State) : State := error msg s.

(** Modelled from the spec: [parser.check], [parser.match] and
    [parser.consume]. *)
Definition check (k : TokenKind) (s : State) : bool :=
  kind_is k (current_tok (parser s)).

Definition match_ (k : TokenKind) (s : State) : bool * State :=
  if check k s then (true, advance s) else (false, s).

Definition consume (k : TokenKind) (msg : string) (s : State) : State :=
  if check k s then advance s else error_at_current msg s.

Definition set_panic_mode (b : bool) (s : State) : State :=
  let p := parser s in
  set_parser {| rest := rest p; previous := previous p;
                current_tok := current_tok p;
                had_error := had_error p; panic_mode := b;
                errors := errors p |} s.

Definition set_had_error (b : bool) (s : State) : State :=
  let p := parser s in
  set_parser {| rest := rest p; previous := previous p;
                current_tok := current_tok p;
                had_error := b; panic_mode := panic_mode p;
                errors := errors p |} s.

(* ================================================================= *)
(** ** Code emission and jump patching *)

Definition emit_byte (b : Byte) (s : State) : State :=
  set_chunk (write_chunk (compiling_chunk s) b (line (previous (parser s)))) s.

Definition emit_bytes (b1 b2 : Byte) (s : State) : State :=
  emit_byte b2 (emit_byte b1 s).

Definition emit_loop (loop_start : Z) (s : State) : State :=
  let s := emit_byte (Op OP_LOOP) s in
  let offset := count (compiling_chunk s) - loop_start + 2 in
  let s := if offset >? UINT16_MAX then error "Loop body too large." s else s in
  let s := emit_byte (Raw (Z.land (Z.shiftr offset 8) 255)) s in
  emit_byte (Raw (Z.land offset 255)) s.

Definition emit_jump (instruction : Byte) (s : State) : Z * State :=
  let s := emit_byte instruction s in
  let s := emit_byte (Raw 255) s in
  let s := emit_byte (Raw 255) s in
  (count (compiling_chunk s) - 2, s).

Definition make_constant (value : Value) (s : State) : Z * State :=
  let (ch, constant) := add_constant (compiling_chunk s) value in
  let s := set_chunk ch s in
  if constant >? UINT8_MAX
  then (0, error "Too many constants in one chunk." s)
  else (constant, s).

Definition emit_return (s : State) : State :=
  emit_byte (Op OP_RETURN) (emit_byte (Op OP_NIL) s).

Definition emit_constant (v : Value) (s : State) : State :=
  let (c, s) := make_constant v s in
  emit_bytes (Op OP_CONSTANT) (Raw c) s.

(** [code[i] = b]; a store outside the array is undefined in the source
    and leaves the list as it is here. *)
Fixpoint store (i : nat) (b : Byte) (l : list Byte) : list Byte :=
  match l, i with
  | [], _ => []
  | _ :: t, O => b :: t
  | h :: t, S j => h :: store j b t
  end.

Definition store_code (offset : Z) (b : Byte) (ch : Chunk) : Chunk :=
  if offset <? 0 then ch
  else {| code := store (Z.to_nat offset) b (code ch);
          lines := lines ch; constants := constants ch |}.

Definition patch_jump (offset : Z) (s : State) : State :=
  (* -2 to adjust for the bytecode for the jump offset itself. *)
  let jump := count (compiling_chunk s) - offset - 2 in
  let s := if jump >? UINT16_MAX then error "Too much code to jump over." s else s in
  let s := set_chunk (store_code offset (Raw (Z.land (Z.shiftr jump 8) 255))
                                 (compiling_chunk s)) s in
  set_chunk (store_code (offset + 1) (Raw (Z.land jump 255)) (compiling_chunk s)) s.

(* ================================================================= *)
(** ** Compilers, scopes and locals *)

Definition empty_name : Token := {| kind := IDENTIFIER; lexeme := ""; line := 0 |}.

Definition init_compiler (ty : FunctionType) (s : State) : State :=
  let f := new_function in
  let f := match ty with
           | TYPE_SCRIPT => f
           | TYPE_FUNCTION =>
               {| arity := arity f; chunk := chunk f;
                  name := Some (lexeme (previous (parser s))) |}
           end in
  let compiler :=
    {| function := f; type := ty;
       locals := [ {| l_name := empty_name; depth := 0 |} ];
       scope_depth := 0 |} in
  set_compilers (compiler :: compilers s) s.

Definition end_compiler (s : State) : ObjFunction * State :=
  let s := emit_return s in
  let f := function (current s) in
  (f, set_compilers (tl (compilers s)) s).

Definition begin_scope (s : State) : State :=
  with_current (fun c => set_scope_depth (scope_depth c + 1) c) s.

(** The loop of [end_scope]; [n] bounds its iterations (each one removes
    a local). *)
Fixpoint end_scope_loop (n : nat) (s : State) : State :=
  match n with
  | O => s
  | S n' =>
      let c := current s in
      match nth_error (locals c) (List.length (locals c) - 1) with
      | Some l =>
          if (local_count c >? 0) && (depth l >? scope_depth c)
          then
            let s := emit_byte (Op OP_POP) s in
            let s := with_current
                       (fun c => set_locals
                                   (firstn (List.length (locals c) - 1) (locals c)) c) s in
            end_scope_loop n' s
          else s
      | None => s
      end
  end.

Definition end_scope (s : State) : State :=
  let s := with_current (fun c => set_scope_depth (scope_depth c - 1) c) s in
  end_scope_loop (List.length (locals (current s))) s.

Definition copy_string (chars : string) : Value := STRING_OBJ chars.

Definition identifier_constant (name : Token) (s : State) : Z * State :=
  make_constant (copy_string (lexeme name)) s.

(** Equal lengths and equal bytes. *)
Definition identifiers_equal (a b : Token) : bool :=
  Nat.eqb (String.length (lexeme a)) (String.length (lexeme b))
  && String.eqb (lexeme a) (lexeme b).

(** The loop of [resolve_local], entered with [i = local_count]: it looks
    at the slots [i - 1], ..., [0]. *)
Fixpoint resolve_local_from (i : nat) (ls : list Local) (name : Token)
         (s : State) : Z * State :=
  match i with
  | O => (-1, s)
  | S j =>
      match nth_error ls j with
      | Some local =>
          if identifiers_equal name (l_name local) then (Z.of_nat j, s)
          else
            let s := if depth local =? -1
                     then error "Cannot read local variable in its own initializer." s
                     else s in
            resolve_local_from j ls name s
      | None => (-1, s)
      end
  end.

Definition resolve_local (compiler : Compiler) (name : Token) (s : State)
  : Z * State :=
  resolve_local_from (List.length (locals compiler)) (locals compiler) name s.

Definition add_local (name : Token) (s : State) : State :=
  if local_count (current s) =? UINT8_COUNT
  then error "Too many local variables in function." s
  else with_current
         (fun c => set_locals (locals c ++ [ {| l_name := name; depth := -1 |} ]) c) s.

(** The loop of [declare_variable], entered with [i = local_count]. *)
Fixpoint declare_scan (i : nat) (ls : list Local) (scope : Z) (name : Token)
         (s : State) : State :=
  match i with
  | O => s
  | S j =>
      match nth_error ls j with
      | Some local =>
          if negb (depth local =? -1) && (depth local <? scope) then s
          else
            let s := if identifiers_equal name (l_name local)
                     then error "Already a variable with this name in this scope." s
                     else s in
            declare_scan j ls scope name s
      | None => s
      end
  end.

Definition declare_variable (s : State) : State :=
  (* Global variables are implicitly declared *)
  if scope_depth (current s) =? 0 then s
  else
    let name := previous (parser s) in
    let s := declare_scan (List.length (locals (current s))) (locals (current s))
                          (scope_depth (current s)) name s in
    add_local name s.

Definition parser_variable (error_msg : string) (s : State) : Z * State :=
  let s := consume IDENTIFIER error_msg s in
  let s := declare_variable s in
  if scope_depth (current s) >? 0 then (0, s)
  else identifier_constant (previous (parser s)) s.

(** [locals[local_count - 1].depth = d]. *)
Definition set_last_depth (d : Z) (ls : list Local) : list Local :=
  match nth_error ls (List.length ls - 1) with
  | Some l => firstn (List.length ls - 1) ls ++ [ {| l_name := l_name l; depth := d |} ]
  | None => ls
  end.

Definition mark_initialized (s : State) : State :=
  if scope_depth (current s) =? 0 then s
  else with_current
         (fun c => set_locals (set_last_depth (scope_depth c) (locals c)) c) s.

Definition define_variable (global : Z) (s : State) : State :=
  if scope_depth (current s) >? 0 then mark_initialized s
  else emit_bytes (Op OP_DEFINE_GLOBAL) (Raw global) s.

(* ================================================================= *)
(** ** The Pratt parser *)

Definition PREC_NONE : Z := 0.
Definition PREC_ASSIGNMENT : Z := 1.
Definition PREC_OR : Z := 2.
Definition PREC_AND : Z := 3.
Definition PREC_EQUALITY : Z := 4.
Definition PREC_COMPARISON : Z := 5.
Definition PREC_TERM : Z := 6.
Definition PREC_FACTOR : Z := 7.
Definition PREC_POWER : Z := 8.
Definition PREC_UNARY : Z := 9.
Definition PREC_CALL : Z := 10.
Definition PREC_PRIMARY : Z := 11.

(** The parse functions a rule can point at. *)
Inductive ParseFn : Set :=
| fn_grouping | fn_call | fn_unary | fn_binary | fn_variable | fn_string
| fn_number | fn_and | fn_or | fn_literal.

Record ParseRule : Set := mkRule {
  prefix : option ParseFn;
  infix : option ParseFn;
  precedence : Z
}.

(** Modelled from the spec: the table [rules] of helper/parser_helper.h
    (not part of the sources): for every token kind an optional prefix
    action, an optional infix action and a binding precedence, with the
    parse functions of parser.cpp placed at the tokens they compile. *)
Definition get_rule (k : TokenKind) : ParseRule :=
  match k with
  | LEFT_PAREN => mkRule (Some fn_grouping) (Some fn_call) PREC_CALL
  | MINUS => mkRule (Some fn_unary) (Some fn_binary) PREC_TERM
  | PLUS => mkRule None (Some fn_binary) PREC_TERM
  | SLASH | STAR | MODULO => mkRule None (Some fn_binary) PREC_FACTOR
  | POWER => mkRule None (Some fn_binary) PREC_POWER
  | BANG => mkRule (Some fn_unary) None PREC_NONE
  | BANG_EQUAL | EQUAL_EQUAL => mkRule None (Some fn_binary) PREC_EQUALITY
  | GREATER | GREATER_EQUAL | LESS | LESS_EQUAL =>
      mkRule None (Some fn_binary) PREC_COMPARISON
  | IDENTIFIER => mkRule (Some fn_variable) None PREC_NONE
  | STRING => mkRule (Some fn_string) None PREC_NONE
  | NUMBER => mkRule (Some fn_number) None PREC_NONE
  | AND => mkRule None (Some fn_and) PREC_AND
  | OR => mkRule None (Some fn_or) PREC_OR
  | FALSE | TRUE | NIL => mkRule (Some fn_literal) None PREC_NONE
  | _ => mkRule None None PREC_NONE
  end.

(** The functions that call each other recursively, and the type of the
    recursive calls handed to every function body. *)
Inductive Call : Set :=
| ParsePrecedence (prec : Z)
| Statement
| Declaration.

Definition Rec : Set := Call -> State -> option State.

Notation "x <- e ;; k" :=
  (match e with Some x => k | None => None end)
  (at level 61, e at next level, right associativity).

Section Bodies.

(** [n] bounds the iterations of the loops of one function body, [rec]
    performs the recursive calls. *)
Variable n : nat.
Variable rec : Rec.

Definition parse_precedence_call (prec : Z) (s : State) : option State :=
  rec (ParsePrecedence prec) s.

Definition expression (s : State) : option State :=
  parse_precedence_call PREC_ASSIGNMENT s.

Definition statement_call (s : State) : option State := rec Statement s.
Definition declaration_call (s : State) : option State := rec Declaration s.

(** The do-while loop of [argument_list]. *)
Fixpoint argument_loop (k : nat) (arg_count : Z) (s : State)
  : option (Z * State) :=
  match k with
  | O => None
  | S k' =>
      s <- expression s ;;
      let s := if arg_count =? 255
               then error "Can't have more than 255 arguments" s else s in
      let arg_count := (arg_count + 1) mod 256 in
      let (m, s) := match_ COMMA s in
      if m then argument_loop k' arg_count s else Some (arg_count, s)
  end.

Definition argument_list (s : State) : option (Z * State) :=
  r <- (if negb (check RIGHT_PAREN s) then argument_loop n 0 s
        else Some (0, s)) ;;
  let (arg_count, s) := r in
  Some (arg_count, consume RIGHT_PAREN "Expected a ')' after arguments" s).

Definition and_ (can_assign : bool) (s : State) : option State :=
  let (end_jump, s) := emit_jump (Op OP_JUMP_IF_FALSE) s in
  let s := emit_byte (Op OP_POP) s in
  s <- parse_precedence_call PREC_AND s ;;
  Some (patch_jump end_jump s).

Definition binary (can_assign : bool) (s : State) : option State :=
  (* Remember the operator *)
  let operator_type := kind (previous (parser s)) in
  (* Compile the right operand *)
  let rule := get_rule operator_type in
  s <- parse_precedence_call (precedence rule + 1) s ;;
  (* Emit the operator instruction *)
  Some match operator_type with
       | PLUS => emit_byte (Op OP_ADD) s
       | MINUS => emit_byte (Op OP_SUBTRACT) s
       | STAR => emit_byte (Op OP_MULTIPLY) s
       | SLASH => emit_byte (Op OP_DIVIDE) s
       | MODULO => emit_byte (Op OP_MODULO) s
       | POWER => emit_byte (Op OP_POWER) s
       (* Comparison operators *)
       | BANG_EQUAL => emit_bytes (Op OP_EQUAL) (Op OP_NOT) s
       | EQUAL_EQUAL => emit_byte (Op OP_EQUAL) s
       | GREATER => emit_byte (Op OP_GREATER) s
       | GREATER_EQUAL => emit_bytes (Op OP_LESS) (Op OP_NOT) s
       | LESS => emit_byte (Op OP_LESS) s
       | LESS_EQUAL => emit_bytes (Op OP_GREATER) (Op OP_NOT) s
       | _ => s
       end.

Definition literal (can_assign : bool) (s : State) : option State :=
  Some match kind (previous (parser s)) with
       | FALSE => emit_byte (Op OP_FALSE) s
       | TRUE => emit_byte (Op OP_TRUE) s
       | NIL => emit_byte (Op OP_NIL) s
       | _ => s
       end.

Definition grouping (can_assign : bool) (s : State) : option State :=
  s <- expression s ;;
  Some (consume RIGHT_PAREN "Expect ')' after expression." s).

Definition named_variable (name : Token) (can_assign : bool) (s : State)
  : option State :=
  let (arg, s) := resolve_local (current s) name s in
  let '(get_op, set_op, arg, s) :=
    if negb (arg =? -1) then (OP_GET_LOCAL, OP_SET_LOCAL, arg, s)
    else let (arg, s) := identifier_constant name s in
         (OP_GET_GLOBAL, OP_SET_GLOBAL, arg, s) in
  (* [parser.match(EQUAL) && can_assign]: the match is evaluated first *)
  let (m, s) := match_ EQUAL s in
  if m && can_assign then
    s <- expression s ;;
    Some (emit_bytes (Op set_op) (Raw (arg mod 256)) s)
  else
    Some (emit_bytes (Op get_op) (Raw (arg mod 256)) s).

Definition _number (can_assign : bool) (s : State) : option State :=
  Some (emit_constant (NUMBER_VAL (lexeme (previous (parser s)))) s).

Definition or_ (can_assign : bool) (s : State) : option State :=
  let (else_jump, s) := emit_jump (Op OP_JUMP_IF_FALSE) s in
  let (end_jump, s) := emit_jump (Op OP_JUMP) s in
  let s := patch_jump else_jump s in
  let s := emit_byte (Op OP_POP) s in
  s <- parse_precedence_call PREC_OR s ;;
  Some (patch_jump end_jump s).

(** The lexeme of a string token without its first and last byte. *)
Definition strip_quotes (lx : string) : string :=
  String.substring 1 (String.length lx - 2) lx.

Definition _string (can_assign : bool) (s : State) : option State :=
  Some (emit_constant (copy_string (strip_quotes (lexeme (previous (parser s))))) s).

Definition _variable (can_assign : bool) (s : State) : option State :=
  named_variable (previous (parser s)) can_assign s.

Definition unary (can_assign : bool) (s : State) : option State :=
  let operator_type := kind (previous (parser s)) in
  (* Compile the operand *)
  s <- parse_precedence_call PREC_UNARY s ;;
  (* Emit the operator instruction *)
  Some match operator_type with
       | BANG => emit_byte (Op OP_NOT) s
       | MINUS => emit_byte (Op OP_NEGATE) s
       | _ => s
       end.

Definition call (can_assign : bool) (s : State) : option State :=
  r <- argument_list s ;;
  let (arg_count, s) := r in
  Some (emit_bytes (Op OP_CALL) (Raw arg_count) s).

(** A call through a [parse_fn] pointer of the table. *)
Definition apply_rule (f : ParseFn) (can_assign : bool) (s : State)
  : option State :=
  match f with
  | fn_grouping => grouping can_assign s
  | fn_call => call can_assign s
  | fn_unary => unary can_assign s
  | fn_binary => binary can_assign s
  | fn_variable => _variable can_assign s
  | fn_string => _string can_assign s
  | fn_number => _number can_assign s
  | fn_and => and_ can_assign s
  | fn_or => or_ can_assign s
  | fn_literal => literal can_assign s
  end.

(** The while loop of [parse_precedence]; a null [infix] pointer cannot
    be called. *)
Fixpoint infix_loop (k : nat) (prec : Z) (can_assign : bool) (s : State)
  : option State :=
  if prec <=? precedence (get_rule (kind (current_tok (parser s)))) then
    match k with
    | O => None
    | S k' =>
        let s := advance s in
        match infix (get_rule (kind (previous (parser s)))) with
        | Some infix_rule =>
            s <- apply_rule infix_rule can_assign s ;;
            infix_loop k' prec can_assign s
        | None => None
        end
    end
  else Some s.

Definition parse_precedence (prec : Z) (s : State) : option State :=
  let s := advance s in (* Consume the operator *)
  match prefix (get_rule (kind (previous (parser s)))) with
  | None => Some (error "Expect expression." s)
  | Some prefix_rule =>
      let can_assign := prec <=? PREC_ASSIGNMENT in
      s <- apply_rule prefix_rule can_assign s ;;
      s <- infix_loop n prec can_assign s ;;
      if can_assign then
        let (m, s) := match_ EQUAL s in
        Some (if m then error "Invalid assignment target." s else s)
      else Some s
  end.

End Bodies.

(* ================================================================= *)
(** ** Statements and declarations *)

(** Modelled from the spec: the set [return_context] of
    helper/parser_helper.h (not part of the sources), the tokens that begin
    a new declaration or statement and at which [synchronize] stops. *)
Definition return_context (k : TokenKind) : bool :=
  match k with
  | FUNC | HAVE | FOR | IF | WHILE | INFO | RETURN => true
  | _ => false
  end.

(** The loop of [synchronize]; it stops at the end-of-file token, which is
    reached after at most [length rest + 1] calls of [advance]. *)
Fixpoint synchronize_loop (k : nat) (s : State) : State :=
  match k with
  | O => s
  | S k' =>
      if negb (check EOF_TOKEN s) then
        if kind_is SEMICOLON (previous (parser s)) then s
        else if return_context (kind (current_tok (parser s))) then s
        else synchronize_loop k' (advance s)
      else s
  end.

Definition synchronize (s : State) : State :=
  let s := set_panic_mode false s in
  synchronize_loop (List.length (rest (parser s)) + 2) s.

Definition incr_arity (c : Compiler) : Compiler :=
  set_function {| arity := arity (function c) + 1;
                  chunk := chunk (function c);
                  name := name (function c) |} c.

(** The do-while loop over the parameters in [function]. *)
Fixpoint parameters_loop (k : nat) (s : State) : option State :=
  match k with
  | O => None
  | S k' =>
      let s := with_current incr_arity s in
      let s := if arity (function (current s)) >? 255
               then error_at_current "Can't have more than 255 parameters!" s
               else s in
      let (constant, s) := parser_variable "Expected paramerter name!" s in
      let s := define_variable constant s in
      let (m, s) := match_ COMMA s in
      if m then parameters_loop k' s else Some s
  end.

(** The loop shared by [continue_statement] and [break_statement], entered
    with [i = local_count]: one pop for each of the slots [i - 1], ... whose
    depth is above the depth recorded for the loop. *)
Fixpoint discard_locals (i : nat) (ls : list Local) (loop_scope : Z)
         (s : State) : State :=
  match i with
  | O => s
  | S j =>
      match nth_error ls j with
      | Some l =>
          if depth l >? loop_scope
          then discard_locals j ls loop_scope (emit_byte (Op OP_POP) s)
          else s
      | None => s
      end
  end.

Definition continue_statement (s : State) : State :=
  if inner_most_loop_start s =? -1
  then error "Cannot use 'continue' outside of a loop." s
  else
    (* Discard any local variables created in the loop *)
    let s := discard_locals (List.length (locals (current s))) (locals (current s))
                            (inner_most_loop_scope_depth s) s in
    let s := emit_loop (inner_most_loop_start s) s in
    consume SEMICOLON "Expect ';' after 'continue'." s.

Definition break_statement (s : State) : State :=
  if inner_most_loop_start s =? -1
  then error "Cannot use 'break' outside of a loop." s
  else
    (* Discard any local variables created in the loop *)
    let s := discard_locals (List.length (locals (current s))) (locals (current s))
                            (inner_most_loop_scope_depth s) s in
    let s := emit_byte (Op OP_BREAK) s in
    consume SEMICOLON "Expect ';' after 'break'." s.

Definition using_statement (s : State) : State :=
  let s := consume STRING "Expect string after 'using'." s in
  let moduleName := copy_string (strip_quotes (lexeme (previous (parser s)))) in
  let s := consume SEMICOLON "Expect ';' after value." s in
  let s := emit_constant moduleName s in
  emit_byte (Op OP_IMPORT) s.

Section Statements.

Variable n : nat.
Variable rec : Rec.

(** The while loop of [block]. *)
Fixpoint block_loop (k : nat) (s : State) : option State :=
  if negb (check RIGHT_BRACE s) && negb (check EOF_TOKEN s) then
    match k with
    | O => None
    | S k' =>
        s <- declaration_call rec s ;;
        block_loop k' s
    end
  else Some s.

Definition block (s : State) : option State :=
  s <- block_loop n s ;;
  Some (consume RIGHT_BRACE "Expect '}' after block." s).

Definition function_ (ty : FunctionType) (s : State) : option State :=
  let s := init_compiler ty s in
  let s := begin_scope s in
  let s := consume LEFT_PAREN "Expected a '(' after a function name!" s in
  s <- (if negb (check RIGHT_PAREN s) then parameters_loop n s else Some s) ;;
  let s := consume RIGHT_PAREN "Expected a ')' after parameters!" s in
  let s := consume LEFT_BRACE "Expected a '{' after a function body!" s in
  s <- block s ;;
  let (f, s) := end_compiler s in
  let (c, s) := make_constant (OBJ_VAL f) s in
  Some (emit_bytes (Op OP_CONSTANT) (Raw c) s).

Definition func_declaration (s : State) : option State :=
  let (global, s) := parser_variable "Expected a function name!" s in
  let s := mark_initialized s in
  s <- function_ TYPE_FUNCTION s ;;
  Some (define_variable global s).

Definition var_declaration (s : State) : option State :=
  let (global, s) := parser_variable "Expect variable name." s in
  let (m, s) := match_ WALRUS s in
  s <- (if m then expression rec s else Some (emit_byte (Op OP_NIL) s)) ;;
  let s := consume SEMICOLON "Expect ';' after variable declaration." s in
  Some (define_variable global s).

Definition expression_statement (s : State) : option State :=
  s <- expression rec s ;;
  let s := consume SEMICOLON "Expect ';' after expression." s in
  Some (emit_byte (Op OP_POP) s).

(** The initializer clause of [for_statement]. *)
Definition for_initializer (s : State) : option State :=
  let (m, s) := match_ SEMICOLON s in
  if m then Some s (* No initializer *)
  else
    let (m, s) := match_ HAVE s in
    if m then var_declaration s else expression_statement s.

(** The condition clause of [for_statement]; the result is [exit_jump]. *)
Definition for_condition (s : State) : option (Z * State) :=
  let (m, s) := match_ SEMICOLON s in
  if negb m then
    s <- expression rec s ;;
    let s := consume SEMICOLON "Expect ';' after loop condition." s in
    (* Jump out of the loop if the condition is false *)
    let (exit_jump, s) := emit_jump (Op OP_JUMP_IF_FALSE) s in
    Some (exit_jump, emit_byte (Op OP_POP) s) (* Condition *)
  else Some (-1, s).

(** The increment clause of [for_statement]. *)
Definition for_increment (s : State) : option State :=
  let (m, s) := match_ RIGHT_PAREN s in
  if negb m then
    let (body_jump, s) := emit_jump (Op OP_JUMP) s in
    let increment_start := count (compiling_chunk s) in
    s <- expression rec s ;;
    let s := emit_byte (Op OP_POP) s in
    let s := consume RIGHT_PAREN "Expect ')' after for clauses." s in
    let s := emit_loop (inner_most_loop_start s) s in
    let s := set_loop increment_start (inner_most_loop_scope_depth s) s in
    Some (patch_jump body_jump s)
  else Some s.

Definition for_statement (s : State) : option State :=
  let s := begin_scope s in
  let s := consume LEFT_PAREN "Expect '(' after 'for'." s in
  s <- for_initializer s ;;
  let surrounding_loop_start := inner_most_loop_start s in
  let surrounding_loop_scope := inner_most_loop_scope_depth s in
  let s := set_loop (count (compiling_chunk s)) (scope_depth (current s)) s in
  r <- for_condition s ;;
  let (exit_jump, s) := r in
  s <- for_increment s ;;
  s <- statement_call rec s ;;
  let s := emit_loop (inner_most_loop_start s) s in
  (* Patch the exit jump *)
  let s := if negb (exit_jump =? -1)
           then emit_byte (Op OP_POP) (patch_jump exit_jump s) (* Condition *)
           else s in
  let s := set_loop surrounding_loop_start surrounding_loop_scope s in
  Some (end_scope s).

Definition if_statement (s : State) : option State :=
  let s := consume LEFT_PAREN "Expect '(' after 'if'." s in
  s <- expression rec s ;;
  let s := consume RIGHT_PAREN "Expect ')' after condition." s in
  let (then_jump, s) := emit_jump (Op OP_JUMP_IF_FALSE) s in
  let s := emit_byte (Op OP_POP) s in
  s <- statement_call rec s ;;
  let (else_jump, s) := emit_jump (Op OP_JUMP) s in
  let s := patch_jump then_jump s in
  let s := emit_byte (Op OP_POP) s in
  let (m, s) := match_ ELSE s in
  s <- (if m then statement_call rec s else Some s) ;;
  Some (patch_jump else_jump s).

Definition info_statement (s : State) : option State :=
  s <- expression rec s ;;
  let s := consume SEMICOLON "Expect ';' after value." s in
  Some (emit_byte (Op OP_INFO) s).

Definition return_statement (s : State) : option State :=
  let s := match type (current s) with
           | TYPE_SCRIPT => error "Can't return from top-level code!" s
           | TYPE_FUNCTION => s
           end in
  let (m, s) := match_ SEMICOLON s in
  if m then Some (emit_return s)
  else
    s <- expression rec s ;;
    let s := consume SEMICOLON "Expected ';' after the return value" s in
    Some (emit_byte (Op OP_RETURN) s).

Definition while_statement (s : State) : option State :=
  let loop_start := count (compiling_chunk s) in
  let s := consume LEFT_PAREN "Expect '(' after 'while'." s in
  s <- expression rec s ;;
  let s := consume RIGHT_PAREN "Expect ')' after condition." s in
  let (exit_jump, s) := emit_jump (Op OP_JUMP_IF_FALSE) s in
  let s := emit_byte (Op OP_POP) s in
  s <- statement_call rec s ;;
  let s := emit_loop loop_start s in
  let s := patch_jump exit_jump s in
  Some (emit_byte (Op OP_POP) s).

Definition statement (s : State) : option State :=
  (* Control statements *)
  let (m, s) := match_ INFO s in
  if m then info_statement s else
  let (m, s) := match_ RETURN s in
  if m then return_statement s else
  (* Conditional statements *)
  let (m, s) := match_ IF s in
  if m then if_statement s else
  (* Loop statements *)
  let (m, s) := match_ CONTINUE s in
  if m then Some (continue_statement s) else
  let (m, s) := match_ BREAK s in
  if m then Some (break_statement s) else
  let (m, s) := match_ WHILE s in
  if m then while_statement s else
  let (m, s) := match_ FOR s in
  if m then for_statement s else
  (* Import statements *)
  let (m, s) := match_ USING s in
  if m then Some (using_statement s) else
  (* Block statements *)
  let (m, s) := match_ LEFT_BRACE s in
  if m then
    s <- block (begin_scope s) ;;
    Some (end_scope s)
  else
  (* Other Statements *)
  expression_statement s.

Definition declaration (s : State) : option State :=
  if panic_mode (parser s) then Some (synchronize s)
  else
    let (m, s) := match_ FUNC s in
    if m then func_declaration s else
    let (m, s) := match_ HAVE s in
    if m then var_declaration s else
    statement_call rec s.

(** One unfolding of the three mutually recursive functions. *)
Definition step (c : Call) (s : State) : option State :=
  match c with
  | ParsePrecedence prec => parse_precedence n rec prec s
  | Statement => statement s
  | Declaration => declaration s
  end.

(** The loop of [compile]. *)
Fixpoint compile_loop (k : nat) (s : State) : option State :=
  let (m, s) := match_ EOF_TOKEN s in
  if m then Some s
  else
    match k with
    | O => None
    | S k' =>
        s <- declaration_call rec s ;;
        compile_loop k' s
    end.

End Statements.

(** The recursion of the compiler, at most [fuel] calls deep. *)
Fixpoint run (fuel : nat) (c : Call) (s : State) : option State :=
  match fuel with
  | O => None
  | S fuel' => step fuel' (run fuel') c s
  end.

(* ================================================================= *)
(** ** The entry point *)

Definition start_token : Token := {| kind := EOF_TOKEN; lexeme := ""; line := 1 |}.

(** Modelled from the spec: [init_tokenizer] and the initial values of the
    process-wide variables ([current] is null, no loop is recorded).  The
    tokenizer is outside this file: the source text is given as the token
    stream it produces, without the final end-of-file token. *)
Definition init_tokenizer (source : list Token) : State :=
  {| parser := {| rest := source; previous := start_token;
                  current_tok := start_token;
                  had_error := false; panic_mode := false; errors := [] |};
     compilers := [];
     inner_most_loop_start := -1;
     inner_most_loop_scope_depth := 0 |}.

(** [compile] up to its [return]: the function of the top-level compiler
    and the final state. *)
Definition compile_run (fuel : nat) (source : list Token)
  : option (ObjFunction * State) :=
  let s := init_tokenizer source in
  let s := init_compiler TYPE_SCRIPT s in
  let s := set_had_error false s in
  let s := set_panic_mode false s in
  let s := advance s in
  s <- compile_loop (run fuel) fuel s ;;
  Some (end_compiler s).

(** [compile]: [None] inside is the null pointer. *)
Definition compile (fuel : nat) (source : list Token)
  : option (option ObjFunction) :=
  r <- compile_run fuel source ;;
  let (f, s) := r in
  Some (if had_error (parser s) then None else Some f).



(* ================================================================= *)
(** * Specification vocabulary *)

(** ** Sample programs, as token streams *)

Definition tk (k : TokenKind) (lx : string) : Token :=
  {| kind := k; lexeme := lx; line := 1 |}.

Definition ident (x : string) : Token := tk IDENTIFIER x.

(** What a run of [compile] reports: the error flag and the messages. *)
Definition report (r : option (ObjFunction * State))
  : option (bool * list string) :=
  match r with
  | Some (_, s) => Some (had_error (parser s), errors (parser s))
  | None => None
  end.

(** The bytes of the top-level function. *)
Definition emitted (r : option (ObjFunction * State)) : option (list Byte) :=
  match r with
  | Some (f, _) => Some (code (chunk f))
  | None => None
  end.

(** [{ have x := x; }] *)
Definition prog_self_init_local : list Token :=
  [tk LEFT_BRACE "{"; tk HAVE "have"; ident "x"; tk WALRUS ":="; ident "x";
   tk SEMICOLON ";"; tk RIGHT_BRACE "}"].

(** [have x := x;] *)
Definition prog_self_init_global : list Token :=
  [tk HAVE "have"; ident "x"; tk WALRUS ":="; ident "x"; tk SEMICOLON ";"].

(** [{ have x := y; }] *)
Definition prog_init_from_global : list Token :=
  [tk LEFT_BRACE "{"; tk HAVE "have"; ident "x"; tk WALRUS ":="; ident "y";
   tk SEMICOLON ";"; tk RIGHT_BRACE "}"].

(** [a + b = c;] *)
Definition prog_assign_to_sum : list Token :=
  [ident "a"; tk PLUS "+"; ident "b"; tk EQUAL "="; ident "c"; tk SEMICOLON ";"].

(** [a + b = ;] *)
Definition prog_dangling_equal : list Token :=
  [ident "a"; tk PLUS "+"; ident "b"; tk EQUAL "="; tk SEMICOLON ";"].

(** [1 = 2;] *)
Definition prog_assign_to_number : list Token :=
  [tk NUMBER "1"; tk EQUAL "="; tk NUMBER "2"; tk SEMICOLON ";"].

(** [func f() { return 1; }] *)
Definition prog_explicit_return : list Token :=
  [tk FUNC "func"; ident "f"; tk LEFT_PAREN "("; tk RIGHT_PAREN ")";
   tk LEFT_BRACE "{"; tk RETURN "return"; tk NUMBER "1"; tk SEMICOLON ";";
   tk RIGHT_BRACE "}"].

(** [func fib(n) { if (n < 2) { return n; } return fib(n-1) + fib(n-2); }] *)
Definition prog_fib : list Token :=
  [tk FUNC "func"; ident "fib"; tk LEFT_PAREN "("; ident "n"; tk RIGHT_PAREN ")";
   tk LEFT_BRACE "{";
   tk IF "if"; tk LEFT_PAREN "("; ident "n"; tk LESS "<"; tk NUMBER "2";
   tk RIGHT_PAREN ")"; tk LEFT_BRACE "{"; tk RETURN "return"; ident "n";
   tk SEMICOLON ";"; tk RIGHT_BRACE "}";
   tk RETURN "return"; ident "fib"; tk LEFT_PAREN "("; ident "n"; tk MINUS "-";
   tk NUMBER "1"; tk RIGHT_PAREN ")"; tk PLUS "+"; ident "fib"; tk LEFT_PAREN "(";
   ident "n"; tk MINUS "-"; tk NUMBER "2"; tk RIGHT_PAREN ")"; tk SEMICOLON ";";
   tk RIGHT_BRACE "}"].

(** [for (;; i = i + 1) { have a; continue; }] *)
Definition prog_for_continue : list Token :=
  [tk FOR "for"; tk LEFT_PAREN "("; tk SEMICOLON ";"; tk SEMICOLON ";";
   ident "i"; tk EQUAL "="; ident "i"; tk PLUS "+"; tk NUMBER "1";
   tk RIGHT_PAREN ")"; tk LEFT_BRACE "{"; tk HAVE "have"; ident "a";
   tk SEMICOLON ";"; tk CONTINUE "continue"; tk SEMICOLON ";"; tk RIGHT_BRACE "}"].

(** [{ have a; { have b; have c; } have d; }] *)
Definition prog_nested_blocks : list Token :=
  [tk LEFT_BRACE "{"; tk HAVE "have"; ident "a"; tk SEMICOLON ";";
   tk LEFT_BRACE "{"; tk HAVE "have"; ident "b"; tk SEMICOLON ";";
   tk HAVE "have"; ident "c"; tk SEMICOLON ";"; tk RIGHT_BRACE "}";
   tk HAVE "have"; ident "d"; tk SEMICOLON ";"; tk RIGHT_BRACE "}"].

(** ** Measures and invariants *)

(** The tokens still to be consumed: those the tokenizer has not yet
    delivered, and [current] unless it is the end-of-file token. *)
Definition remaining (s : State) : nat :=
  (List.length (rest (parser s)) + (if check EOF_TOKEN s then 0 else 1))%nat.

(** Panic mode is entered only by recording an error, and the error flag
    is set exactly when a message has been reported. *)
Definition good (s : State) : Prop :=
  (panic_mode (parser s) = true -> had_error (parser s) = true) /\
  (had_error (parser s) = false <-> errors (parser s) = []).

Fixpoint nondecreasing (l : list Z) : Prop :=
  match l with
  | [] => True
  | x :: t => Forall (Z.le x) t /\ nondecreasing t
  end.

(** Slot 0 is the reserved one: empty name, depth 0. *)
Definition slot0_reserved (c : Compiler) : Prop :=
  match locals c with
  | l :: _ => lexeme (l_name l) = "" /\ depth l = 0
  | [] => False
  end.

(** The invariant of one [Compiler] between two statements: slot 0 is
    reserved, the table does not exceed its capacity, every local is
    initialized with a depth between 0 and the current scope depth, and
    depths do not decrease from the first slot to the last. *)
Record WFC (c : Compiler) : Prop := mkWFC {
  wf_slot0 : slot0_reserved c;
  wf_capacity : (List.length (locals c) <= 256)%nat;
  wf_depths : Forall (fun l => 0 <= depth l <= scope_depth c) (locals c);
  wf_sorted : nondecreasing (map depth (locals c))
}.

Definition WF (s : State) : Prop :=
  compilers s <> [] /\ Forall WFC (compilers s).

(** What an expression leaves untouched: the compiler chain but for the
    chunk of [current], the loop bookkeeping; errors are never forgotten. *)
Record frame (s s' : State) : Prop := mkFrame {
  fr_tl : tl (compilers s') = tl (compilers s);
  fr_len : List.length (compilers s') = List.length (compilers s);
  fr_locals : locals (current s') = locals (current s);
  fr_scope : scope_depth (current s') = scope_depth (current s);
  fr_type : type (current s') = type (current s);
  fr_start : inner_most_loop_start s' = inner_most_loop_start s;
  fr_depth : inner_most_loop_scope_depth s' = inner_most_loop_scope_depth s;
  fr_err : had_error (parser s) = true -> had_error (parser s') = true;
  fr_good : good s -> good s'
}.

(** [s'] has the locals of [s] and then locals of the current scope. *)
Definition grows (s s' : State) : Prop :=
  exists new,
    locals (current s') = locals (current s) ++ new /\
    Forall (fun l => depth l = scope_depth (current s)) new.

(** What a statement ([g = false]) or a declaration ([g = true]) that
    starts in a well-formed state [s] guarantees about the state [s'] it
    ends in: the invariant, the same enclosing compilers, scope depth and
    loop bookkeeping; without a compile error a statement leaves the locals
    as they were and a declaration only adds locals of the current scope. *)
Record sfacts (g : bool) (s s' : State) : Prop := mkSfacts {
  sf_wf : WF s';
  sf_tl : tl (compilers s') = tl (compilers s);
  sf_scope : scope_depth (current s') = scope_depth (current s);
  sf_type : type (current s') = type (current s);
  sf_start : inner_most_loop_start s' = inner_most_loop_start s;
  sf_depth : inner_most_loop_scope_depth s' = inner_most_loop_scope_depth s;
  sf_err : had_error (parser s) = true -> had_error (parser s') = true;
  sf_good : good s -> good s';
  sf_locals : good s -> had_error (parser s') = false ->
              if g then grows s s' else locals (current s') = locals (current s)
}.

Definition sframe (g : bool) (s s' : State) : Prop := WF s -> sfacts g s s'.

Definition Post (c : Call) (s s' : State) : Prop :=
  match c with
  | ParsePrecedence _ => frame s s'
  | Statement => sframe false s s'
  | Declaration => sframe true s s'
  end.

(** [rec] meets the postcondition of every call. *)
Definition sound (rec : Rec) : Prop :=
  forall c s s', rec c s = Some s' -> Post c s s'.

(** Between [begin_scope] in the well-formed state [s0] and the matching
    [end_scope]: one scope deeper, and without a compile error the locals
    of [s0] followed by locals of the new scope. *)
Record inner (s0 x : State) : Prop := mkInner {
  in_wf : WF x;
  in_tl : tl (compilers x) = tl (compilers s0);
  in_scope : scope_depth (current x) = scope_depth (current s0) + 1;
  in_type : type (current x) = type (current s0);
  in_err : had_error (parser s0) = true -> had_error (parser x) = true;
  in_good : good s0 -> good x;
  in_locals : good s0 -> had_error (parser x) = false ->
              exists new,
                locals (current x) = locals (current s0) ++ new /\
                Forall (fun l => depth l = scope_depth (current s0) + 1) new
}.

(** After [parser_variable] in the well-formed state [s0]: either no local
    was added (global scope, or a full table and an error), or one
    uninitialized local was. *)
Record pending (s0 x : State) : Prop := mkPending {
  pe_tl : tl (compilers x) = tl (compilers s0);
  pe_len : List.length (compilers x) = List.length (compilers s0);
  pe_scope : scope_depth (current x) = scope_depth (current s0);
  pe_type : type (current x) = type (current s0);
  pe_start : inner_most_loop_start x = inner_most_loop_start s0;
  pe_depth : inner_most_loop_scope_depth x = inner_most_loop_scope_depth s0;
  pe_err : had_error (parser s0) = true -> had_error (parser x) = true;
  pe_good : good s0 -> good x;
  pe_locals :
    (locals (current x) = locals (current s0) /\
     (0 < scope_depth (current s0) ->
      List.length (locals (current s0)) = 256%nat /\
      (good s0 -> had_error (parser x) = true)))
    \/
    (0 < scope_depth (current s0) /\
     (List.length (locals (current s0)) < 256)%nat /\
     exists nm, locals (current x) =
                locals (current s0) ++ [ {| l_name := nm; depth := -1 |} ])
}.

(** [y] is [x] after [k] pops: [k] more [OP_POP] bytes, the locals
    truncated to [a], nothing else changed. *)
Record popped (k : nat) (a : list Local) (x y : State) : Prop := mkPopped {
  po_nonempty : compilers y <> [];
  po_parser : parser y = parser x;
  po_tl : tl (compilers y) = tl (compilers x);
  po_start : inner_most_loop_start y = inner_most_loop_start x;
  po_depth : inner_most_loop_scope_depth y = inner_most_loop_scope_depth x;
  po_scope : scope_depth (current y) = scope_depth (current x);
  po_type : type (current y) = type (current x);
  po_locals : locals (current y) = a;
  po_code : code (compiling_chunk y) =
            code (compiling_chunk x) ++ repeat (Op OP_POP) k;
  po_constants : constants (compiling_chunk y) = constants (compiling_chunk x)
}.

(** [y] is [x] after leaving a scope: [k] more [OP_POP] bytes, the locals
    truncated to [a], the scope depth one less, nothing else changed. *)
Record exited (k : nat) (a : list Local) (x y : State) : Prop := mkExited {
  ex_nonempty : compilers y <> [];
  ex_parser : parser y = parser x;
  ex_tl : tl (compilers y) = tl (compilers x);
  ex_start : inner_most_loop_start y = inner_most_loop_start x;
  ex_depth : inner_most_loop_scope_depth y = inner_most_loop_scope_depth x;
  ex_scope : scope_depth (current y) = scope_depth (current x) - 1;
  ex_type : type (current y) = type (current x);
  ex_locals : locals (current y) = a;
  ex_code : code (compiling_chunk y) =
            code (compiling_chunk x) ++ repeat (Op OP_POP) k;
  ex_constants : constants (compiling_chunk y) = constants (compiling_chunk x)
}.

(** The last local is initialized with the current scope depth (or the
    scope is the global one). *)
Definition marked (y : State) : Prop :=
  scope_depth (current y) = 0 \/
  exists ls l, locals (current y) = ls ++ [l] /\ depth l = scope_depth (current y).

(** ** Termination vocabulary *)

(** [s'] has the tokens of [s]: nothing was consumed. *)
Record quiet (s s' : State) : Prop := mkQuiet {
  q_rest : rest (parser s') = rest (parser s);
  q_cur : current_tok (parser s') = current_tok (parser s);
  q_prev : previous (parser s') = previous (parser s)
}.

(** No token comes back. *)
Definition tle (s s' : State) : Prop := (remaining s' <= remaining s)%nat.

(** The weight that every iteration of a loop over declarations lowers. *)
Definition weight (s : State) : nat :=
  (2 * remaining s + (if panic_mode (parser s) then 1 else 0))%nat.

Definition rank (c : Call) : nat :=
  match c with
  | ParsePrecedence _ => 1
  | Statement => 2
  | Declaration => 3
  end.

(** [parse_precedence] is never called below [PREC_ASSIGNMENT]. *)
Definition valid (c : Call) : Prop :=
  match c with
  | ParsePrecedence p => PREC_ASSIGNMENT <= p
  | _ => True
  end.

(** What a call that returns has consumed. *)
Definition tpost (c : Call) (s s' : State) : Prop :=
  tle s s' /\
  (check EOF_TOKEN s = false ->
   match c with
   | Declaration =>
       if panic_mode (parser s) then panic_mode (parser s') = false
       else (remaining s' < remaining s)%nat
   | _ => (remaining s' < remaining s)%nat
   end).

(** [rec] returns on every state with at most [m] units of work left. *)
Definition adequate (rec : Rec) (m : nat) : Prop :=
  forall c s, valid c -> (3 * remaining s + rank c <= m)%nat ->
              exists s', rec c s = Some s' /\ tpost c s s'.

(** Fuel that is enough to compile [source]. *)
Definition enough_fuel (source : list Token) : nat :=
  (3 * List.length source + 6)%nat.

(** ** Vocabulary of the claims *)

(** Modelled from the spec: the two-byte big-endian operand of a jump, as
    the virtual machine (not part of the sources) decodes it. *)
Definition read_u16 (cd : list Byte) (offset : Z) : option Z :=
  match nth_error cd (Z.to_nat offset), nth_error cd (Z.to_nat (offset + 1)) with
  | Some (Raw hi), Some (Raw lo) => Some (hi * 256 + lo)
  | _, _ => None
  end.

(** [k] pop instructions. *)
Definition emit_pops (k : nat) (s : State) : State :=
  Nat.iter k (emit_byte (Op OP_POP)) s.

(** The locals above depth [d]. *)
Definition above (d : Z) (ls : list Local) : list Local :=
  filter (fun l => depth l >? d) ls.

(** A local of depth [d] with the name [nm]. *)
Definition declared_in_scope (nm : Token) (d : Z) (ls : list Local) : bool :=
  existsb (fun l => (depth l =? d) && identifiers_equal nm (l_name l)) ls.

(** Slot 0 of every compiler of the chain is the reserved one. *)
Definition reserved (s : State) : Prop :=
  compilers s <> [] /\ Forall slot0_reserved (compilers s).

(** The compiler that [init_compiler] pushes for a function named [nm]. *)
Definition fresh_compiler (nm : string) : Compiler :=
  {| function := {| arity := 0; chunk := mkChunk [] [] []; name := Some nm |};
     type := TYPE_FUNCTION;
     locals := [ {| l_name := empty_name; depth := 0 |} ];
     scope_depth := 0 |}.

(** The state in which [compile] calls [declaration] for the first time. *)
Definition start_state (source : list Token) : State :=
  advance (set_panic_mode false (set_had_error false
    (init_compiler TYPE_SCRIPT (init_tokenizer source)))).

(** A chunk with one jump whose placeholder is followed by [k] bytes. *)
Definition jump_state (k : nat) : State :=
  set_chunk (mkChunk (Op OP_JUMP :: Raw 255 :: Raw 255 :: repeat (Op OP_NIL) k) [] [])
            (start_state []).

(** A state with the locals [ls] at scope depth [d], in front of [source]. *)
Definition scope_state (ls : list Local) (d : Z) (source : list Token) : State :=
  with_current (fun c => set_scope_depth d (set_locals (locals c ++ ls) c))
               (start_state source).

(** ** Concrete states *)

(** The inside of a block: [have a; { have b; have c; } have d; }] *)
Definition prog_block_body : list Token :=
  [tk HAVE "have"; ident "a"; tk SEMICOLON ";";
   tk LEFT_BRACE "{"; tk HAVE "have"; ident "b"; tk SEMICOLON ";";
   tk HAVE "have"; ident "c"; tk SEMICOLON ";"; tk RIGHT_BRACE "}";
   tk HAVE "have"; ident "d"; tk SEMICOLON ";"; tk RIGHT_BRACE "}"].

(** The state in which the block above reaches its closing brace. *)
Definition block_body_end : State :=
  match block 20 (run 20) (begin_scope (start_state prog_block_body)) with
  | Some x => x
  | None => start_state []
  end.

(** Scope depth 1 with a local [a], the parser just past a second [a]. *)
Definition redeclare_state : State :=
  advance (scope_state [ {| l_name := ident "a"; depth := 1 |} ] 1
                       [ident "a"; tk SEMICOLON ";"]).

(** Inside the body of a loop recorded at offset 0 and depth 1, with a
    loop variable [i] and a local [a] of the body, in front of [;]. *)
Definition loop_body_state : State :=
  set_loop 0 1
    (scope_state [ {| l_name := ident "i"; depth := 1 |};
                   {| l_name := ident "a"; depth := 2 |} ] 2
                 [tk SEMICOLON ";"]).

(** [{ have a; have a; }] *)
Definition prog_redeclare : list Token :=
  [tk LEFT_BRACE "{"; tk HAVE "have"; ident "a"; tk SEMICOLON ";";
   tk HAVE "have"; ident "a"; tk SEMICOLON ";"; tk RIGHT_BRACE "}"].

(** [{ have a; { have a; info a; } }] *)
Definition prog_shadow : list Token :=
  [tk LEFT_BRACE "{"; tk HAVE "have"; ident "a"; tk SEMICOLON ";";
   tk LEFT_BRACE "{"; tk HAVE "have"; ident "a"; tk SEMICOLON ";";
   tk INFO "info"; ident "a"; tk SEMICOLON ";"; tk RIGHT_BRACE "}";
   tk RIGHT_BRACE "}"].

(** [while (true) { break; }] *)
Definition prog_while_break : list Token :=
  [tk WHILE "while"; tk LEFT_PAREN "("; tk TRUE "true"; tk RIGHT_PAREN ")";
   tk LEFT_BRACE "{"; tk BREAK "break"; tk SEMICOLON ";"; tk RIGHT_BRACE "}"].

(** [while (true) { continue; }] *)
Definition prog_while_continue : list Token :=
  [tk WHILE "while"; tk LEFT_PAREN "("; tk TRUE "true"; tk RIGHT_PAREN ")";
   tk LEFT_BRACE "{"; tk CONTINUE "continue"; tk SEMICOLON ";"; tk RIGHT_BRACE "}"].

(** [for (;;) { info 1; while (true) { continue; } }] *)
Definition prog_while_in_for : list Token :=
  [tk FOR "for"; tk LEFT_PAREN "("; tk SEMICOLON ";"; tk SEMICOLON ";";
   tk RIGHT_PAREN ")"; tk LEFT_BRACE "{";
   tk INFO "info"; tk NUMBER "1"; tk SEMICOLON ";";
   tk WHILE "while"; tk LEFT_PAREN "("; tk TRUE "true"; tk RIGHT_PAREN ")";
   tk LEFT_BRACE "{"; tk CONTINUE "continue"; tk SEMICOLON ";"; tk RIGHT_BRACE "}";
   tk RIGHT_BRACE "}"].

(** [for (;;) { break; }] *)
Definition prog_for_break : list Token :=
  [tk FOR "for"; tk LEFT_PAREN "("; tk SEMICOLON ";"; tk SEMICOLON ";";
   tk RIGHT_PAREN ")"; tk LEFT_BRACE "{"; tk BREAK "break"; tk SEMICOLON ";";
   tk RIGHT_BRACE "}"].

(** [{ func f() { f(); } }] *)
Definition prog_block_local_function : list Token :=
  [tk LEFT_BRACE "{"; tk FUNC "func"; ident "f"; tk LEFT_PAREN "(";
   tk RIGHT_PAREN ")"; tk LEFT_BRACE "{";
   ident "f"; tk LEFT_PAREN "("; tk RIGHT_PAREN ")"; tk SEMICOLON ";";
   tk RIGHT_BRACE "}"; tk RIGHT_BRACE "}"].

(** [func f() { have y := f(); }] *)
Definition prog_call_in_initializer : list Token :=
  [tk FUNC "func"; ident "f"; tk LEFT_PAREN "("; tk RIGHT_PAREN ")";
   tk LEFT_BRACE "{"; tk HAVE "have"; ident "y"; tk WALRUS ":=";
   ident "f"; tk LEFT_PAREN "("; tk RIGHT_PAREN ")"; tk SEMICOLON ";";
   tk RIGHT_BRACE "}"].



(** ** Vocabulary of the further properties *)

(** Where [synchronize] stops: at the end of the input, behind a
    semicolon, or in front of a token that begins a statement. *)
Definition at_boundary (s : State) : bool :=
  check EOF_TOKEN s
  || kind_is SEMICOLON (previous (parser s))
  || return_context (kind (current_tok (parser s))).

(** The state in front of a [using "fs";] whose keyword is consumed. *)
Definition using_state : State :=
  start_state [tk STRING "'fs'"; tk SEMICOLON ";"].

(** A state in panic mode in front of [+ 1 ; have] . *)
Definition panic_state : State :=
  error "Expect expression."
        (start_state [tk PLUS "+"; tk NUMBER "1"; tk SEMICOLON ";"; tk HAVE "have"]).

(** ** Append-only chunks *)

(** The chunk [b] is the chunk [a] with bytes, lines and constants added
    behind the ones of [a]. *)
Definition chunk_extends (a b : Chunk) : Prop :=
  (exists c, code b = code a ++ c) /\
  (exists l, lines b = lines a ++ l) /\
  (exists k, constants b = constants a ++ k).

(** A constant is in order: a function has one line entry for every byte
    of its code, and so have the functions among its constants. *)
Fixpoint value_ok (v : Value) : Prop :=
  match v with
  | FUNCTION_OBJ _ _ c l ks =>
      List.length l = List.length c /\
      (fix all (vs : list Value) : Prop :=
         match vs with
         | [] => True
         | v' :: vs' => value_ok v' /\ all vs'
         end) ks
  | _ => True
  end.

Definition chunk_ok (ch : Chunk) : Prop :=
  List.length (lines ch) = List.length (code ch) /\
  Forall value_ok (constants ch).

(** At most one message is reported, and panic mode is not left. *)
Definition reports_once (p p' : Parser) : Prop :=
  (had_error p' = had_error p /\ panic_mode p' = panic_mode p /\
   errors p' = errors p) \/
  (panic_mode p = false /\ panic_mode p' = true /\ had_error p' = true /\
   exists msg, errors p' = errors p ++ [msg]).

(** Messages are only added. *)
Definition reports (p p' : Parser) : Prop :=
  exists more, errors p' = errors p ++ more.

(** From [s] to [s'] the current chunk is only extended, stays in order
    if it was, and no message is lost; with [once] at most one message is
    added and panic mode is not left. *)
Record appends (once : bool) (s s' : State) : Prop := mkAppends {
  ap_len : List.length (compilers s') = List.length (compilers s);
  ap_chunk : chunk_extends (compiling_chunk s) (compiling_chunk s');
  ap_report : if once then reports_once (parser s) (parser s')
              else reports (parser s) (parser s');
  ap_ok : chunk_ok (compiling_chunk s) -> chunk_ok (compiling_chunk s')
}.

Definition Appended (c : Call) (s s' : State) : Prop :=
  match c with
  | ParsePrecedence _ => appends true s s'
  | _ => WF s -> appends false s s'
  end.

(** [rec] only appends, in every call. *)
Definition appending (rec : Rec) : Prop :=
  forall c s s', rec c s = Some s' -> Appended c s s'.

(** ** Control flow *)

(** A jump instruction with the operand [d], big-endian. *)
Definition jump_bytes (o : OpCode) (d : Z) : list Byte :=
  [Op o; Raw ((d / 256) mod 256); Raw (d mod 256)].

(** The length of a piece of code, as an offset. *)
Definition size (c : list Byte) : Z := Z.of_nat (List.length c).

(** [and true ;] behind the [and] token. *)
Definition and_state : State :=
  advance (start_state [tk AND "and"; tk TRUE "true"; tk SEMICOLON ";"]).

(** [( true ) info 1 ;] behind the [if] token. *)
Definition if_state : State :=
  start_state [tk LEFT_PAREN "("; tk TRUE "true"; tk RIGHT_PAREN ")";
               tk INFO "info"; tk NUMBER "1"; tk SEMICOLON ";"].

(** [x := 1 ;] behind the [have] token. *)
Definition have_state : State :=
  start_state [ident "x"; tk WALRUS ":="; tk NUMBER "1"; tk SEMICOLON ";"].

(** [1 ;] behind a [return] token, at top level. *)
Definition return_state : State :=
  start_state [tk NUMBER "1"; tk SEMICOLON ";"].

(** [( have i := 0 ; i ; i ) info i ;] behind the [for] token. *)
Definition for_state : State :=
  start_state [tk LEFT_PAREN "("; tk HAVE "have"; ident "i"; tk WALRUS ":=";
               tk NUMBER "0"; tk SEMICOLON ";"; ident "i"; tk SEMICOLON ";";
               ident "i"; tk RIGHT_PAREN ")"; tk INFO "info"; ident "i";
               tk SEMICOLON ";"].

(** ** Function objects *)

(** What the declaration of the function under construction fixes: its
    arity and its name. *)
Definition signature (s : State) : Z * option string :=
  (arity (function (current s)), name (function (current s))).

(** From [s] to [s'] the arity and the name of the current function are
    kept. *)
Definition signed (s s' : State) : Prop := signature s' = signature s.

Definition Signed (c : Call) (s s' : State) : Prop :=
  match c with
  | ParsePrecedence _ => signed s s'
  | _ => WF s -> signed s s'
  end.

(** [rec] keeps the signature, in every call. *)
Definition signing (rec : Rec) : Prop :=
  forall c s s', rec c s = Some s' -> Signed c s s'.

(** The local that a parameter named [nm] becomes. *)
Definition parameter (nm : Token) : Local := {| l_name := nm; depth := 1 |}.

(** [f ( a , b ) { }] behind the name of the function. *)
Definition function_state : State :=
  advance (start_state [ident "f"; tk LEFT_PAREN "("; ident "a"; tk COMMA ",";
                        ident "b"; tk RIGHT_PAREN ")"; tk LEFT_BRACE "{";
                        tk RIGHT_BRACE "}"]).

(** ** The header of a function declaration, as tokens *)

(** The token that is current after [j] calls of [advance]. *)
Definition token_at (j : nat) (s : State) : Token :=
  current_tok (parser (Nat.iter j advance s)).

(** From position [j] on the tokens read [p1 , p2 , ... , pm]: the
    identifiers [params], a comma between each two of them, and no comma
    behind the last one. *)
Fixpoint separated_by_commas (j : nat) (s : State) (params : list Token) : Prop :=
  match params with
  | [] => False
  | p :: ps =>
      token_at j s = p /\ kind_is IDENTIFIER p = true /\
      match ps with
      | [] => kind_is COMMA (token_at (S j) s) = false
      | _ :: _ => kind_is COMMA (token_at (S j) s) = true /\
                  separated_by_commas (S (S j)) s ps
      end
  end.

(** The number of tokens of [( p1 , ... , pm ) {]. *)
Definition header_length (params : list Token) : nat :=
  match params with
  | [] => 3
  | _ :: _ => 2 * List.length params + 2
  end.

(** The tokens from the current one on read [( p1 , ... , pm ) {]. *)
Definition parameter_list (s : State) (params : list Token) : Prop :=
  kind_is LEFT_PAREN (token_at 0 s) = true /\
  match params with
  | [] => kind_is RIGHT_PAREN (token_at 1 s) = true
  | _ :: _ => kind_is RIGHT_PAREN (token_at 1 s) = false /\
              separated_by_commas 1 s params
  end /\
  kind_is RIGHT_PAREN (token_at (header_length params - 2) s) = true /\
  kind_is LEFT_BRACE (token_at (header_length params - 1) s) = true.

(** The compiler of the function [nm] when its body begins: no code yet,
    the parameters as the locals of scope depth 1 behind slot 0. *)
Definition function_compiler (nm : string) (params : list Token) : Compiler :=
  {| function := {| arity := Z.of_nat (List.length params);
                    chunk := mkChunk [] [] [];
                    name := Some nm |};
     type := TYPE_FUNCTION;
     locals := {| l_name := empty_name; depth := 0 |} :: map parameter params;
     scope_depth := 1 |}.

(** The compiler of a function [c] after the parameters [params] are read. *)
Definition with_parameters (c : Compiler) (params : list Token) : Compiler :=
  {| function := {| arity := arity (function c) + Z.of_nat (List.length params);
                    chunk := chunk (function c);
                    name := name (function c) |};
     type := type c;
     locals := locals c
               ++ map (fun nm => {| l_name := nm; depth := scope_depth c |}) params;
     scope_depth := scope_depth c |}.

(** The state in which the body of a function is compiled, when
    [function] is called in [s] behind the name: the header is consumed
    and the compiler of the function is on top of the compilers of [s]. *)
Definition body_state (s : State) (params : list Token) : State :=
  set_compilers
    (function_compiler (lexeme (previous (parser s))) params :: compilers s)
    (Nat.iter (header_length params) advance s).

(** The state behind the name of a function, the current token of [s],
    with the name declared: inside a scope as a local that is initialized,
    at scope depth 0 as a constant that holds the name of the global. *)
Definition name_declared (s : State) : State :=
  let nm := current_tok (parser s) in
  if scope_depth (current s) >? 0
  then with_current
         (fun c => set_locals
                     (locals c ++ [ {| l_name := nm; depth := scope_depth c |} ]) c)
         (advance s)
  else snd (make_constant (STRING_OBJ (lexeme nm)) (advance s)).

(** [func f ( a , b ) { }] behind [func]. *)
Definition func_state : State :=
  advance (start_state [tk FUNC "func"; ident "f"; tk LEFT_PAREN "("; ident "a";
                        tk COMMA ","; ident "b"; tk RIGHT_PAREN ")";
                        tk LEFT_BRACE "{"; tk RIGHT_BRACE "}"]).



(* ================================================================= *)
(** * The memory manager of [src/memory/memory.cpp] *)

(** A pointer is an address; address 0 is the null pointer. *)
Definition Ptr : Set := nat.
Definition nullptr : Ptr := 0%nat.

(** Modelled from the spec: the type tags of the two variants of a heap
    object, [ObjString] and [ObjFunction] (object.h is not part of the
    sources; memory.cpp names [OBJ_STRING] only). *)
Inductive ObjType : Set := OBJ_STRING | OBJ_FUNCTION.

(** Modelled from the spec: the header of a heap object (object.h is not
    part of the sources): the type tag, the link to the next object of
    the list of all objects, and, for a string, the length of its
    characters, which live in the same block. *)
Record Obj : Set := mkObj {
  obj_type : ObjType;
  obj_next : Ptr;
  obj_length : Z
}.

(** The allocated blocks, by address. *)
Definition Heap : Set := list (Ptr * Obj).

Definition lookup (p : Ptr) (h : Heap) : option Obj :=
  match find (fun b => Nat.eqb (fst b) p) h with
  | Some b => Some (snd b)
  | None => None
  end.

Definition remove_block (p : Ptr) (h : Heap) : Heap :=
  filter (fun b => negb (Nat.eqb (fst b) p)) h.

(** How a call ends: it returns, the process exits, or the behaviour is
    undefined (an access to a block that is not allocated). *)
Inductive Outcome (A : Set) : Set :=
| Done (a : A) (h : Heap)
| Exit (status : Z)
| Undefined.

Arguments Done {A} a h.
Arguments Exit {A} status.
Arguments Undefined {A}.

(** [free] of the C library: nothing for the null pointer, the block is
    released if it is allocated, undefined otherwise. *)
Definition free_ (p : Ptr) (h : Heap) : Outcome unit :=
  if Nat.eqb p nullptr then Done tt h
  else match lookup p h with
       | Some _ => Done tt (remove_block p h)
       | None => Undefined
       end.

Section Memory.

(** [realloc] of the C library chooses the new address, or fails with
    the null pointer; [sizeof(ObjString)] is fixed by object.h. *)
Variable realloc_ : Ptr -> Z -> Heap -> Ptr * Heap.
Variable sizeof_ObjString : Z.

Definition reallocate (pointer : Ptr) (old_size new_size : Z) (h : Heap)
  : Outcome Ptr :=
  (* if (new_size > old_size) {} *)
  if new_size =? 0 then
    match free_ pointer h with
    | Done _ h' => Done nullptr h'
    | Exit c => Exit c
    | Undefined => Undefined
    end
  else
    let (new_pointer, h') := realloc_ pointer new_size h in
    if Nat.eqb new_pointer nullptr then Exit 1 else Done new_pointer h'.

(** [object->type] reads the block of [object]. *)
Definition free_obj (object : Ptr) (h : Heap) : Outcome unit :=
  match lookup object h with
  | None => Undefined
  | Some o =>
      match obj_type o with
      | OBJ_STRING =>
          match reallocate object (sizeof_ObjString + obj_length o + 1) 0 h with
          | Done _ h' => Done tt h'
          | Exit c => Exit c
          | Undefined => Undefined
          end
      | _ => Done tt h
      end
  end.

(** The loop of [free_objects]; [n] bounds its iterations, and running
    out of them is [None]. *)
Fixpoint free_objects_loop (n : nat) (object : Ptr) (h : Heap)
  : option (Outcome unit) :=
  if Nat.eqb object nullptr then Some (Done tt h)
  else
    match n with
    | O => None
    | S n' =>
        match lookup object h with
        | None => Some Undefined (* [object->next] *)
        | Some o =>
            let next := obj_next o in
            match free_obj object h with
            | Done _ h' => free_objects_loop n' next h'
            | Exit c => Some (Exit c)
            | Undefined => Some Undefined
            end
        end
    end.

(** [free_objects], with [vm.objects] and the heap as arguments. *)
Definition free_objects (n : nat) (vm_objects : Ptr) (h : Heap)
  : option (Outcome unit) :=
  free_objects_loop n vm_objects h.

End Memory.

(** The objects [ps] are linked from [p] on in the heap [h], the last one
    to the null pointer. *)
Fixpoint linked (h : Heap) (p : Ptr) (ps : list Ptr) : Prop :=
  match ps with
  | [] => p = nullptr
  | q :: qs =>
      p = q /\ q <> nullptr /\
      exists o, lookup q h = Some o /\ linked h (obj_next o) qs
  end.

(** [p] is a string object of the list [ps]. *)
Definition swept (h : Heap) (ps : list Ptr) (p : Ptr) : bool :=
  existsb (Nat.eqb p) ps &&
  match lookup p h with
  | Some o => match obj_type o with OBJ_STRING => true | _ => false end
  | None => false
  end.

(** A function at address 1, linked to a string at address 2. *)
Definition sample_heap : Heap :=
  [ (1%nat, {| obj_type := OBJ_FUNCTION; obj_next := 2%nat; obj_length := 0 |});
    (2%nat, {| obj_type := OBJ_STRING; obj_next := nullptr; obj_length := 3 |}) ].

(** A string at address 1, linked to a function at address 2. *)
Definition sample_heap_string_first : Heap :=
  [ (1%nat, {| obj_type := OBJ_STRING; obj_next := 2%nat; obj_length := 3 |});
    (2%nat, {| obj_type := OBJ_FUNCTION; obj_next := nullptr; obj_length := 0 |}) ].



(* ================================================================= *)
(** * Basic facts about the state *)

Create HintDb frame discriminated.

Lemma parser_with_current f s : parser (with_current f s) = parser s.
Proof. unfold with_current. destruct (compilers s); reflexivity. Qed.

Lemma parser_set_compilers cs s : parser (set_compilers cs s) = parser s.
Proof. reflexivity. Qed.

Lemma compilers_set_parser p s : compilers (set_parser p s) = compilers s.
Proof. reflexivity. Qed.

Lemma current_set_parser p s : current (set_parser p s) = current s.
Proof. reflexivity. Qed.

Lemma compilers_with_current f s :
  compilers (with_current f s) =
  match compilers s with c :: cs => f c :: cs | [] => [] end.
Proof. unfold with_current. destruct (compilers s) eqn:E; simpl; auto. Qed.

Lemma current_with_current f s :
  compilers s <> [] -> current (with_current f s) = f (current s).
Proof.
  unfold current. rewrite compilers_with_current.
  destruct (compilers s); [congruence | reflexivity].
Qed.

Lemma loop_start_with_current f s :
  inner_most_loop_start (with_current f s) = inner_most_loop_start s.
Proof. unfold with_current. destruct (compilers s); reflexivity. Qed.

Lemma loop_scope_with_current f s :
  inner_most_loop_scope_depth (with_current f s) = inner_most_loop_scope_depth s.
Proof. unfold with_current. destruct (compilers s); reflexivity. Qed.

Lemma good_parser s s' : parser s' = parser s -> good s -> good s'.
Proof. unfold good. intros ->. auto. Qed.

(** ** [frame] is a preorder *)

Lemma frame_refl s : frame s s.
Proof. constructor; auto. Qed.

Lemma frame_trans s1 s2 s3 : frame s1 s2 -> frame s2 s3 -> frame s1 s3.
Proof.
  intros [] []. constructor; try congruence; auto.
Qed.

(** An update of [current] that keeps type, locals and scope depth. *)
Lemma with_current_frame f s :
  (forall c, locals (f c) = locals c /\ scope_depth (f c) = scope_depth c
             /\ type (f c) = type c) ->
  frame s (with_current f s).
Proof.
  intros Hf. constructor;
    rewrite ?parser_with_current, ?loop_start_with_current,
            ?loop_scope_with_current; auto.
  - rewrite compilers_with_current. destruct (compilers s); reflexivity.
  - rewrite compilers_with_current. destruct (compilers s); reflexivity.
  - unfold current. rewrite compilers_with_current.
    destruct (compilers s); simpl; [reflexivity | apply Hf].
  - unfold current. rewrite compilers_with_current.
    destruct (compilers s); simpl; [reflexivity | apply Hf].
  - unfold current. rewrite compilers_with_current.
    destruct (compilers s); simpl; [reflexivity | apply Hf].
  - apply good_parser, parser_with_current.
Qed.

(** An update of the parser that forgets no error. *)
Lemma set_parser_frame p s :
  (had_error (parser s) = true -> had_error p = true) ->
  (good s -> good (set_parser p s)) ->
  frame s (set_parser p s).
Proof.
  intros H1 H2. constructor; auto.
Qed.

Lemma set_chunk_frame ch s : frame s (set_chunk ch s).
Proof. apply with_current_frame. intros c. auto. Qed.

Lemma advance_frame s : frame s (advance s).
Proof.
  unfold advance. destruct (rest (parser s)); apply set_parser_frame; auto.
Qed.

Lemma error_frame msg s : frame s (error msg s).
Proof.
  unfold error. destruct (panic_mode (parser s)) eqn:E.
  - apply frame_refl.
  - apply set_parser_frame; auto.
    intros _. unfold good. simpl. split; auto. split; [ discriminate | ].
    intros H. destruct (errors (parser s)); discriminate H.
Qed.

Lemma error_at_current_frame msg s : frame s (error_at_current msg s).
Proof. apply error_frame. Qed.

Lemma consume_frame k msg s : frame s (consume k msg s).
Proof.
  unfold consume. destruct (check k s).
  - apply advance_frame.
  - apply error_at_current_frame.
Qed.

Lemma match_frame k s m s' : match_ k s = (m, s') -> frame s s'.
Proof.
  unfold match_. destruct (check k s); intros H; inversion H; subst.
  - apply advance_frame.
  - apply frame_refl.
Qed.

Lemma set_panic_mode_frame s : frame s (set_panic_mode false s).
Proof.
  unfold set_panic_mode. apply set_parser_frame; simpl; auto.
  unfold good. simpl. intros [_ H]. split; [ discriminate | exact H ].
Qed.

Lemma emit_byte_frame b s : frame s (emit_byte b s).
Proof. apply set_chunk_frame. Qed.

Lemma emit_bytes_frame b1 b2 s : frame s (emit_bytes b1 b2 s).
Proof.
  unfold emit_bytes. eapply frame_trans; apply emit_byte_frame.
Qed.

Lemma cond_error_frame (b : bool) msg s : frame s (if b then error msg s else s).
Proof. destruct b; [apply error_frame | apply frame_refl]. Qed.

Lemma emit_loop_frame l s : frame s (emit_loop l s).
Proof.
  unfold emit_loop.
  eapply frame_trans; [ | apply emit_byte_frame ].
  eapply frame_trans; [ | apply emit_byte_frame ].
  eapply frame_trans; [ | apply cond_error_frame ].
  apply emit_byte_frame.
Qed.

Lemma emit_jump_frame b s j s' : emit_jump b s = (j, s') -> frame s s'.
Proof.
  unfold emit_jump. intros H. inversion H; subst.
  eapply frame_trans; [ | apply emit_byte_frame ].
  eapply frame_trans; [ | apply emit_byte_frame ].
  apply emit_byte_frame.
Qed.

Lemma make_constant_frame v s c s' : make_constant v s = (c, s') -> frame s s'.
Proof.
  unfold make_constant. destruct (add_constant (compiling_chunk s) v) as [ch k].
  destruct (k >? UINT8_MAX); intros H; inversion H; subst.
  - eapply frame_trans; [ apply set_chunk_frame | apply error_frame ].
  - apply set_chunk_frame.
Qed.

Lemma emit_return_frame s : frame s (emit_return s).
Proof. unfold emit_return. eapply frame_trans; apply emit_byte_frame. Qed.

Lemma emit_constant_frame v s : frame s (emit_constant v s).
Proof.
  unfold emit_constant. destruct (make_constant v s) as [c s1] eqn:E.
  eapply frame_trans; [ eapply make_constant_frame; eauto | apply emit_bytes_frame ].
Qed.

Lemma patch_jump_frame o s : frame s (patch_jump o s).
Proof.
  unfold patch_jump.
  eapply frame_trans; [ | apply set_chunk_frame ].
  eapply frame_trans; [ | apply set_chunk_frame ].
  apply cond_error_frame.
Qed.

Lemma identifier_constant_frame nm s c s' :
  identifier_constant nm s = (c, s') -> frame s s'.
Proof. apply make_constant_frame. Qed.

Lemma resolve_local_from_frame i ls nm s r s' :
  resolve_local_from i ls nm s = (r, s') -> frame s s'.
Proof.
  revert s. induction i as [| j IH]; simpl; intros s H.
  - inversion H; subst. apply frame_refl.
  - destruct (nth_error ls j) as [l |].
    + destruct (identifiers_equal nm (l_name l)).
      * inversion H; subst. apply frame_refl.
      * apply IH in H. eapply frame_trans; [ apply cond_error_frame | exact H ].
    + inversion H; subst. apply frame_refl.
Qed.

Lemma resolve_local_frame c nm s r s' :
  resolve_local c nm s = (r, s') -> frame s s'.
Proof. apply resolve_local_from_frame. Qed.

Lemma discard_locals_frame i ls d s : frame s (discard_locals i ls d s).
Proof.
  revert s. induction i as [| j IH]; simpl; intros s.
  - apply frame_refl.
  - destruct (nth_error ls j) as [l |]; [ | apply frame_refl ].
    destruct (depth l >? d); [ | apply frame_refl ].
    eapply frame_trans; [ apply emit_byte_frame | apply IH ].
Qed.

Lemma continue_statement_frame s : frame s (continue_statement s).
Proof.
  unfold continue_statement. destruct (inner_most_loop_start s =? -1).
  - apply error_frame.
  - eapply frame_trans; [ | apply consume_frame ].
    eapply frame_trans; [ | apply emit_loop_frame ].
    apply discard_locals_frame.
Qed.

Lemma break_statement_frame s : frame s (break_statement s).
Proof.
  unfold break_statement. destruct (inner_most_loop_start s =? -1).
  - apply error_frame.
  - eapply frame_trans; [ | apply consume_frame ].
    eapply frame_trans; [ | apply emit_byte_frame ].
    apply discard_locals_frame.
Qed.

Lemma using_statement_frame s : frame s (using_statement s).
Proof.
  unfold using_statement.
  eapply frame_trans; [ | apply emit_byte_frame ].
  eapply frame_trans; [ | apply emit_constant_frame ].
  eapply frame_trans; apply consume_frame.
Qed.

Lemma synchronize_loop_frame k s : frame s (synchronize_loop k s).
Proof.
  revert s. induction k as [| k IH]; simpl; intros s.
  - apply frame_refl.
  - destruct (negb (check EOF_TOKEN s)); [ | apply frame_refl ].
    destruct (kind_is SEMICOLON (previous (parser s))); [ apply frame_refl | ].
    destruct (return_context (kind (current_tok (parser s)))); [ apply frame_refl | ].
    eapply frame_trans; [ apply advance_frame | apply IH ].
Qed.

Lemma synchronize_frame s : frame s (synchronize s).
Proof.
  unfold synchronize.
  eapply frame_trans; [ apply set_panic_mode_frame | apply synchronize_loop_frame ].
Qed.

#[export] Hint Resolve advance_frame error_frame error_at_current_frame
  consume_frame match_frame emit_byte_frame emit_bytes_frame emit_loop_frame
  emit_jump_frame make_constant_frame emit_return_frame emit_constant_frame
  patch_jump_frame identifier_constant_frame resolve_local_frame
  continue_statement_frame break_statement_frame using_statement_frame
  synchronize_frame cond_error_frame set_chunk_frame : frame.



(* ================================================================= *)
(** * Expressions leave the compilers as they are *)

(** Case analysis on every [match] of a hypothesis that computes an
    optional state, down to the equation of its last step. *)
Ltac break_in H :=
  repeat match type of H with
         | context [match ?e with _ => _ end] =>
             lazymatch e with
             | context [match _ with _ => _ end] => fail
             | _ => destruct e eqn:?; try discriminate H
             end
         end;
  try (inversion H; subst; clear H).

(** [frame] along a sequence of steps, from the last one backwards. *)
Ltac fr :=
  solve [ repeat first
            [ apply frame_refl
            | eassumption
            | eapply frame_trans; [ | solve [ eauto 3 with frame ] ] ] ].

Section ExpressionFrame.

Variable n : nat.
Variable rec : Rec.
Hypothesis Hrec : sound rec.

Lemma parse_precedence_call_frame p s s' :
  parse_precedence_call rec p s = Some s' -> frame s s'.
Proof. intros H. apply (Hrec (ParsePrecedence p)). exact H. Qed.

Lemma expression_frame s s' : expression rec s = Some s' -> frame s s'.
Proof. apply parse_precedence_call_frame. Qed.

Hint Resolve parse_precedence_call_frame expression_frame : frame.

Lemma argument_loop_frame k a s r s' :
  argument_loop rec k a s = Some (r, s') -> frame s s'.
Proof.
  revert a s. induction k as [| k IH]; simpl; intros a s H; [discriminate | ].
  destruct (expression rec s) as [s1 |] eqn:E1; [ | discriminate ].
  destruct (match_ COMMA _) as [m s2] eqn:E2.
  destruct m.
  - apply IH in H. fr.
  - inversion H; subst. fr.
Qed.

Hint Resolve argument_loop_frame : frame.

Lemma argument_list_frame s r s' :
  argument_list n rec s = Some (r, s') -> frame s s'.
Proof. unfold argument_list. intros H. break_in H; fr. Qed.

Lemma and_frame ca s s' : and_ rec ca s = Some s' -> frame s s'.
Proof. unfold and_. intros H. break_in H; fr. Qed.

Lemma binary_frame ca s s' : binary rec ca s = Some s' -> frame s s'.
Proof.
  unfold binary. intros H.
  destruct (parse_precedence_call rec _ s) as [s1 |] eqn:E; [ | discriminate ].
  inversion H; subst; clear H.
  destruct (kind (previous (parser s))); fr.
Qed.

Lemma literal_frame ca s s' : literal ca s = Some s' -> frame s s'.
Proof.
  unfold literal. intros H. inversion H; subst; clear H.
  destruct (kind (previous (parser s))); fr.
Qed.

Lemma grouping_frame ca s s' : grouping rec ca s = Some s' -> frame s s'.
Proof. unfold grouping. intros H. break_in H; fr. Qed.

Lemma named_variable_frame nm ca s s' :
  named_variable rec nm ca s = Some s' -> frame s s'.
Proof. unfold named_variable. intros H. break_in H; fr. Qed.

Lemma _number_frame ca s s' : _number ca s = Some s' -> frame s s'.
Proof. unfold _number. intros H. break_in H; fr. Qed.

Lemma or_frame ca s s' : or_ rec ca s = Some s' -> frame s s'.
Proof. unfold or_. intros H. break_in H; fr. Qed.

Lemma _string_frame ca s s' : _string ca s = Some s' -> frame s s'.
Proof. unfold _string. intros H. break_in H; fr. Qed.

Lemma _variable_frame ca s s' : _variable rec ca s = Some s' -> frame s s'.
Proof. apply named_variable_frame. Qed.

Lemma unary_frame ca s s' : unary rec ca s = Some s' -> frame s s'.
Proof.
  unfold unary. intros H.
  destruct (parse_precedence_call rec _ s) as [s1 |] eqn:E; [ | discriminate ].
  inversion H; subst; clear H.
  destruct (kind (previous (parser s))); fr.
Qed.

Lemma call_frame ca s s' : call n rec ca s = Some s' -> frame s s'.
Proof.
  unfold call. intros H.
  destruct (argument_list n rec s) as [[a s1] |] eqn:E; [ | discriminate ].
  inversion H; subst; clear H.
  apply argument_list_frame in E. fr.
Qed.

Lemma apply_rule_frame f ca s s' :
  apply_rule n rec f ca s = Some s' -> frame s s'.
Proof.
  destruct f; simpl;
    eauto using grouping_frame, call_frame, unary_frame, binary_frame,
      _variable_frame, _string_frame, _number_frame, and_frame, or_frame,
      literal_frame.
Qed.

Hint Resolve apply_rule_frame : frame.

Lemma infix_loop_frame k p ca s s' :
  infix_loop n rec k p ca s = Some s' -> frame s s'.
Proof.
  revert s. induction k as [| k IH]; simpl; intros s H.
  - destruct (p <=? _); [discriminate | inversion H; subst; fr].
  - destruct (p <=? _); [ | inversion H; subst; fr].
    destruct (infix _) as [f |]; [ | discriminate ].
    destruct (apply_rule n rec f ca (advance s)) as [s1 |] eqn:E; [ | discriminate ].
    apply IH in H. fr.
Qed.

Hint Resolve infix_loop_frame : frame.

Lemma parse_precedence_frame p s s' :
  parse_precedence n rec p s = Some s' -> frame s s'.
Proof. unfold parse_precedence. intros H. break_in H; fr. Qed.

End ExpressionFrame.

#[export] Hint Resolve parse_precedence_call_frame expression_frame
  argument_list_frame apply_rule_frame infix_loop_frame
  parse_precedence_frame : frame.



(* ================================================================= *)
(** * The invariant of the local tables *)

(** ** Lists of depths *)

Lemma nondecreasing_snoc l x :
  nondecreasing (l ++ [x]) <-> nondecreasing l /\ Forall (fun y => y <= x) l.
Proof.
  induction l as [| a l IH]; simpl.
  - repeat split; auto.
  - rewrite IH, Forall_app. split.
    + intros [[H1 H2] [H3 H4]]. repeat split; auto.
      constructor; auto. inversion H2; auto.
    + intros [[H1 H2] H3]. inversion H3; subst. repeat split; auto.
  Qed.

Lemma nondecreasing_app_l a b : nondecreasing (a ++ b) -> nondecreasing a.
Proof.
  induction a as [| x a IH]; simpl; auto.
  intros [H1 H2]. apply Forall_app in H1. tauto.
Qed.

Lemma nondecreasing_split (ls : list Local) d :
  nondecreasing (map depth ls) ->
  exists a b, ls = a ++ b /\
              Forall (fun l => depth l <= d) a /\
              Forall (fun l => depth l > d) b.
Proof.
  induction ls as [| x t IH]; simpl.
  - exists [], []. auto.
  - intros [H1 H2]. destruct (Z_le_gt_dec (depth x) d) as [Hx | Hx].
    + destruct (IH H2) as (a & b & -> & Ha & Hb).
      exists (x :: a), b. auto.
    + exists [], (x :: t). repeat split; auto.
      constructor; auto.
      rewrite Forall_map in H1. eapply Forall_impl; [ | exact H1 ].
      simpl. intros. lia.
Qed.

Lemma nth_error_last {A} (l : list A) (x : A) :
  nth_error (l ++ [x]) (List.length (l ++ [x]) - 1) = Some x.
Proof.
  rewrite length_app. simpl.
  replace (List.length l + 1 - 1)%nat with (List.length l) by lia.
  rewrite nth_error_app2 by lia. rewrite Nat.sub_diag. reflexivity.
Qed.

Lemma firstn_last {A} (l : list A) (x : A) :
  firstn (List.length (l ++ [x]) - 1) (l ++ [x]) = l.
Proof.
  rewrite length_app. simpl.
  replace (List.length l + 1 - 1)%nat with (List.length l + 0)%nat by lia.
  rewrite firstn_app_2. simpl. apply app_nil_r.
Qed.

(** ** Well-formed compilers *)

Lemma WFC_ext c c' :
  locals c' = locals c -> scope_depth c' = scope_depth c -> WFC c -> WFC c'.
Proof.
  intros Hl Hs [H1 H2 H3 H4].
  constructor; unfold slot0_reserved; rewrite ?Hl, ?Hs; auto.
Qed.

Lemma WF_current s : WF s -> compilers s = current s :: tl (compilers s).
Proof.
  intros [Hne _]. unfold current. destruct (compilers s); [congruence | reflexivity].
Qed.

Lemma WF_WFC s : WF s -> WFC (current s).
Proof.
  intros H. pose proof (WF_current s H) as E. destruct H as [_ H].
  rewrite E in H. inversion H; auto.
Qed.

Lemma WF_tl s : WF s -> Forall WFC (tl (compilers s)).
Proof.
  intros H. pose proof (WF_current s H) as E. destruct H as [_ H].
  rewrite E in H. inversion H; auto.
Qed.

Lemma WF_intro s :
  compilers s <> [] -> WFC (current s) -> Forall WFC (tl (compilers s)) -> WF s.
Proof.
  intros Hne Hc Ht. split; auto.
  unfold current in Hc. destruct (compilers s); [congruence | ].
  constructor; auto.
Qed.

Lemma nonempty_length {A} (l l' : list A) :
  List.length l' = List.length l -> l <> [] -> l' <> [].
Proof. destruct l, l'; simpl; congruence. Qed.

Lemma frame_WF s s' : frame s s' -> WF s -> WF s'.
Proof.
  intros [T N L S _ _ _ _ _] H. apply WF_intro.
  - eapply nonempty_length; eauto. apply H.
  - eapply WFC_ext; eauto. apply WF_WFC; auto.
  - rewrite T. apply WF_tl; auto.
Qed.

Lemma grows_refl s : grows s s.
Proof. exists []. rewrite app_nil_r. auto. Qed.

Lemma frame_sframe g s s' : frame s s' -> sframe g s s'.
Proof.
  intros F Hwf. pose proof (frame_WF _ _ F Hwf). destruct F.
  constructor; auto.
  intros _ _. destruct g; auto.
  exists []. rewrite app_nil_r. auto.
Qed.

Lemma sframe_weaken s s' : sframe false s s' -> sframe true s s'.
Proof.
  intros H Hwf. destruct (H Hwf). constructor; auto.
  intros Hg He. exists []. rewrite app_nil_r. auto.
Qed.

Lemma not_true_false (b : bool) : (b = true -> False) -> b = false.
Proof. destruct b; intuition. Qed.

Lemma sframe_trans g s1 s2 s3 :
  sframe g s1 s2 -> sframe g s2 s3 -> sframe g s1 s3.
Proof.
  intros H12 H23 Hwf. destruct (H12 Hwf) as [W2 T2 S2 Y2 A2 D2 E2 G2 L2].
  destruct (H23 W2) as [W3 T3 S3 Y3 A3 D3 E3 G3 L3].
  constructor; auto; try congruence.
  intros Hg He.
  assert (He2 : had_error (parser s2) = false).
  { apply not_true_false. intros Ht. apply E3 in Ht. congruence. }
  specialize (L2 Hg He2). specialize (L3 (G2 Hg) He).
  destruct g.
  - destruct L2 as (n2 & L2 & F2). destruct L3 as (n3 & L3 & F3).
    exists (n2 ++ n3). rewrite L3, L2, app_assoc. split; auto.
    apply Forall_app. split; auto. rewrite S2 in F3. exact F3.
  - congruence.
Qed.

Lemma sframe_frame_trans g s1 s2 s3 :
  sframe g s1 s2 -> frame s2 s3 -> sframe g s1 s3.
Proof.
  intros H F. eapply sframe_trans; [ exact H | apply frame_sframe; exact F ].
Qed.

Lemma sframe_refl g s : sframe g s s.
Proof. apply frame_sframe, frame_refl. Qed.

(** [sframe] along a sequence of steps, from the last one backwards. *)
Create HintDb sframe discriminated.

Ltac sfr :=
  solve [ repeat first
            [ apply sframe_refl
            | eassumption
            | eapply sframe_frame_trans; [ | solve [ eauto 3 with frame ] ]
            | eapply sframe_trans; [ | solve [ eauto 3 with sframe ] ] ] ].



(* ================================================================= *)
(** * Scopes *)

Lemma tl_with_current f s : tl (compilers (with_current f s)) = tl (compilers s).
Proof. rewrite compilers_with_current. destruct (compilers s); reflexivity. Qed.

Lemma nonempty_with_current f s : compilers s <> [] -> compilers (with_current f s) <> [].
Proof. rewrite compilers_with_current. destruct (compilers s); congruence. Qed.

Lemma WF_nonempty s : WF s -> compilers s <> [].
Proof. intros [H _]. exact H. Qed.

Lemma WF_with_current f s :
  WF s -> WFC (f (current s)) -> WF (with_current f s).
Proof.
  intros H Hc. apply WF_intro.
  - apply nonempty_with_current, WF_nonempty, H.
  - rewrite current_with_current by apply WF_nonempty, H. exact Hc.
  - rewrite tl_with_current. apply WF_tl, H.
Qed.

Lemma WFC_scope_nonneg c : WFC c -> 0 <= scope_depth c.
Proof.
  intros [H1 _ H3 _]. unfold slot0_reserved in H1.
  destruct (locals c) as [| l ls]; [contradiction | ].
  inversion H3; subst. lia.
Qed.

Lemma inner_begin s : WF s -> inner s (begin_scope s).
Proof.
  intros H. pose proof (WF_WFC s H) as Hc. unfold begin_scope.
  pose proof (WF_nonempty s H) as Hne.
  constructor.
  - apply WF_with_current; auto. destruct Hc as [H1 H2 H3 H4].
    constructor; simpl; auto.
    eapply Forall_impl; [ | exact H3 ]. simpl. intros. lia.
  - apply tl_with_current.
  - rewrite current_with_current by exact Hne. reflexivity.
  - rewrite current_with_current by exact Hne. reflexivity.
  - rewrite parser_with_current. auto.
  - apply good_parser, parser_with_current.
  - intros _ _. exists []. rewrite app_nil_r.
    rewrite current_with_current by exact Hne. auto.
Qed.

Lemma inner_step g s0 x y : inner s0 x -> sframe g x y -> inner s0 y.
Proof.
  intros [W T S Y E G L] H. destruct (H W) as [W2 T2 S2 Y2 _ _ E2 G2 L2].
  constructor; auto; try congruence.
  intros Hg He.
  assert (Hx : had_error (parser x) = false).
  { apply not_true_false. intros Ht. apply E2 in Ht. congruence. }
  destruct (L Hg Hx) as (new & Hl & Hf).
  specialize (L2 (G Hg) He). destruct g.
  - destruct L2 as (n2 & Hl2 & Hf2). exists (new ++ n2).
    rewrite Hl2, Hl, app_assoc. split; auto.
    apply Forall_app. split; auto. rewrite S in Hf2. exact Hf2.
  - exists new. rewrite L2. auto.
Qed.

Lemma inner_frame s0 x y : inner s0 x -> frame x y -> inner s0 y.
Proof. intros H F. eapply inner_step; [ exact H | apply (frame_sframe false), F ]. Qed.

Lemma inner_set_loop a b s0 x : inner s0 x -> inner s0 (set_loop a b x).
Proof. intros [W T S Y E G L]. constructor; auto. Qed.

Lemma gtb_false a b : a <= b -> (a >? b) = false.
Proof. intros. rewrite Z.gtb_ltb. apply Z.ltb_ge. lia. Qed.

Lemma gtb_true a b : a > b -> (a >? b) = true.
Proof. intros. rewrite Z.gtb_ltb. apply Z.ltb_lt. lia. Qed.

(** ** The pops of [end_scope] *)

Lemma end_scope_loop_stop k a x :
  locals (current x) = a ->
  Forall (fun l => depth l <= scope_depth (current x)) a ->
  end_scope_loop k x = x.
Proof.
  intros Hl Ha. destruct k as [| k]; simpl; auto.
  rewrite Hl. destruct a as [| l0 a0] using rev_ind; simpl; auto.
  rewrite nth_error_last. apply Forall_app in Ha. destruct Ha as [_ Ha].
  inversion Ha; subst.
  rewrite (gtb_false (depth l0)) by lia.
  rewrite andb_false_r. reflexivity.
Qed.

Lemma end_scope_loop_pops b :
  forall a k x,
    compilers x <> [] ->
    locals (current x) = a ++ b ->
    Forall (fun l => depth l <= scope_depth (current x)) a ->
    Forall (fun l => depth l > scope_depth (current x)) b ->
    (List.length b <= k)%nat ->
    popped (List.length b) a x (end_scope_loop k x).
Proof.
  induction b as [| l b IH] using rev_ind; intros a k x Hne Hl Ha Hb Hk.
  - rewrite app_nil_r in Hl. rewrite (end_scope_loop_stop k a x) by auto.
    constructor; auto. simpl. rewrite app_nil_r. reflexivity.
  - rewrite length_app in *. simpl in *.
    destruct k as [| k]; [lia | ]. simpl.
    rewrite app_assoc in Hl. rewrite Hl, nth_error_last.
    apply Forall_app in Hb. destruct Hb as [Hb Hlast]. inversion Hlast; subst.
    assert (Hc : (local_count (current x) >? 0) = true).
    { unfold local_count. rewrite Hl, length_app. simpl.
      apply gtb_true. lia. }
    rewrite Hc.
    rewrite (gtb_true (depth l)) by lia.
    simpl.
    set (x1 := with_current _ (emit_byte (Op OP_POP) x)).
    assert (Hne0 : compilers (emit_byte (Op OP_POP) x) <> []).
    { apply nonempty_with_current, Hne. }
    assert (Hcur0 : current (emit_byte (Op OP_POP) x)
                    = set_chunk_of (write_chunk (compiling_chunk x) (Op OP_POP)
                                                (line (previous (parser x)))) (current x)).
    { unfold emit_byte, set_chunk. apply current_with_current, Hne. }
    assert (Hcur : current x1 =
                   set_locals (a ++ b)
                     (set_chunk_of (write_chunk (compiling_chunk x) (Op OP_POP)
                                                (line (previous (parser x)))) (current x))).
    { unfold x1. rewrite current_with_current by exact Hne0.
      rewrite Hcur0. simpl. rewrite Hl, firstn_last. reflexivity. }
    assert (Hx1 : compilers x1 <> []) by (apply nonempty_with_current, Hne0).
    assert (Hp : parser x1 = parser x).
    { unfold x1, emit_byte, set_chunk. rewrite !parser_with_current. reflexivity. }
    assert (Ht : tl (compilers x1) = tl (compilers x)).
    { unfold x1, emit_byte, set_chunk. rewrite !tl_with_current. reflexivity. }
    assert (Hs : inner_most_loop_start x1 = inner_most_loop_start x).
    { unfold x1, emit_byte, set_chunk. rewrite !loop_start_with_current. reflexivity. }
    assert (Hd : inner_most_loop_scope_depth x1 = inner_most_loop_scope_depth x).
    { unfold x1, emit_byte, set_chunk. rewrite !loop_scope_with_current. reflexivity. }
    clearbody x1.
    assert (IH' : popped (List.length b) a x1 (end_scope_loop k x1)).
    { apply IH; auto; try lia; rewrite Hcur; simpl; auto. }
    destruct IH' as [P1 P2 P3 P4 P5 P6 P7 P8 P9 P10].
    unfold compiling_chunk in *. rewrite Hcur in *. simpl in *.
    constructor; auto; try congruence.
    unfold compiling_chunk. rewrite P9.
    rewrite <- app_assoc. f_equal.
    replace (List.length b + 1)%nat with (S (List.length b)) by lia.
    reflexivity.
Qed.

Lemma end_scope_exited x a b :
  compilers x <> [] ->
  locals (current x) = a ++ b ->
  Forall (fun l => depth l <= scope_depth (current x) - 1) a ->
  Forall (fun l => depth l > scope_depth (current x) - 1) b ->
  exited (List.length b) a x (end_scope x).
Proof.
  intros Hne Hl Ha Hb. unfold end_scope.
  set (x1 := with_current _ x).
  assert (Hcur : current x1 = set_scope_depth (scope_depth (current x) - 1) (current x)).
  { unfold x1. rewrite current_with_current by exact Hne. reflexivity. }
  assert (Hx1 : compilers x1 <> []) by (apply nonempty_with_current, Hne).
  assert (Hp : parser x1 = parser x) by apply parser_with_current.
  assert (Ht : tl (compilers x1) = tl (compilers x)) by apply tl_with_current.
  assert (Hs : inner_most_loop_start x1 = inner_most_loop_start x)
    by apply loop_start_with_current.
  assert (Hd : inner_most_loop_scope_depth x1 = inner_most_loop_scope_depth x)
    by apply loop_scope_with_current.
  clearbody x1.
  assert (P : popped (List.length b) a x1
                     (end_scope_loop (List.length (locals (current x1))) x1)).
  { apply end_scope_loop_pops; auto; rewrite Hcur; simpl; auto.
    rewrite Hl, length_app. lia. }
  destruct P as [P1 P2 P3 P4 P5 P6 P7 P8 P9 P10].
  unfold compiling_chunk in *. rewrite Hcur in *. simpl in *.
  constructor; auto; congruence.
Qed.

Lemma slot0_in_prefix (ls a b : list Local) d :
  match ls with l :: _ => lexeme (l_name l) = "" /\ depth l = 0 | [] => False end ->
  ls = a ++ b -> 0 <= d ->
  Forall (fun l => depth l > d) b ->
  match a with l :: _ => lexeme (l_name l) = "" /\ depth l = 0 | [] => False end.
Proof.
  intros H0 -> Hd Hb. destruct a as [| l a]; simpl in *; auto.
  destruct b as [| l b]; auto. inversion Hb; subst. lia.
Qed.

Lemma inner_end s0 x :
  WF s0 -> inner s0 x ->
  inner_most_loop_start x = inner_most_loop_start s0 ->
  inner_most_loop_scope_depth x = inner_most_loop_scope_depth s0 ->
  sfacts false s0 (end_scope x).
Proof.
  intros W0 [W T S Y E G L] Hs Hd.
  pose proof (WF_WFC x W) as [C1 C2 C3 C4].
  pose proof (WF_WFC s0 W0) as C0.
  pose proof (WFC_scope_nonneg _ C0) as Hnn.
  destruct (nondecreasing_split (locals (current x)) (scope_depth (current x) - 1) C4)
    as (a & b & Hl & Ha & Hb).
  pose proof (end_scope_exited x a b (WF_nonempty x W) Hl Ha Hb) as X.
  destruct X as [X1 X2 X3 X4 X5 X6 X7 X8 X9 X10].
  constructor; try congruence.
  - apply WF_intro; auto.
    + constructor; unfold slot0_reserved; rewrite ?X8, ?X6.
      * apply (slot0_in_prefix (locals (current x)) a b (scope_depth (current x) - 1));
          auto; lia.
      * rewrite Hl, length_app in C2. lia.
      * rewrite Hl in C3. apply Forall_app in C3. destruct C3 as [C3 _].
        rewrite Forall_forall in *. intros l Hin.
        specialize (C3 l Hin). specialize (Ha l Hin). simpl in *. lia.
      * rewrite Hl, map_app in C4. eapply nondecreasing_app_l; eauto.
    + rewrite X3. apply WF_tl; auto.
  - lia.
  - rewrite X2. exact E.
  - intros Hg. apply (good_parser x); auto.
  - intros Hg He. rewrite X2 in He.
    destruct (L Hg He) as (new & Hl' & Hnew).
    assert (X' : exited (List.length new) (locals (current s0)) x (end_scope x)).
    { apply end_scope_exited; auto.
      - apply WF_nonempty; auto.
      - destruct C0 as [_ _ D _]. eapply Forall_impl; [ | exact D ].
        simpl. intros. lia.
      - eapply Forall_impl; [ | exact Hnew ]. simpl. intros. lia. }
    destruct X'. auto.
Qed.



(* ================================================================= *)
(** * Declarations of locals *)

Lemma declare_scan_frame i ls d nm s : frame s (declare_scan i ls d nm s).
Proof.
  revert s. induction i as [| j IH]; simpl; intros s.
  - apply frame_refl.
  - destruct (nth_error ls j) as [l |]; [ | apply frame_refl ].
    destruct (negb (depth l =? -1) && (depth l <? d)); [ apply frame_refl | ].
    eapply frame_trans; [ apply cond_error_frame | apply IH ].
Qed.

Lemma error_had_error msg s : good s -> had_error (parser (error msg s)) = true.
Proof.
  unfold error, good. destruct (panic_mode (parser s)) eqn:E; simpl; auto.
  intros [H _]. auto.
Qed.

Lemma frame_pending s x :
  frame s x -> scope_depth (current s) <= 0 -> pending s x.
Proof.
  intros [] H. constructor; auto. left. split; auto. lia.
Qed.

Lemma pending_frame s x y : pending s x -> frame x y -> pending s y.
Proof.
  intros [T N S Y A D E G L] [].
  constructor; try congruence; auto.
  destruct L as [[L1 L2] | (L1 & L2 & nm & L3)]; [left | right].
  - split; [congruence | ]. intros Hs. destruct (L2 Hs). auto.
  - repeat split; auto. exists nm. congruence.
Qed.

Lemma add_local_pending nm s0 x :
  frame s0 x -> compilers s0 <> [] ->
  0 < scope_depth (current s0) ->
  (List.length (locals (current s0)) <= 256)%nat ->
  pending s0 (add_local nm x).
Proof.
  intros F Hne Hs Hc. unfold add_local, local_count, UINT8_COUNT.
  pose proof F as [T N L S Y A D E G].
  assert (Hx : compilers x <> []) by (eapply nonempty_length; eauto).
  destruct (Z.eqb_spec (Z.of_nat (List.length (locals (current x)))) 256) as [H | H].
  - pose proof (error_frame "Too many local variables in function." x) as F2.
    pose proof (frame_trans _ _ _ F F2) as [].
    constructor; auto. left. split; auto. intros _. split.
    + rewrite L in H. lia.
    + intros Hg. apply error_had_error. auto.
  - constructor;
      rewrite ?tl_with_current, ?parser_with_current, ?loop_start_with_current,
              ?loop_scope_with_current, ?compilers_with_current; auto.
    + destruct (compilers x); [congruence | simpl in *; congruence].
    + rewrite current_with_current by exact Hx. simpl. auto.
    + rewrite current_with_current by exact Hx. simpl. auto.
    + intros Hg. apply (good_parser x); auto. apply parser_with_current.
    + right. repeat split; auto.
      * rewrite L in H. lia.
      * exists nm. rewrite current_with_current by exact Hx. simpl. congruence.
Qed.

Lemma parser_variable_pending msg s g x :
  WF s -> parser_variable msg s = (g, x) -> pending s x.
Proof.
  intros W H. unfold parser_variable, declare_variable in H.
  pose proof (consume_frame IDENTIFIER msg s) as F1.
  set (s1 := consume IDENTIFIER msg s) in *.
  pose proof (WF_WFC s W) as C. pose proof (WFC_scope_nonneg _ C) as Hnn.
  destruct (Z.eqb_spec (scope_depth (current s1)) 0) as [E0 | E0].
  - rewrite E0 in H. simpl in H. apply identifier_constant_frame in H.
    apply frame_pending.
    + eapply frame_trans; eauto.
    + destruct F1. lia.
  - assert (P : pending s (add_local (previous (parser s1))
                    (declare_scan (List.length (locals (current s1)))
                       (locals (current s1)) (scope_depth (current s1))
                       (previous (parser s1)) s1))).
    { apply add_local_pending.
      - eapply frame_trans; [ exact F1 | apply declare_scan_frame ].
      - apply WF_nonempty; auto.
      - destruct F1. lia.
      - apply C. }
    destruct (scope_depth (current (add_local _ _)) >? 0).
    + inversion H; subst. exact P.
    + apply identifier_constant_frame in H. eapply pending_frame; eauto.
Qed.

(** ** [mark_initialized] *)

Lemma set_last_depth_snoc d ls l :
  set_last_depth d (ls ++ [l]) = ls ++ [ {| l_name := l_name l; depth := d |} ].
Proof.
  unfold set_last_depth. rewrite nth_error_last, firstn_last. reflexivity.
Qed.

Lemma slot0_snoc (ls : list Local) l l' :
  ls <> [] ->
  match ls ++ [l] with x :: _ => lexeme (l_name x) = "" /\ depth x = 0 | [] => False end ->
  match ls ++ [l'] with x :: _ => lexeme (l_name x) = "" /\ depth x = 0 | [] => False end.
Proof. destruct ls; simpl; [congruence | tauto]. Qed.

Lemma WFC_snoc c ls nm :
  WFC c -> locals c = ls -> (List.length ls < 256)%nat -> 0 < scope_depth c ->
  WFC (set_locals (ls ++ [ {| l_name := nm; depth := scope_depth c |} ]) c).
Proof.
  intros [C1 C2 C3 C4] <- Hl Hs. unfold slot0_reserved in *.
  constructor; unfold slot0_reserved; simpl.
  - revert C1. destruct (locals c); simpl; tauto.
  - rewrite length_app. simpl. lia.
  - apply Forall_app. split; auto. constructor; auto. simpl. lia.
  - rewrite map_app. simpl. apply nondecreasing_snoc. split; auto.
    rewrite Forall_map. eapply Forall_impl; [ | exact C3 ]. simpl. lia.
Qed.

Lemma WFC_relast c ls l :
  WFC c -> locals c = ls ++ [l] -> ls <> [] -> 0 < scope_depth c ->
  WFC (set_locals (ls ++ [ {| l_name := l_name l; depth := scope_depth c |} ]) c).
Proof.
  intros [C1 C2 C3 C4] Hl Hne Hs. unfold slot0_reserved in *.
  rewrite Hl in *.
  constructor; unfold slot0_reserved; simpl.
  - eapply slot0_snoc; eauto.
  - rewrite length_app in *. simpl in *. lia.
  - apply Forall_app in C3. destruct C3 as [C3 _].
    apply Forall_app. split; auto. constructor; auto. simpl. lia.
  - rewrite map_app in *. simpl in *. apply nondecreasing_snoc.
    split.
    + eapply nondecreasing_app_l; eauto.
    + apply Forall_app in C3. destruct C3 as [C3 _].
      rewrite Forall_map. eapply Forall_impl; [ | exact C3 ]. simpl. lia.
Qed.

Lemma pending_nonempty s0 x : WF s0 -> pending s0 x -> compilers x <> [].
Proof.
  intros W P. eapply nonempty_length; [ apply P | apply WF_nonempty, W ].
Qed.

Lemma pending_mark s0 x :
  WF s0 -> pending s0 x ->
  sfacts true s0 (mark_initialized x) /\ marked (mark_initialized x).
Proof.
  intros W P. pose proof (pending_nonempty _ _ W P) as Hx.
  destruct P as [T N S Y A D E G L].
  pose proof (WF_WFC s0 W) as C. pose proof (WFC_scope_nonneg _ C) as Hnn.
  unfold mark_initialized.
  destruct (Z.eqb_spec (scope_depth (current x)) 0) as [E0 | E0].
  - split; [ | left; auto ].
    destruct L as [[L1 L2] | (L1 & L2 & nm & L3)]; [ | lia ].
    constructor; auto.
    + apply WF_intro; auto.
      * eapply WFC_ext; eauto.
      * rewrite T. apply WF_tl; auto.
    + intros _ _. exists []. rewrite app_nil_r. auto.
  - assert (Hpos : 0 < scope_depth (current s0)) by lia.
    assert (Hcur : forall ls',
               locals (current x) = ls' ->
               current (with_current
                          (fun c => set_locals (set_last_depth (scope_depth c) (locals c)) c) x)
               = set_locals (set_last_depth (scope_depth (current s0)) ls') (current x)).
    { intros ls' <-. rewrite current_with_current by exact Hx. rewrite S. reflexivity. }
    set (y := with_current _ x) in *.
    assert (Hp : parser y = parser x) by apply parser_with_current.
    assert (Ht : tl (compilers y) = tl (compilers x)) by apply tl_with_current.
    assert (Hs : inner_most_loop_start y = inner_most_loop_start x)
      by apply loop_start_with_current.
    assert (Hd : inner_most_loop_scope_depth y = inner_most_loop_scope_depth x)
      by apply loop_scope_with_current.
    assert (Hy : compilers y <> []) by (apply nonempty_with_current, Hx).
    clearbody y.
    destruct L as [[L1 L2] | (L1 & L2 & nm & L3)].
    + destruct (L2 Hpos) as [Hlen Herr].
      destruct (exists_last (l := locals (current s0))) as (ls & l & Els).
      { intros Hnil. rewrite Hnil in Hlen. simpl in Hlen. lia. }
      assert (Hls : ls <> []).
      { intros ->. rewrite Els in Hlen. simpl in Hlen. lia. }
      specialize (Hcur _ L1). rewrite Els, set_last_depth_snoc in Hcur.
      split.
      * constructor; try congruence.
        -- apply WF_intro; auto.
           ++ rewrite Hcur.
              apply (WFC_ext (set_locals (ls ++ [ {| l_name := l_name l;
                       depth := scope_depth (current s0) |} ]) (current s0))); auto.
              apply WFC_relast; auto.
           ++ rewrite Ht, T. apply WF_tl; auto.
        -- rewrite Hcur. simpl. auto.
        -- rewrite Hcur. simpl. auto.
        -- rewrite Hp. auto.
        -- intros Hg. apply (good_parser x); auto.
        -- intros Hg He. rewrite Hp, (Herr Hg) in He. discriminate.
      * right. exists ls, {| l_name := l_name l; depth := scope_depth (current s0) |}.
        rewrite Hcur. simpl. split; auto.
    + specialize (Hcur _ L3). rewrite set_last_depth_snoc in Hcur. simpl in Hcur.
      split.
      * constructor; try congruence.
        -- apply WF_intro; auto.
           ++ rewrite Hcur.
              apply (WFC_ext (set_locals (locals (current s0) ++ [ {| l_name := nm;
                       depth := scope_depth (current s0) |} ]) (current s0))); auto.
              apply WFC_snoc; auto.
           ++ rewrite Ht, T. apply WF_tl; auto.
        -- rewrite Hcur. simpl. auto.
        -- rewrite Hcur. simpl. auto.
        -- rewrite Hp. auto.
        -- intros Hg. apply (good_parser x); auto.
        -- intros Hg He. exists [ {| l_name := nm; depth := scope_depth (current s0) |} ].
           rewrite Hcur. simpl. split; auto.
      * right. exists (locals (current s0)),
                 {| l_name := nm; depth := scope_depth (current s0) |}.
        rewrite Hcur. simpl. split; auto.
Qed.

Lemma with_current_frame_at f s :
  locals (f (current s)) = locals (current s) ->
  scope_depth (f (current s)) = scope_depth (current s) ->
  type (f (current s)) = type (current s) ->
  frame s (with_current f s).
Proof.
  intros H1 H2 H3. unfold current in *.
  constructor;
    rewrite ?parser_with_current, ?loop_start_with_current,
            ?loop_scope_with_current, ?tl_with_current; auto;
    try (unfold current; rewrite compilers_with_current;
         destruct (compilers s); simpl in *; auto).
  apply good_parser, parser_with_current.
Qed.

Lemma marked_mark_frame y : marked y -> frame y (mark_initialized y).
Proof.
  intros M. unfold mark_initialized.
  destruct (Z.eqb_spec (scope_depth (current y)) 0) as [E0 | E0];
    [ apply frame_refl | ].
  destruct M as [M | (ls & l & Hl & Hd)]; [ congruence | ].
  apply with_current_frame_at; simpl; auto.
  rewrite Hl, set_last_depth_snoc, <- Hd. destruct l; reflexivity.
Qed.

Lemma marked_frame y z : marked y -> frame y z -> marked z.
Proof.
  intros M [_ _ L S _ _ _ _ _]. unfold marked in *. rewrite L, S. exact M.
Qed.

Lemma marked_define_frame g y : marked y -> frame y (define_variable g y).
Proof.
  intros M. unfold define_variable.
  destruct (scope_depth (current y) >? 0).
  - apply marked_mark_frame; auto.
  - apply emit_bytes_frame.
Qed.

Lemma pending_define g s0 x :
  WF s0 -> pending s0 x -> sfacts true s0 (define_variable g x).
Proof.
  intros W P. unfold define_variable.
  destruct (Z.gtb_spec (scope_depth (current x)) 0) as [H | H].
  - apply pending_mark; auto.
  - pose proof (emit_bytes_frame (Op OP_DEFINE_GLOBAL) (Raw g) x) as F.
    pose proof (pending_frame _ _ _ P F) as P2.
    destruct (pending_mark _ _ W P2) as [R _].
    unfold mark_initialized in R.
    destruct F as [_ _ _ FS _ _ _ _ _]. rewrite FS in R.
    pose proof (WFC_scope_nonneg _ (WF_WFC _ W)).
    destruct P.
    replace (scope_depth (current x)) with 0 in R by lia.
    exact R.
Qed.

Lemma parser_variable_define msg g g' s x y :
  parser_variable msg s = (g, x) -> frame x y ->
  sframe true s (define_variable g' y).
Proof.
  intros H F W. apply pending_define; auto.
  eapply pending_frame; [ | exact F ].
  eapply parser_variable_pending; eauto.
Qed.

Lemma parser_variable_mark msg g s x :
  parser_variable msg s = (g, x) ->
  sframe true s (mark_initialized x).
Proof.
  intros H W. apply pending_mark; auto.
  eapply parser_variable_pending; eauto.
Qed.

Lemma parser_variable_marked msg g s x :
  WF s -> parser_variable msg s = (g, x) -> marked (mark_initialized x).
Proof.
  intros W H. apply (pending_mark s); auto.
  eapply parser_variable_pending; eauto.
Qed.

Lemma parser_variable_define_now msg g g' s x :
  parser_variable msg s = (g, x) -> sframe true s (define_variable g' x).
Proof. intros H. eapply parser_variable_define; eauto. apply frame_refl. Qed.



(* ================================================================= *)
(** * Statements keep the invariant *)

#[export] Hint Resolve sframe_weaken parser_variable_define_now parser_variable_mark : sframe.

(** [inner] along a sequence of steps, from the last one backwards. *)
Ltac inr :=
  solve [ repeat first
            [ eassumption
            | apply inner_begin; assumption
            | apply inner_set_loop
            | eapply inner_frame; [ | solve [ eauto 3 with frame ] ]
            | eapply inner_step; [ | solve [ eauto 3 with sframe ] ] ] ].

Lemma begin_scope_loop_start s :
  inner_most_loop_start (begin_scope s) = inner_most_loop_start s.
Proof. apply loop_start_with_current. Qed.

Lemma begin_scope_loop_scope s :
  inner_most_loop_scope_depth (begin_scope s) = inner_most_loop_scope_depth s.
Proof. apply loop_scope_with_current. Qed.

Lemma parameters_loop_sframe k s s' :
  parameters_loop k s = Some s' -> sframe true s s'.
Proof.
  revert s. induction k as [| k IH]; simpl; intros s H; [discriminate | ].
  destruct (parser_variable _ _) as [c x] eqn:E1.
  destruct (match_ COMMA _) as [m y] eqn:E2.
  assert (F : frame s (if arity (function (current (with_current incr_arity s))) >? 255
                       then error_at_current "Can't have more than 255 parameters!"
                              (with_current incr_arity s)
                       else with_current incr_arity s)).
  { eapply frame_trans; [ | apply cond_error_frame ].
    apply with_current_frame. intros c0. auto. }
  assert (S1 : sframe true s (define_variable c x)).
  { eapply sframe_trans; [ apply frame_sframe; exact F | ].
    eapply parser_variable_define_now; eauto. }
  clear F E1.
  destruct m.
  - apply IH in H. sfr.
  - inversion H; subst. sfr.
Qed.

#[export] Hint Resolve parameters_loop_sframe : sframe.

Section StatementFrame.

Variable n : nat.
Variable rec : Rec.
Hypothesis Hrec : sound rec.

Lemma statement_call_sframe s s' :
  statement_call rec s = Some s' -> sframe false s s'.
Proof. intros H. apply (Hrec Statement). exact H. Qed.

Lemma declaration_call_sframe s s' :
  declaration_call rec s = Some s' -> sframe true s s'.
Proof. intros H. apply (Hrec Declaration). exact H. Qed.

Hint Resolve statement_call_sframe declaration_call_sframe : sframe.

Lemma block_loop_sframe k s s' :
  block_loop rec k s = Some s' -> sframe true s s'.
Proof.
  revert s. induction k as [| k IH]; simpl; intros s H.
  - destruct (negb _ && negb _); [discriminate | inversion H; subst; sfr].
  - destruct (negb _ && negb _); [ | inversion H; subst; sfr].
    destruct (declaration_call rec s) as [s1 |] eqn:E; [ | discriminate ].
    apply IH in H. sfr.
Qed.

Hint Resolve block_loop_sframe : sframe.

Lemma block_sframe s s' : block n rec s = Some s' -> sframe true s s'.
Proof. unfold block. intros H. break_in H. sfr. Qed.

Hint Resolve block_sframe : sframe.

Lemma scoped_block s sB :
  block n rec (begin_scope s) = Some sB -> sframe false s (end_scope sB).
Proof.
  intros H W. apply block_sframe in H.
  assert (I : inner s (begin_scope s)) by (apply inner_begin; auto).
  destruct (H (in_wf _ _ I)) as [_ _ _ _ A D _ _ _].
  apply inner_end; auto.
  - eapply inner_step; eauto.
  - rewrite A. apply begin_scope_loop_start.
  - rewrite D. apply begin_scope_loop_scope.
Qed.

Hint Resolve scoped_block : sframe.

Lemma var_declaration_sframe s s' :
  var_declaration rec s = Some s' -> sframe true s s'.
Proof.
  unfold var_declaration. intros H. break_in H.
  - eapply parser_variable_define; eauto. fr.
  - eapply parser_variable_define; eauto. fr.
Qed.

Lemma expression_statement_frame s s' :
  expression_statement rec s = Some s' -> frame s s'.
Proof. unfold expression_statement. intros H. break_in H. fr. Qed.

Hint Resolve var_declaration_sframe : sframe.
Hint Resolve expression_statement_frame : frame.

(** The nested compiler is pushed, used and popped: the state of the
    enclosing compilers is left as an expression leaves it. *)
Lemma function_frame ty s s' :
  WF s -> function_ n rec ty s = Some s' -> frame s s'.
Proof.
  intros W H. unfold function_ in H.
  set (s1 := init_compiler ty s) in *.
  assert (W1 : WF s1).
  { unfold s1, init_compiler. split; simpl; [congruence | ].
    constructor; [ | apply W ].
    constructor; unfold slot0_reserved; simpl; auto; try lia.
    constructor; auto. simpl. lia. }
  assert (I : inner s1 (begin_scope s1)) by (apply inner_begin; auto).
  pose proof (in_wf _ _ I) as W2.
  set (s2 := begin_scope s1) in *.
  assert (T2 : tl (compilers s2) = compilers s) by (rewrite (in_tl _ _ I); reflexivity).
  assert (A2 : inner_most_loop_start s2 = inner_most_loop_start s)
    by (unfold s2; rewrite begin_scope_loop_start; reflexivity).
  assert (D2 : inner_most_loop_scope_depth s2 = inner_most_loop_scope_depth s)
    by (unfold s2; rewrite begin_scope_loop_scope; reflexivity).
  assert (E2 : had_error (parser s) = true -> had_error (parser s2) = true)
    by (intros; apply (in_err _ _ I); assumption).
  assert (G2 : good s -> good s2) by (intros; apply (in_good _ _ I); assumption).
  clearbody s2. clear I. clearbody s1.
  destruct (if negb _ then _ else _) as [sP |] eqn:EP; [ | discriminate ].
  destruct (block n rec _) as [sB |] eqn:EB; [ | discriminate ].
  unfold end_compiler in H.
  destruct (make_constant _ _) as [c sC] eqn:EC.
  inversion H; subst; clear H.
  assert (P : sframe true s2 sP).
  { destruct (negb _); [ | inversion EP; subst ]; sfr. }
  assert (B : sframe true s2 sB) by sfr.
  destruct (B W2) as [_ BT _ _ BA BD BE BG _].
  assert (F : frame s (set_compilers (tl (compilers (emit_return sB)))
                                     (emit_return sB))).
  { destruct (emit_return_frame sB) as [RT _ _ _ _ RA RD RE RG].
    assert (Hc : tl (compilers (emit_return sB)) = compilers s) by congruence.
    rewrite Hc. constructor; simpl; auto; try congruence. }
  fr.
Qed.

Lemma func_declaration_sframe s s' :
  func_declaration n rec s = Some s' -> sframe true s s'.
Proof.
  unfold func_declaration. intros H.
  destruct (parser_variable _ s) as [g x] eqn:E1.
  destruct (function_ n rec TYPE_FUNCTION (mark_initialized x)) as [y |] eqn:E2;
    [ | discriminate ].
  inversion H; subst; clear H.
  intros W.
  pose proof (parser_variable_mark _ _ _ _ E1) as M.
  pose proof (parser_variable_marked _ _ _ _ W E1) as K.
  destruct (M W) as [W1 _ _ _ _ _ _ _ _].
  pose proof (function_frame _ _ _ W1 E2) as F.
  pose proof (marked_define_frame g y (marked_frame _ _ K F)) as F2.
  assert (R : sframe true s (define_variable g y)) by sfr.
  exact (R W).
Qed.

Hint Resolve func_declaration_sframe : sframe.

Lemma for_initializer_sframe s s' :
  for_initializer rec s = Some s' -> sframe true s s'.
Proof. unfold for_initializer. intros H. break_in H; sfr. Qed.

Lemma for_condition_frame s r s' :
  for_condition rec s = Some (r, s') -> frame s s'.
Proof. unfold for_condition. intros H. break_in H; fr. Qed.

Hint Resolve for_initializer_sframe : sframe.
Hint Resolve for_condition_frame : frame.

Lemma for_increment_inner s0 s s' :
  inner s0 s -> for_increment rec s = Some s' -> inner s0 s'.
Proof.
  unfold for_increment. intros I H. break_in H; inr.
Qed.

Lemma for_statement_sframe s s' :
  for_statement rec s = Some s' -> sframe false s s'.
Proof.
  unfold for_statement. intros H W.
  destruct (for_initializer rec _) as [x2 |] eqn:E1; [ | discriminate ].
  destruct (for_condition rec _) as [[ej x4] |] eqn:E2; [ | discriminate ].
  destruct (for_increment rec x4) as [x5 |] eqn:E3; [ | discriminate ].
  destruct (statement_call rec x5) as [x6 |] eqn:E4; [ | discriminate ].
  inversion H; subst; clear H.
  assert (I2 : inner s x2) by inr.
  assert (S2 : sframe true (begin_scope s) x2) by sfr.
  destruct (S2 (in_wf _ _ (inner_begin s W))) as [_ _ _ _ A2 D2 _ _ _].
  rewrite begin_scope_loop_start in A2. rewrite begin_scope_loop_scope in D2.
  assert (I4 : inner s x4) by inr.
  pose proof (for_increment_inner _ _ _ I4 E3) as I5.
  apply inner_end; auto.
  destruct (negb (ej =? -1)); inr.
Qed.

Hint Resolve for_statement_sframe : sframe.

Lemma if_statement_sframe s s' :
  if_statement rec s = Some s' -> sframe false s s'.
Proof. unfold if_statement. intros H. break_in H; sfr. Qed.

Lemma info_statement_frame s s' :
  info_statement rec s = Some s' -> frame s s'.
Proof. unfold info_statement. intros H. break_in H; fr. Qed.

Lemma return_statement_frame s s' :
  return_statement rec s = Some s' -> frame s s'.
Proof.
  unfold return_statement. intros H.
  assert (F : frame s (match type (current s) with
                       | TYPE_SCRIPT => error "Can't return from top-level code!" s
                       | TYPE_FUNCTION => s
                       end)).
  { destruct (type (current s)); [ apply frame_refl | apply error_frame ]. }
  destruct (match_ SEMICOLON _) as [m x] eqn:E. destruct m.
  - inversion H; subst. fr.
  - break_in H. fr.
Qed.

Lemma while_statement_sframe s s' :
  while_statement rec s = Some s' -> sframe false s s'.
Proof. unfold while_statement. intros H. break_in H; sfr. Qed.

Hint Resolve if_statement_sframe while_statement_sframe : sframe.
Hint Resolve info_statement_frame return_statement_frame : frame.

Lemma statement_sframe s s' :
  statement n rec s = Some s' -> sframe false s s'.
Proof. unfold statement. intros H. break_in H; sfr. Qed.

Lemma declaration_sframe s s' :
  declaration n rec s = Some s' -> sframe true s s'.
Proof. unfold declaration. intros H. break_in H; sfr. Qed.

Lemma step_sound : sound (step n rec).
Proof.
  intros [p | | ] s s' H; simpl in *.
  - eapply parse_precedence_frame; eauto.
  - apply statement_sframe; auto.
  - apply declaration_sframe; auto.
Qed.

Lemma compile_loop_sframe k s s' :
  compile_loop rec k s = Some s' -> sframe true s s'.
Proof.
  revert s. induction k as [| k IH]; simpl; intros s H.
  - destruct (match_ EOF_TOKEN s) as [m x] eqn:E. destruct m; [ | discriminate ].
    inversion H; subst. sfr.
  - destruct (match_ EOF_TOKEN s) as [m x] eqn:E. destruct m.
    + inversion H; subst. sfr.
    + destruct (declaration_call rec x) as [y |] eqn:E2; [ | discriminate ].
      apply IH in H. sfr.
Qed.

End StatementFrame.

(** Every call of the compiler meets its postcondition. *)
Lemma run_sound fuel : sound (run fuel).
Proof.
  induction fuel as [| fuel IH].
  - intros c s s' H. discriminate H.
  - simpl. apply step_sound. exact IH.
Qed.



(* ================================================================= *)
(** * Tokens are only ever consumed *)

Create HintDb tle discriminated.

Lemma quiet_refl s : quiet s s.
Proof. constructor; reflexivity. Qed.

Lemma quiet_trans s1 s2 s3 : quiet s1 s2 -> quiet s2 s3 -> quiet s1 s3.
Proof. intros [] []. constructor; congruence. Qed.

Lemma quiet_parser s s' : parser s' = parser s -> quiet s s'.
Proof. intros H. constructor; rewrite H; reflexivity. Qed.

Lemma quiet_check k s s' : quiet s s' -> check k s' = check k s.
Proof. intros []. unfold check. congruence. Qed.

Lemma quiet_remaining s s' : quiet s s' -> remaining s' = remaining s.
Proof.
  intros Q. unfold remaining. rewrite (quiet_check _ _ _ Q).
  destruct Q as [-> _ _]. reflexivity.
Qed.

Lemma quiet_tle s s' : quiet s s' -> tle s s'.
Proof. intros Q. unfold tle. rewrite (quiet_remaining _ _ Q). lia. Qed.

Lemma tle_refl s : tle s s.
Proof. unfold tle. lia. Qed.

Lemma tle_trans s1 s2 s3 : tle s1 s2 -> tle s2 s3 -> tle s1 s3.
Proof. unfold tle. lia. Qed.

Lemma quiet_with_current f s : quiet s (with_current f s).
Proof. apply quiet_parser, parser_with_current. Qed.

Lemma quiet_error msg s : quiet s (error msg s).
Proof.
  unfold error. destruct (panic_mode (parser s)); constructor; reflexivity.
Qed.

Lemma quiet_cond_error (b : bool) msg s : quiet s (if b then error msg s else s).
Proof. destruct b; [apply quiet_error | apply quiet_refl]. Qed.

Lemma quiet_emit_byte b s : quiet s (emit_byte b s).
Proof. apply quiet_with_current. Qed.

Lemma quiet_emit_bytes b1 b2 s : quiet s (emit_bytes b1 b2 s).
Proof. unfold emit_bytes. eapply quiet_trans; apply quiet_emit_byte. Qed.

Lemma quiet_emit_loop l s : quiet s (emit_loop l s).
Proof.
  unfold emit_loop.
  eapply quiet_trans; [ | apply quiet_emit_byte ].
  eapply quiet_trans; [ | apply quiet_emit_byte ].
  eapply quiet_trans; [ | apply quiet_cond_error ].
  apply quiet_emit_byte.
Qed.

Lemma quiet_emit_jump b s j s' : emit_jump b s = (j, s') -> quiet s s'.
Proof.
  unfold emit_jump. intros H. inversion H; subst.
  eapply quiet_trans; [ | apply quiet_emit_byte ].
  eapply quiet_trans; [ | apply quiet_emit_byte ].
  apply quiet_emit_byte.
Qed.

Lemma quiet_make_constant v s c s' : make_constant v s = (c, s') -> quiet s s'.
Proof.
  unfold make_constant. destruct (add_constant (compiling_chunk s) v) as [ch k].
  destruct (k >? UINT8_MAX); intros H; inversion H; subst.
  - eapply quiet_trans; [ apply quiet_with_current | apply quiet_error ].
  - apply quiet_with_current.
Qed.

Lemma quiet_emit_return s : quiet s (emit_return s).
Proof. unfold emit_return. eapply quiet_trans; apply quiet_emit_byte. Qed.

Lemma quiet_emit_constant v s : quiet s (emit_constant v s).
Proof.
  unfold emit_constant. destruct (make_constant v s) as [c s1] eqn:E.
  eapply quiet_trans; [ eapply quiet_make_constant; eauto | apply quiet_emit_bytes ].
Qed.

Lemma quiet_patch_jump o s : quiet s (patch_jump o s).
Proof.
  unfold patch_jump.
  eapply quiet_trans; [ | apply quiet_with_current ].
  eapply quiet_trans; [ | apply quiet_with_current ].
  apply quiet_cond_error.
Qed.

Lemma quiet_identifier_constant nm s c s' :
  identifier_constant nm s = (c, s') -> quiet s s'.
Proof. apply quiet_make_constant. Qed.

Lemma quiet_resolve_local_from i ls nm s r s' :
  resolve_local_from i ls nm s = (r, s') -> quiet s s'.
Proof.
  revert s. induction i as [| j IH]; simpl; intros s H.
  - inversion H; subst. apply quiet_refl.
  - destruct (nth_error ls j) as [l |].
    + destruct (identifiers_equal nm (l_name l)).
      * inversion H; subst. apply quiet_refl.
      * apply IH in H. eapply quiet_trans; [ apply quiet_cond_error | exact H ].
    + inversion H; subst. apply quiet_refl.
Qed.

Lemma quiet_resolve_local c nm s r s' :
  resolve_local c nm s = (r, s') -> quiet s s'.
Proof. apply quiet_resolve_local_from. Qed.

Lemma quiet_discard_locals i ls d s : quiet s (discard_locals i ls d s).
Proof.
  revert s. induction i as [| j IH]; simpl; intros s.
  - apply quiet_refl.
  - destruct (nth_error ls j) as [l |]; [ | apply quiet_refl ].
    destruct (depth l >? d); [ | apply quiet_refl ].
    eapply quiet_trans; [ apply quiet_emit_byte | apply IH ].
Qed.

Lemma quiet_declare_scan i ls d nm s : quiet s (declare_scan i ls d nm s).
Proof.
  revert s. induction i as [| j IH]; simpl; intros s.
  - apply quiet_refl.
  - destruct (nth_error ls j) as [l |]; [ | apply quiet_refl ].
    destruct (negb (depth l =? -1) && (depth l <? d)); [ apply quiet_refl | ].
    eapply quiet_trans; [ apply quiet_cond_error | apply IH ].
Qed.

Lemma quiet_add_local nm s : quiet s (add_local nm s).
Proof.
  unfold add_local. destruct (_ =? _).
  - apply quiet_error.
  - apply quiet_with_current.
Qed.

Lemma quiet_declare_variable s : quiet s (declare_variable s).
Proof.
  unfold declare_variable. destruct (_ =? _).
  - apply quiet_refl.
  - eapply quiet_trans; [ apply quiet_declare_scan | ].
    set (x := declare_scan _ _ _ _ s).
    assert (Q : quiet x (add_local (previous (parser s)) x)) by apply quiet_add_local.
    exact Q.
Qed.

Lemma quiet_mark_initialized s : quiet s (mark_initialized s).
Proof.
  unfold mark_initialized. destruct (_ =? _).
  - apply quiet_refl.
  - apply quiet_with_current.
Qed.

Lemma quiet_define_variable g s : quiet s (define_variable g s).
Proof.
  unfold define_variable. destruct (_ >? _).
  - apply quiet_mark_initialized.
  - apply quiet_emit_bytes.
Qed.

Lemma quiet_begin_scope s : quiet s (begin_scope s).
Proof. apply quiet_with_current. Qed.

Lemma quiet_end_scope_loop k s : quiet s (end_scope_loop k s).
Proof.
  revert s. induction k as [| k IH]; simpl; intros s.
  - apply quiet_refl.
  - destruct (nth_error _ _) as [l |]; [ | apply quiet_refl ].
    destruct (_ && _); [ | apply quiet_refl ].
    eapply quiet_trans; [ | apply IH ].
    eapply quiet_trans; [ apply quiet_emit_byte | apply quiet_with_current ].
Qed.

Lemma quiet_end_scope s : quiet s (end_scope s).
Proof.
  unfold end_scope.
  eapply quiet_trans; [ apply quiet_with_current | apply quiet_end_scope_loop ].
Qed.

Lemma quiet_init_compiler ty s : quiet s (init_compiler ty s).
Proof. apply quiet_parser. reflexivity. Qed.

Lemma quiet_end_compiler s f s' : end_compiler s = (f, s') -> quiet s s'.
Proof.
  unfold end_compiler. intros H. inversion H; subst.
  eapply quiet_trans; [ apply quiet_emit_return | apply quiet_parser; reflexivity ].
Qed.

Lemma quiet_set_loop a b s : quiet s (set_loop a b s).
Proof. apply quiet_parser. reflexivity. Qed.

#[export] Hint Resolve quiet_with_current quiet_error quiet_cond_error
  quiet_emit_byte quiet_emit_bytes quiet_emit_loop quiet_emit_jump
  quiet_make_constant quiet_emit_return quiet_emit_constant quiet_patch_jump
  quiet_identifier_constant quiet_resolve_local quiet_discard_locals
  quiet_add_local quiet_declare_variable quiet_mark_initialized
  quiet_define_variable quiet_begin_scope quiet_end_scope quiet_init_compiler
  quiet_end_compiler quiet_set_loop : tle.

(** ** Steps that consume *)

Lemma kind_is_true k t : kind_is k t = true -> kind t = k.
Proof. unfold kind_is. apply internal_TokenKind_dec_bl. Qed.

Lemma kind_is_refl t : kind_is (kind t) t = true.
Proof. unfold kind_is. apply internal_TokenKind_dec_lb. reflexivity. Qed.

Lemma advance_tle s : tle s (advance s).
Proof.
  unfold tle, remaining, advance, check.
  destruct (rest (parser s)); simpl.
  - destruct (kind_is EOF_TOKEN (current_tok (parser s))); simpl; lia.
  - destruct (kind_is EOF_TOKEN t), (kind_is EOF_TOKEN (current_tok (parser s)));
      simpl; lia.
Qed.

(** [advance] consumes a token unless it stands at the end of file. *)
Lemma advance_lt s :
  check EOF_TOKEN s = false -> (remaining (advance s) < remaining s)%nat.
Proof.
  unfold remaining, advance, check. intros H. rewrite H.
  destruct (rest (parser s)); simpl.
  - lia.
  - destruct (kind_is EOF_TOKEN t); simpl; lia.
Qed.

Lemma check_not_eof k s : check k s = true -> k <> EOF_TOKEN -> check EOF_TOKEN s = false.
Proof.
  unfold check. intros H Hk. apply kind_is_true in H.
  destruct (kind_is EOF_TOKEN _) eqn:E; auto.
  apply kind_is_true in E. congruence.
Qed.

Lemma consume_tle k msg s : tle s (consume k msg s).
Proof.
  unfold consume. destruct (check k s).
  - apply advance_tle.
  - apply quiet_tle, quiet_error.
Qed.

Lemma match_tle k s m s' : match_ k s = (m, s') -> tle s s'.
Proof.
  unfold match_. destruct (check k s); intros H; inversion H; subst.
  - apply advance_tle.
  - apply tle_refl.
Qed.

Lemma match_false k s m s' : match_ k s = (m, s') -> m = false -> s' = s.
Proof.
  unfold match_. destruct (check k s); intros H; inversion H; subst; congruence.
Qed.

Lemma match_false_check k s s' : match_ k s = (false, s') -> check k s = false.
Proof.
  unfold match_. destruct (check k s); intros H; inversion H; auto.
Qed.

Lemma match_true_lt k s s' :
  match_ k s = (true, s') -> k <> EOF_TOKEN ->
  (remaining s' < remaining s)%nat.
Proof.
  unfold match_. destruct (check k s) eqn:E; intros H Hk; inversion H; subst.
  apply advance_lt. eapply check_not_eof; eauto.
Qed.

Lemma parser_variable_tle msg s g s' : parser_variable msg s = (g, s') -> tle s s'.
Proof.
  unfold parser_variable. intros H.
  assert (T : tle s (declare_variable (consume IDENTIFIER msg s))).
  { eapply tle_trans; [ apply consume_tle | apply quiet_tle, quiet_declare_variable ]. }
  destruct (_ >? 0).
  - inversion H; subst. exact T.
  - apply quiet_identifier_constant in H.
    eapply tle_trans; [ exact T | apply quiet_tle, H ].
Qed.

Lemma synchronize_loop_tle k s : tle s (synchronize_loop k s).
Proof.
  revert s. induction k as [| k IH]; simpl; intros s.
  - apply tle_refl.
  - destruct (negb (check EOF_TOKEN s)); [ | apply tle_refl ].
    destruct (kind_is SEMICOLON (previous (parser s))); [ apply tle_refl | ].
    destruct (return_context (kind (current_tok (parser s)))); [ apply tle_refl | ].
    eapply tle_trans; [ apply advance_tle | apply IH ].
Qed.

Lemma set_panic_mode_quiet b s : quiet s (set_panic_mode b s).
Proof. constructor; reflexivity. Qed.

Lemma synchronize_tle s : tle s (synchronize s).
Proof.
  unfold synchronize.
  eapply tle_trans; [ apply quiet_tle, set_panic_mode_quiet | apply synchronize_loop_tle ].
Qed.

Lemma panic_advance s : panic_mode (parser (advance s)) = panic_mode (parser s).
Proof. unfold advance. destruct (rest (parser s)); reflexivity. Qed.

Lemma synchronize_loop_panic k s :
  panic_mode (parser (synchronize_loop k s)) = panic_mode (parser s).
Proof.
  revert s. induction k as [| k IH]; simpl; intros s; auto.
  destruct (negb (check EOF_TOKEN s)); auto.
  destruct (kind_is SEMICOLON (previous (parser s))); auto.
  destruct (return_context (kind (current_tok (parser s)))); auto.
  rewrite IH. apply panic_advance.
Qed.

Lemma synchronize_panic s : panic_mode (parser (synchronize s)) = false.
Proof. unfold synchronize. rewrite synchronize_loop_panic. reflexivity. Qed.

Lemma continue_statement_tle s : tle s (continue_statement s).
Proof.
  unfold continue_statement. destruct (_ =? _).
  - apply quiet_tle, quiet_error.
  - eapply tle_trans; [ | apply consume_tle ].
    apply quiet_tle.
    eapply quiet_trans; [ apply quiet_discard_locals | apply quiet_emit_loop ].
Qed.

Lemma break_statement_tle s : tle s (break_statement s).
Proof.
  unfold break_statement. destruct (_ =? _).
  - apply quiet_tle, quiet_error.
  - eapply tle_trans; [ | apply consume_tle ].
    apply quiet_tle.
    eapply quiet_trans; [ apply quiet_discard_locals | apply quiet_emit_byte ].
Qed.

Lemma using_statement_tle s : tle s (using_statement s).
Proof.
  unfold using_statement.
  eapply tle_trans; [ | apply quiet_tle, quiet_emit_byte ].
  eapply tle_trans; [ | apply quiet_tle, quiet_emit_constant ].
  eapply tle_trans; apply consume_tle.
Qed.

#[export] Hint Resolve quiet_tle advance_tle consume_tle match_tle
  parser_variable_tle synchronize_tle continue_statement_tle
  break_statement_tle using_statement_tle : tle.

(** [tle] along a sequence of steps, from the last one backwards. *)
Ltac tl_chain :=
  solve [ repeat first
            [ apply tle_refl
            | eassumption
            | eapply tle_trans; [ | solve [ eauto 3 with tle ] ] ] ].



(* ================================================================= *)
(** * The compiler returns *)

Lemma precedence_nonneg k : 0 <= precedence (get_rule k).
Proof. destruct k; simpl; unfold PREC_NONE, PREC_CALL, PREC_TERM, PREC_FACTOR,
  PREC_POWER, PREC_EQUALITY, PREC_COMPARISON, PREC_AND, PREC_OR; lia. Qed.

(** Every token that binds has an infix rule. *)
Lemma infix_defined k :
  1 <= precedence (get_rule k) -> exists f, infix (get_rule k) = Some f.
Proof.
  destruct k; simpl; unfold PREC_NONE; intros H; try lia; eauto.
Qed.

Lemma binding_not_eof p s :
  1 <= p -> p <= precedence (get_rule (kind (current_tok (parser s)))) ->
  check EOF_TOKEN s = false.
Proof.
  intros H1 H2. unfold check. destruct (kind_is EOF_TOKEN _) eqn:E; auto.
  apply kind_is_true in E. rewrite E in H2. simpl in H2. unfold PREC_NONE in H2. lia.
Qed.

Lemma previous_advance s : previous (parser (advance s)) = current_tok (parser s).
Proof. unfold advance. destruct (rest (parser s)); reflexivity. Qed.

Lemma prefix_not_eof s f :
  prefix (get_rule (kind (previous (parser (advance s))))) = Some f ->
  check EOF_TOKEN s = false.
Proof.
  rewrite previous_advance. intros H. unfold check.
  destruct (kind_is EOF_TOKEN _) eqn:E; auto.
  apply kind_is_true in E. rewrite E in H. discriminate.
Qed.

(** The side condition of a recursive call on [x], reached from [s0]. *)
Ltac side s0 :=
  match goal with
  | |- (3 * remaining ?x + _ <= _)%nat =>
      let T := fresh "T" in
      assert (T : tle s0 x) by tl_chain; unfold tle in T; lia
  | |- (remaining ?x + _ <= _)%nat =>
      let T := fresh "T" in
      assert (T : tle s0 x) by tl_chain; unfold tle in T; lia
  | |- (weight ?x <= _)%nat =>
      let T := fresh "T" in
      assert (T : tle s0 x) by tl_chain; unfold tle in T;
      unfold weight; destruct (panic_mode (parser x)); lia
  end.

(** The end of a symbolic run: the final state and its distance to [s0]. *)
Ltac finish :=
  eexists; split; [ reflexivity | tl_chain ].

Ltac split_match :=
  match goal with
  | |- context [match ?e with _ => _ end] =>
      lazymatch e with
      | context [match _ with _ => _ end] => fail
      | _ => destruct e eqn:?
      end
  end.

Section Total.

Variable n m : nat.
Variable rec : Rec.
Hypothesis Hadq : adequate rec m.
Hypothesis Hn : (m <= n)%nat.

Set Default Proof Using "All".

Lemma parse_precedence_call_total p s :
  1 <= p -> (3 * remaining s + 1 <= m)%nat ->
  exists s', parse_precedence_call rec p s = Some s' /\ tle s s' /\
             (check EOF_TOKEN s = false -> (remaining s' < remaining s)%nat).
Proof.
  intros Hp Hm. destruct (Hadq (ParsePrecedence p) s) as (s' & E & T1 & T2);
    simpl; auto.
  exists s'. auto.
Qed.

Lemma expression_total s :
  (3 * remaining s + 1 <= m)%nat ->
  exists s', expression rec s = Some s' /\ tle s s' /\
             (check EOF_TOKEN s = false -> (remaining s' < remaining s)%nat).
Proof. apply parse_precedence_call_total. unfold PREC_ASSIGNMENT. lia. Qed.

Lemma statement_call_total s :
  (3 * remaining s + 2 <= m)%nat ->
  exists s', statement_call rec s = Some s' /\ tle s s' /\
             (check EOF_TOKEN s = false -> (remaining s' < remaining s)%nat).
Proof.
  intros Hm. destruct (Hadq Statement s) as (s' & E & T1 & T2); simpl; auto.
  exists s'. auto.
Qed.

Lemma declaration_call_total s :
  (3 * remaining s + 3 <= m)%nat ->
  exists s', declaration_call rec s = Some s' /\ tle s s' /\
             (check EOF_TOKEN s = false -> (weight s' < weight s)%nat).
Proof.
  intros Hm. destruct (Hadq Declaration s) as (s' & E & T1 & T2); simpl; auto.
  exists s'. repeat split; auto.
  intros He. specialize (T2 He). unfold tle, weight in *.
  destruct (panic_mode (parser s)).
  - rewrite T2. lia.
  - destruct (panic_mode (parser s')); lia.
Qed.

(** One step of the symbolic run of a function body from [s0]. *)
Ltac call_step s0 :=
  cbv beta iota zeta;
  match goal with
  | |- context [parse_precedence_call rec ?p ?x] =>
      let y := fresh "y" in let E := fresh "E" in let T := fresh "T" in
      destruct (parse_precedence_call_total p x) as (y & E & T & _);
      [ first [ lia | unfold PREC_AND, PREC_OR, PREC_UNARY; lia
              | pose proof (precedence_nonneg (kind (previous (parser x)))); lia ]
      | side s0 | rewrite E ]
  | |- context [expression rec ?x] =>
      let y := fresh "y" in let E := fresh "E" in let T := fresh "T" in
      destruct (expression_total x) as (y & E & T & _);
      [ side s0 | rewrite E ]
  | |- context [statement_call rec ?x] =>
      let y := fresh "y" in let E := fresh "E" in let T := fresh "T" in
      destruct (statement_call_total x) as (y & E & T & _);
      [ side s0 | rewrite E ]
  | _ => split_match
  end.

Lemma argument_loop_total k a s :
  (remaining s + 1 <= k)%nat -> (3 * remaining s + 1 <= m)%nat ->
  exists r s', argument_loop rec k a s = Some (r, s') /\ tle s s'.
Proof.
  revert a s. induction k as [| k IH]; intros a s Hk Hm; [lia | ].
  simpl. destruct (expression_total s Hm) as (y & E & T & _). rewrite E.
  destruct (match_ COMMA _) as [mt z] eqn:E2.
  assert (Tz : tle s z) by tl_chain.
  destruct mt.
  - assert (L : (remaining z < remaining s)%nat).
    { apply match_true_lt in E2; [ | discriminate ].
      assert (T' : tle s (if a =? 255
                          then error "Can't have more than 255 arguments" y else y))
        by tl_chain.
      unfold tle in *. lia. }
    destruct (IH ((a + 1) mod 256) z) as (r & s' & E3 & T3); try lia.
    exists r, s'. split; auto. tl_chain.
  - exists ((a + 1) mod 256), z. split; auto.
Qed.

Lemma argument_list_total s :
  (3 * remaining s + 1 <= m)%nat ->
  exists r s', argument_list n rec s = Some (r, s') /\ tle s s'.
Proof.
  intros Hm. unfold argument_list.
  destruct (negb (check RIGHT_PAREN s)).
  - destruct (argument_loop_total n 0 s) as (r & y & E & T); try lia.
    rewrite E. eexists _, _. split; [ reflexivity | tl_chain ].
  - eexists _, _. split; [ reflexivity | tl_chain ].
Qed.

Lemma and_total ca s :
  (3 * remaining s + 1 <= m)%nat ->
  exists s', and_ rec ca s = Some s' /\ tle s s'.
Proof. intros Hm. unfold and_. repeat call_step s. finish. Qed.

Lemma binary_total ca s :
  (3 * remaining s + 1 <= m)%nat ->
  exists s', binary rec ca s = Some s' /\ tle s s'.
Proof.
  intros Hm. unfold binary. call_step s.
  destruct (kind (previous (parser s))); finish.
Qed.

Lemma literal_total ca s : exists s', literal ca s = Some s' /\ tle s s'.
Proof. unfold literal. destruct (kind (previous (parser s))); finish. Qed.

Lemma grouping_total ca s :
  (3 * remaining s + 1 <= m)%nat ->
  exists s', grouping rec ca s = Some s' /\ tle s s'.
Proof. intros Hm. unfold grouping. repeat call_step s. finish. Qed.

Lemma named_variable_total nm ca s :
  (3 * remaining s + 1 <= m)%nat ->
  exists s', named_variable rec nm ca s = Some s' /\ tle s s'.
Proof. intros Hm. unfold named_variable. repeat call_step s; finish. Qed.

Lemma _number_total ca s : exists s', _number ca s = Some s' /\ tle s s'.
Proof. unfold _number. finish. Qed.

Lemma or_total ca s :
  (3 * remaining s + 1 <= m)%nat ->
  exists s', or_ rec ca s = Some s' /\ tle s s'.
Proof. intros Hm. unfold or_. repeat call_step s. finish. Qed.

Lemma _string_total ca s : exists s', _string ca s = Some s' /\ tle s s'.
Proof. unfold _string. finish. Qed.

Lemma unary_total ca s :
  (3 * remaining s + 1 <= m)%nat ->
  exists s', unary rec ca s = Some s' /\ tle s s'.
Proof.
  intros Hm. unfold unary. call_step s.
  destruct (kind (previous (parser s))); finish.
Qed.

Lemma call_total ca s :
  (3 * remaining s + 1 <= m)%nat ->
  exists s', call n rec ca s = Some s' /\ tle s s'.
Proof.
  intros Hm. unfold call.
  destruct (argument_list_total s Hm) as (r & y & E & T). rewrite E. finish.
Qed.

Lemma apply_rule_total f ca s :
  (3 * remaining s + 1 <= m)%nat ->
  exists s', apply_rule n rec f ca s = Some s' /\ tle s s'.
Proof.
  intros Hm. destruct f; simpl.
  - apply grouping_total; auto.
  - apply call_total; auto.
  - apply unary_total; auto.
  - apply binary_total; auto.
  - apply named_variable_total; auto.
  - apply _string_total.
  - apply _number_total.
  - apply and_total; auto.
  - apply or_total; auto.
  - apply literal_total.
Qed.

Lemma infix_loop_total k p ca s :
  1 <= p -> (remaining s <= k)%nat -> (3 * remaining s <= m + 2)%nat ->
  exists s', infix_loop n rec k p ca s = Some s' /\ tle s s'.
Proof.
  intros Hp. revert s. induction k as [| k IH]; intros s Hk Hm; simpl.
  - destruct (Z.leb_spec p (precedence (get_rule (kind (current_tok (parser s))))))
      as [H | H].
    + pose proof (binding_not_eof p s Hp H) as He.
      unfold remaining in Hk. rewrite He in Hk. lia.
    + finish.
  - destruct (Z.leb_spec p (precedence (get_rule (kind (current_tok (parser s))))))
      as [H | H]; [ | finish ].
    pose proof (binding_not_eof p s Hp H) as He.
    pose proof (advance_lt s He) as L.
    destruct (infix_defined (kind (current_tok (parser s)))) as (f & Ef); [lia | ].
    rewrite previous_advance, Ef.
    destruct (apply_rule_total f ca (advance s)) as (y & E & T); [lia | ].
    rewrite E. unfold tle in T.
    destruct (IH y) as (s' & E' & T'); try lia.
    exists s'. split; auto. unfold tle in *. lia.
Qed.

Lemma parse_precedence_total p s :
  1 <= p -> (3 * remaining s <= m)%nat ->
  exists s', parse_precedence n rec p s = Some s' /\
             tpost (ParsePrecedence p) s s'.
Proof.
  intros Hp Hm. unfold parse_precedence. cbv zeta.
  assert (Goal' : exists s', match prefix (get_rule (kind (previous (parser (advance s))))) with
            | Some prefix_rule =>
                s0 <- apply_rule n rec prefix_rule (p <=? PREC_ASSIGNMENT) (advance s);;
                s1 <- infix_loop n rec n p (p <=? PREC_ASSIGNMENT) s0;;
                (if p <=? PREC_ASSIGNMENT
                 then let (m0, s2) := match_ EQUAL s1 in
                      Some (if m0 then error "Invalid assignment target." s2 else s2)
                 else Some s1)
            | None => Some (error "Expect expression." (advance s))
            end = Some s' /\ tle (advance s) s').
  { destruct (prefix _) as [f |] eqn:Ep.
    - pose proof (prefix_not_eof s f Ep) as He.
      pose proof (advance_lt s He) as L.
      destruct (apply_rule_total f (p <=? PREC_ASSIGNMENT) (advance s))
        as (y & E & T); [lia | ].
      rewrite E. unfold tle in T.
      destruct (infix_loop_total n p (p <=? PREC_ASSIGNMENT) y Hp)
        as (z & E2 & T2); try lia.
      rewrite E2. fold (tle (advance s) y) in T.
      destruct (p <=? PREC_ASSIGNMENT).
      + destruct (match_ EQUAL z) as [mt w] eqn:E3. destruct mt; finish.
      + finish.
    - finish. }
  destruct Goal' as (s' & E & T). exists s'. split; auto.
  split.
  - eapply tle_trans; [ apply advance_tle | exact T ].
  - intros He. pose proof (advance_lt s He). unfold tle in T. lia.
Qed.

Unset Default Proof Using.

End Total.



Lemma parameters_loop_total k s :
  (remaining s + 1 <= k)%nat ->
  exists s', parameters_loop k s = Some s' /\ tle s s'.
Proof.
  revert s. induction k as [| k IH]; intros s Hk; [lia | ].
  simpl.
  destruct (parser_variable _ _) as [c x] eqn:E1.
  destruct (match_ COMMA _) as [mt y] eqn:E2.
  assert (T : tle s y) by tl_chain.
  destruct mt.
  - assert (L : (remaining y < remaining s)%nat).
    { apply match_true_lt in E2; [ | discriminate ].
      assert (T' : tle s (define_variable c x)) by tl_chain.
      unfold tle in *. lia. }
    destruct (IH y) as (s' & E3 & T3); try lia.
    exists s'. split; auto. tl_chain.
  - exists y. auto.
Qed.

Section TotalStatements.

Variable n m : nat.
Variable rec : Rec.
Hypothesis Hadq : adequate rec m.
Hypothesis Hn : (m <= n)%nat.

Set Default Proof Using "All".

(** One step of the symbolic run of a statement body from [s0]. *)
Ltac stmt_step s0 :=
  cbv beta iota zeta;
  match goal with
  | |- context [expression rec ?x] =>
      let y := fresh "y" in let E := fresh "E" in let T := fresh "T" in
      destruct (expression_total n m rec Hadq Hn x) as (y & E & T & _);
      [ side s0 | rewrite E ]
  | |- context [statement_call rec ?x] =>
      let y := fresh "y" in let E := fresh "E" in let T := fresh "T" in
      destruct (statement_call_total n m rec Hadq Hn x) as (y & E & T & _);
      [ side s0 | rewrite E ]
  | _ => split_match
  end.

Lemma block_loop_total k s :
  (weight s <= k)%nat -> (3 * remaining s + 3 <= m)%nat ->
  exists s', block_loop rec k s = Some s' /\ tle s s'.
Proof.
  revert s. induction k as [| k IH]; intros s Hk Hm; simpl.
  - destruct (negb (check RIGHT_BRACE s) && negb (check EOF_TOKEN s)) eqn:C;
      [ | finish ].
    apply andb_true_iff in C. destruct C as [_ C].
    apply negb_true_iff in C.
    unfold weight, remaining in Hk. rewrite C in Hk. lia.
  - destruct (negb (check RIGHT_BRACE s) && negb (check EOF_TOKEN s)) eqn:C;
      [ | finish ].
    apply andb_true_iff in C. destruct C as [_ C].
    apply negb_true_iff in C.
    destruct (declaration_call_total n m rec Hadq Hn s Hm) as (y & E & T & W).
    rewrite E. specialize (W C). unfold tle in T.
    destruct (IH y) as (s' & E' & T'); try lia.
    exists s'. split; auto. unfold tle in *. lia.
Qed.

Lemma block_total s :
  (3 * remaining s + 3 <= m)%nat ->
  exists s', block n rec s = Some s' /\ tle s s'.
Proof.
  intros Hm. unfold block.
  destruct (block_loop_total n s) as (y & E & T); auto.
  { unfold weight. destruct (panic_mode (parser s)); lia. }
  rewrite E. finish.
Qed.

Lemma function_total ty s :
  (3 * remaining s + 3 <= m)%nat ->
  exists s', function_ n rec ty s = Some s' /\ tle s s'.
Proof.
  intros Hm. unfold function_. cbv zeta.
  set (x := consume LEFT_PAREN _ (begin_scope (init_compiler ty s))).
  assert (Tx : tle s x) by (unfold x; tl_chain).
  assert (P : exists y, (if negb (check RIGHT_PAREN x)
                         then parameters_loop n x else Some x) = Some y /\ tle x y).
  { destruct (negb (check RIGHT_PAREN x)); [ | finish ].
    apply parameters_loop_total. unfold tle in Tx. lia. }
  destruct P as (y & E & Ty). rewrite E.
  destruct (block_total (consume LEFT_BRACE "Expected a '{' after a function body!"
              (consume RIGHT_PAREN "Expected a ')' after parameters!" y)))
    as (z & E2 & Tz).
  { side s. }
  rewrite E2.
  destruct (end_compiler z) as [f w] eqn:E3.
  destruct (make_constant (OBJ_VAL f) w) as [c v] eqn:E4.
  finish.
Qed.

Lemma func_declaration_total s :
  (3 * remaining s + 3 <= m)%nat ->
  exists s', func_declaration n rec s = Some s' /\ tle s s'.
Proof.
  intros Hm. unfold func_declaration.
  destruct (parser_variable _ s) as [g x] eqn:E1.
  destruct (function_total TYPE_FUNCTION (mark_initialized x)) as (y & E & T).
  { side s. }
  rewrite E. finish.
Qed.

Lemma var_declaration_total s :
  (3 * remaining s + 3 <= m)%nat ->
  exists s', var_declaration rec s = Some s' /\ tle s s'.
Proof. intros Hm. unfold var_declaration. repeat stmt_step s; finish. Qed.

Lemma expression_statement_total s :
  (3 * remaining s + 1 <= m)%nat ->
  exists s', expression_statement rec s = Some s' /\ tle s s' /\
             (check EOF_TOKEN s = false -> (remaining s' < remaining s)%nat).
Proof.
  intros Hm. unfold expression_statement.
  destruct (expression_total n m rec Hadq Hn s Hm) as (y & E & T & L). rewrite E.
  eexists. split; [ reflexivity | ].
  assert (T2 : tle y (emit_byte (Op OP_POP)
                        (consume SEMICOLON "Expect ';' after expression." y)))
    by tl_chain.
  split; [ tl_chain | ].
  intros He. specialize (L He). unfold tle in *. lia.
Qed.

Lemma for_initializer_total s :
  (3 * remaining s + 3 <= m)%nat ->
  exists s', for_initializer rec s = Some s' /\ tle s s'.
Proof.
  intros Hm. unfold for_initializer.
  destruct (match_ SEMICOLON s) as [m1 x1] eqn:E1. destruct m1; [ finish | ].
  destruct (match_ HAVE x1) as [m2 x2] eqn:E2. destruct m2.
  - destruct (var_declaration_total x2) as (y & E & T); [ side s | ].
    rewrite E. finish.
  - destruct (expression_statement_total x2) as (y & E & T & _); [ side s | ].
    rewrite E. finish.
Qed.

Lemma for_condition_total s :
  (3 * remaining s + 3 <= m)%nat ->
  exists r s', for_condition rec s = Some (r, s') /\ tle s s'.
Proof.
  intros Hm. unfold for_condition. repeat stmt_step s;
    (eexists _, _; split; [ reflexivity | tl_chain ]).
Qed.

Lemma for_increment_total s :
  (3 * remaining s + 3 <= m)%nat ->
  exists s', for_increment rec s = Some s' /\ tle s s'.
Proof. intros Hm. unfold for_increment. repeat stmt_step s; finish. Qed.

Lemma for_statement_total s :
  (3 * remaining s + 3 <= m)%nat ->
  exists s', for_statement rec s = Some s' /\ tle s s'.
Proof.
  intros Hm. unfold for_statement. cbv zeta.
  destruct (for_initializer_total
              (consume LEFT_PAREN "Expect '(' after 'for'." (begin_scope s)))
    as (x2 & E1 & T1); [ side s | ].
  rewrite E1.
  destruct (for_condition_total
              (set_loop (count (compiling_chunk x2)) (scope_depth (current x2)) x2))
    as (ej & x4 & E2 & T2); [ side s | ].
  rewrite E2.
  destruct (for_increment_total x4) as (x5 & E3 & T3); [ side s | ].
  rewrite E3.
  destruct (statement_call_total n m rec Hadq Hn x5) as (x6 & E4 & T4 & _); [ side s | ].
  rewrite E4.
  destruct (negb (ej =? -1)); finish.
Qed.

Lemma if_statement_total s :
  (3 * remaining s + 3 <= m)%nat ->
  exists s', if_statement rec s = Some s' /\ tle s s'.
Proof. intros Hm. unfold if_statement. repeat stmt_step s; finish. Qed.

Lemma info_statement_total s :
  (3 * remaining s + 3 <= m)%nat ->
  exists s', info_statement rec s = Some s' /\ tle s s'.
Proof. intros Hm. unfold info_statement. repeat stmt_step s; finish. Qed.

Lemma return_statement_total s :
  (3 * remaining s + 3 <= m)%nat ->
  exists s', return_statement rec s = Some s' /\ tle s s'.
Proof.
  intros Hm. unfold return_statement. cbv zeta.
  set (x := match type (current s) with
            | TYPE_FUNCTION => s
            | TYPE_SCRIPT => error "Can't return from top-level code!" s
            end).
  assert (Tx : tle s x).
  { unfold x. destruct (type (current s)); [ apply tle_refl | tl_chain ]. }
  clearbody x.
  repeat stmt_step s; finish.
Qed.

Lemma while_statement_total s :
  (3 * remaining s + 3 <= m)%nat ->
  exists s', while_statement rec s = Some s' /\ tle s s'.
Proof. intros Hm. unfold while_statement. repeat stmt_step s; finish. Qed.

Lemma scoped_block_total s :
  (3 * remaining s + 3 <= m)%nat ->
  exists s', (s1 <- block n rec (begin_scope s) ;; Some (end_scope s1)) = Some s'
             /\ tle s s'.
Proof.
  intros Hm. destruct (block_total (begin_scope s)) as (y & E & T); [ side s | ].
  rewrite E. finish.
Qed.

(** A statement that starts with the keyword [k]: the keyword is consumed
    and the rest of the statement returns. *)
Lemma keyword_total k s x (body : State -> option State) :
  match_ k s = (true, x) -> k <> EOF_TOKEN ->
  (3 * remaining s + 2 <= S m)%nat ->
  (forall y, (3 * remaining y + 3 <= m)%nat ->
             exists s', body y = Some s' /\ tle y s') ->
  exists s', body x = Some s' /\ tle s s' /\
             (check EOF_TOKEN s = false -> (remaining s' < remaining s)%nat).
Proof.
  intros E Hk Hm Hb. pose proof (match_true_lt _ _ _ E Hk) as L.
  destruct (Hb x) as (s' & E' & T); [ lia | ].
  exists s'. unfold tle in *. repeat split; auto; lia.
Qed.

Lemma statement_total s :
  (3 * remaining s + 2 <= S m)%nat ->
  exists s', statement n rec s = Some s' /\ tpost Statement s s'.
Proof.
  intros Hm. unfold statement, tpost.
  destruct (match_ INFO s) as [b x] eqn:E; destruct b;
    [ eapply keyword_total; eauto using info_statement_total; discriminate
    | apply match_false in E; auto; subst x ].
  destruct (match_ RETURN s) as [b x] eqn:E; destruct b;
    [ eapply keyword_total; eauto using return_statement_total; discriminate
    | apply match_false in E; auto; subst x ].
  destruct (match_ IF s) as [b x] eqn:E; destruct b;
    [ eapply keyword_total; eauto using if_statement_total; discriminate
    | apply match_false in E; auto; subst x ].
  destruct (match_ CONTINUE s) as [b x] eqn:E; destruct b;
    [ apply (keyword_total CONTINUE s x (fun y => Some (continue_statement y)));
      auto; [ discriminate | intros; finish ]
    | apply match_false in E; auto; subst x ].
  destruct (match_ BREAK s) as [b x] eqn:E; destruct b;
    [ apply (keyword_total BREAK s x (fun y => Some (break_statement y)));
      auto; [ discriminate | intros; finish ]
    | apply match_false in E; auto; subst x ].
  destruct (match_ WHILE s) as [b x] eqn:E; destruct b;
    [ eapply keyword_total; eauto using while_statement_total; discriminate
    | apply match_false in E; auto; subst x ].
  destruct (match_ FOR s) as [b x] eqn:E; destruct b;
    [ eapply keyword_total; eauto using for_statement_total; discriminate
    | apply match_false in E; auto; subst x ].
  destruct (match_ USING s) as [b x] eqn:E; destruct b;
    [ apply (keyword_total USING s x (fun y => Some (using_statement y)));
      auto; [ discriminate | intros; finish ]
    | apply match_false in E; auto; subst x ].
  destruct (match_ LEFT_BRACE s) as [b x] eqn:E; destruct b;
    [ apply (keyword_total LEFT_BRACE s x
               (fun y => s1 <- block n rec (begin_scope y) ;; Some (end_scope s1)));
      auto; [ discriminate | apply scoped_block_total ]
    | apply match_false in E; auto; subst x ].
  apply expression_statement_total. lia.
Qed.

Lemma declaration_total s :
  (3 * remaining s + 3 <= S m)%nat ->
  exists s', declaration n rec s = Some s' /\ tpost Declaration s s'.
Proof.
  intros Hm. unfold declaration, tpost.
  destruct (panic_mode (parser s)) eqn:P.
  - eexists. split; [ reflexivity | ]. split.
    + apply synchronize_tle.
    + intros _. apply synchronize_panic.
  - destruct (match_ FUNC s) as [b x] eqn:E; destruct b.
    { pose proof (match_true_lt _ _ _ E ltac:(discriminate)) as L.
      destruct (func_declaration_total x) as (s' & E' & T); [ lia | ].
      exists s'. unfold tle in *. repeat split; auto; lia. }
    apply match_false in E; auto; subst x.
    destruct (match_ HAVE s) as [b x] eqn:E; destruct b.
    { pose proof (match_true_lt _ _ _ E ltac:(discriminate)) as L.
      destruct (var_declaration_total x) as (s' & E' & T); [ lia | ].
      exists s'. unfold tle in *. repeat split; auto; lia. }
    apply match_false in E; auto; subst x.
    destruct (statement_call_total n m rec Hadq Hn s) as (s' & E' & T & L); [ lia | ].
    exists s'. repeat split; auto.
Qed.

Lemma step_adequate : adequate (step n rec) (S m).
Proof.
  intros [p | | ] s V Hm; simpl in *.
  - apply (parse_precedence_total n m rec Hadq Hn);
      [ unfold PREC_ASSIGNMENT in V; lia | lia ].
  - apply statement_total. lia.
  - apply declaration_total. lia.
Qed.

Lemma compile_loop_total k s :
  (weight s <= k)%nat -> (3 * remaining s + 3 <= m)%nat ->
  exists s', compile_loop rec k s = Some s'.
Proof.
  revert s. induction k as [| k IH]; intros s Hk Hm; simpl.
  - destruct (match_ EOF_TOKEN s) as [b x] eqn:E. destruct b; [ eauto | ].
    apply match_false_check in E.
    unfold weight, remaining in Hk. rewrite E in Hk. lia.
  - destruct (match_ EOF_TOKEN s) as [b x] eqn:E. destruct b; [ eauto | ].
    pose proof (match_false_check _ _ _ E) as C.
    apply match_false in E; auto; subst x.
    destruct (declaration_call_total n m rec Hadq Hn s Hm) as (y & E & T & W).
    rewrite E. specialize (W C). unfold tle in T.
    apply IH; lia.
Qed.

Unset Default Proof Using.

End TotalStatements.

(** With [fuel] units of fuel every call with at most [fuel] units of work
    returns. *)
Lemma run_adequate fuel : adequate (run fuel) fuel.
Proof.
  induction fuel as [| fuel IH].
  - intros c s _ H. destruct c; simpl in H; lia.
  - simpl. apply step_adequate; auto.
Qed.

Lemma remaining_initial source :
  (remaining (advance (set_panic_mode false (set_had_error false
      (init_compiler TYPE_SCRIPT (init_tokenizer source)))))
   <= List.length source)%nat.
Proof.
  unfold remaining, check, advance. simpl.
  destruct source as [| t ts]; simpl.
  - lia.
  - destruct (kind_is EOF_TOKEN t); lia.
Qed.

(** [compile_run] returns whenever it is given enough fuel. *)
Lemma compile_run_total source fuel :
  (enough_fuel source <= fuel)%nat ->
  exists f s, compile_run fuel source = Some (f, s).
Proof.
  intros H. unfold compile_run, enough_fuel in *.
  pose proof (remaining_initial source) as R.
  set (s0 := advance _) in *.
  destruct (compile_loop_total fuel fuel (run fuel) (run_adequate fuel) (le_n fuel) fuel s0)
    as (s1 & E).
  - unfold weight. destruct (panic_mode (parser s0)); lia.
  - lia.
  - rewrite E. destruct (end_compiler s1) as [f s2]. eauto.
Qed.



(* ================================================================= *)
(** * Jumps *)

Lemma length_store i b l : List.length (store i b l) = List.length l.
Proof.
  revert i. induction l as [| h t IH]; intros [| i]; simpl; auto.
Qed.

Lemma nth_error_store_same i b l :
  (i < List.length l)%nat -> nth_error (store i b l) i = Some b.
Proof.
  revert i. induction l as [| h t IH]; intros [| i]; simpl; intros H;
    try lia; auto. apply IH. lia.
Qed.

Lemma nth_error_store_other i j b l :
  i <> j -> nth_error (store i b l) j = nth_error l j.
Proof.
  revert i j. induction l as [| h t IH]; intros [| i] [| j]; simpl; intros H;
    auto; try congruence.
Qed.

Lemma compiling_chunk_set_chunk ch s :
  compilers s <> [] -> compiling_chunk (set_chunk ch s) = ch.
Proof.
  intros H. unfold compiling_chunk, set_chunk.
  rewrite current_with_current by exact H. reflexivity.
Qed.

Lemma compilers_error msg s : compilers (error msg s) = compilers s.
Proof. unfold error. destruct (panic_mode (parser s)); reflexivity. Qed.

Lemma compiling_chunk_error msg s : compiling_chunk (error msg s) = compiling_chunk s.
Proof. unfold compiling_chunk, current. rewrite compilers_error. reflexivity. Qed.

Lemma compiling_chunk_cond_error (b : bool) msg s :
  compiling_chunk (if b then error msg s else s) = compiling_chunk s.
Proof. destruct b; [ apply compiling_chunk_error | reflexivity ]. Qed.

Lemma compilers_cond_error (b : bool) msg s :
  compilers (if b then error msg s else s) = compilers s.
Proof. destruct b; [ apply compilers_error | reflexivity ]. Qed.

Lemma parser_set_chunk ch s : parser (set_chunk ch s) = parser s.
Proof. apply parser_with_current. Qed.

Lemma code_emit_byte b s :
  compilers s <> [] ->
  code (compiling_chunk (emit_byte b s)) = code (compiling_chunk s) ++ [b].
Proof.
  intros H. unfold emit_byte. rewrite compiling_chunk_set_chunk by exact H.
  reflexivity.
Qed.

Lemma nonempty_emit_byte b s : compilers s <> [] -> compilers (emit_byte b s) <> [].
Proof. intros H. apply nonempty_with_current, H. Qed.

Lemma parser_emit_byte b s : parser (emit_byte b s) = parser s.
Proof. apply parser_with_current. Qed.

(** [emit_jump] appends the instruction and two placeholder bytes and
    returns the offset of the first placeholder. *)
Lemma emit_jump_code b s :
  compilers s <> [] ->
  fst (emit_jump b s) = count (compiling_chunk s) + 1 /\
  code (compiling_chunk (snd (emit_jump b s))) =
    code (compiling_chunk s) ++ [b; Raw 255; Raw 255] /\
  parser (snd (emit_jump b s)) = parser s.
Proof.
  intros H. unfold emit_jump. simpl.
  pose proof (nonempty_emit_byte b s H) as H1.
  pose proof (nonempty_emit_byte (Raw 255) _ H1) as H2.
  unfold count.
  rewrite !code_emit_byte by auto. rewrite !parser_emit_byte.
  rewrite !length_app. simpl. repeat split.
  - lia.
  - rewrite <- !app_assoc. reflexivity.
Qed.

Lemma land_255 z : Z.land z 255 = z mod 256.
Proof. change 255 with (Z.ones 8). rewrite Z.land_ones by lia. reflexivity. Qed.

Lemma shiftr_8 z : Z.shiftr z 8 = z / 256.
Proof. rewrite Z.shiftr_div_pow2 by lia. reflexivity. Qed.

(** The two bytes that [patch_jump] stores. *)
Lemma patch_jump_code offset s :
  compilers s <> [] -> 0 <= offset ->
  let jump := count (compiling_chunk s) - offset - 2 in
  code (compiling_chunk (patch_jump offset s)) =
    store (Z.to_nat (offset + 1)) (Raw (jump mod 256))
      (store (Z.to_nat offset) (Raw ((jump / 256) mod 256))
         (code (compiling_chunk s))) /\
  parser (patch_jump offset s) =
    parser (if jump >? UINT16_MAX then error "Too much code to jump over." s else s).
Proof.
  intros H Ho jump. unfold patch_jump. fold jump.
  set (s1 := if jump >? UINT16_MAX then _ else s).
  assert (H1 : compilers s1 <> []).
  { unfold s1. rewrite compilers_cond_error. exact H. }
  assert (C1 : compiling_chunk s1 = compiling_chunk s).
  { unfold s1. apply compiling_chunk_cond_error. }
  clearbody s1.
  rewrite !parser_set_chunk.
  rewrite compiling_chunk_set_chunk by (apply nonempty_with_current, H1).
  rewrite compiling_chunk_set_chunk by exact H1.
  rewrite C1. unfold store_code.
  destruct (Z.ltb_spec offset 0); [ lia | ].
  destruct (Z.ltb_spec (offset + 1) 0); [ lia | ].
  simpl. rewrite land_255, shiftr_8, land_255. auto.
Qed.

Lemma read_u16_patched offset hi lo cd :
  0 <= offset -> offset + 2 <= Z.of_nat (List.length cd) ->
  read_u16 (store (Z.to_nat (offset + 1)) (Raw lo)
              (store (Z.to_nat offset) (Raw hi) cd)) offset
  = Some (hi * 256 + lo).
Proof.
  intros H0 H1. unfold read_u16.
  rewrite nth_error_store_other by lia.
  rewrite nth_error_store_same by lia.
  rewrite nth_error_store_same by (rewrite length_store; lia).
  reflexivity.
Qed.

Lemma error_records msg s :
  panic_mode (parser s) = false ->
  errors (parser (error msg s)) = errors (parser s) ++ [msg] /\
  had_error (parser (error msg s)) = true.
Proof. unfold error. intros ->. simpl. auto. Qed.

Lemma patch_jump_spec offset s :
  compilers s <> [] -> 0 <= offset -> offset + 2 <= count (compiling_chunk s) ->
  let target := count (compiling_chunk s) in
  let s' := patch_jump offset s in
  count (compiling_chunk s') = target /\
  (target - (offset + 2) <= 65535 ->
   read_u16 (code (compiling_chunk s')) offset = Some (target - (offset + 2)) /\
   parser s' = parser s) /\
  (65535 < target - (offset + 2) ->
   read_u16 (code (compiling_chunk s')) offset
     = Some ((target - (offset + 2)) mod 65536) /\
   (good s -> had_error (parser s') = true) /\
   (panic_mode (parser s) = false ->
    errors (parser s') = errors (parser s) ++ ["Too much code to jump over."])).
Proof.
  intros H Ho Hc target s'.
  destruct (patch_jump_code offset s H Ho) as [C P].
  fold s' in C, P. fold target in C, P.
  unfold count in *. fold target in Hc.
  replace (target - offset - 2) with (target - (offset + 2)) in * by lia.
  set (jump := target - (offset + 2)) in *.
  assert (R : read_u16 (code (compiling_chunk s')) offset
              = Some ((jump / 256) mod 256 * 256 + jump mod 256)).
  { rewrite C. apply read_u16_patched; auto. }
  split; [ | split ].
  - rewrite C, !length_store. reflexivity.
  - intros Hj. split.
    + rewrite R. f_equal.
      rewrite (Z.mod_small (jump / 256)).
      * pose proof (Z.div_mod jump 256 ltac:(lia)). lia.
      * split; [ apply Z.div_pos; lia | apply Z.div_lt_upper_bound; lia ].
    + rewrite P. unfold UINT16_MAX. rewrite gtb_false by lia. reflexivity.
  - intros Hj. rewrite P. unfold UINT16_MAX. rewrite gtb_true by lia.
    split; [ | split ].
    + rewrite R. f_equal.
      change 65536 with (256 * 256).
      rewrite Z.rem_mul_r by lia. lia.
    + intros Hg. apply error_had_error. exact Hg.
    + intros Hp. apply error_records. exact Hp.
Qed.



(* ================================================================= *)
(** * Names and scans of the local table *)

Lemma identifiers_equal_spec a b :
  identifiers_equal a b = true <-> lexeme a = lexeme b.
Proof.
  unfold identifiers_equal. rewrite andb_true_iff, String.eqb_eq, Nat.eqb_eq.
  split; [ tauto | intros H; rewrite H; auto ].
Qed.

Lemma identifiers_equal_refl a : identifiers_equal a a = true.
Proof. apply identifiers_equal_spec. reflexivity. Qed.

Lemma error_error m1 m2 s : error m2 (error m1 s) = error m1 s.
Proof.
  unfold error at 2 3. destruct (panic_mode (parser s)) eqn:E.
  - unfold error. rewrite E. reflexivity.
  - unfold error. simpl. reflexivity.
Qed.

(** ** [resolve_local] *)

(** The slot that [resolve_local] returns is the highest one below [i]
    whose name equals the identifier; there is none when it returns -1. *)
Lemma resolve_local_from_index i ls nm s :
  (i <= List.length ls)%nat ->
  let r := fst (resolve_local_from i ls nm s) in
  (r = -1 /\
   forall j l, (j < i)%nat -> nth_error ls j = Some l ->
               identifiers_equal nm (l_name l) = false)
  \/
  (0 <= r < Z.of_nat i /\
   (exists l, nth_error ls (Z.to_nat r) = Some l /\
              identifiers_equal nm (l_name l) = true) /\
   forall j l, (Z.to_nat r < j < i)%nat -> nth_error ls j = Some l ->
               identifiers_equal nm (l_name l) = false).
Proof.
  revert s. induction i as [| j IH]; intros s Hi; simpl.
  - left. split; auto. intros. lia.
  - destruct (nth_error ls j) as [l |] eqn:E.
    + destruct (identifiers_equal nm (l_name l)) eqn:Q; simpl.
      * right. split; [ lia | ]. rewrite Nat2Z.id. split.
        -- exists l. auto.
        -- intros. lia.
      * set (s1 := if depth l =? -1 then _ else s).
        destruct (IH s1 ltac:(lia)) as [[R A] | [R [A B]]]; [ left | right ].
        -- split; auto. intros j' l' Hj Hn.
           destruct (Nat.eq_dec j' j) as [-> | Hne].
           ++ congruence.
           ++ apply (A j' l'); auto. lia.
        -- split; [ lia | ]. split; auto.
           intros j' l' Hj Hn.
           destruct (Nat.eq_dec j' j) as [-> | Hne].
           ++ congruence.
           ++ apply (B j' l'); auto. lia.
    + assert (Hlen : (List.length ls <= j)%nat) by (apply nth_error_None; auto).
      lia.
Qed.

(** An identifier of the source never resolves to the reserved slot. *)
Lemma resolve_local_not_slot0 c nm s :
  slot0_reserved c -> lexeme nm <> "" -> fst (resolve_local c nm s) <> 0.
Proof.
  intros H0 Hnm. unfold resolve_local.
  destruct (resolve_local_from_index (List.length (locals c)) (locals c) nm s
              (le_n _))
    as [[R _] | [R [(l & Hl & Q) _]]].
  - rewrite R. lia.
  - intros Hr. rewrite Hr in Hl. simpl in Hl.
    unfold slot0_reserved in H0. destruct (locals c) as [| l0 ls]; [ contradiction | ].
    simpl in Hl. inversion Hl; subst l0.
    apply identifiers_equal_spec in Q. destruct H0 as [H0 _]. congruence.
Qed.

(** A local that is being initialized is found under its own name,
    without any error. *)
Lemma resolve_local_own_initializer c ls nm s :
  locals c = ls ++ [ {| l_name := nm; depth := -1 |} ] ->
  resolve_local c nm s = (Z.of_nat (List.length ls), s).
Proof.
  intros H. unfold resolve_local. rewrite H, length_app. simpl.
  replace (List.length ls + 1)%nat with (S (List.length ls)) by lia.
  simpl. rewrite nth_error_app2 by lia. rewrite Nat.sub_diag. simpl.
  rewrite identifiers_equal_refl. reflexivity.
Qed.

(** ** The scan of [declare_variable] *)

Lemma declare_scan_prefix i l1 l2 d nm s :
  (i <= List.length l1)%nat ->
  declare_scan i (l1 ++ l2) d nm s = declare_scan i l1 d nm s.
Proof.
  revert s. induction i as [| j IH]; intros s H; simpl; auto.
  rewrite nth_error_app1 by lia.
  destruct (nth_error l1 j) as [l |]; auto.
  destruct (negb (depth l =? -1) && (depth l <? d)); auto.
  apply IH. lia.
Qed.

Lemma declare_scan_stop a d nm s :
  Forall (fun l => 0 <= depth l < d) a ->
  declare_scan (List.length a) a d nm s = s.
Proof.
  intros H. destruct a as [| l a] using rev_ind; simpl; auto.
  rewrite length_app. simpl.
  replace (List.length a + 1)%nat with (S (List.length a)) by lia.
  simpl. rewrite nth_error_app2 by lia. rewrite Nat.sub_diag. simpl.
  apply Forall_app in H. destruct H as [_ H]. inversion H; subst.
  destruct (Z.eqb_spec (depth l) (-1)); [ lia | ].
  destruct (Z.ltb_spec (depth l) d); [ | lia ].
  reflexivity.
Qed.

Lemma declare_scan_scope b :
  forall a d nm s,
    Forall (fun l => 0 <= depth l < d) a ->
    Forall (fun l => depth l = d) b ->
    declare_scan (List.length (a ++ b)) (a ++ b) d nm s =
    if existsb (fun l => identifiers_equal nm (l_name l)) b
    then error "Already a variable with this name in this scope." s
    else s.
Proof.
  induction b as [| l b IH] using rev_ind; intros a d nm s Ha Hb.
  - rewrite app_nil_r. simpl. apply declare_scan_stop. exact Ha.
  - apply Forall_app in Hb. destruct Hb as [Hb Hl]. inversion Hl; subst.
    rewrite app_assoc, length_app. simpl.
    replace (List.length (a ++ b) + 1)%nat with (S (List.length (a ++ b))) by lia.
    simpl. rewrite nth_error_app2 by lia. rewrite Nat.sub_diag. simpl.
    rewrite Z.ltb_irrefl, andb_false_r.
    rewrite declare_scan_prefix by lia.
    rewrite IH by auto.
    rewrite existsb_app. simpl. rewrite orb_false_r.
    destruct (identifiers_equal nm (l_name l));
      destruct (existsb _ b); simpl; auto.
    apply error_error.
Qed.

Lemma declared_in_scope_split nm d a b :
  Forall (fun l => 0 <= depth l < d) a ->
  Forall (fun l => depth l = d) b ->
  declared_in_scope nm d (a ++ b) =
  existsb (fun l => identifiers_equal nm (l_name l)) b.
Proof.
  intros Ha Hb. unfold declared_in_scope. rewrite existsb_app.
  replace (existsb _ a) with false.
  - simpl. induction b as [| l b IH]; simpl; auto.
    inversion Hb; subst. rewrite Z.eqb_refl. simpl. rewrite IH; auto.
  - symmetry. induction a as [| l a IH]; simpl; auto.
    inversion Ha; subst. rewrite IH by auto.
    destruct (Z.eqb_spec (depth l) d); [ lia | reflexivity ].
Qed.

(** In a well-formed table the locals split into those of the enclosing
    scopes and those of the current scope. *)
Lemma WFC_scope_split c :
  WFC c ->
  exists a b, locals c = a ++ b /\
              Forall (fun l => 0 <= depth l < scope_depth c) a /\
              Forall (fun l => depth l = scope_depth c) b.
Proof.
  intros [C1 C2 C3 C4].
  destruct (nondecreasing_split (locals c) (scope_depth c - 1) C4)
    as (a & b & E & Ha & Hb).
  exists a, b. rewrite E in C3. apply Forall_app in C3. destruct C3 as [Ca Cb].
  repeat split; auto.
  - rewrite Forall_forall in *. intros l Hin.
    specialize (Ca l Hin). specialize (Ha l Hin). simpl in *. lia.
  - rewrite Forall_forall in *. intros l Hin.
    specialize (Cb l Hin). specialize (Hb l Hin). simpl in *. lia.
Qed.

(** ** The pops of [break] and [continue] *)

Lemma discard_locals_prefix i l1 l2 d s :
  (i <= List.length l1)%nat ->
  discard_locals i (l1 ++ l2) d s = discard_locals i l1 d s.
Proof.
  revert s. induction i as [| j IH]; intros s H; simpl; auto.
  rewrite nth_error_app1 by lia.
  destruct (nth_error l1 j) as [l |]; auto.
  destruct (depth l >? d); auto.
  apply IH. lia.
Qed.

Lemma discard_locals_stop a d s :
  Forall (fun l => depth l <= d) a ->
  discard_locals (List.length a) a d s = s.
Proof.
  intros H. destruct a as [| l a] using rev_ind; simpl; auto.
  rewrite length_app. simpl.
  replace (List.length a + 1)%nat with (S (List.length a)) by lia.
  simpl. rewrite nth_error_app2 by lia. rewrite Nat.sub_diag. simpl.
  apply Forall_app in H. destruct H as [_ H]. inversion H; subst.
  rewrite gtb_false by lia. reflexivity.
Qed.

Lemma emit_pops_succ k s :
  emit_pops k (emit_byte (Op OP_POP) s) = emit_pops (S k) s.
Proof. unfold emit_pops. symmetry. apply Nat.iter_succ_r. Qed.

Lemma discard_locals_pops b :
  forall a d s,
    Forall (fun l => depth l <= d) a ->
    Forall (fun l => depth l > d) b ->
    discard_locals (List.length (a ++ b)) (a ++ b) d s = emit_pops (List.length b) s.
Proof.
  induction b as [| l b IH] using rev_ind; intros a d s Ha Hb.
  - rewrite app_nil_r. simpl. apply discard_locals_stop. exact Ha.
  - apply Forall_app in Hb. destruct Hb as [Hb Hl]. inversion Hl; subst.
    rewrite app_assoc, (length_app (a ++ b)), (length_app b). simpl.
    replace (List.length (a ++ b) + 1)%nat with (S (List.length (a ++ b))) by lia.
    simpl. rewrite nth_error_app2 by lia. rewrite Nat.sub_diag. simpl.
    rewrite gtb_true by lia.
    rewrite discard_locals_prefix by lia.
    rewrite IH by auto.
    replace (List.length b + 1)%nat with (S (List.length b)) by lia.
    apply emit_pops_succ.
Qed.

Lemma above_split d a b :
  Forall (fun l => depth l <= d) a ->
  Forall (fun l => depth l > d) b ->
  above d (a ++ b) = b.
Proof.
  intros Ha Hb. unfold above. rewrite filter_app.
  replace (filter _ a) with (@nil Local).
  - simpl. induction b as [| l b IH]; simpl; auto.
    inversion Hb; subst. rewrite gtb_true by lia. rewrite IH; auto.
  - symmetry. induction a as [| l a IH]; simpl; auto.
    inversion Ha; subst. rewrite gtb_false by lia. auto.
Qed.

(** In a well-formed table [break] and [continue] emit one pop for every
    local above the depth recorded for the loop. *)
Lemma discard_locals_above c d s :
  WFC c ->
  discard_locals (List.length (locals c)) (locals c) d s =
  emit_pops (List.length (above d (locals c))) s.
Proof.
  intros [_ _ _ C4].
  destruct (nondecreasing_split (locals c) d C4) as (a & b & E & Ha & Hb).
  rewrite E, (above_split d a b Ha Hb). apply discard_locals_pops; auto.
Qed.

Lemma code_emit_pops k s :
  compilers s <> [] ->
  compilers (emit_pops k s) <> [] /\
  parser (emit_pops k s) = parser s /\
  code (compiling_chunk (emit_pops k s)) =
    code (compiling_chunk s) ++ repeat (Op OP_POP) k.
Proof.
  intros H. induction k as [| k [IH1 [IH2 IH3]]]; simpl.
  - rewrite app_nil_r. auto.
  - unfold emit_pops in *. simpl. repeat split.
    + apply nonempty_emit_byte. exact IH1.
    + rewrite parser_emit_byte. exact IH2.
    + rewrite code_emit_byte by exact IH1. rewrite IH3, <- app_assoc.
      f_equal. symmetry. apply repeat_cons.
Qed.

(** ** Backward jumps *)

(** [emit_loop] appends the loop instruction and the distance back to
    [loop_start], counted from the byte after its operand. *)
Lemma emit_loop_code loop_start s :
  compilers s <> [] ->
  let offset := count (compiling_chunk s) + 3 - loop_start in
  code (compiling_chunk (emit_loop loop_start s)) =
    code (compiling_chunk s) ++
    [Op OP_LOOP; Raw ((offset / 256) mod 256); Raw (offset mod 256)] /\
  parser (emit_loop loop_start s) =
    parser (if offset >? UINT16_MAX then error "Loop body too large." s else s).
Proof.
  intros H offset. unfold emit_loop.
  pose proof (nonempty_emit_byte (Op OP_LOOP) s H) as H1.
  assert (Hoff : count (compiling_chunk (emit_byte (Op OP_LOOP) s)) - loop_start + 2
                 = offset).
  { unfold count. rewrite code_emit_byte by exact H. rewrite length_app. simpl.
    unfold offset, count. lia. }
  rewrite Hoff.
  set (s1 := if offset >? UINT16_MAX then _ else emit_byte (Op OP_LOOP) s).
  assert (H2 : compilers s1 <> []).
  { unfold s1. rewrite compilers_cond_error. exact H1. }
  assert (C1 : compiling_chunk s1 = compiling_chunk (emit_byte (Op OP_LOOP) s)).
  { unfold s1. apply compiling_chunk_cond_error. }
  assert (P1 : parser s1 =
               parser (if offset >? UINT16_MAX
                       then error "Loop body too large." s else s)).
  { unfold s1. destruct (offset >? UINT16_MAX); [ | apply parser_emit_byte ].
    unfold error. rewrite parser_emit_byte.
    destruct (panic_mode (parser s)); simpl; rewrite ?parser_emit_byte; reflexivity. }
  clearbody s1.
  rewrite !parser_emit_byte.
  rewrite !code_emit_byte by (auto using nonempty_emit_byte).
  rewrite C1, code_emit_byte by exact H.
  rewrite land_255, shiftr_8, land_255, <- !app_assoc. simpl. auto.
Qed.

Lemma read_u16_app cd hi lo tail :
  read_u16 (cd ++ Raw hi :: Raw lo :: tail) (Z.of_nat (List.length cd))
  = Some (hi * 256 + lo).
Proof.
  unfold read_u16. rewrite Z2Nat.inj_add by lia. rewrite Nat2Z.id.
  rewrite !nth_error_app2 by lia.
  replace (List.length cd - List.length cd)%nat with 0%nat by lia.
  replace (List.length cd + Z.to_nat 1 - List.length cd)%nat with 1%nat by lia.
  reflexivity.
Qed.



(* ================================================================= *)
(** * The claims of the specification *)

(** ** Concrete states are well formed *)

Lemma WF_start_state source : WF (start_state source).
Proof.
  unfold start_state, advance. simpl.
  destruct source; (split; simpl; [ discriminate | ]);
    repeat constructor; simpl; auto; lia.
Qed.

Lemma good_start_state source : good (start_state source).
Proof.
  unfold start_state, advance, good. simpl.
  destruct source; simpl; split; try discriminate; tauto.
Qed.

(** ** C1 *)

(** C1 (code bug).  The specification: inside a scope [have x := x;] is rejected with
    "Cannot read local variable in its own initializer.", at global scope
    it is accepted.  The code: [resolve_local] returns the slot of [x] as
    soon as the names are equal, before it looks at the depth, so inside a
    block the declaration compiles without any error and reads slot 1. *)
Theorem self_initializer_is_accepted :
  report (compile_run 20 prog_self_init_local) = Some (false, []) /\
  emitted (compile_run 20 prog_self_init_local)
    = Some [Op OP_GET_LOCAL; Raw 1; Op OP_POP; Op OP_NIL; Op OP_RETURN] /\
  report (compile_run 20 prog_self_init_global) = Some (false, []).
Proof. vm_compute. auto. Qed.

(** ** C2 *)

(** C2 (code bug).  The specification: a name that matches no local is compiled as
    a global access and raises no error.  The code: on its way down
    [resolve_local] reports "Cannot read local variable in its own
    initializer." at every uninitialized local whose name differs, so
    [{ have x := y; }] is rejected although [y] is read as a global. *)
Theorem global_read_in_initializer_is_rejected :
  report (compile_run 20 prog_init_from_global)
    = Some (true, ["Cannot read local variable in its own initializer."]) /\
  emitted (compile_run 20 prog_init_from_global)
    = Some [Op OP_GET_GLOBAL; Raw 0; Op OP_POP; Op OP_NIL; Op OP_RETURN].
Proof. vm_compute. auto. Qed.

(** ** C3 *)

(** C3 (code bug).  The specification: [a + b = c;] is rejected with "Invalid
    assignment target.".  The code: [named_variable] evaluates
    [parser.match(EQUAL)] before it tests [can_assign], so the [=] after
    [b] is consumed inside the right operand and [parse_precedence] never
    sees it: [a + b = c;] fails with another message, [a + b = ;] compiles;
    only a target that is not a variable ([1 = 2;]) gets the message. *)
Theorem assignment_to_sum_is_not_reported :
  report (compile_run 20 prog_assign_to_sum)
    = Some (true, ["Expect ';' after expression."]) /\
  report (compile_run 20 prog_dangling_equal) = Some (false, []) /\
  report (compile_run 20 prog_assign_to_number)
    = Some (true, ["Invalid assignment target."]).
Proof. vm_compute. auto. Qed.

(** The prefix rule receives [can_assign = (prec <= PREC_ASSIGNMENT)]. *)
Lemma prefix_rule_can_assign n rec prec s f :
  prefix (get_rule (kind (previous (parser (advance s))))) = Some f ->
  apply_rule n rec f (prec <=? PREC_ASSIGNMENT) (advance s) = None ->
  parse_precedence n rec prec s = None.
Proof. intros H1 H2. unfold parse_precedence. rewrite H1, H2. reflexivity. Qed.

(** ** C4 *)

(** C4 (counterexample).  A jump over 65536 bytes: [patch_jump] reports the
    error and still overwrites the placeholder, with the low 16 bits of
    the distance, which are 0. *)
Lemma patch_jump_stores_truncated_distance :
  let s := jump_state (Z.to_nat 65536) in
  count (compiling_chunk s) - (1 + 2) = 65536 /\
  read_u16 (code (compiling_chunk s)) 1 = Some 65535 /\
  read_u16 (code (compiling_chunk (patch_jump 1 s))) 1 = Some 0 /\
  code (compiling_chunk (patch_jump 1 s)) <> code (compiling_chunk s) /\
  errors (parser (patch_jump 1 s)) = ["Too much code to jump over."].
Proof.
  cbv zeta.
  assert (A : read_u16 (code (compiling_chunk (jump_state (Z.to_nat 65536)))) 1
              = Some 65535) by (vm_compute; reflexivity).
  assert (B : read_u16 (code (compiling_chunk
                (patch_jump 1 (jump_state (Z.to_nat 65536))))) 1 = Some 0)
    by (vm_compute; reflexivity).
  assert (C : count (compiling_chunk (jump_state (Z.to_nat 65536))) - (1 + 2)
              = 65536) by (vm_compute; reflexivity).
  assert (D : errors (parser (patch_jump 1 (jump_state (Z.to_nat 65536))))
              = ["Too much code to jump over."]) by (vm_compute; reflexivity).
  split; [ exact C | ]. split; [ exact A | ]. split; [ exact B | ].
  split; [ | exact D ].
  intros H. rewrite H, A in B. discriminate B.
Qed.

(** C4 (amended).  [emit_jump] returns the offset of the first placeholder
    byte.  When [patch_jump] is called for that offset in a later state of
    the chunk, the count stays the same and the placeholder receives,
    big-endian, the distance [target - (offset + 2)] if it is at most
    65535; if it is larger the error "Too much code to jump over." is
    recorded (unless an earlier error already put the parser in panic
    mode), the placeholder receives the low 16 bits of the distance, and
    [compile] returns no function since the error flag is set. *)
Theorem jump_patching (s s2 : State) (instruction : Byte) :
  compilers s <> [] -> compilers s2 <> [] ->
  let offset := fst (emit_jump instruction s) in
  offset + 2 <= count (compiling_chunk s2) ->
  let target := count (compiling_chunk s2) in
  let s3 := patch_jump offset s2 in
  offset = count (compiling_chunk s) + 1 /\
  code (compiling_chunk (snd (emit_jump instruction s)))
    = code (compiling_chunk s) ++ [instruction; Raw 255; Raw 255] /\
  count (compiling_chunk s3) = target /\
  (target - (offset + 2) <= 65535 ->
   read_u16 (code (compiling_chunk s3)) offset = Some (target - (offset + 2)) /\
   parser s3 = parser s2) /\
  (65535 < target - (offset + 2) ->
   read_u16 (code (compiling_chunk s3)) offset
     = Some ((target - (offset + 2)) mod 65536) /\
   (good s2 -> had_error (parser s3) = true) /\
   (panic_mode (parser s2) = false ->
    errors (parser s3) = errors (parser s2) ++ ["Too much code to jump over."])) /\
  (forall fuel source f sf,
      compile_run fuel source = Some (f, sf) ->
      had_error (parser sf) = true -> compile fuel source = Some None).
Proof.
  intros H H2 offset Ho target s3.
  destruct (emit_jump_code instruction s H) as (E1 & E2 & _).
  fold offset in E1.
  assert (H0 : 0 <= offset) by (rewrite E1; unfold count; lia).
  destruct (patch_jump_spec offset s2 H2 H0 Ho) as (P1 & P2 & P3).
  repeat split; auto; try (apply P2; assumption); try (apply P3; assumption).
  intros fuel source f sf E He. unfold compile. rewrite E, He. reflexivity.
Qed.

(** C4 (witness): a jump over one byte. *)
Lemma jump_patching_witness :
  let s := start_state [] in
  let s2 := emit_byte (Op OP_NIL) (snd (emit_jump (Op OP_JUMP) s)) in
  compilers s <> [] /\ compilers s2 <> [] /\
  fst (emit_jump (Op OP_JUMP) s) + 2 <= count (compiling_chunk s2) /\
  read_u16 (code (compiling_chunk (patch_jump (fst (emit_jump (Op OP_JUMP) s)) s2)))
           (fst (emit_jump (Op OP_JUMP) s)) = Some 1.
Proof.
  cbv zeta.
  assert (H1 : compilers (start_state []) <> []) by (simpl; discriminate).
  assert (H2 : compilers (emit_byte (Op OP_NIL)
                 (snd (emit_jump (Op OP_JUMP) (start_state [])))) <> [])
    by (simpl; discriminate).
  assert (H3 : fst (emit_jump (Op OP_JUMP) (start_state [])) + 2
               <= count (compiling_chunk (emit_byte (Op OP_NIL)
                    (snd (emit_jump (Op OP_JUMP) (start_state []))))))
    by (vm_compute; discriminate).
  split; [ exact H1 | ]. split; [ exact H2 | ]. split; [ exact H3 | ].
  destruct (jump_patching (start_state [])
              (emit_byte (Op OP_NIL) (snd (emit_jump (Op OP_JUMP) (start_state []))))
              (Op OP_JUMP) H1 H2 H3) as (_ & _ & _ & P & _).
  apply P. vm_compute. discriminate.
Defined.



(** ** C5 *)

Lemma WF_end_scope x a b :
  WF x -> 0 < scope_depth (current x) ->
  locals (current x) = a ++ b ->
  Forall (fun l => depth l <= scope_depth (current x) - 1) a ->
  Forall (fun l => depth l > scope_depth (current x) - 1) b ->
  WF (end_scope x).
Proof.
  intros W Hd Hl Ha Hb.
  pose proof (WF_WFC x W) as [C1 C2 C3 C4].
  pose proof (end_scope_exited x a b (WF_nonempty x W) Hl Ha Hb)
    as [X1 X2 X3 X4 X5 X6 X7 X8 X9 X10].
  apply WF_intro; auto.
  - constructor; unfold slot0_reserved; rewrite ?X8, ?X6.
    + apply (slot0_in_prefix (locals (current x)) a b (scope_depth (current x) - 1));
        auto; lia.
    + rewrite Hl, length_app in C2. lia.
    + rewrite Hl in C3. apply Forall_app in C3. destruct C3 as [C3 _].
      rewrite Forall_forall in *. intros l Hin.
      specialize (C3 l Hin). specialize (Ha l Hin). simpl in *. lia.
    + rewrite Hl, map_app in C4. eapply nondecreasing_app_l; eauto.
  - rewrite X3. apply WF_tl; auto.
Qed.

(** C5.  At every scope exit, that is in every well-formed state [x] at a
    scope depth above 0: [end_scope] decrements the scope depth to [d] and
    appends one [OP_POP] for every local whose depth exceeds [d]; those
    locals are the last ones of the table and all belong to the scope that
    ends (depth [d + 1]), the table is truncated by as many from its end,
    nothing else changes, and the invariant holds again.  When [x] is the
    state in which a block reaches its closing brace, the scope depth is
    back to what it was in front of the block, and if no compile error was
    recorded the locals that remain are those from before the block: the
    pops are exactly the bindings the block introduced and that no nested
    block has already popped. *)
Theorem end_scope_pops_the_scope (x : State) :
  WF x -> 0 < scope_depth (current x) ->
  let d := scope_depth (current x) - 1 in
  let popped := above d (locals (current x)) in
  exists kept,
    locals (current x) = kept ++ popped /\
    Forall (fun l => depth l <= d) kept /\
    Forall (fun l => depth l = d + 1) popped /\
    exited (List.length popped) kept x (end_scope x) /\
    WF (end_scope x) /\
    (forall n fuel s,
        WF s -> good s -> block n (run fuel) (begin_scope s) = Some x ->
        scope_depth (current (end_scope x)) = scope_depth (current s) /\
        (had_error (parser x) = false -> kept = locals (current s))).
Proof.
  intros W Hd. cbv zeta.
  destruct (WF_WFC x W) as [C1 C2 C3 C4].
  destruct (nondecreasing_split (locals (current x)) (scope_depth (current x) - 1) C4)
    as (a & b & E & Ha & Hb).
  assert (P : above (scope_depth (current x) - 1) (locals (current x)) = b).
  { rewrite E. apply above_split; auto. }
  assert (X : exited (List.length b) a x (end_scope x)).
  { apply end_scope_exited; auto. apply WF_nonempty; auto. }
  exists a. rewrite P.
  split; [ exact E | ]. split; [ exact Ha | ].
  split; [ | split; [ exact X | split ] ].
  - rewrite E in C3. apply Forall_app in C3. destruct C3 as [_ C3].
    rewrite Forall_forall in *. intros l Hin.
    specialize (C3 l Hin). specialize (Hb l Hin). simpl in *. lia.
  - eapply WF_end_scope; eauto.
  - intros n fuel s Ws G H.
    pose proof (inner_begin s Ws) as I0.
    pose proof (block_sframe n (run fuel) (run_sound fuel) _ _ H) as B.
    assert (I : inner s x) by (eapply inner_step; eauto).
    destruct I as [_ _ SB _ _ _ LB].
    destruct X as [_ XP _ _ _ XS _ XL _ _].
    split; [ lia | ].
    intros He. destruct (LB G He) as (new & Hl & Hnew).
    assert (X' : exited (List.length new) (locals (current s)) x (end_scope x)).
    { apply end_scope_exited; auto.
      - apply WF_nonempty; auto.
      - destruct (WF_WFC s Ws) as [_ _ D _]. eapply Forall_impl; [ | exact D ].
        simpl. intros. lia.
      - eapply Forall_impl; [ | exact Hnew ]. simpl. intros. lia. }
    destruct X' as [_ _ _ _ _ _ _ XL' _ _]. congruence.
Qed.

(** C5 (witness): the block [{ have a; { have b; have c; } have d; }];
    its closing brace pops [a] and [d], the two locals the nested block
    has left. *)
Lemma end_scope_pops_the_scope_witness :
  WF block_body_end /\
  0 < scope_depth (current block_body_end) /\
  List.length (above 0 (locals (current block_body_end))) = 2%nat /\
  exists kept,
    locals (current block_body_end)
      = kept ++ above 0 (locals (current block_body_end)) /\
    exited 2 kept block_body_end (end_scope block_body_end) /\
    kept = locals (current (start_state prog_block_body)).
Proof.
  assert (H : block 20 (run 20) (begin_scope (start_state prog_block_body))
              = Some block_body_end) by (vm_compute; reflexivity).
  assert (W : WF block_body_end).
  { pose proof (inner_begin _ (WF_start_state prog_block_body)) as I0.
    pose proof (block_sframe 20 (run 20) (run_sound 20) _ _ H) as B.
    apply (in_wf (start_state prog_block_body)).
    eapply inner_step; eauto. }
  assert (D : 0 < scope_depth (current block_body_end)) by (vm_compute; reflexivity).
  assert (L : List.length (above 0 (locals (current block_body_end))) = 2%nat)
    by (vm_compute; reflexivity).
  split; [ exact W | ]. split; [ exact D | ]. split; [ exact L | ].
  destruct (end_scope_pops_the_scope block_body_end W D)
    as (kept & K1 & _ & _ & K4 & _ & K6).
  replace (scope_depth (current block_body_end) - 1) with 0 in K1, K4
    by (vm_compute; reflexivity).
  rewrite L in K4.
  exists kept. split; [ exact K1 | ]. split; [ exact K4 | ].
  apply (K6 20%nat 20%nat (start_state prog_block_body)
            (WF_start_state prog_block_body)
            (good_start_state prog_block_body) H).
  vm_compute. reflexivity.
Defined.

(** ** C6 *)

Lemma add_local_keeps_error nm x :
  had_error (parser x) = true -> had_error (parser (add_local nm x)) = true.
Proof.
  intros H. unfold add_local. destruct (_ =? _).
  - apply (fr_err _ _ (error_frame _ x)). exact H.
  - rewrite parser_with_current. exact H.
Qed.

Lemma add_local_appends nm x :
  compilers x <> [] -> local_count (current x) < UINT8_COUNT ->
  parser (add_local nm x) = parser x /\
  locals (current (add_local nm x))
    = locals (current x) ++ [ {| l_name := nm; depth := -1 |} ].
Proof.
  intros H Hc. unfold add_local.
  destruct (Z.eqb_spec (local_count (current x)) UINT8_COUNT); [ lia | ].
  rewrite parser_with_current, current_with_current by exact H. auto.
Qed.

(** C6.  In a well-formed state [declare_variable] does nothing at scope
    depth 0; at a depth [d > 0] the locals split into those of the
    enclosing scopes (depth below [d]) and those of the current scope
    (depth [d]), the scan compares the name with the latter only, and
    "Already a variable with this name in this scope." is raised exactly
    when one of them has the name, before the local is added: a second
    declaration of a name in one scope is an error, and a declaration of a
    name that only enclosing scopes hold adds the local without error. *)
Theorem declare_variable_checks_current_scope (s : State) :
  WF s ->
  let nm := previous (parser s) in
  let d := scope_depth (current s) in
  let dup := declared_in_scope nm d (locals (current s)) in
  (d = 0 -> declare_variable s = s) /\
  (0 < d ->
   declare_variable s =
     add_local nm
       (if dup then error "Already a variable with this name in this scope." s
        else s)) /\
  (0 < d ->
   exists outer mine,
     locals (current s) = outer ++ mine /\
     Forall (fun l => 0 <= depth l < d) outer /\
     Forall (fun l => depth l = d) mine /\
     dup = existsb (fun l => identifiers_equal nm (l_name l)) mine) /\
  (0 < d -> good s -> dup = true ->
   had_error (parser (declare_variable s)) = true) /\
  (0 < d -> dup = false -> local_count (current s) < UINT8_COUNT ->
   parser (declare_variable s) = parser s /\
   locals (current (declare_variable s))
     = locals (current s) ++ [ {| l_name := nm; depth := -1 |} ]).
Proof.
  intros W nm d dup.
  destruct (WFC_scope_split _ (WF_WFC s W)) as (a & b & E & Ha & Hb).
  fold d in Ha, Hb.
  assert (D : dup = existsb (fun l => identifiers_equal nm (l_name l)) b).
  { unfold dup. rewrite E. apply declared_in_scope_split; auto. }
  assert (U : 0 < d ->
              declare_variable s =
              add_local nm
                (if dup then error "Already a variable with this name in this scope." s
                 else s)).
  { intros Hd. unfold declare_variable. fold d. fold nm.
    destruct (Z.eqb_spec d 0); [ lia | ].
    rewrite E, declare_scan_scope by auto. rewrite <- D. reflexivity. }
  split; [ | split; [ exact U | split; [ | split ] ] ].
  - intros Hd. unfold declare_variable. fold d. rewrite Hd. reflexivity.
  - intros _. exists a, b. auto.
  - intros Hd G Hdup. rewrite (U Hd), Hdup.
    apply add_local_keeps_error, error_had_error. exact G.
  - intros Hd Hdup Hc. rewrite (U Hd), Hdup.
    apply add_local_appends; auto. apply WF_nonempty; auto.
Qed.

(** C6 (witness): a second [a] in the scope that already holds [a]. *)
Lemma declare_variable_checks_current_scope_witness :
  WF redeclare_state /\
  declare_variable redeclare_state =
    add_local (ident "a")
      (error "Already a variable with this name in this scope." redeclare_state).
Proof.
  assert (W : WF redeclare_state).
  { split; simpl; [ discriminate | ].
    repeat constructor; simpl; auto; lia. }
  split; [ exact W | ].
  destruct (declare_variable_checks_current_scope redeclare_state W)
    as (_ & U & _).
  apply U. reflexivity.
Defined.

(** Redeclaration in one scope fails, shadowing in a nested scope compiles
    and reads the inner slot. *)
Lemma redeclaration_and_shadowing :
  report (compile_run 20 prog_redeclare)
    = Some (true, ["Already a variable with this name in this scope."]) /\
  report (compile_run 20 prog_shadow) = Some (false, []) /\
  emitted (compile_run 20 prog_shadow)
    = Some [Op OP_NIL; Op OP_NIL; Op OP_GET_LOCAL; Raw 2; Op OP_INFO;
            Op OP_POP; Op OP_POP; Op OP_NIL; Op OP_RETURN].
Proof. vm_compute. auto. Qed.



(** ** [break] and [continue] *)

Lemma compilers_advance s : compilers (advance s) = compilers s.
Proof. unfold advance. destruct (rest (parser s)); reflexivity. Qed.

Lemma compilers_consume k msg s : compilers (consume k msg s) = compilers s.
Proof.
  unfold consume. destruct (check k s).
  - apply compilers_advance.
  - apply compilers_error.
Qed.

Lemma compiling_chunk_consume k msg s :
  compiling_chunk (consume k msg s) = compiling_chunk s.
Proof. unfold compiling_chunk, current. rewrite compilers_consume. reflexivity. Qed.

Lemma had_error_advance s : had_error (parser (advance s)) = had_error (parser s).
Proof. unfold advance. destruct (rest (parser s)); reflexivity. Qed.

Lemma consume_present k msg s :
  check k s = true ->
  had_error (parser (consume k msg s)) = had_error (parser s).
Proof. intros H. unfold consume. rewrite H. apply had_error_advance. Qed.

Lemma check_parser k s s' : parser s' = parser s -> check k s' = check k s.
Proof. intros H. unfold check. rewrite H. reflexivity. Qed.

(** The loop start that [for_increment] records is the offset at which the
    code of the increment clause begins. *)
Lemma for_increment_records_start rec s s' :
  sound rec ->
  check RIGHT_PAREN s = false ->
  for_increment rec s = Some s' ->
  inner_most_loop_start s' = count (compiling_chunk (snd (emit_jump (Op OP_JUMP) s))) /\
  inner_most_loop_scope_depth s' = inner_most_loop_scope_depth s.
Proof.
  intros Hrec C H. unfold for_increment, match_ in H. rewrite C in H. simpl in H.
  destruct (expression rec _) as [y |] eqn:E; [ | discriminate ].
  inversion H; subst; clear H.
  rewrite (fr_start _ _ (patch_jump_frame _ _)).
  rewrite (fr_depth _ _ (patch_jump_frame _ _)). simpl.
  split; [ reflexivity | ].
  rewrite (fr_depth _ _ (emit_loop_frame _ _)).
  rewrite (fr_depth _ _ (consume_frame _ _ _)).
  rewrite (fr_depth _ _ (emit_byte_frame _ _)).
  rewrite (fr_depth _ _ (expression_frame rec Hrec _ _ E)).
  rewrite !(fr_depth _ _ (emit_byte_frame _ _)).
  reflexivity.
Qed.

(** What [break_statement] and [continue_statement] do with the recorded
    loop start, in a well-formed state: without one (-1) they only raise
    their error.  With one, each emits one [OP_POP] for every local above
    the depth recorded for the loop and then its instruction: [OP_BREAK],
    or [OP_LOOP] with the big-endian distance that leads back to the
    recorded loop start.  In a [for] loop with an increment clause the
    recorded loop start is the offset at which the code of the increment
    begins. *)
Theorem break_and_continue (s : State) :
  WF s ->
  let start := inner_most_loop_start s in
  let k := List.length (above (inner_most_loop_scope_depth s) (locals (current s))) in
  let here := count (compiling_chunk s) + Z.of_nat k in
  let distance := here + 3 - start in
  (start = -1 ->
   break_statement s = error "Cannot use 'break' outside of a loop." s /\
   continue_statement s = error "Cannot use 'continue' outside of a loop." s) /\
  (start <> -1 ->
   break_statement s
     = consume SEMICOLON "Expect ';' after 'break'."
         (emit_byte (Op OP_BREAK) (emit_pops k s)) /\
   continue_statement s
     = consume SEMICOLON "Expect ';' after 'continue'."
         (emit_loop start (emit_pops k s)) /\
   code (compiling_chunk (break_statement s))
     = code (compiling_chunk s) ++ repeat (Op OP_POP) k ++ [Op OP_BREAK] /\
   code (compiling_chunk (continue_statement s))
     = code (compiling_chunk s) ++ repeat (Op OP_POP) k ++
       [Op OP_LOOP; Raw ((distance / 256) mod 256); Raw (distance mod 256)] /\
   (0 <= distance <= 65535 ->
    read_u16 (code (compiling_chunk (continue_statement s))) (here + 1)
      = Some distance /\
    here + 3 - distance = start)) /\
  (check SEMICOLON s = true -> good s -> had_error (parser s) = false ->
   (had_error (parser (break_statement s)) = false <-> start <> -1) /\
   (distance <= 65535 ->
    (had_error (parser (continue_statement s)) = false <-> start <> -1))) /\
  (forall fuel s',
      check RIGHT_PAREN s = false -> for_increment (run fuel) s = Some s' ->
      inner_most_loop_start s'
        = count (compiling_chunk (snd (emit_jump (Op OP_JUMP) s))) /\
      inner_most_loop_scope_depth s' = inner_most_loop_scope_depth s).
Proof.
  intros W. cbv zeta.
  set (start := inner_most_loop_start s).
  set (k := List.length (above (inner_most_loop_scope_depth s) (locals (current s)))).
  set (here := count (compiling_chunk s) + Z.of_nat k).
  set (distance := here + 3 - start).
  pose proof (WF_nonempty s W) as Hne.
  pose proof (discard_locals_above (current s) (inner_most_loop_scope_depth s) s
                (WF_WFC s W)) as D.
  fold k in D.
  destruct (code_emit_pops k s Hne) as (P1 & P2 & P3).
  assert (B0 : start = -1 ->
               break_statement s = error "Cannot use 'break' outside of a loop." s /\
               continue_statement s = error "Cannot use 'continue' outside of a loop." s).
  { intros E. unfold break_statement, continue_statement. fold start.
    rewrite E. simpl. auto. }
  assert (B1 : start <> -1 ->
               break_statement s
               = consume SEMICOLON "Expect ';' after 'break'."
                   (emit_byte (Op OP_BREAK) (emit_pops k s)) /\
               continue_statement s
               = consume SEMICOLON "Expect ';' after 'continue'."
                   (emit_loop start (emit_pops k s))).
  { intros E. unfold break_statement, continue_statement. fold start.
    destruct (Z.eqb_spec start (-1)); [ contradiction | ].
    cbv zeta. rewrite D.
    pose proof (fr_start _ _ (discard_locals_frame
                  (List.length (locals (current s))) (locals (current s))
                  (inner_most_loop_scope_depth s) s)) as F.
    rewrite D in F. rewrite F. split; reflexivity. }
  assert (Hcount : count (compiling_chunk (emit_pops k s)) = here).
  { unfold count, here. rewrite P3, length_app, repeat_length. unfold count. lia. }
  destruct (emit_loop_code start (emit_pops k s) P1) as (L1 & L2).
  rewrite Hcount in L1, L2. fold distance in L1, L2.
  split; [ exact B0 | ]. split; [ | split ].
  - intros E. destruct (B1 E) as [Eb Ec].
    split; [ exact Eb | ]. split; [ exact Ec | ].
    assert (Cc : code (compiling_chunk (continue_statement s))
                 = code (compiling_chunk s) ++ repeat (Op OP_POP) k ++
                   [Op OP_LOOP; Raw ((distance / 256) mod 256); Raw (distance mod 256)]).
    { rewrite Ec, compiling_chunk_consume, L1, P3, <- app_assoc. reflexivity. }
    split; [ | split; [ exact Cc | ] ].
    + rewrite Eb, compiling_chunk_consume, code_emit_byte by exact P1.
      rewrite P3, <- app_assoc. reflexivity.
    + intros Hd. split; [ | lia ].
      rewrite Cc.
      replace (code (compiling_chunk s) ++ repeat (Op OP_POP) k ++
               [Op OP_LOOP; Raw ((distance / 256) mod 256); Raw (distance mod 256)])
        with ((code (compiling_chunk s) ++ repeat (Op OP_POP) k ++ [Op OP_LOOP]) ++
              Raw ((distance / 256) mod 256) :: Raw (distance mod 256) :: [])
        by (rewrite <- !app_assoc; reflexivity).
      replace (here + 1)
        with (Z.of_nat (List.length (code (compiling_chunk s) ++
                                     repeat (Op OP_POP) k ++ [Op OP_LOOP]))).
      * rewrite read_u16_app. f_equal.
        rewrite (Z.mod_small (distance / 256)).
        -- pose proof (Z.div_mod distance 256 ltac:(lia)). lia.
        -- split; [ apply Z.div_pos; lia | apply Z.div_lt_upper_bound; lia ].
      * rewrite !length_app, repeat_length. simpl. unfold here, count. lia.
  - intros Cs G He. split.
    + destruct (Z.eq_dec start (-1)) as [E | E].
      * destruct (B0 E) as [Eb _]. rewrite Eb, (error_had_error _ _ G).
        split; [ discriminate | contradiction ].
      * destruct (B1 E) as [Eb _]. rewrite Eb, consume_present.
        -- rewrite parser_emit_byte, P2, He. tauto.
        -- rewrite (check_parser _ s); auto.
           rewrite parser_emit_byte. exact P2.
    + intros Hd. destruct (Z.eq_dec start (-1)) as [E | E].
      * destruct (B0 E) as [_ Ec]. rewrite Ec, (error_had_error _ _ G).
        split; [ discriminate | contradiction ].
      * destruct (B1 E) as [_ Ec]. rewrite Ec, consume_present.
        -- rewrite L2. unfold UINT16_MAX. rewrite gtb_false by lia.
           rewrite P2, He. tauto.
        -- rewrite (check_parser _ s); auto.
           rewrite L2. unfold UINT16_MAX. rewrite gtb_false by lia. exact P2.
  - intros fuel s'. apply for_increment_records_start. apply run_sound.
Qed.

(** A [continue;] and a [break;] behind a recorded loop start, after one
    local of the body. *)
Lemma break_and_continue_witness :
  WF loop_body_state /\
  code (compiling_chunk (break_statement loop_body_state)) = [Op OP_POP; Op OP_BREAK] /\
  code (compiling_chunk (continue_statement loop_body_state))
    = [Op OP_POP; Op OP_LOOP; Raw 0; Raw 4] /\
  had_error (parser (continue_statement loop_body_state)) = false.
Proof.
  assert (W : WF loop_body_state).
  { split; simpl; [ discriminate | ].
    repeat constructor; simpl; auto; lia. }
  split; [ exact W | ].
  destruct (break_and_continue loop_body_state W) as (_ & A & B & _).
  assert (E : inner_most_loop_start loop_body_state <> -1) by (simpl; discriminate).
  destruct (A E) as (_ & _ & Cb & Cc & _).
  split; [ exact Cb | ]. split; [ exact Cc | ].
  assert (G : good loop_body_state).
  { unfold good. simpl. split; [ discriminate | tauto ]. }
  destruct (B eq_refl G eq_refl) as (_ & Q).
  apply Q; [ simpl; lia | exact E ].
Defined.

(** A [continue] in a [for] loop with an increment jumps to the increment
    (offset 3); a [while] loop records no loop start, so [break] inside it
    is rejected. *)
Lemma continue_in_for_and_break_in_while :
  emitted (compile_run 20 prog_for_continue)
    = Some [Op OP_JUMP; Raw 0; Raw 11;
            Op OP_GET_GLOBAL; Raw 1; Op OP_CONSTANT; Raw 2; Op OP_ADD;
            Op OP_SET_GLOBAL; Raw 0; Op OP_POP; Op OP_LOOP; Raw 0; Raw 14;
            Op OP_NIL; Op OP_POP; Op OP_LOOP; Raw 0; Raw 16;
            Op OP_POP; Op OP_LOOP; Raw 0; Raw 20; Op OP_NIL; Op OP_RETURN] /\
  report (compile_run 20 prog_for_continue) = Some (false, []) /\
  report (compile_run 20 prog_while_break)
    = Some (true, ["Cannot use 'break' outside of a loop."]).
Proof. vm_compute. auto. Qed.

(** ** C7 *)

(** C7 (code bug).  The specification: [break] and [continue] are legal
    inside an enclosing loop, and [continue] jumps back to the re-test
    point of that loop.  The code: only [for_statement] records a loop
    start; [while_statement] records none.  So [break] and [continue] in
    the body of a [while] loop are rejected, with a message that says
    they are outside of a loop, while the same [break] in a [for] loop
    compiles; and a [continue] in a [while] loop that is nested in a [for]
    loop compiles to a jump to the [for] loop: its [OP_LOOP] at offset 8
    leads back 11 bytes from offset 11, to offset 0, where the [for] loop
    starts, and not to offset 3, where the condition of the [while] loop
    starts and where the [OP_LOOP] that closes the [while] loop (at offset
    11, back 11 bytes from offset 14) leads. *)
Theorem break_and_continue_in_while :
  report (compile_run 20 prog_while_break)
    = Some (true, ["Cannot use 'break' outside of a loop."]) /\
  report (compile_run 20 prog_while_continue)
    = Some (true, ["Cannot use 'continue' outside of a loop."]) /\
  report (compile_run 20 prog_for_break) = Some (false, []) /\
  report (compile_run 20 prog_while_in_for) = Some (false, []) /\
  emitted (compile_run 20 prog_while_in_for)
    = Some [Op OP_CONSTANT; Raw 0; Op OP_INFO;
            Op OP_TRUE; Op OP_JUMP_IF_FALSE; Raw 0; Raw 7; Op OP_POP;
            Op OP_LOOP; Raw 0; Raw 11;
            Op OP_LOOP; Raw 0; Raw 11;
            Op OP_POP; Op OP_LOOP; Raw 0; Raw 18; Op OP_NIL; Op OP_RETURN].
Proof. vm_compute. repeat split; reflexivity. Qed.



(** ** C8: the counterexample *)

(** C8 (counterexample).  [func f() { return 1; }]: the body ends with an
    explicit return, and the chunk of [f] still ends with the implicit
    [OP_NIL; OP_RETURN].  [{ func f() { f(); } }]: the name is declared as
    a local of the block (it is popped at the end of the block), and the
    reference in the body is not resolved to it: it is compiled as a read
    of a global, [OP_GET_GLOBAL].  [func f() { have y := f(); }]: the
    reference to [f] is reported as an error, by the defect of
    [resolve_local] that C2 describes. *)
Lemma function_declaration_counterexample :
  option_map (fun r => constants (chunk (fst r)))
             (compile_run 20 prog_explicit_return)
  = Some [STRING_OBJ "f";
          FUNCTION_OBJ 0 (Some "f")
            [Op OP_CONSTANT; Raw 0; Op OP_RETURN; Op OP_NIL; Op OP_RETURN]
            [1; 1; 1; 1; 1] [NUMBER_VAL "1"]] /\
  option_map (fun r => (constants (chunk (fst r)), code (chunk (fst r)),
                        errors (parser (snd r))))
             (compile_run 20 prog_block_local_function)
  = Some ([FUNCTION_OBJ 0 (Some "f")
             [Op OP_GET_GLOBAL; Raw 0; Op OP_CALL; Raw 0; Op OP_POP;
              Op OP_NIL; Op OP_RETURN]
             [1; 1; 1; 1; 1; 1; 1] [STRING_OBJ "f"]],
          [Op OP_CONSTANT; Raw 0; Op OP_POP; Op OP_NIL; Op OP_RETURN], []) /\
  report (compile_run 20 prog_call_in_initializer)
  = Some (true, ["Cannot read local variable in its own initializer."]).
Proof. vm_compute. repeat split; reflexivity. Qed.

Lemma end_compiler_appends_return z :
  compilers z <> [] ->
  code (chunk (fst (end_compiler z)))
    = code (compiling_chunk z) ++ [Op OP_NIL; Op OP_RETURN] /\
  compilers (snd (end_compiler z)) = tl (compilers z).
Proof.
  intros H. unfold end_compiler, emit_return. simpl.
  pose proof (nonempty_emit_byte (Op OP_NIL) z H) as H1.
  fold (compiling_chunk (emit_byte (Op OP_RETURN) (emit_byte (Op OP_NIL) z))).
  rewrite !code_emit_byte by auto. rewrite <- app_assoc. split; [ reflexivity | ].
  unfold emit_byte, set_chunk. rewrite !tl_with_current. reflexivity.
Qed.

Lemma parser_variable_quiet msg s g x :
  parser_variable msg s = (g, x) ->
  quiet (consume IDENTIFIER msg s) x.
Proof.
  unfold parser_variable. intros H.
  pose proof (quiet_declare_variable (consume IDENTIFIER msg s)) as Q.
  destruct (_ >? 0).
  - inversion H; subst. exact Q.
  - apply quiet_identifier_constant in H. eapply quiet_trans; eauto.
Qed.

(** The recursive function of the specification compiles without error. *)
Lemma recursive_function_compiles :
  report (compile_run 40 prog_fib) = Some (false, []).
Proof. vm_compute. reflexivity. Qed.

(** ** C9 *)

Lemma good_end_compiler s : good s -> good (snd (end_compiler s)).
Proof.
  intros G. unfold end_compiler. simpl.
  apply (good_parser (emit_return s)); [ reflexivity | ].
  apply (fr_good _ _ (emit_return_frame s)). exact G.
Qed.

(** C9.  With enough fuel [compile] returns, and what it returns is the
    top-level function exactly when the error flag is clear at the end of
    the pass (the null pointer otherwise); the flag is clear exactly when
    no error message was reported during the pass. *)
Theorem compile_returns_function_iff_no_error (source : list Token) (fuel : nat) :
  (enough_fuel source <= fuel)%nat ->
  exists f s,
    compile_run fuel source = Some (f, s) /\
    compile fuel source = Some (if had_error (parser s) then None else Some f) /\
    (had_error (parser s) = false <-> errors (parser s) = []).
Proof.
  intros H. destruct (compile_run_total source fuel H) as (f & s & E).
  exists f, s. split; [ exact E | ]. split.
  - unfold compile. rewrite E. reflexivity.
  - unfold compile_run in E. fold (start_state source) in E.
    destruct (compile_loop (run fuel) fuel (start_state source)) as [s1 |] eqn:E1;
      [ | discriminate ].
    inversion E; subst.
    pose proof (compile_loop_sframe (run fuel) (run_sound fuel) _ _ _ E1
                  (WF_start_state source)) as [_ _ _ _ _ _ _ G _].
    apply (good_end_compiler s1 (G (good_start_state source))).
Qed.

(** C9 (witness): the recursive function of the specification. *)
Lemma compile_returns_function_iff_no_error_witness :
  (enough_fuel prog_fib <= enough_fuel prog_fib)%nat /\
  exists f, compile (enough_fuel prog_fib) prog_fib = Some (Some f).
Proof.
  split; [ apply le_n | ].
  destruct (compile_returns_function_iff_no_error prog_fib (enough_fuel prog_fib)
              (le_n _)) as (f & s & E & C & _).
  exists f. rewrite C.
  assert (R : report (compile_run (enough_fuel prog_fib) prog_fib) = Some (false, []))
    by (vm_compute; reflexivity).
  rewrite E in R. simpl in R. inversion R as [[R1 R2]]. rewrite R1. reflexivity.
Defined.

(** ** C10 *)

Lemma WF_reserved s : WF s -> reserved s.
Proof.
  intros [H1 H2]. split; auto.
  eapply Forall_impl; [ | exact H2 ]. intros c C. apply C.
Qed.

Lemma frame_reserved s s' : frame s s' -> reserved s -> reserved s'.
Proof.
  intros [T N L _ _ _ _ _ _] [R1 R2]. split.
  - eapply nonempty_length; eauto.
  - unfold current in L.
    destruct (compilers s) as [| c cs]; [ congruence | ].
    destruct (compilers s') as [| c' cs']; [ discriminate | ].
    simpl in *. subst cs'. inversion R2; subst.
    constructor; auto. unfold slot0_reserved in *. rewrite L. assumption.
Qed.

(** C10.  [init_compiler] starts every compiler with the reserved slot 0
    (empty name, depth 0).  The invariant [WF] (slot 0 of every compiler of
    the chain is the reserved one, at most 256 slots are in use, ...) holds
    when [compile] starts and is kept by every statement and declaration;
    an expression, which may run while the last local is uninitialized,
    keeps the table as it is.  Under it [add_local] adds a local while the
    table has fewer than 256 slots in use, that is at most 255 besides slot
    0, and reports "Too many local variables in function." otherwise
    without touching the table; and [resolve_local] never returns 0 for an
    identifier whose lexeme is not empty. *)
Theorem slot_zero_is_reserved (fuel : nat) (c : Call) (s s' : State) :
  WF s -> run fuel c s = Some s' ->
  WF s' /\ reserved s' /\
  local_count (current s') <= UINT8_COUNT /\
  (forall ty, locals (current (init_compiler ty s'))
              = [ {| l_name := empty_name; depth := 0 |} ]) /\
  (forall nm,
      (local_count (current s') < UINT8_COUNT ->
       parser (add_local nm s') = parser s' /\
       locals (current (add_local nm s'))
         = locals (current s') ++ [ {| l_name := nm; depth := -1 |} ]) /\
      (local_count (current s') = UINT8_COUNT ->
       add_local nm s' = error "Too many local variables in function." s')) /\
  (forall nm x, lexeme nm <> "" -> fst (resolve_local (current s') nm x) <> 0) /\
  (forall fuel' p x x',
      reserved x -> run fuel' (ParsePrecedence p) x = Some x' ->
      reserved x' /\ locals (current x') = locals (current x)) /\
  (forall source, WF (start_state source)).
Proof.
  intros W H.
  assert (W' : WF s').
  { pose proof (run_sound fuel c s s' H) as P. destruct c; simpl in P.
    - eapply frame_WF; eauto.
    - apply (sf_wf _ _ _ (P W)).
    - apply (sf_wf _ _ _ (P W)). }
  pose proof (WF_WFC s' W') as [C1 C2 C3 C4].
  split; [ exact W' | ]. split; [ apply WF_reserved; exact W' | ].
  split; [ unfold local_count, UINT8_COUNT; lia | ].
  split; [ intros ty; reflexivity | ].
  split; [ | split; [ | split ] ].
  - intros nm. split.
    + intros Hc. apply add_local_appends; auto. apply WF_nonempty; auto.
    + intros Hc. unfold add_local. rewrite Hc. reflexivity.
  - intros nm x Hnm. apply resolve_local_not_slot0; auto.
  - intros fuel' p x x' R Hx.
    pose proof (run_sound fuel' (ParsePrecedence p) x x' Hx) as F. simpl in F.
    split; [ eapply frame_reserved; eauto | apply F ].
  - apply WF_start_state.
Qed.

(** C10 (witness): the state after the declaration [have a;] in a block. *)
Lemma slot_zero_is_reserved_witness :
  WF (begin_scope (start_state prog_block_body)) /\
  exists s',
    run 20 Declaration (begin_scope (start_state prog_block_body)) = Some s' /\
    WF s' /\
    fst (resolve_local (current s') (ident "a") s') = 1.
Proof.
  assert (W : WF (begin_scope (start_state prog_block_body))).
  { apply (in_wf _ _ (inner_begin _ (WF_start_state prog_block_body))). }
  split; [ exact W | ].
  destruct (run 20 Declaration (begin_scope (start_state prog_block_body)))
    as [s' |] eqn:E; [ | vm_compute in E; discriminate E ].
  exists s'. split; [ reflexivity | ].
  destruct (slot_zero_is_reserved 20 Declaration _ s' W E) as (W' & _).
  split; [ exact W' | ].
  vm_compute in E. inversion E; subst s'. reflexivity.
Defined.

(** 255 locals besides slot 0 fit; the next one is refused. *)
Lemma local_table_capacity :
  let full := Nat.iter 255 (add_local (ident "v")) (start_state []) in
  had_error (parser full) = false /\
  local_count (current full) = 256 /\
  errors (parser (add_local (ident "v") full))
    = ["Too many local variables in function."] /\
  local_count (current (add_local (ident "v") full)) = 256.
Proof. vm_compute. auto. Qed.



(* ================================================================= *)
(** * Further properties of the emission primitives *)

Lemma u16_bytes z :
  0 <= z <= 65535 -> ((z / 256) mod 256) * 256 + z mod 256 = z.
Proof.
  intros H. rewrite (Z.mod_small (z / 256)).
  - pose proof (Z.div_mod z 256 ltac:(lia)). lia.
  - split; [ apply Z.div_pos; lia | apply Z.div_lt_upper_bound; lia ].
Qed.

Lemma u16_bytes_mod z :
  ((z / 256) mod 256) * 256 + z mod 256 = z mod 65536.
Proof.
  change 65536 with (256 * 256).
  rewrite Z.rem_mul_r by lia. lia.
Qed.

Lemma cond_error_records (b : bool) msg s :
  b = true ->
  (good s -> had_error (parser (if b then error msg s else s)) = true) /\
  (panic_mode (parser s) = false ->
   errors (parser (if b then error msg s else s)) = errors (parser s) ++ [msg]).
Proof.
  intros ->. split.
  - apply error_had_error.
  - intros H. apply error_records. exact H.
Qed.

(** X1.  [emit_loop] appends [OP_LOOP] and a two-byte operand.  For a loop
    start inside the chunk the operand is, big-endian, the distance from
    the byte after the operand back to the loop start, so that the
    position after the instruction minus the decoded operand is the loop
    start; this needs the distance to fit 16 bits.  A larger distance
    records "Loop body too large." and the operand holds its low 16 bits. *)
Theorem emit_loop_round_trip (loop_start : Z) (s : State) :
  compilers s <> [] ->
  0 <= loop_start <= count (compiling_chunk s) ->
  let s' := emit_loop loop_start s in
  let operand := count (compiling_chunk s) + 1 in
  let after := count (compiling_chunk s') in
  let offset := after - loop_start in
  after = count (compiling_chunk s) + 3 /\
  firstn (Z.to_nat operand) (code (compiling_chunk s'))
    = code (compiling_chunk s) ++ [Op OP_LOOP] /\
  (offset <= 65535 ->
   parser s' = parser s /\
   read_u16 (code (compiling_chunk s')) operand = Some offset /\
   after - offset = loop_start) /\
  (65535 < offset ->
   read_u16 (code (compiling_chunk s')) operand = Some (offset mod 65536) /\
   (good s -> had_error (parser s') = true) /\
   (panic_mode (parser s) = false ->
    errors (parser s') = errors (parser s) ++ ["Loop body too large."])).
Proof.
  intros Hne Hl. cbv zeta.
  destruct (emit_loop_code loop_start s Hne) as [C P].
  set (d := count (compiling_chunk s) + 3 - loop_start) in *.
  assert (A : count (compiling_chunk (emit_loop loop_start s))
              = count (compiling_chunk s) + 3).
  { unfold count. rewrite C, length_app. simpl. lia. }
  rewrite A. fold d.
  assert (R : read_u16 (code (compiling_chunk (emit_loop loop_start s)))
                       (count (compiling_chunk s) + 1)
              = Some (((d / 256) mod 256) * 256 + d mod 256)).
  { rewrite C.
    replace (code (compiling_chunk s) ++
             [Op OP_LOOP; Raw ((d / 256) mod 256); Raw (d mod 256)])
      with ((code (compiling_chunk s) ++ [Op OP_LOOP]) ++
            Raw ((d / 256) mod 256) :: Raw (d mod 256) :: [])
      by (rewrite <- app_assoc; reflexivity).
    replace (count (compiling_chunk s) + 1)
      with (Z.of_nat (List.length (code (compiling_chunk s) ++ [Op OP_LOOP])))
      by (rewrite length_app; unfold count; simpl; lia).
    apply read_u16_app. }
  split; [ reflexivity | ]. split; [ | split ].
  - rewrite C.
    replace (Z.to_nat (count (compiling_chunk s) + 1))
      with (List.length (code (compiling_chunk s) ++ [Op OP_LOOP]) + 0)%nat
      by (rewrite length_app; unfold count; simpl; lia).
    replace (code (compiling_chunk s) ++
             [Op OP_LOOP; Raw ((d / 256) mod 256); Raw (d mod 256)])
      with ((code (compiling_chunk s) ++ [Op OP_LOOP]) ++
            Raw ((d / 256) mod 256) :: Raw (d mod 256) :: [])
      by (rewrite <- app_assoc; reflexivity).
    rewrite firstn_app_2. simpl. apply app_nil_r.
  - intros Hd. split; [ | split; [ | lia ] ].
    + rewrite P. unfold UINT16_MAX. rewrite gtb_false by lia. reflexivity.
    + rewrite R, u16_bytes by (unfold d, count in *; lia). reflexivity.
  - intros Hd. split; [ | split ].
    + rewrite R, u16_bytes_mod. reflexivity.
    + intros G. rewrite P. unfold UINT16_MAX. rewrite gtb_true by lia.
      apply error_had_error. exact G.
    + intros Hp. rewrite P. unfold UINT16_MAX. rewrite gtb_true by lia.
      apply error_records. exact Hp.
Qed.

(** X1 (witness): a loop over an empty body at the start of a chunk. *)
Lemma emit_loop_round_trip_witness :
  compilers (start_state []) <> [] /\
  0 <= 0 <= count (compiling_chunk (start_state [])) /\
  read_u16 (code (compiling_chunk (emit_loop 0 (start_state [])))) 1 = Some 3.
Proof.
  assert (H1 : compilers (start_state []) <> []) by (simpl; discriminate).
  assert (H2 : 0 <= 0 <= count (compiling_chunk (start_state [])))
    by (vm_compute; split; discriminate).
  split; [ exact H1 | ]. split; [ exact H2 | ].
  destruct (emit_loop_round_trip 0 (start_state []) H1 H2) as (_ & _ & P & _).
  apply P. vm_compute. discriminate.
Defined.

Lemma make_constant_chunk v s :
  compilers s <> [] ->
  compiling_chunk (snd (make_constant v s))
    = {| code := code (compiling_chunk s);
         lines := lines (compiling_chunk s);
         constants := constants (compiling_chunk s) ++ [v] |} /\
  compilers (snd (make_constant v s)) <> [] /\
  fst (make_constant v s)
    = (if Z.of_nat (List.length (constants (compiling_chunk s))) >? UINT8_MAX
       then 0 else Z.of_nat (List.length (constants (compiling_chunk s)))) /\
  parser (snd (make_constant v s))
    = parser (if Z.of_nat (List.length (constants (compiling_chunk s))) >? UINT8_MAX
              then error "Too many constants in one chunk." s else s).
Proof.
  intros H. unfold make_constant, add_constant.
  destruct (_ >? UINT8_MAX); simpl.
  - rewrite compiling_chunk_error, compiling_chunk_set_chunk by exact H.
    rewrite compilers_error.
    split; [ reflexivity | ]. split; [ apply nonempty_with_current, H | ].
    split; [ reflexivity | ].
    unfold error. rewrite parser_set_chunk.
    destruct (panic_mode (parser s)); simpl; rewrite ?parser_set_chunk; reflexivity.
  - rewrite compiling_chunk_set_chunk by exact H.
    split; [ reflexivity | ]. split; [ apply nonempty_with_current, H | ].
    split; [ reflexivity | apply parser_set_chunk ].
Qed.

Lemma emit_constant_code v s :
  compilers s <> [] ->
  code (compiling_chunk (emit_constant v s))
    = code (compiling_chunk s) ++ [Op OP_CONSTANT; Raw (fst (make_constant v s))] /\
  constants (compiling_chunk (emit_constant v s))
    = constants (compiling_chunk s) ++ [v] /\
  parser (emit_constant v s) = parser (snd (make_constant v s)) /\
  compilers (emit_constant v s) <> [].
Proof.
  intros H. destruct (make_constant_chunk v s H) as (C & N & I & P).
  unfold emit_constant. destruct (make_constant v s) as [c s1] eqn:M.
  simpl in *. unfold emit_bytes.
  rewrite !parser_emit_byte. unfold emit_byte.
  rewrite !compiling_chunk_set_chunk
    by (try apply nonempty_with_current; exact N).
  rewrite C. simpl. rewrite <- app_assoc.
  split; [ reflexivity | ]. split; [ reflexivity | ]. split; [ reflexivity | ].
  apply nonempty_with_current, nonempty_with_current, N.
Qed.

(** X2.  [make_constant] appends the value to the constant pool of the
    current chunk and leaves its code alone; [emit_constant] then appends
    [OP_CONSTANT] and the index.  While the pool holds at most 255 values
    the index returned is the position of the new value, so a lookup at
    the index finds the value, and nothing is reported.  With 256 values
    in the pool the value is appended all the same, the index is 0 and
    "Too many constants in one chunk." is recorded. *)
Theorem make_constant_lookup (v : Value) (s : State) :
  compilers s <> [] ->
  let n := Z.of_nat (List.length (constants (compiling_chunk s))) in
  let index := fst (make_constant v s) in
  let s' := snd (make_constant v s) in
  constants (compiling_chunk s') = constants (compiling_chunk s) ++ [v] /\
  code (compiling_chunk s') = code (compiling_chunk s) /\
  code (compiling_chunk (emit_constant v s))
    = code (compiling_chunk s) ++ [Op OP_CONSTANT; Raw index] /\
  constants (compiling_chunk (emit_constant v s))
    = constants (compiling_chunk s) ++ [v] /\
  (n <= 255 ->
   index = n /\
   nth_error (constants (compiling_chunk s')) (Z.to_nat index) = Some v /\
   parser s' = parser s) /\
  (255 < n ->
   index = 0 /\
   (good s -> had_error (parser s') = true) /\
   (panic_mode (parser s) = false ->
    errors (parser s')
      = errors (parser s) ++ ["Too many constants in one chunk."])).
Proof.
  intros H. cbv zeta.
  destruct (make_constant_chunk v s H) as (C & N & I & P).
  destruct (emit_constant_code v s H) as (E1 & E2 & _).
  rewrite C. simpl.
  split; [ reflexivity | ]. split; [ reflexivity | ].
  split; [ exact E1 | ]. split; [ exact E2 | ].
  unfold UINT8_MAX in *. split.
  - intros Hn. rewrite gtb_false in I, P by lia.
    split; [ exact I | ]. split; [ | exact P ].
    rewrite I, Nat2Z.id, nth_error_app2 by lia.
    rewrite Nat.sub_diag. reflexivity.
  - intros Hn. rewrite gtb_true in I, P by lia.
    split; [ exact I | ]. rewrite P. split.
    + apply error_had_error.
    + intros Hp. apply error_records. exact Hp.
Qed.

(** X2 (witness): the first constant of a chunk gets index 0. *)
Lemma make_constant_lookup_witness :
  compilers (start_state []) <> [] /\
  fst (make_constant (NUMBER_VAL "1") (start_state [])) = 0 /\
  nth_error (constants (compiling_chunk
               (snd (make_constant (NUMBER_VAL "1") (start_state []))))) 0
    = Some (NUMBER_VAL "1").
Proof.
  assert (H1 : compilers (start_state []) <> []) by (simpl; discriminate).
  split; [ exact H1 | ].
  destruct (make_constant_lookup (NUMBER_VAL "1") (start_state []) H1)
    as (_ & _ & _ & _ & P & _).
  destruct P as (P1 & P2 & _); [ vm_compute; discriminate | ].
  split; [ exact P1 | ]. rewrite P1 in P2. exact P2.
Defined.

(** X3.  [patch_jump] changes nothing but the two bytes at [offset] and
    [offset + 1] of the current chunk: every other byte, the length of the
    code, the line table, the constant pool, the locals and the enclosing
    compilers are as before. *)
Theorem patch_jump_touches_two_bytes (offset : Z) (s : State) :
  compilers s <> [] ->
  let s' := patch_jump offset s in
  (forall i, Z.of_nat i <> offset -> Z.of_nat i <> offset + 1 ->
             nth_error (code (compiling_chunk s')) i
             = nth_error (code (compiling_chunk s)) i) /\
  List.length (code (compiling_chunk s')) = List.length (code (compiling_chunk s)) /\
  lines (compiling_chunk s') = lines (compiling_chunk s) /\
  constants (compiling_chunk s') = constants (compiling_chunk s) /\
  locals (current s') = locals (current s) /\
  scope_depth (current s') = scope_depth (current s) /\
  tl (compilers s') = tl (compilers s).
Proof.
  intros H. cbv zeta.
  pose proof (patch_jump_frame offset s) as [T _ L S _ _ _ _ _].
  assert (K : forall o b ch,
             lines (store_code o b ch) = lines ch /\
             constants (store_code o b ch) = constants ch /\
             List.length (code (store_code o b ch)) = List.length (code ch) /\
             forall i, Z.of_nat i <> o ->
                       nth_error (code (store_code o b ch)) i = nth_error (code ch) i).
  { intros o b ch. unfold store_code. destruct (Z.ltb_spec o 0); simpl; auto.
    split; [ reflexivity | ]. split; [ reflexivity | ].
    split; [ apply length_store | ].
    intros i Hi. apply nth_error_store_other. lia. }
  assert (Q : exists b1 b2,
             compiling_chunk (patch_jump offset s)
             = store_code (offset + 1) b2 (store_code offset b1 (compiling_chunk s))).
  { unfold patch_jump.
    set (jump := count (compiling_chunk s) - offset - 2).
    set (s1 := if jump >? UINT16_MAX then _ else s).
    assert (H1 : compilers s1 <> [])
      by (unfold s1; rewrite compilers_cond_error; exact H).
    assert (C1 : compiling_chunk s1 = compiling_chunk s)
      by (unfold s1; apply compiling_chunk_cond_error).
    clearbody s1.
    rewrite !compiling_chunk_set_chunk
      by (try apply nonempty_with_current; exact H1).
    rewrite C1. eauto. }
  destruct Q as (b1 & b2 & Q). rewrite Q.
  destruct (K offset b1 (compiling_chunk s)) as (K1 & K2 & K3 & K4).
  destruct (K (offset + 1) b2 (store_code offset b1 (compiling_chunk s)))
    as (J1 & J2 & J3 & J4).
  split; [ | split; [ congruence | split; [ congruence | split; [ congruence | ] ] ] ].
  - intros i Hi Hj. rewrite J4, K4 by assumption. reflexivity.
  - split; [ exact L | ]. split; [ exact S | exact T ].
Qed.

(** X3 (witness): patching the jump of a three-byte chunk keeps byte 0. *)
Lemma patch_jump_touches_two_bytes_witness :
  compilers (jump_state 0) <> [] /\
  nth_error (code (compiling_chunk (patch_jump 1 (jump_state 0)))) 0
    = Some (Op OP_JUMP).
Proof.
  assert (H1 : compilers (jump_state 0) <> []) by (simpl; discriminate).
  split; [ exact H1 | ].
  destruct (patch_jump_touches_two_bytes 1 (jump_state 0) H1) as (P & _).
  rewrite (P 0%nat); [ reflexivity | discriminate | discriminate ].
Defined.

(* ================================================================= *)
(** * Scopes *)

Lemma with_current_scope_round_trip s :
  with_current (fun c => set_scope_depth (scope_depth c - 1) c)
    (with_current (fun c => set_scope_depth (scope_depth c + 1) c) s) = s.
Proof.
  destruct s as [p cs a b]. unfold with_current. simpl.
  destruct cs as [| c cs]; simpl; [ reflexivity | ].
  unfold set_compilers. simpl. f_equal. f_equal.
  destruct c as [f t l d]. unfold set_scope_depth. simpl. f_equal. lia.
Qed.

(** X4.  In a well-formed state a scope that is opened and closed at once
    leaves no trace: [end_scope (begin_scope s)] is [s] itself, with no pop
    emitted and no local removed. *)
Theorem empty_scope_round_trip (s : State) :
  WF s -> end_scope (begin_scope s) = s.
Proof.
  intros W. unfold end_scope, begin_scope.
  rewrite with_current_scope_round_trip.
  apply (end_scope_loop_stop _ (locals (current s))); [ reflexivity | ].
  destruct (WF_WFC s W) as [_ _ D _].
  eapply Forall_impl; [ | exact D ]. simpl. intros l Hl. lia.
Qed.

(** X4 (witness): the state in which [compile] starts. *)
Lemma empty_scope_round_trip_witness :
  WF (start_state []) /\
  end_scope (begin_scope (start_state [])) = start_state [].
Proof.
  split; [ apply WF_start_state | ].
  apply (empty_scope_round_trip (start_state []) (WF_start_state [])).
Defined.

(* ================================================================= *)
(** * Error recovery *)

Lemma advance_keeps s :
  had_error (parser (advance s)) = had_error (parser s) /\
  errors (parser (advance s)) = errors (parser s) /\
  panic_mode (parser (advance s)) = panic_mode (parser s) /\
  compilers (advance s) = compilers s.
Proof. unfold advance. destruct (rest (parser s)); simpl; auto. Qed.

Lemma iter_advance_keeps j s :
  had_error (parser (Nat.iter j advance s)) = had_error (parser s) /\
  errors (parser (Nat.iter j advance s)) = errors (parser s) /\
  panic_mode (parser (Nat.iter j advance s)) = panic_mode (parser s) /\
  compilers (Nat.iter j advance s) = compilers s.
Proof.
  induction j as [| j (I1 & I2 & I3 & I4)]; simpl; auto.
  destruct (advance_keeps (Nat.iter j advance s)) as (A1 & A2 & A3 & A4).
  repeat split; congruence.
Qed.

(** The loop of [synchronize] stops at the first boundary, which it
    reaches before its bound is used up. *)
Lemma synchronize_loop_first_boundary k s :
  (remaining s < k)%nat ->
  exists j,
    synchronize_loop k s = Nat.iter j advance s /\
    at_boundary (Nat.iter j advance s) = true /\
    forall i, (i < j)%nat -> at_boundary (Nat.iter i advance s) = false.
Proof.
  revert s. induction k as [| k IH]; intros s Hk; [ lia | ].
  simpl. unfold at_boundary.
  destruct (check EOF_TOKEN s) eqn:E1; simpl.
  { exists 0%nat. simpl. rewrite E1. split; [ reflexivity | ].
    split; [ reflexivity | intros i Hi; lia ]. }
  destruct (kind_is SEMICOLON (previous (parser s))) eqn:E2.
  { exists 0%nat. simpl. rewrite E1, E2. split; [ reflexivity | ].
    split; [ reflexivity | intros i Hi; lia ]. }
  destruct (return_context (kind (current_tok (parser s)))) eqn:E3.
  { exists 0%nat. simpl. rewrite E1, E2, E3. split; [ reflexivity | ].
    split; [ reflexivity | intros i Hi; lia ]. }
  pose proof (advance_lt s E1) as Hlt.
  destruct (IH (advance s) ltac:(lia)) as (j & J1 & J2 & J3).
  exists (S j). rewrite Nat.iter_succ_r.
  split; [ exact J1 | ]. split; [ exact J2 | ].
  intros [| i] Hi.
  - simpl. rewrite E1, E2, E3. reflexivity.
  - rewrite Nat.iter_succ_r. apply J3. lia.
Qed.

(** X5.  [synchronize] clears panic mode and then skips tokens up to the
    first boundary: the end of the input, the position behind a semicolon,
    or a token that begins a declaration or statement.  It stops there and
    nowhere before; it reports nothing, keeps the error flag, and does not
    touch the compilers, so nothing is emitted. *)
Theorem synchronize_stops_at_first_boundary (s : State) :
  exists j,
    synchronize s = Nat.iter j advance (set_panic_mode false s) /\
    at_boundary (synchronize s) = true /\
    (forall i, (i < j)%nat ->
               at_boundary (Nat.iter i advance (set_panic_mode false s)) = false) /\
    panic_mode (parser (synchronize s)) = false /\
    had_error (parser (synchronize s)) = had_error (parser s) /\
    errors (parser (synchronize s)) = errors (parser s) /\
    compilers (synchronize s) = compilers s.
Proof.
  unfold synchronize.
  set (s0 := set_panic_mode false s).
  destruct (synchronize_loop_first_boundary
              (List.length (rest (parser s0)) + 2) s0) as (j & J1 & J2 & J3).
  { unfold remaining. destruct (check EOF_TOKEN s0); lia. }
  exists j. rewrite J1.
  destruct (iter_advance_keeps j s0) as (K1 & K2 & K3 & K4).
  split; [ reflexivity | ]. split; [ exact J2 | ]. split; [ exact J3 | ].
  rewrite K1, K2, K3, K4. unfold s0. simpl. auto.
Qed.

(* ================================================================= *)
(** * Imports *)

Lemma substring_prefix (a b : string) :
  String.substring 0 (String.length a) (a ++ b) = a.
Proof. induction a as [| c a IH]; simpl; [ destruct b | rewrite IH ]; reflexivity. Qed.

Lemma string_length_app (a b : string) :
  String.length (a ++ b) = (String.length a + String.length b)%nat.
Proof. induction a as [| c a IH]; simpl; [ | rewrite IH ]; reflexivity. Qed.

Lemma strip_quotes_quoted (q q' : Ascii.ascii) (body : string) :
  strip_quotes (String q (body ++ String q' "")) = body.
Proof.
  unfold strip_quotes. simpl String.length. rewrite string_length_app. simpl.
  replace (String.length body + 1 - 1)%nat with (String.length body) by lia.
  apply substring_prefix.
Qed.

(** X7.  [using_statement] in front of a string token and a semicolon:
    it consumes both, appends to the constant pool the lexeme of the
    string token without its first and last byte (the quotes), and appends
    [OP_CONSTANT], the index of that constant, and [OP_IMPORT]; nothing is
    reported while the pool has room.  No module is looked up at compile
    time: any name compiles. *)
Theorem using_statement_emits_import (s : State) :
  compilers s <> [] ->
  check STRING s = true -> check SEMICOLON (advance s) = true ->
  let name := strip_quotes (lexeme (current_tok (parser s))) in
  let n := Z.of_nat (List.length (constants (compiling_chunk s))) in
  let s' := using_statement s in
  constants (compiling_chunk s')
    = constants (compiling_chunk s) ++ [STRING_OBJ name] /\
  code (compiling_chunk s')
    = code (compiling_chunk s)
      ++ [Op OP_CONSTANT; Raw (if n >? 255 then 0 else n); Op OP_IMPORT] /\
  (n <= 255 -> parser s' = parser (advance (advance s))) /\
  (forall q q' body,
      lexeme (current_tok (parser s)) = String q (body ++ String q' "") ->
      name = body).
Proof.
  intros H H1 H2. cbv zeta. unfold using_statement.
  assert (A1 : consume STRING "Expect string after 'using'." s = advance s)
    by (unfold consume; rewrite H1; reflexivity).
  rewrite A1, previous_advance.
  assert (A2 : consume SEMICOLON "Expect ';' after value." (advance s)
               = advance (advance s))
    by (unfold consume; rewrite H2; reflexivity).
  rewrite A2.
  set (x := advance (advance s)).
  assert (Hx : compilers x <> []) by (unfold x; rewrite !compilers_advance; exact H).
  assert (Cx : compiling_chunk x = compiling_chunk s).
  { unfold x, compiling_chunk, current. rewrite !compilers_advance. reflexivity. }
  set (v := copy_string _).
  destruct (emit_constant_code v x Hx) as (E1 & E2 & E3 & E4).
  destruct (make_constant_chunk v x Hx) as (_ & _ & I & P).
  rewrite parser_emit_byte, code_emit_byte by exact E4.
  unfold emit_byte. rewrite compiling_chunk_set_chunk by exact E4. simpl.
  rewrite E1, E2, E3, I, P, Cx, <- app_assoc. unfold UINT8_MAX.
  split; [ reflexivity | ]. split; [ reflexivity | ]. split.
  - intros Hn. rewrite gtb_false by lia. reflexivity.
  - intros q q' body E. rewrite E. apply strip_quotes_quoted.
Qed.

(** X7 (witness): [using 'fs';] behind its keyword. *)
Lemma using_statement_emits_import_witness :
  compilers using_state <> [] /\
  check STRING using_state = true /\
  check SEMICOLON (advance using_state) = true /\
  constants (compiling_chunk (using_statement using_state)) = [STRING_OBJ "fs"].
Proof.
  assert (H : compilers using_state <> []) by (simpl; discriminate).
  assert (H1 : check STRING using_state = true) by reflexivity.
  assert (H2 : check SEMICOLON (advance using_state) = true) by reflexivity.
  split; [ exact H | ]. split; [ exact H1 | ]. split; [ exact H2 | ].
  destruct (using_statement_emits_import using_state H H1 H2) as (P & _).
  rewrite P. reflexivity.
Defined.



(* ================================================================= *)
(** * The compiler only appends *)

Create HintDb appends discriminated.

(** ** The relations are preorders *)

Lemma chunk_extends_refl a : chunk_extends a a.
Proof. repeat split; exists []; rewrite app_nil_r; reflexivity. Qed.

Lemma chunk_extends_trans a b c :
  chunk_extends a b -> chunk_extends b c -> chunk_extends a c.
Proof.
  intros ((c1 & C1) & (l1 & L1) & (k1 & K1)) ((c2 & C2) & (l2 & L2) & (k2 & K2)).
  repeat split.
  - exists (c1 ++ c2). rewrite C2, C1, app_assoc. reflexivity.
  - exists (l1 ++ l2). rewrite L2, L1, app_assoc. reflexivity.
  - exists (k1 ++ k2). rewrite K2, K1, app_assoc. reflexivity.
Qed.

Lemma chunk_extends_count a b : chunk_extends a b -> count a <= count b.
Proof.
  intros ((c & C) & _). unfold count. rewrite C, length_app. lia.
Qed.

Lemma reports_once_refl p : reports_once p p.
Proof. left. auto. Qed.

Lemma reports_once_trans p q r :
  reports_once p q -> reports_once q r -> reports_once p r.
Proof.
  intros [(A1 & A2 & A3) | (A1 & A2 & A3 & m & A4)]
         [(B1 & B2 & B3) | (B1 & B2 & B3 & m' & B4)].
  - left. repeat split; congruence.
  - right. repeat split; try congruence. exists m'. congruence.
  - right. repeat split; try congruence. exists m. congruence.
  - congruence.
Qed.

Lemma reports_once_reports p q : reports_once p q -> reports p q.
Proof.
  intros [(_ & _ & A) | (_ & _ & _ & m & A)].
  - exists []. rewrite app_nil_r. exact A.
  - exists [m]. exact A.
Qed.

Lemma reports_refl p : reports p p.
Proof. exists []. rewrite app_nil_r. reflexivity. Qed.

Lemma reports_trans p q r : reports p q -> reports q r -> reports p r.
Proof.
  intros (m1 & A) (m2 & B). exists (m1 ++ m2). rewrite B, A, app_assoc. reflexivity.
Qed.

Lemma appends_refl o s : appends o s s.
Proof.
  constructor; auto.
  - apply chunk_extends_refl.
  - destruct o; [ apply reports_once_refl | apply reports_refl ].
Qed.

Lemma appends_trans o s1 s2 s3 :
  appends o s1 s2 -> appends o s2 s3 -> appends o s1 s3.
Proof.
  intros [N1 C1 R1 K1] [N2 C2 R2 K2]. constructor; auto.
  - congruence.
  - eapply chunk_extends_trans; eauto.
  - destruct o; [ eapply reports_once_trans | eapply reports_trans ]; eauto.
Qed.

Lemma appends_weaken o s s' : appends true s s' -> appends o s s'.
Proof.
  intros [N C R K]. constructor; auto.
  destruct o; [ exact R | apply reports_once_reports; exact R ].
Qed.

(** ** The ways in which the state is updated *)

(** The parser changes, the compilers do not. *)
Lemma parser_appends o s s' :
  compilers s' = compilers s ->
  reports_once (parser s) (parser s') ->
  appends o s s'.
Proof.
  intros H R. apply appends_weaken. constructor; auto.
  - congruence.
  - unfold compiling_chunk, current. rewrite H. apply chunk_extends_refl.
  - unfold compiling_chunk, current. rewrite H. auto.
Qed.

(** [current] changes, its chunk does not. *)
Lemma with_current_appends o f s :
  (forall c, chunk (function (f c)) = chunk (function c)) ->
  appends o s (with_current f s).
Proof.
  intros Hf. apply appends_weaken. constructor.
  - rewrite compilers_with_current. destruct (compilers s); reflexivity.
  - unfold compiling_chunk, current. rewrite compilers_with_current.
    destruct (compilers s); simpl; [ | rewrite Hf ]; apply chunk_extends_refl.
  - rewrite parser_with_current. apply reports_once_refl.
  - unfold compiling_chunk, current. rewrite compilers_with_current.
    destruct (compilers s); simpl; [ | rewrite Hf ]; auto.
Qed.

(** The chunk of [current] is replaced by an extension of itself. *)
Lemma set_chunk_appends o ch s :
  chunk_extends (compiling_chunk s) ch ->
  (chunk_ok (compiling_chunk s) -> chunk_ok ch) ->
  appends o s (set_chunk ch s).
Proof.
  intros He Hk. apply appends_weaken. unfold set_chunk. constructor.
  - rewrite compilers_with_current. destruct (compilers s); reflexivity.
  - unfold compiling_chunk, current in *. rewrite compilers_with_current.
    destruct (compilers s); simpl in *; [ apply chunk_extends_refl | exact He ].
  - rewrite parser_with_current. apply reports_once_refl.
  - unfold compiling_chunk, current in *. rewrite compilers_with_current.
    destruct (compilers s); simpl in *; auto.
Qed.

Lemma advance_appends o s : appends o s (advance s).
Proof.
  apply parser_appends.
  - apply compilers_advance.
  - left. unfold advance. destruct (rest (parser s)); simpl; auto.
Qed.

Lemma error_appends o msg s : appends o s (error msg s).
Proof.
  apply parser_appends.
  - apply compilers_error.
  - unfold error. destruct (panic_mode (parser s)) eqn:E.
    + apply reports_once_refl.
    + right. simpl. repeat split; auto. exists msg. reflexivity.
Qed.

Lemma error_at_current_appends o msg s : appends o s (error_at_current msg s).
Proof. apply error_appends. Qed.

Lemma cond_error_appends o (b : bool) msg s :
  appends o s (if b then error msg s else s).
Proof. destruct b; [ apply error_appends | apply appends_refl ]. Qed.

Lemma consume_appends o k msg s : appends o s (consume k msg s).
Proof.
  unfold consume. destruct (check k s);
    [ apply advance_appends | apply error_at_current_appends ].
Qed.

Lemma match_appends o k s m s' : match_ k s = (m, s') -> appends o s s'.
Proof.
  unfold match_. destruct (check k s); intros H; inversion H; subst;
    [ apply advance_appends | apply appends_refl ].
Qed.

(** Leaving panic mode: no longer "at most one message". *)
Lemma set_panic_mode_appends b s : appends false s (set_panic_mode b s).
Proof.
  constructor; auto.
  - apply chunk_extends_refl.
  - exists []. simpl. rewrite app_nil_r. reflexivity.
Qed.

Lemma set_loop_appends o a b s : appends o s (set_loop a b s).
Proof. apply parser_appends; [ reflexivity | apply reports_once_refl ]. Qed.

Lemma emit_byte_appends o b s : appends o s (emit_byte b s).
Proof.
  unfold emit_byte. apply set_chunk_appends.
  - unfold write_chunk. repeat split; simpl; eauto.
    exists []. rewrite app_nil_r. reflexivity.
  - unfold chunk_ok, write_chunk. simpl. intros [H1 H2].
    rewrite !length_app, H1. auto.
Qed.

Lemma emit_bytes_appends o b1 b2 s : appends o s (emit_bytes b1 b2 s).
Proof. unfold emit_bytes. eapply appends_trans; apply emit_byte_appends. Qed.

Lemma emit_return_appends o s : appends o s (emit_return s).
Proof. unfold emit_return. eapply appends_trans; apply emit_byte_appends. Qed.

Lemma emit_loop_appends o l s : appends o s (emit_loop l s).
Proof.
  unfold emit_loop.
  eapply appends_trans; [ | apply emit_byte_appends ].
  eapply appends_trans; [ | apply emit_byte_appends ].
  eapply appends_trans; [ | apply cond_error_appends ].
  apply emit_byte_appends.
Qed.

Lemma emit_jump_appends o b s j s' : emit_jump b s = (j, s') -> appends o s s'.
Proof.
  unfold emit_jump. intros H. inversion H; subst.
  eapply appends_trans; [ | apply emit_byte_appends ].
  eapply appends_trans; [ | apply emit_byte_appends ].
  apply emit_byte_appends.
Qed.

(** The offset that [emit_jump] returns lies behind the code there was. *)
Lemma emit_jump_offset b s j s' :
  emit_jump b s = (j, s') -> compilers s <> [] ->
  j = count (compiling_chunk s) + 1.
Proof.
  intros H Hne. destruct (emit_jump_code b s Hne) as (E & _).
  rewrite H in E. exact E.
Qed.

Lemma make_constant_appends o v s c s' :
  value_ok v -> make_constant v s = (c, s') -> appends o s s'.
Proof.
  intros Hv. unfold make_constant, add_constant.
  assert (A : appends o s
                (set_chunk {| code := code (compiling_chunk s);
                              lines := lines (compiling_chunk s);
                              constants := constants (compiling_chunk s) ++ [v] |} s)).
  { apply set_chunk_appends.
    - repeat split; simpl; eauto; exists []; rewrite app_nil_r; reflexivity.
    - unfold chunk_ok. simpl. intros [H1 H2]. split; auto.
      apply Forall_app. auto. }
  destruct (_ >? UINT8_MAX); intros H; inversion H; subst.
  - eapply appends_trans; [ exact A | apply error_appends ].
  - exact A.
Qed.

Lemma emit_constant_appends o v s :
  value_ok v -> appends o s (emit_constant v s).
Proof.
  intros Hv. unfold emit_constant. destruct (make_constant v s) as [c s1] eqn:E.
  eapply appends_trans; [ eapply make_constant_appends; eauto | apply emit_bytes_appends ].
Qed.

Lemma number_appends o t s : appends o s (emit_constant (NUMBER_VAL t) s).
Proof. apply emit_constant_appends. exact I. Qed.

Lemma string_appends o t s : appends o s (emit_constant (copy_string t) s).
Proof. apply emit_constant_appends. exact I. Qed.

Lemma identifier_constant_appends o nm s c s' :
  identifier_constant nm s = (c, s') -> appends o s s'.
Proof. apply make_constant_appends. exact I. Qed.

Lemma resolve_local_from_appends o i ls nm s r s' :
  resolve_local_from i ls nm s = (r, s') -> appends o s s'.
Proof.
  revert s. induction i as [| j IH]; simpl; intros s H.
  - inversion H; subst. apply appends_refl.
  - destruct (nth_error ls j) as [l |].
    + destruct (identifiers_equal nm (l_name l)).
      * inversion H; subst. apply appends_refl.
      * apply IH in H. eapply appends_trans; [ apply cond_error_appends | exact H ].
    + inversion H; subst. apply appends_refl.
Qed.

Lemma resolve_local_appends o c nm s r s' :
  resolve_local c nm s = (r, s') -> appends o s s'.
Proof. apply resolve_local_from_appends. Qed.

Lemma discard_locals_appends o i ls d s : appends o s (discard_locals i ls d s).
Proof.
  revert s. induction i as [| j IH]; simpl; intros s.
  - apply appends_refl.
  - destruct (nth_error ls j) as [l |]; [ | apply appends_refl ].
    destruct (depth l >? d); [ | apply appends_refl ].
    eapply appends_trans; [ apply emit_byte_appends | apply IH ].
Qed.

Lemma continue_statement_appends o s : appends o s (continue_statement s).
Proof.
  unfold continue_statement. destruct (inner_most_loop_start s =? -1).
  - apply error_appends.
  - eapply appends_trans; [ | apply consume_appends ].
    eapply appends_trans; [ | apply emit_loop_appends ].
    apply discard_locals_appends.
Qed.

Lemma break_statement_appends o s : appends o s (break_statement s).
Proof.
  unfold break_statement. destruct (inner_most_loop_start s =? -1).
  - apply error_appends.
  - eapply appends_trans; [ | apply consume_appends ].
    eapply appends_trans; [ | apply emit_byte_appends ].
    apply discard_locals_appends.
Qed.

Lemma using_statement_appends o s : appends o s (using_statement s).
Proof.
  unfold using_statement.
  eapply appends_trans; [ | apply emit_byte_appends ].
  eapply appends_trans; [ | apply string_appends ].
  eapply appends_trans; apply consume_appends.
Qed.

Lemma synchronize_loop_appends o k s : appends o s (synchronize_loop k s).
Proof.
  revert s. induction k as [| k IH]; simpl; intros s.
  - apply appends_refl.
  - destruct (negb (check EOF_TOKEN s)); [ | apply appends_refl ].
    destruct (kind_is SEMICOLON (previous (parser s))); [ apply appends_refl | ].
    destruct (return_context (kind (current_tok (parser s)))); [ apply appends_refl | ].
    eapply appends_trans; [ apply advance_appends | apply IH ].
Qed.

Lemma synchronize_appends s : appends false s (synchronize s).
Proof.
  unfold synchronize.
  eapply appends_trans; [ apply set_panic_mode_appends | apply synchronize_loop_appends ].
Qed.

(** ** Scopes and locals *)

Lemma begin_scope_appends o s : appends o s (begin_scope s).
Proof. apply with_current_appends. reflexivity. Qed.

Lemma end_scope_loop_appends o k s : appends o s (end_scope_loop k s).
Proof.
  revert s. induction k as [| k IH]; simpl; intros s.
  - apply appends_refl.
  - destruct (nth_error _ _) as [l |]; [ | apply appends_refl ].
    destruct (_ && _); [ | apply appends_refl ].
    eapply appends_trans; [ | apply IH ].
    eapply appends_trans; [ apply emit_byte_appends | ].
    apply with_current_appends. reflexivity.
Qed.

Lemma end_scope_appends o s : appends o s (end_scope s).
Proof.
  unfold end_scope.
  eapply appends_trans; [ | apply end_scope_loop_appends ].
  apply with_current_appends. reflexivity.
Qed.

Lemma add_local_chunk o nm s : appends o s (add_local nm s).
Proof.
  unfold add_local. destruct (_ =? _).
  - apply error_appends.
  - apply with_current_appends. reflexivity.
Qed.

Lemma declare_scan_appends o i ls d nm s : appends o s (declare_scan i ls d nm s).
Proof.
  revert s. induction i as [| j IH]; simpl; intros s.
  - apply appends_refl.
  - destruct (nth_error ls j) as [l |]; [ | apply appends_refl ].
    destruct (_ && _); [ apply appends_refl | ].
    eapply appends_trans; [ apply cond_error_appends | apply IH ].
Qed.

Lemma declare_variable_appends o s : appends o s (declare_variable s).
Proof.
  unfold declare_variable. destruct (_ =? 0); [ apply appends_refl | ].
  eapply appends_trans; [ apply declare_scan_appends | apply add_local_chunk ].
Qed.

Lemma parser_variable_appends o msg s g s' :
  parser_variable msg s = (g, s') -> appends o s s'.
Proof.
  unfold parser_variable. intros H.
  assert (A : appends o s (declare_variable (consume IDENTIFIER msg s))).
  { eapply appends_trans; [ apply consume_appends | apply declare_variable_appends ]. }
  destruct (_ >? 0).
  - inversion H; subst. exact A.
  - eapply appends_trans; [ exact A | ].
    eapply identifier_constant_appends; eauto.
Qed.

Lemma mark_initialized_appends o s : appends o s (mark_initialized s).
Proof.
  unfold mark_initialized. destruct (_ =? 0); [ apply appends_refl | ].
  apply with_current_appends. reflexivity.
Qed.

Lemma define_variable_appends o g s : appends o s (define_variable g s).
Proof.
  unfold define_variable. destruct (_ >? 0).
  - apply mark_initialized_appends.
  - apply emit_bytes_appends.
Qed.

Lemma incr_arity_appends o s : appends o s (with_current incr_arity s).
Proof. apply with_current_appends. reflexivity. Qed.

(** ** Patching a jump of one's own *)

Lemma store_app_r (a c : list Byte) i b :
  (List.length a <= i)%nat ->
  store i b (a ++ c) = a ++ store (i - List.length a) b c.
Proof.
  revert i. induction a as [| x a IH]; simpl; intros i H.
  - rewrite Nat.sub_0_r. reflexivity.
  - destruct i as [| i]; [ lia | ]. simpl.
    rewrite IH by lia. reflexivity.
Qed.

Lemma store_code_extends a ch o b :
  chunk_extends a ch -> count a <= o -> chunk_extends a (store_code o b ch).
Proof.
  intros ((c & C) & L & K) Ho. unfold store_code.
  destruct (Z.ltb_spec o 0); [ repeat split; eauto | ].
  repeat split; simpl; auto.
  rewrite C, store_app_r by (unfold count in Ho; lia). eauto.
Qed.

Lemma store_code_ok o b ch : chunk_ok ch -> chunk_ok (store_code o b ch).
Proof.
  unfold chunk_ok, store_code. intros [H1 H2].
  destruct (o <? 0); simpl; auto. rewrite length_store. auto.
Qed.

(** A store into the current chunk behind the code of [s0]. *)
Lemma store_appends o0 s0 s o b :
  appends o0 s0 s ->
  (compilers s0 <> [] -> count (compiling_chunk s0) <= o) ->
  appends o0 s0 (set_chunk (store_code o b (compiling_chunk s)) s).
Proof.
  intros [N C R K] Ho.
  assert (D : compilers s = [] \/ compilers s <> [])
    by (destruct (compilers s); [ left | right ]; congruence).
  destruct D as [E | Hs].
  - assert (Es : set_chunk (store_code o b (compiling_chunk s)) s = s).
    { unfold set_chunk, with_current. rewrite E. reflexivity. }
    rewrite Es. constructor; assumption.
  - assert (Hne : compilers s0 <> [])
      by (apply (nonempty_length (compilers s)); [ symmetry; exact N | exact Hs ]).
    constructor.
    + unfold set_chunk. rewrite compilers_with_current.
      destruct (compilers s); [ congruence | exact N ].
    + rewrite compiling_chunk_set_chunk by exact Hs.
      apply store_code_extends; auto.
    + rewrite parser_set_chunk. exact R.
    + intros H0. rewrite compiling_chunk_set_chunk by exact Hs.
      apply store_code_ok. auto.
Qed.

Lemma patch_jump_appends o0 s0 s o :
  appends o0 s0 s ->
  (compilers s0 <> [] -> count (compiling_chunk s0) <= o) ->
  appends o0 s0 (patch_jump o s).
Proof.
  intros A Ho. unfold patch_jump.
  apply store_appends; [ | intros H; specialize (Ho H); lia ].
  apply store_appends; [ | exact Ho ].
  eapply appends_trans; [ exact A | apply cond_error_appends ].
Qed.

(** The count of the current chunk does not go down. *)
Lemma appends_count o s s' :
  appends o s s' -> count (compiling_chunk s) <= count (compiling_chunk s').
Proof. intros [_ C _ _]. apply chunk_extends_count. exact C. Qed.

Lemma appends_nonempty o s s' :
  appends o s s' -> compilers s <> [] -> compilers s' <> [].
Proof. intros [N _ _ _] H. eapply nonempty_length; eauto. Qed.

Lemma appends_nonempty_back o s s' :
  appends o s s' -> compilers s' <> [] -> compilers s <> [].
Proof.
  intros [N _ _ _] H.
  apply (nonempty_length (compilers s')); [ symmetry; exact N | exact H ].
Qed.

#[export] Hint Resolve advance_appends error_appends error_at_current_appends
  cond_error_appends consume_appends match_appends set_loop_appends
  emit_byte_appends emit_bytes_appends emit_return_appends emit_loop_appends
  emit_jump_appends number_appends string_appends identifier_constant_appends
  resolve_local_appends continue_statement_appends break_statement_appends
  using_statement_appends synchronize_appends begin_scope_appends
  end_scope_appends parser_variable_appends mark_initialized_appends
  define_variable_appends incr_arity_appends : appends.

(** [appends] along a sequence of steps, from the last one backwards. *)
Ltac ap :=
  solve [ repeat first
            [ apply appends_refl
            | eassumption
            | eapply appends_trans; [ | solve [ eauto 3 with appends ] ] ] ].



(* ================================================================= *)
(** * Expressions only append *)

Section ExpressionAppends.

Variable n : nat.
Variable rec : Rec.
Hypothesis Hrec : appending rec.

Lemma parse_precedence_call_appends o p s s' :
  parse_precedence_call rec p s = Some s' -> appends o s s'.
Proof. intros H. apply appends_weaken, (Hrec (ParsePrecedence p)). exact H. Qed.

Lemma expression_appends o s s' : expression rec s = Some s' -> appends o s s'.
Proof. apply parse_precedence_call_appends. Qed.

Hint Resolve parse_precedence_call_appends expression_appends : appends.

Lemma argument_loop_appends o k a s r s' :
  argument_loop rec k a s = Some (r, s') -> appends o s s'.
Proof.
  revert a s. induction k as [| k IH]; simpl; intros a s H; [discriminate | ].
  destruct (expression rec s) as [s1 |] eqn:E1; [ | discriminate ].
  destruct (match_ COMMA _) as [m s2] eqn:E2.
  destruct m.
  - apply IH in H. ap.
  - inversion H; subst. ap.
Qed.

Hint Resolve argument_loop_appends : appends.

Lemma argument_list_appends o s r s' :
  argument_list n rec s = Some (r, s') -> appends o s s'.
Proof. unfold argument_list. intros H. break_in H; ap. Qed.

Lemma and_appends o ca s s' : and_ rec ca s = Some s' -> appends o s s'.
Proof.
  unfold and_. intros H.
  destruct (emit_jump _ s) as [j s1] eqn:E1.
  destruct (parse_precedence_call rec _ _) as [s3 |] eqn:E3; [ | discriminate ].
  inversion H; subst; clear H.
  apply patch_jump_appends; [ ap | ].
  intros Hne. rewrite (emit_jump_offset _ _ _ _ E1 Hne). lia.
Qed.

Lemma binary_appends o ca s s' : binary rec ca s = Some s' -> appends o s s'.
Proof.
  unfold binary. intros H.
  destruct (parse_precedence_call rec _ s) as [s1 |] eqn:E; [ | discriminate ].
  inversion H; subst; clear H.
  destruct (kind (previous (parser s))); ap.
Qed.

Lemma literal_appends o ca s s' : literal ca s = Some s' -> appends o s s'.
Proof.
  unfold literal. intros H. inversion H; subst; clear H.
  destruct (kind (previous (parser s))); ap.
Qed.

Lemma grouping_appends o ca s s' : grouping rec ca s = Some s' -> appends o s s'.
Proof. unfold grouping. intros H. break_in H; ap. Qed.

Lemma named_variable_appends o nm ca s s' :
  named_variable rec nm ca s = Some s' -> appends o s s'.
Proof. unfold named_variable. intros H. break_in H; ap. Qed.

Lemma _number_appends o ca s s' : _number ca s = Some s' -> appends o s s'.
Proof. unfold _number. intros H. break_in H; ap. Qed.

Lemma or_appends o ca s s' : or_ rec ca s = Some s' -> appends o s s'.
Proof.
  unfold or_. intros H.
  destruct (emit_jump _ s) as [j1 s1] eqn:E1.
  destruct (emit_jump _ s1) as [j2 s2] eqn:E2.
  destruct (parse_precedence_call rec _ _) as [s5 |] eqn:E5; [ | discriminate ].
  inversion H; subst; clear H.
  assert (A1 : appends o s s1) by ap.
  assert (A3 : appends o s (patch_jump j1 s2)).
  { apply patch_jump_appends; [ ap | ].
    intros Hne. rewrite (emit_jump_offset _ _ _ _ E1 Hne). lia. }
  apply patch_jump_appends; [ ap | ].
  intros Hne.
  rewrite (emit_jump_offset _ _ _ _ E2 (appends_nonempty _ _ _ A1 Hne)).
  pose proof (appends_count _ _ _ A1). lia.
Qed.

Lemma _string_appends o ca s s' : _string ca s = Some s' -> appends o s s'.
Proof. unfold _string. intros H. break_in H; ap. Qed.

Lemma _variable_appends o ca s s' : _variable rec ca s = Some s' -> appends o s s'.
Proof. apply named_variable_appends. Qed.

Lemma unary_appends o ca s s' : unary rec ca s = Some s' -> appends o s s'.
Proof.
  unfold unary. intros H.
  destruct (parse_precedence_call rec _ s) as [s1 |] eqn:E; [ | discriminate ].
  inversion H; subst; clear H.
  destruct (kind (previous (parser s))); ap.
Qed.

Lemma call_appends o ca s s' : call n rec ca s = Some s' -> appends o s s'.
Proof.
  unfold call. intros H.
  destruct (argument_list n rec s) as [[a s1] |] eqn:E; [ | discriminate ].
  inversion H; subst; clear H.
  apply (argument_list_appends o) in E. ap.
Qed.

Lemma apply_rule_appends o f ca s s' :
  apply_rule n rec f ca s = Some s' -> appends o s s'.
Proof.
  destruct f; simpl;
    eauto using grouping_appends, call_appends, unary_appends, binary_appends,
      _variable_appends, _string_appends, _number_appends, and_appends,
      or_appends, literal_appends.
Qed.

Hint Resolve apply_rule_appends : appends.

Lemma infix_loop_appends o k p ca s s' :
  infix_loop n rec k p ca s = Some s' -> appends o s s'.
Proof.
  revert s. induction k as [| k IH]; simpl; intros s H.
  - destruct (p <=? _); [discriminate | inversion H; subst; ap].
  - destruct (p <=? _); [ | inversion H; subst; ap].
    destruct (infix _) as [f |]; [ | discriminate ].
    destruct (apply_rule n rec f ca (advance s)) as [s1 |] eqn:E; [ | discriminate ].
    apply IH in H. ap.
Qed.

Hint Resolve infix_loop_appends : appends.

Lemma parse_precedence_appends o p s s' :
  parse_precedence n rec p s = Some s' -> appends o s s'.
Proof. unfold parse_precedence. intros H. break_in H; ap. Qed.

End ExpressionAppends.

#[export] Hint Resolve parse_precedence_call_appends expression_appends
  argument_list_appends apply_rule_appends infix_loop_appends
  parse_precedence_appends : appends.



(* ================================================================= *)
(** * Statements and declarations only append *)

Lemma value_ok_all (vs : list Value) :
  (fix all (vs : list Value) : Prop :=
     match vs with
     | [] => True
     | v' :: vs' => value_ok v' /\ all vs'
     end) vs <-> Forall value_ok vs.
Proof.
  induction vs as [| v vs IH]; simpl.
  - split; auto.
  - split.
    + intros [H1 H2]. constructor; [ exact H1 | apply IH; exact H2 ].
    + intros H. inversion H; subst. split; [ assumption | apply IH; assumption ].
Qed.

Lemma value_ok_function f : chunk_ok (chunk f) <-> value_ok (OBJ_VAL f).
Proof.
  unfold chunk_ok, OBJ_VAL. simpl. rewrite value_ok_all. reflexivity.
Qed.

Lemma parameters_loop_appends o k s s' :
  parameters_loop k s = Some s' -> appends o s s'.
Proof.
  revert s. induction k as [| k IH]; simpl; intros s H; [discriminate | ].
  destruct (parser_variable _ _) as [c x] eqn:E1.
  destruct (match_ COMMA _) as [m y] eqn:E2.
  assert (F : appends o s
                (if arity (function (current (with_current incr_arity s))) >? 255
                 then error_at_current "Can't have more than 255 parameters!"
                        (with_current incr_arity s)
                 else with_current incr_arity s)).
  { eapply appends_trans; [ apply incr_arity_appends | apply cond_error_appends ]. }
  assert (S1 : appends o s (define_variable c x)) by ap.
  clear F E1.
  destruct m.
  - apply IH in H. ap.
  - inversion H; subst. ap.
Qed.

#[export] Hint Resolve parameters_loop_appends : appends.

Lemma WF_init_compiler ty s : WF s -> WF (init_compiler ty s).
Proof.
  intros W. unfold init_compiler. split; simpl; [congruence | ].
  constructor; [ | apply W ].
  constructor; unfold slot0_reserved; simpl; auto; try lia.
  constructor; auto. simpl. lia.
Qed.

Section StatementAppends.

Variable n : nat.
Variable rec : Rec.
Hypothesis Hrec : sound rec.
Hypothesis Happ : appending rec.

Hint Resolve statement_call_sframe declaration_call_sframe block_loop_sframe
  block_sframe scoped_block var_declaration_sframe func_declaration_sframe
  for_initializer_sframe for_statement_sframe if_statement_sframe
  while_statement_sframe : sframe.
Hint Resolve expression_statement_frame for_condition_frame
  info_statement_frame return_statement_frame : frame.

Lemma statement_call_appends s s' :
  WF s -> statement_call rec s = Some s' -> appends false s s'.
Proof. intros W H. apply (Happ Statement); assumption. Qed.

Lemma declaration_call_appends s s' :
  WF s -> declaration_call rec s = Some s' -> appends false s s'.
Proof. intros W H. apply (Happ Declaration); assumption. Qed.

Lemma block_loop_appends k s s' :
  WF s -> block_loop rec k s = Some s' -> appends false s s'.
Proof.
  revert s. induction k as [| k IH]; simpl; intros s W H.
  - destruct (negb _ && negb _); [discriminate | inversion H; subst; ap].
  - destruct (negb _ && negb _); [ | inversion H; subst; ap].
    destruct (declaration_call rec s) as [s1 |] eqn:E; [ | discriminate ].
    pose proof (declaration_call_appends _ _ W E) as A.
    pose proof (declaration_call_sframe rec Hrec _ _ E W) as [W1 _ _ _ _ _ _ _ _].
    apply IH in H; auto. ap.
Qed.

Lemma block_appends s s' :
  WF s -> block n rec s = Some s' -> appends false s s'.
Proof.
  unfold block. intros W H.
  destruct (block_loop rec n s) as [s1 |] eqn:E; [ | discriminate ].
  inversion H; subst; clear H.
  pose proof (block_loop_appends _ _ _ W E). ap.
Qed.

Lemma var_declaration_appends o s s' :
  var_declaration rec s = Some s' -> appends o s s'.
Proof. unfold var_declaration. intros H. break_in H; ap. Qed.

Lemma expression_statement_appends o s s' :
  expression_statement rec s = Some s' -> appends o s s'.
Proof. unfold expression_statement. intros H. break_in H. ap. Qed.

Hint Resolve var_declaration_appends expression_statement_appends : appends.

(** The nested compiler starts with an empty chunk, which it only
    extends; popped, it leaves the chunk of the enclosing compiler as it
    was, and the function becomes one more constant of that chunk. *)
Lemma function_appends ty s s' :
  WF s -> function_ n rec ty s = Some s' -> appends false s s'.
Proof.
  intros W H. unfold function_ in H.
  pose proof (WF_init_compiler ty s W) as W1.
  assert (N1 : List.length (compilers (init_compiler ty s))
               = S (List.length (compilers s))) by reflexivity.
  assert (T1 : tl (compilers (init_compiler ty s)) = compilers s) by reflexivity.
  assert (P1 : parser (init_compiler ty s) = parser s) by reflexivity.
  assert (K1 : chunk_ok (compiling_chunk (init_compiler ty s))).
  { unfold init_compiler, compiling_chunk, current, chunk_ok. simpl.
    destruct ty; simpl; auto. }
  set (s1 := init_compiler ty s) in *. clearbody s1.
  assert (I : inner s1 (begin_scope s1)) by (apply inner_begin; auto).
  pose proof (in_wf _ _ I) as W2.
  pose proof (in_tl _ _ I) as T2.
  pose proof (begin_scope_appends false s1) as A2.
  set (s2 := begin_scope s1) in *. clearbody s2. clear I.
  destruct (if negb _ then _ else _) as [sP |] eqn:EP; [ | discriminate ].
  destruct (block n rec _) as [sB |] eqn:EB; [ | discriminate ].
  unfold end_compiler in H.
  destruct (make_constant _ _) as [c sC] eqn:EC.
  inversion H; subst; clear H.
  assert (P : sframe true s2 sP).
  { destruct (negb _); [ | inversion EP; subst ]; sfr. }
  assert (PA : appends false s2 sP).
  { destruct (negb _); [ | inversion EP; subst ]; ap. }
  assert (X : sframe true s2
                (consume LEFT_BRACE "Expected a '{' after a function body!"
                   (consume RIGHT_PAREN "Expected a ')' after parameters!" sP)))
    by sfr.
  destruct (X W2) as [WX _ _ _ _ _ _ _ _].
  pose proof (block_appends _ _ WX EB) as BA.
  assert (B : sframe true s2 sB) by sfr.
  destruct (B W2) as [_ BT _ _ _ _ _ _ _].
  assert (AR : appends false s1 (emit_return sB)) by ap.
  destruct (emit_return_frame sB) as [RT _ _ _ _ _ _ _ _].
  assert (TR : tl (compilers (emit_return sB)) = compilers s) by congruence.
  destruct AR as [NR _ RR KR].
  set (sR := emit_return sB) in *. clearbody sR.
  assert (AE : appends false s (set_compilers (tl (compilers sR)) sR)).
  { constructor; simpl.
    - rewrite TR. reflexivity.
    - unfold compiling_chunk, current. simpl. rewrite TR.
      apply chunk_extends_refl.
    - rewrite <- P1. exact RR.
    - unfold compiling_chunk, current. simpl. rewrite TR. auto. }
  assert (V : value_ok (OBJ_VAL (function (current sR)))).
  { apply value_ok_function. apply KR. exact K1. }
  pose proof (make_constant_appends false _ _ _ _ V EC) as AC.
  ap.
Qed.

Lemma func_declaration_appends s s' :
  WF s -> func_declaration n rec s = Some s' -> appends false s s'.
Proof.
  unfold func_declaration. intros W H.
  destruct (parser_variable _ s) as [g x] eqn:E1.
  destruct (function_ n rec TYPE_FUNCTION (mark_initialized x)) as [y |] eqn:E2;
    [ | discriminate ].
  inversion H; subst; clear H.
  pose proof (parser_variable_mark _ _ _ _ E1 W) as [W1 _ _ _ _ _ _ _ _].
  pose proof (function_appends _ _ _ W1 E2) as F.
  ap.
Qed.

Lemma for_initializer_appends o s s' :
  for_initializer rec s = Some s' -> appends o s s'.
Proof. unfold for_initializer. intros H. break_in H; ap. Qed.

(** The exit jump of the condition clause lies behind the code there
    was. *)
Lemma for_condition_appends o s ej s' :
  for_condition rec s = Some (ej, s') ->
  appends o s s' /\
  (ej <> -1 -> compilers s <> [] -> count (compiling_chunk s) <= ej).
Proof.
  unfold for_condition. intros H.
  destruct (match_ SEMICOLON s) as [m x] eqn:E1.
  destruct m; cbn [negb] in H.
  - inversion H; subst. split; [ ap | intros; congruence ].
  - destruct (expression rec x) as [x2 |] eqn:E2; [ | discriminate ].
    destruct (emit_jump _ _) as [j x4] eqn:E4.
    inversion H; subst; clear H.
    assert (A : appends o s (consume SEMICOLON "Expect ';' after loop condition." x2))
      by ap.
    split; [ ap | ].
    intros _ Hne.
    rewrite (emit_jump_offset _ _ _ _ E4 (appends_nonempty _ _ _ A Hne)).
    pose proof (appends_count _ _ _ A). lia.
Qed.

Lemma for_increment_appends o s s' :
  for_increment rec s = Some s' -> appends o s s'.
Proof.
  unfold for_increment. intros H.
  destruct (match_ RIGHT_PAREN s) as [m x] eqn:E1.
  destruct m; cbn [negb] in H.
  - inversion H; subst. ap.
  - destruct (emit_jump _ x) as [j x2] eqn:E2.
    destruct (expression rec x2) as [x3 |] eqn:E3; [ | discriminate ].
    inversion H; subst; clear H.
    assert (A : appends o s x) by ap.
    apply patch_jump_appends; [ ap | ].
    intros Hne.
    rewrite (emit_jump_offset _ _ _ _ E2 (appends_nonempty _ _ _ A Hne)).
    pose proof (appends_count _ _ _ A). lia.
Qed.

Hint Resolve for_initializer_appends for_increment_appends : appends.

Lemma for_statement_appends s s' :
  WF s -> for_statement rec s = Some s' -> appends false s s'.
Proof.
  unfold for_statement. intros W H.
  destruct (for_initializer rec _) as [x2 |] eqn:E1; [ | discriminate ].
  destruct (for_condition rec _) as [[ej x4] |] eqn:E2; [ | discriminate ].
  destruct (for_increment rec x4) as [x5 |] eqn:E3; [ | discriminate ].
  destruct (statement_call rec x5) as [x6 |] eqn:E4; [ | discriminate ].
  inversion H; subst; clear H.
  assert (I2 : inner s x2) by inr.
  assert (I4 : inner s x4) by inr.
  pose proof (for_increment_inner rec Hrec _ _ _ I4 E3) as I5.
  pose proof (statement_call_appends _ _ (in_wf _ _ I5) E4) as A6.
  destruct (for_condition_appends false _ _ _ E2) as [A4 J4].
  assert (A2 : appends false s
                 (set_loop (count (compiling_chunk x2)) (scope_depth (current x2)) x2))
    by ap.
  assert (A7 : appends false s (emit_loop (inner_most_loop_start x6) x6)) by ap.
  assert (A8 : appends false s
                 (if negb (ej =? -1)
                  then emit_byte (Op OP_POP)
                         (patch_jump ej (emit_loop (inner_most_loop_start x6) x6))
                  else emit_loop (inner_most_loop_start x6) x6)).
  { destruct (Z.eqb_spec ej (-1)); simpl; [ exact A7 | ].
    eapply appends_trans; [ | apply emit_byte_appends ].
    apply patch_jump_appends; [ exact A7 | ].
    intros Hne.
    pose proof (appends_count _ _ _ A2) as C2.
    specialize (J4 n0 (appends_nonempty _ _ _ A2 Hne)). lia. }
  ap.
Qed.

Lemma if_statement_appends s s' :
  WF s -> if_statement rec s = Some s' -> appends false s s'.
Proof.
  unfold if_statement. intros W H.
  destruct (expression rec _) as [x2 |] eqn:E2; [ | discriminate ].
  destruct (emit_jump _ _) as [tj x4] eqn:E4.
  destruct (statement_call rec _) as [x6 |] eqn:E6; [ | discriminate ].
  destruct (emit_jump _ x6) as [ej x7] eqn:E7.
  destruct (match_ ELSE _) as [m x10] eqn:E10.
  assert (A3 : appends false s
                 (consume RIGHT_PAREN "Expect ')' after condition." x2)) by ap.
  assert (F5 : frame s (emit_byte (Op OP_POP) x4)) by fr.
  pose proof (statement_call_appends _ _ (frame_WF _ _ F5 W) E6) as A6'.
  assert (A6 : appends false s x6) by ap.
  assert (A8 : appends false s (patch_jump tj x7)).
  { apply patch_jump_appends; [ ap | ].
    intros Hne.
    rewrite (emit_jump_offset _ _ _ _ E4 (appends_nonempty _ _ _ A3 Hne)).
    pose proof (appends_count _ _ _ A3). lia. }
  assert (A10 : appends false s x10) by ap.
  assert (S10 : sframe false s x10) by sfr.
  destruct (S10 W) as [W10 _ _ _ _ _ _ _ _].
  assert (A11 : forall x11,
             (if m then statement_call rec x10 else Some x10) = Some x11 ->
             appends false s x11).
  { intros x11 E11. destruct m.
    - pose proof (statement_call_appends _ _ W10 E11). ap.
    - inversion E11; subst. exact A10. }
  destruct (if m then _ else _) as [x11 |] eqn:E11; [ | discriminate ].
  inversion H; subst; clear H.
  apply patch_jump_appends; [ apply A11; reflexivity | ].
  intros Hne.
  rewrite (emit_jump_offset _ _ _ _ E7 (appends_nonempty _ _ _ A6 Hne)).
  pose proof (appends_count _ _ _ A6). lia.
Qed.

Lemma info_statement_appends o s s' :
  info_statement rec s = Some s' -> appends o s s'.
Proof. unfold info_statement. intros H. break_in H; ap. Qed.

Lemma return_statement_appends o s s' :
  return_statement rec s = Some s' -> appends o s s'.
Proof.
  unfold return_statement. intros H.
  assert (F : appends o s (match type (current s) with
                           | TYPE_SCRIPT => error "Can't return from top-level code!" s
                           | TYPE_FUNCTION => s
                           end)).
  { destruct (type (current s)); [ apply appends_refl | apply error_appends ]. }
  destruct (match_ SEMICOLON _) as [m x] eqn:E. destruct m.
  - inversion H; subst. ap.
  - break_in H. ap.
Qed.

Lemma while_statement_appends s s' :
  WF s -> while_statement rec s = Some s' -> appends false s s'.
Proof.
  unfold while_statement. intros W H.
  destruct (expression rec _) as [x2 |] eqn:E2; [ | discriminate ].
  destruct (emit_jump _ _) as [ej x4] eqn:E4.
  destruct (statement_call rec _) as [x6 |] eqn:E6; [ | discriminate ].
  inversion H; subst; clear H.
  assert (A3 : appends false s
                 (consume RIGHT_PAREN "Expect ')' after condition." x2)) by ap.
  assert (F5 : frame s (emit_byte (Op OP_POP) x4)) by fr.
  pose proof (statement_call_appends _ _ (frame_WF _ _ F5 W) E6) as A6.
  eapply appends_trans; [ | apply emit_byte_appends ].
  apply patch_jump_appends; [ ap | ].
  intros Hne.
  rewrite (emit_jump_offset _ _ _ _ E4 (appends_nonempty _ _ _ A3 Hne)).
  pose proof (appends_count _ _ _ A3). lia.
Qed.

Hint Resolve info_statement_appends return_statement_appends : appends.

Lemma statement_appends s s' :
  WF s -> statement n rec s = Some s' -> appends false s s'.
Proof.
  unfold statement. intros W H.
  destruct (match_ INFO s) as [m1 x1] eqn:E1. destruct m1; [ ap | ].
  destruct (match_ RETURN x1) as [m2 x2] eqn:E2. destruct m2; [ ap | ].
  destruct (match_ IF x2) as [m3 x3] eqn:E3.
  assert (F3 : frame s x3) by fr.
  pose proof (frame_WF _ _ F3 W) as W3.
  destruct m3.
  { pose proof (if_statement_appends _ _ W3 H). ap. }
  destruct (match_ CONTINUE x3) as [m4 x4] eqn:E4.
  destruct m4; [ inversion H; subst; ap | ].
  destruct (match_ BREAK x4) as [m5 x5] eqn:E5.
  destruct m5; [ inversion H; subst; ap | ].
  destruct (match_ WHILE x5) as [m6 x6] eqn:E6.
  assert (F6 : frame s x6) by fr.
  pose proof (frame_WF _ _ F6 W) as W6.
  destruct m6.
  { pose proof (while_statement_appends _ _ W6 H). ap. }
  destruct (match_ FOR x6) as [m7 x7] eqn:E7.
  assert (F7 : frame s x7) by fr.
  pose proof (frame_WF _ _ F7 W) as W7.
  destruct m7.
  { pose proof (for_statement_appends _ _ W7 H). ap. }
  destruct (match_ USING x7) as [m8 x8] eqn:E8.
  destruct m8; [ inversion H; subst; ap | ].
  destruct (match_ LEFT_BRACE x8) as [m9 x9] eqn:E9.
  assert (F9 : frame s x9) by fr.
  pose proof (frame_WF _ _ F9 W) as W9.
  destruct m9; [ | ap ].
  destruct (block n rec (begin_scope x9)) as [xB |] eqn:EB; [ | discriminate ].
  inversion H; subst; clear H.
  pose proof (block_appends _ _ (in_wf _ _ (inner_begin x9 W9)) EB) as AB.
  ap.
Qed.

Lemma declaration_appends s s' :
  WF s -> declaration n rec s = Some s' -> appends false s s'.
Proof.
  unfold declaration. intros W H.
  destruct (panic_mode (parser s)); [ inversion H; subst; ap | ].
  destruct (match_ FUNC s) as [m1 x1] eqn:E1.
  assert (F1 : frame s x1) by fr.
  pose proof (frame_WF _ _ F1 W) as W1.
  destruct m1.
  { pose proof (func_declaration_appends _ _ W1 H). ap. }
  destruct (match_ HAVE x1) as [m2 x2] eqn:E2.
  assert (F2 : frame s x2) by fr.
  pose proof (frame_WF _ _ F2 W) as W2.
  destruct m2; [ ap | ].
  pose proof (statement_call_appends _ _ W2 H). ap.
Qed.

Lemma step_appending : appending (step n rec).
Proof.
  intros [p | | ] s s' H; simpl in *.
  - eapply parse_precedence_appends; eauto.
  - intros W. apply statement_appends; auto.
  - intros W. apply declaration_appends; auto.
Qed.

Lemma compile_loop_appends k s s' :
  WF s -> compile_loop rec k s = Some s' -> appends false s s'.
Proof.
  revert s. induction k as [| k IH]; simpl; intros s W H.
  - destruct (match_ EOF_TOKEN s) as [m x] eqn:E. destruct m; [ | discriminate ].
    inversion H; subst. ap.
  - destruct (match_ EOF_TOKEN s) as [m x] eqn:E. destruct m.
    + inversion H; subst. ap.
    + destruct (declaration_call rec x) as [y |] eqn:E2; [ | discriminate ].
      assert (F : frame s x) by fr.
      pose proof (frame_WF _ _ F W) as Wx.
      pose proof (declaration_call_appends _ _ Wx E2) as A.
      pose proof (declaration_call_sframe rec Hrec _ _ E2 Wx) as [Wy _ _ _ _ _ _ _ _].
      apply IH in H; auto. ap.
Qed.

End StatementAppends.

(** Every call of the compiler only appends. *)
Lemma run_appending fuel : appending (run fuel).
Proof.
  induction fuel as [| fuel IH].
  - intros c s s' H. discriminate H.
  - simpl. apply step_appending; [ apply run_sound | exact IH ].
Qed.



(* ================================================================= *)
(** * The layout of the code of branches and loops *)

(** The code that a call appends. *)
Lemma appended_code o s s' :
  appends o s s' ->
  exists c, code (compiling_chunk s') = code (compiling_chunk s) ++ c.
Proof. intros [_ (C & _) _ _]. exact C. Qed.

Lemma size_app a b : size (a ++ b) = size a + size b.
Proof. unfold size. rewrite length_app. lia. Qed.

Lemma size_cons b a : size (b :: a) = 1 + size a.
Proof. unfold size. change (List.length (b :: a)) with (S (List.length a)). lia. Qed.

Lemma size_nil : size [] = 0.
Proof. reflexivity. Qed.

Lemma size_jump o d : size (jump_bytes o d) = 3.
Proof. reflexivity. Qed.

Lemma count_size s : count (compiling_chunk s) = size (code (compiling_chunk s)).
Proof. reflexivity. Qed.

(** Sizes of concatenations, as sums. *)
Ltac sz :=
  rewrite ?count_size;
  repeat first [ rewrite size_app | rewrite size_cons | rewrite size_jump
               | rewrite size_nil ].

(** Two concatenations of the same pieces. *)
Ltac lists :=
  unfold jump_bytes;
  repeat (rewrite <- ?app_assoc; cbn [app]);
  reflexivity.

Lemma size_nonneg a : 0 <= size a.
Proof. unfold size. lia. Qed.

(** [patch_jump] at a placeholder that is followed by the code [r] stores
    the size of [r]. *)
Lemma patch_jump_at a b1 b2 r s :
  compilers s <> [] ->
  code (compiling_chunk s) = a ++ b1 :: b2 :: r ->
  code (compiling_chunk (patch_jump (size a) s))
    = a ++ Raw ((size r / 256) mod 256) :: Raw (size r mod 256) :: r.
Proof.
  intros H C.
  destruct (patch_jump_code (size a) s H (size_nonneg a)) as [P _].
  rewrite P, C. clear P.
  replace (count (compiling_chunk s) - size a - 2) with (size r)
    by (unfold count, size; rewrite C, length_app; simpl; lia).
  replace (Z.to_nat (size a + 1)) with (S (List.length a)) by (unfold size; lia).
  replace (Z.to_nat (size a)) with (List.length a) by (unfold size; lia).
  rewrite store_app_r by lia. rewrite Nat.sub_diag.
  change (store 0 (Raw ((size r / 256) mod 256)) (b1 :: b2 :: r))
    with (Raw ((size r / 256) mod 256) :: b2 :: r).
  rewrite store_app_r by lia.
  replace (S (List.length a) - List.length a)%nat with 1%nat by lia.
  reflexivity.
Qed.

(** The operand of a jump instruction decodes to the distance it was
    built from. *)
Lemma read_jump pre o d post :
  0 <= d <= 65535 ->
  read_u16 (pre ++ jump_bytes o d ++ post) (size pre + 1) = Some d.
Proof.
  intros H. unfold jump_bytes. simpl.
  replace (pre ++ Op o :: Raw ((d / 256) mod 256) :: Raw (d mod 256) :: post)
    with ((pre ++ [Op o]) ++ Raw ((d / 256) mod 256) :: Raw (d mod 256) :: post)
    by (rewrite <- app_assoc; reflexivity).
  replace (size pre + 1) with (Z.of_nat (List.length (pre ++ [Op o])))
    by (rewrite length_app; unfold size; simpl; lia).
  rewrite read_u16_app, u16_bytes by exact H. reflexivity.
Qed.

Lemma emit_jump_at o s j s' :
  compilers s <> [] -> emit_jump (Op o) s = (j, s') ->
  j = size (code (compiling_chunk s) ++ [Op o]) /\
  code (compiling_chunk s')
    = (code (compiling_chunk s) ++ [Op o]) ++ [Raw 255; Raw 255] /\
  compilers s' <> [].
Proof.
  intros H E. destruct (emit_jump_code (Op o) s H) as (E1 & E2 & _).
  rewrite E in *. simpl in *. split; [ | split ].
  - rewrite E1, size_app. unfold count, size. simpl. lia.
  - rewrite E2, <- app_assoc. reflexivity.
  - eapply appends_nonempty; [ eapply (emit_jump_appends true); eauto | exact H ].
Qed.

(** X8.  [and_], called behind the left operand and the [and] token: it
    appends a conditional jump, a pop and the code [rhs] of the right
    operand, and patches the jump with the distance [1 + size rhs], which
    is the size of the pop and the right operand: when the left operand is
    false the jump lands behind the right operand.  The code there was is
    untouched. *)
Theorem and_short_circuit (fuel : nat) (can_assign : bool) (s s' : State) :
  compilers s <> [] ->
  and_ (run fuel) can_assign s = Some s' ->
  exists rhs,
    let d := 1 + size rhs in
    let before := code (compiling_chunk s) in
    code (compiling_chunk s')
      = before ++ jump_bytes OP_JUMP_IF_FALSE d ++ [Op OP_POP] ++ rhs /\
    (exists mid,
        run fuel (ParsePrecedence PREC_AND)
            (emit_byte (Op OP_POP) (snd (emit_jump (Op OP_JUMP_IF_FALSE) s)))
          = Some mid /\
        code (compiling_chunk mid)
          = before ++ jump_bytes OP_JUMP_IF_FALSE 65535 ++ [Op OP_POP] ++ rhs) /\
    (d <= 65535 ->
     read_u16 (code (compiling_chunk s')) (size before + 1) = Some d /\
     size before + 3 + d = count (compiling_chunk s')).
Proof.
  intros Hne H. unfold and_ in H.
  destruct (emit_jump _ s) as [j s1] eqn:E1.
  destruct (parse_precedence_call (run fuel) _ _) as [s3 |] eqn:E3; [ | discriminate ].
  inversion H; subst; clear H.
  destruct (emit_jump_at _ _ _ _ Hne E1) as (J & C1 & N1).
  pose proof (nonempty_emit_byte (Op OP_POP) s1 N1) as N2.
  pose proof (code_emit_byte (Op OP_POP) s1 N1) as C2.
  pose proof (run_appending fuel (ParsePrecedence PREC_AND) _ _ E3) as A3.
  destruct (appended_code _ _ _ A3) as (rhs & C3).
  pose proof (appends_nonempty _ _ _ A3 N2) as N3.
  exists rhs. cbv zeta.
  assert (C3' : code (compiling_chunk s3)
                = (code (compiling_chunk s) ++ [Op OP_JUMP_IF_FALSE])
                  ++ Raw 255 :: Raw 255 :: Op OP_POP :: rhs).
  { rewrite C3, C2, C1, <- !app_assoc. reflexivity. }
  pose proof (patch_jump_at _ _ _ _ _ N3 C3') as P. rewrite <- J in P.
  assert (Sz : size (Op OP_POP :: rhs) = 1 + size rhs) by apply size_cons.
  rewrite Sz in P.
  assert (C : code (compiling_chunk (patch_jump j s3))
              = code (compiling_chunk s)
                ++ jump_bytes OP_JUMP_IF_FALSE (1 + size rhs) ++ [Op OP_POP] ++ rhs).
  { rewrite P, <- app_assoc. reflexivity. }
  split; [ exact C | ]. split.
  - exists s3. split; [ exact E3 | ].
    rewrite C3', <- app_assoc. reflexivity.
  - intros Hd. rewrite C. split.
    + apply read_jump. pose proof (size_nonneg rhs). lia.
    + rewrite count_size, C. sz. lia.
Qed.

(** X8 (witness): [and true] behind the [and] token. *)
Lemma and_short_circuit_witness :
  compilers and_state <> [] /\
  exists s',
    and_ (run 5) false and_state = Some s' /\
    code (compiling_chunk s')
      = jump_bytes OP_JUMP_IF_FALSE 2 ++ [Op OP_POP; Op OP_TRUE].
Proof.
  assert (H : compilers and_state <> []) by (simpl; discriminate).
  split; [ exact H | ].
  destruct (and_ (run 5) false and_state) as [s' |] eqn:E;
    [ | vm_compute in E; discriminate E ].
  exists s'. split; [ reflexivity | ].
  destruct (and_short_circuit 5 false and_state s' H E) as (rhs & _ & _ & _).
  vm_compute in E. inversion E; subst s'. reflexivity.
Defined.

(** X9.  [or_], called behind the left operand and the [or] token: it
    appends a conditional jump over the next instruction (distance 3), an
    unconditional jump, a pop and the code [rhs] of the right operand, and
    patches the unconditional jump with [1 + size rhs]: when the left
    operand is false the first jump lands on the pop in front of the right
    operand, otherwise the second jump lands behind the right operand. *)
Theorem or_short_circuit (fuel : nat) (can_assign : bool) (s s' : State) :
  compilers s <> [] ->
  or_ (run fuel) can_assign s = Some s' ->
  exists rhs,
    let d := 1 + size rhs in
    let before := code (compiling_chunk s) in
    code (compiling_chunk s')
      = before ++ jump_bytes OP_JUMP_IF_FALSE 3 ++ jump_bytes OP_JUMP d
        ++ [Op OP_POP] ++ rhs /\
    (exists mid,
        run fuel (ParsePrecedence PREC_OR)
            (emit_byte (Op OP_POP)
               (patch_jump (size before + 1)
                  (snd (emit_jump (Op OP_JUMP)
                          (snd (emit_jump (Op OP_JUMP_IF_FALSE) s))))))
          = Some mid /\
        code (compiling_chunk mid)
          = before ++ jump_bytes OP_JUMP_IF_FALSE 3 ++ jump_bytes OP_JUMP 65535
            ++ [Op OP_POP] ++ rhs) /\
    read_u16 (code (compiling_chunk s')) (size before + 1) = Some 3 /\
    (d <= 65535 ->
     read_u16 (code (compiling_chunk s')) (size before + 4) = Some d /\
     size before + 6 + d = count (compiling_chunk s')).
Proof.
  intros Hne H. unfold or_ in H.
  destruct (emit_jump _ s) as [j1 s1] eqn:E1.
  destruct (emit_jump _ s1) as [j2 s2] eqn:E2.
  destruct (parse_precedence_call (run fuel) _ _) as [s5 |] eqn:E5; [ | discriminate ].
  inversion H; subst; clear H.
  destruct (emit_jump_at _ _ _ _ Hne E1) as (J1 & C1 & N1).
  destruct (emit_jump_at _ _ _ _ N1 E2) as (J2 & C2 & N2).
  assert (C2' : code (compiling_chunk s2)
                = (code (compiling_chunk s) ++ [Op OP_JUMP_IF_FALSE])
                  ++ Raw 255 :: Raw 255 :: [Op OP_JUMP; Raw 255; Raw 255]).
  { rewrite C2, C1, <- !app_assoc. reflexivity. }
  pose proof (patch_jump_at _ _ _ _ _ N2 C2') as P3. rewrite <- J1 in P3.
  assert (N3 : compilers (patch_jump j1 s2) <> []).
  { eapply nonempty_length; [ apply (fr_len _ _ (patch_jump_frame j1 s2)) | exact N2 ]. }
  pose proof (nonempty_emit_byte (Op OP_POP) _ N3) as N4.
  pose proof (code_emit_byte (Op OP_POP) _ N3) as C4.
  pose proof (run_appending fuel (ParsePrecedence PREC_OR) _ _ E5) as A5.
  destruct (appended_code _ _ _ A5) as (rhs & C5).
  pose proof (appends_nonempty _ _ _ A5 N4) as N5.
  exists rhs. cbv zeta.
  assert (C5' : code (compiling_chunk s5)
                = (code (compiling_chunk s) ++ jump_bytes OP_JUMP_IF_FALSE 3
                   ++ [Op OP_JUMP])
                  ++ Raw 255 :: Raw 255 :: Op OP_POP :: rhs).
  { rewrite C5, C4, P3, <- !app_assoc. reflexivity. }
  pose proof (patch_jump_at _ _ _ _ _ N5 C5') as P.
  replace (size (code (compiling_chunk s) ++ jump_bytes OP_JUMP_IF_FALSE 3
                 ++ [Op OP_JUMP])) with j2 in P
    by (rewrite J2, C1; sz; lia).
  rewrite size_cons in P.
  assert (C : code (compiling_chunk (patch_jump j2 s5))
              = code (compiling_chunk s)
                ++ jump_bytes OP_JUMP_IF_FALSE 3
                ++ jump_bytes OP_JUMP (1 + size rhs) ++ [Op OP_POP] ++ rhs).
  { rewrite P, <- !app_assoc. reflexivity. }
  split; [ exact C | ]. split; [ | split ].
  - exists s5. split.
    + cbn [snd]. rewrite E2. cbn [snd].
      replace (size (code (compiling_chunk s)) + 1) with j1 by (rewrite J1; sz; lia).
      exact E5.
    + rewrite C5', <- !app_assoc. reflexivity.
  - rewrite C. apply read_jump. lia.
  - intros Hd. rewrite C. split.
    + replace (code (compiling_chunk s) ++ jump_bytes OP_JUMP_IF_FALSE 3
               ++ jump_bytes OP_JUMP (1 + size rhs) ++ [Op OP_POP] ++ rhs)
        with ((code (compiling_chunk s) ++ jump_bytes OP_JUMP_IF_FALSE 3)
              ++ jump_bytes OP_JUMP (1 + size rhs) ++ [Op OP_POP] ++ rhs)
        by (rewrite <- !app_assoc; reflexivity).
      replace (size (code (compiling_chunk s)) + 4)
        with (size (code (compiling_chunk s) ++ jump_bytes OP_JUMP_IF_FALSE 3) + 1)
        by (sz; lia).
      apply read_jump. pose proof (size_nonneg rhs). lia.
    + rewrite count_size, C. sz. lia.
Qed.

(** X9 (witness): [or true] behind the [or] token. *)
Lemma or_short_circuit_witness :
  compilers and_state <> [] /\
  exists s',
    or_ (run 5) false and_state = Some s' /\
    code (compiling_chunk s')
      = jump_bytes OP_JUMP_IF_FALSE 3 ++ jump_bytes OP_JUMP 2
        ++ [Op OP_POP; Op OP_TRUE].
Proof.
  assert (H : compilers and_state <> []) by (simpl; discriminate).
  split; [ exact H | ].
  destruct (or_ (run 5) false and_state) as [s' |] eqn:E;
    [ | vm_compute in E; discriminate E ].
  exists s'. split; [ reflexivity | ].
  destruct (or_short_circuit 5 false and_state s' H E) as (rhs & _ & _ & _).
  vm_compute in E. inversion E; subst s'. reflexivity.
Defined.

Lemma compiling_chunk_match k s m s' :
  match_ k s = (m, s') -> compiling_chunk s' = compiling_chunk s.
Proof.
  unfold match_. destruct (check k s); intros H; inversion H; subst; auto.
  unfold compiling_chunk, current. rewrite compilers_advance. reflexivity.
Qed.



(** X11.  The code of [while ( cond ) body], for [while_statement] called
    behind the [while] token in a well-formed state: the condition, a
    conditional jump, a pop, the body, a backward jump, a pop.  The
    conditional jump is patched with [4 + size body], so that it lands on
    the last pop, behind the loop; the operand of [OP_LOOP] is the
    distance from behind that instruction back to the first byte of the
    condition.  The code there was in front is untouched. *)
Theorem while_statement_layout (fuel : nat) (s s' : State) :
  WF s ->
  while_statement (run fuel) s = Some s' ->
  exists cond body,
    let before := code (compiling_chunk s) in
    let d := 4 + size body in
    let back := 7 + size cond + size body in
    code (compiling_chunk s')
      = before ++ cond ++ jump_bytes OP_JUMP_IF_FALSE d ++ [Op OP_POP] ++ body
        ++ jump_bytes OP_LOOP back ++ [Op OP_POP] /\
    (exists x2 x6,
        expression (run fuel) (consume LEFT_PAREN "Expect '(' after 'while'." s)
          = Some x2 /\
        code (compiling_chunk x2) = before ++ cond /\
        run fuel Statement
            (emit_byte (Op OP_POP)
               (snd (emit_jump (Op OP_JUMP_IF_FALSE)
                       (consume RIGHT_PAREN "Expect ')' after condition." x2))))
          = Some x6 /\
        code (compiling_chunk x6)
          = before ++ cond ++ jump_bytes OP_JUMP_IF_FALSE 65535
            ++ [Op OP_POP] ++ body) /\
    (d <= 65535 ->
     read_u16 (code (compiling_chunk s')) (size (before ++ cond) + 1) = Some d /\
     size (before ++ cond) + 3 + d = count (compiling_chunk s') - 1) /\
    (back <= 65535 ->
     read_u16 (code (compiling_chunk s'))
              (size (before ++ cond ++ jump_bytes OP_JUMP_IF_FALSE d
                     ++ [Op OP_POP] ++ body) + 1) = Some back /\
     count (compiling_chunk s') - 1 - back = size before).
Proof.
  intros W H. unfold while_statement in H.
  set (x1 := consume LEFT_PAREN "Expect '(' after 'while'." s) in *.
  destruct (expression (run fuel) x1) as [x2 |] eqn:E2; [ | discriminate ].
  set (x3 := consume RIGHT_PAREN "Expect ')' after condition." x2) in *.
  destruct (emit_jump _ x3) as [ej x4] eqn:E4.
  destruct (statement_call (run fuel) _) as [x6 |] eqn:E6; [ | discriminate ].
  inversion H; subst; clear H.
  pose proof (run_sound fuel) as Hs. pose proof (run_appending fuel) as Ha.
  assert (C1 : compiling_chunk x1 = compiling_chunk s)
    by apply compiling_chunk_consume.
  pose proof (expression_appends _ Ha true _ _ E2) as A2.
  destruct (appended_code _ _ _ A2) as (cond & C2). rewrite C1 in C2.
  assert (C3 : compiling_chunk x3 = compiling_chunk x2)
    by apply compiling_chunk_consume.
  assert (F3 : frame s x3) by (unfold x3, x1; fr).
  pose proof (frame_WF _ _ F3 W) as W3.
  pose proof (WF_nonempty x3 W3) as N3.
  destruct (emit_jump_at _ _ _ _ N3 E4) as (J4 & C4 & N4).
  rewrite C3, C2 in J4, C4.
  pose proof (code_emit_byte (Op OP_POP) x4 N4) as C5.
  assert (F5 : frame s (emit_byte (Op OP_POP) x4)) by fr.
  pose proof (frame_WF _ _ F5 W) as W5.
  pose proof (Ha Statement _ _ E6 W5) as A6.
  pose proof (Hs Statement _ _ E6 W5) as [W6 _ _ _ _ _ _ _ _].
  destruct (appended_code _ _ _ A6) as (body & C6).
  rewrite C5, C4 in C6.
  pose proof (WF_nonempty x6 W6) as N6.
  set (before := code (compiling_chunk s)) in *.
  destruct (emit_loop_code (count (compiling_chunk s)) x6 N6) as [C7 _].
  cbv zeta in C7.
  replace (count (compiling_chunk x6) + 3 - count (compiling_chunk s))
    with (7 + size cond + size body) in C7
    by (rewrite !count_size, C6; fold before; sz; lia).
  assert (N7 : compilers (emit_loop (count (compiling_chunk s)) x6) <> []).
  { eapply nonempty_length; [ apply (fr_len _ _ (emit_loop_frame _ x6)) | exact N6 ]. }
  assert (C7' : code (compiling_chunk (emit_loop (count (compiling_chunk s)) x6))
                = ((before ++ cond) ++ [Op OP_JUMP_IF_FALSE])
                  ++ Raw 255 :: Raw 255
                     :: (Op OP_POP :: body
                         ++ jump_bytes OP_LOOP (7 + size cond + size body))).
  { rewrite C7, C6. lists. }
  pose proof (patch_jump_at _ _ _ _ _ N7 C7') as P8. rewrite <- J4 in P8.
  replace (size (Op OP_POP :: body ++ jump_bytes OP_LOOP (7 + size cond + size body)))
    with (4 + size body) in P8 by (sz; lia).
  assert (N8 : compilers (patch_jump ej (emit_loop (count (compiling_chunk s)) x6)) <> []).
  { eapply nonempty_length; [ apply (fr_len _ _ (patch_jump_frame _ _)) | exact N7 ]. }
  pose proof (code_emit_byte (Op OP_POP) _ N8) as C9.
  exists cond, body. cbv zeta.
  assert (C : code (compiling_chunk
                (emit_byte (Op OP_POP)
                   (patch_jump ej (emit_loop (count (compiling_chunk s)) x6))))
              = before ++ cond ++ jump_bytes OP_JUMP_IF_FALSE (4 + size body)
                ++ [Op OP_POP] ++ body
                ++ jump_bytes OP_LOOP (7 + size cond + size body) ++ [Op OP_POP]).
  { rewrite C9, P8. lists. }
  set (sf := emit_byte (Op OP_POP)
              (patch_jump ej (emit_loop (count (compiling_chunk s)) x6))) in *.
  clearbody sf.
  split; [ exact C | ]. split; [ | split ].
  - exists x2, x6. split; [ reflexivity | ]. split; [ exact C2 | ].
    split; [ fold x3; rewrite E4; exact E6 | ].
    rewrite C6. lists.
  - intros Hd. rewrite (count_size sf), C. split.
    + rewrite app_assoc. apply read_jump. pose proof (size_nonneg body). lia.
    + sz. lia.
  - intros Hd. rewrite (count_size sf), C. split.
    + replace (before ++ cond ++ jump_bytes OP_JUMP_IF_FALSE (4 + size body)
               ++ [Op OP_POP] ++ body
               ++ jump_bytes OP_LOOP (7 + size cond + size body) ++ [Op OP_POP])
        with ((before ++ cond ++ jump_bytes OP_JUMP_IF_FALSE (4 + size body)
               ++ [Op OP_POP] ++ body)
              ++ jump_bytes OP_LOOP (7 + size cond + size body) ++ [Op OP_POP])
        by lists.
      apply read_jump.
      pose proof (size_nonneg body). pose proof (size_nonneg cond). lia.
    + sz. lia.
Qed.

(** X11 (witness): [while ( true ) info 1 ;] behind the [while] token. *)
Lemma while_statement_layout_witness :
  WF if_state /\
  exists s',
    while_statement (run 5) if_state = Some s' /\
    code (compiling_chunk s')
      = [Op OP_TRUE] ++ jump_bytes OP_JUMP_IF_FALSE 7 ++ [Op OP_POP]
        ++ [Op OP_CONSTANT; Raw 0; Op OP_INFO]
        ++ jump_bytes OP_LOOP 11 ++ [Op OP_POP].
Proof.
  assert (W : WF if_state) by apply WF_start_state.
  split; [ exact W | ].
  destruct (while_statement (run 5) if_state) as [s' |] eqn:E;
    [ | vm_compute in E; discriminate E ].
  exists s'. split; [ reflexivity | ].
  destruct (while_statement_layout 5 if_state s' W E) as (cond & body & _).
  vm_compute in E. inversion E; subst s'. reflexivity.
Defined.



(* ================================================================= *)
(** * What expressions, statements and declarations leave as it is *)

(** X12.  An expression that [parse_precedence] compiles leaves the
    enclosing compilers, the locals, the scope depth and the loop
    bookkeeping as they are; it only extends the code, lines and constants
    of the current chunk, whose entries so far stay where they are; it
    reports at most one message and does not leave panic mode. *)
Theorem expression_only_appends (fuel : nat) (p : Z) (s s' : State) :
  run fuel (ParsePrecedence p) s = Some s' ->
  tl (compilers s') = tl (compilers s) /\
  locals (current s') = locals (current s) /\
  scope_depth (current s') = scope_depth (current s) /\
  inner_most_loop_start s' = inner_most_loop_start s /\
  inner_most_loop_scope_depth s' = inner_most_loop_scope_depth s /\
  chunk_extends (compiling_chunk s) (compiling_chunk s') /\
  reports_once (parser s) (parser s') /\
  (chunk_ok (compiling_chunk s) -> chunk_ok (compiling_chunk s')).
Proof.
  intros H.
  pose proof (run_sound fuel (ParsePrecedence p) s s' H) as F. simpl in F.
  pose proof (run_appending fuel (ParsePrecedence p) s s' H) as A. simpl in A.
  destruct F as [T _ L S _ B D _ _]. destruct A as [_ C R K].
  split; [ exact T | ]. split; [ exact L | ]. split; [ exact S | ].
  split; [ exact B | ]. split; [ exact D | ]. split; [ exact C | ].
  split; [ exact R | exact K ].
Qed.

(** X12 (witness): the expression [true]. *)
Lemma expression_only_appends_witness :
  exists s',
    run 5 (ParsePrecedence PREC_ASSIGNMENT) (start_state [tk TRUE "true"]) = Some s' /\
    locals (current s') = locals (current (start_state [tk TRUE "true"])).
Proof.
  destruct (run 5 (ParsePrecedence PREC_ASSIGNMENT) (start_state [tk TRUE "true"]))
    as [s' |] eqn:E; [ | vm_compute in E; discriminate E ].
  exists s'. split; [ reflexivity | ].
  destruct (expression_only_appends 5 PREC_ASSIGNMENT _ s' E) as (_ & L & _).
  exact L.
Defined.

(** X13.  A statement compiled in a well-formed state is balanced: it ends
    in a well-formed state with the same enclosing compilers, the same
    scope depth and the same loop bookkeeping (a loop restores what it
    recorded), and, when no error is recorded, with the same locals: every
    scope it opened is closed and every local it declared is popped.  It
    only extends the current chunk and loses no message. *)
Theorem statement_is_balanced (fuel : nat) (s s' : State) :
  WF s -> run fuel Statement s = Some s' ->
  WF s' /\
  tl (compilers s') = tl (compilers s) /\
  scope_depth (current s') = scope_depth (current s) /\
  inner_most_loop_start s' = inner_most_loop_start s /\
  inner_most_loop_scope_depth s' = inner_most_loop_scope_depth s /\
  (good s -> had_error (parser s') = false ->
   locals (current s') = locals (current s)) /\
  chunk_extends (compiling_chunk s) (compiling_chunk s') /\
  reports (parser s) (parser s') /\
  (had_error (parser s) = true -> had_error (parser s') = true).
Proof.
  intros W H.
  pose proof (run_sound fuel Statement s s' H W) as [W' T S _ B D E _ L].
  pose proof (run_appending fuel Statement s s' H W) as [_ C R _].
  split; [ exact W' | ]. split; [ exact T | ]. split; [ exact S | ].
  split; [ exact B | ]. split; [ exact D | ]. split; [ exact L | ].
  split; [ exact C | ]. split; [ exact R | exact E ].
Qed.

(** X13 (witness): the block [{ have a; }]. *)
Lemma statement_is_balanced_witness :
  WF (start_state [tk LEFT_BRACE "{"; tk HAVE "have"; ident "a";
                   tk SEMICOLON ";"; tk RIGHT_BRACE "}"]) /\
  exists s',
    run 9 Statement (start_state [tk LEFT_BRACE "{"; tk HAVE "have"; ident "a";
                                  tk SEMICOLON ";"; tk RIGHT_BRACE "}"]) = Some s' /\
    scope_depth (current s') = 0 /\
    code (compiling_chunk s') = [Op OP_NIL; Op OP_POP].
Proof.
  split; [ apply WF_start_state | ].
  destruct (run 9 Statement _) as [s' |] eqn:E;
    [ | vm_compute in E; discriminate E ].
  exists s'. split; [ reflexivity | ].
  destruct (statement_is_balanced 9 _ s' (WF_start_state _) E) as (_ & _ & S & _).
  split; [ exact S | ].
  vm_compute in E. inversion E; subst s'. reflexivity.
Defined.

(** X14.  A declaration compiled in a well-formed state ends in a
    well-formed state with the same enclosing compilers, scope depth and
    loop bookkeeping; when no error is recorded the locals are those from
    before followed by locals of the current scope depth only.  It only
    extends the current chunk and loses no message. *)
Theorem declaration_adds_locals_of_the_scope (fuel : nat) (s s' : State) :
  WF s -> run fuel Declaration s = Some s' ->
  WF s' /\
  tl (compilers s') = tl (compilers s) /\
  scope_depth (current s') = scope_depth (current s) /\
  inner_most_loop_start s' = inner_most_loop_start s /\
  inner_most_loop_scope_depth s' = inner_most_loop_scope_depth s /\
  (good s -> had_error (parser s') = false ->
   exists new,
     locals (current s') = locals (current s) ++ new /\
     Forall (fun l => depth l = scope_depth (current s)) new) /\
  chunk_extends (compiling_chunk s) (compiling_chunk s') /\
  reports (parser s) (parser s') /\
  (had_error (parser s) = true -> had_error (parser s') = true).
Proof.
  intros W H.
  pose proof (run_sound fuel Declaration s s' H W) as [W' T S _ B D E _ L].
  pose proof (run_appending fuel Declaration s s' H W) as [_ C R _].
  split; [ exact W' | ]. split; [ exact T | ]. split; [ exact S | ].
  split; [ exact B | ]. split; [ exact D | ]. split; [ exact L | ].
  split; [ exact C | ]. split; [ exact R | exact E ].
Qed.

(** X14 (witness): [have a;] inside a block. *)
Lemma declaration_adds_locals_of_the_scope_witness :
  WF (begin_scope (start_state prog_block_body)) /\
  exists s',
    run 9 Declaration (begin_scope (start_state prog_block_body)) = Some s' /\
    scope_depth (current s') = 1 /\
    locals (current s')
      = locals (current (start_state prog_block_body))
        ++ [ {| l_name := ident "a"; depth := 1 |} ].
Proof.
  assert (W : WF (begin_scope (start_state prog_block_body))).
  { apply (in_wf _ _ (inner_begin _ (WF_start_state prog_block_body))). }
  split; [ exact W | ].
  destruct (run 9 Declaration (begin_scope (start_state prog_block_body)))
    as [s' |] eqn:E; [ | vm_compute in E; discriminate E ].
  exists s'. split; [ reflexivity | ].
  destruct (declaration_adds_locals_of_the_scope 9 _ s' W E) as (_ & _ & S & _).
  split; [ exact S | ].
  vm_compute in E. inversion E; subst s'. reflexivity.
Defined.

(* ================================================================= *)
(** * The result of [compile] *)

Lemma chunk_ok_start source : chunk_ok (compiling_chunk (start_state source)).
Proof.
  unfold start_state, advance. simpl.
  destruct source; unfold chunk_ok; simpl; auto.
Qed.

(** X15.  Whatever [compile] is given, the function it builds is in
    order: its chunk has one line entry for every byte of code, so have
    the chunks of all functions nested in its constants, its code ends
    with the implicit [OP_NIL; OP_RETURN], and no compiler is left on the
    chain when [compile] returns. *)
Theorem compile_result_is_in_order (fuel : nat) (source : list Token)
        (f : ObjFunction) (s : State) :
  compile_run fuel source = Some (f, s) ->
  List.length (lines (chunk f)) = List.length (code (chunk f)) /\
  Forall value_ok (constants (chunk f)) /\
  (exists body, code (chunk f) = body ++ [Op OP_NIL; Op OP_RETURN]) /\
  compilers s = [].
Proof.
  intros H. unfold compile_run in H. fold (start_state source) in H.
  destruct (compile_loop (run fuel) fuel (start_state source)) as [s1 |] eqn:E;
    [ | discriminate ].
  unfold end_compiler in H. inversion H; subst; clear H.
  pose proof (WF_start_state source) as W0.
  pose proof (compile_loop_sframe (run fuel) (run_sound fuel) _ _ _ E W0)
    as [W1 T1 _ _ _ _ _ _ _].
  pose proof (compile_loop_appends (run fuel) (run_sound fuel) (run_appending fuel)
                _ _ _ W0 E) as [_ _ _ K1].
  specialize (K1 (chunk_ok_start source)).
  pose proof (emit_return_appends true s1) as [_ _ _ KR].
  destruct (KR K1) as [KR1 KR2].
  destruct (end_compiler_appends_return s1 (WF_nonempty s1 W1)) as [C T].
  split; [ exact KR1 | ]. split; [ exact KR2 | ]. split.
  - exists (code (compiling_chunk s1)). exact C.
  - change (compilers (snd (end_compiler s1)) = []).
    rewrite T, T1. unfold start_state, advance. simpl.
    destruct source; reflexivity.
Qed.

(** X15 (witness): a function declaration. *)
Lemma compile_result_is_in_order_witness :
  exists f s,
    compile_run 20 prog_explicit_return = Some (f, s) /\
    Forall value_ok (constants (chunk f)) /\
    List.length (constants (chunk f)) = 2%nat.
Proof.
  destruct (compile_run 20 prog_explicit_return) as [[f s] |] eqn:E;
    [ | vm_compute in E; discriminate E ].
  exists f, s. split; [ reflexivity | ].
  destruct (compile_result_is_in_order 20 prog_explicit_return f s E)
    as (_ & K & _).
  split; [ exact K | ].
  vm_compute in E. inversion E; subst. reflexivity.
Defined.

(* ================================================================= *)
(** * Return statements *)

Lemma reports_once_in_panic p p' :
  panic_mode p = true -> reports_once p p' ->
  errors p' = errors p /\ had_error p' = had_error p /\ panic_mode p' = true.
Proof.
  intros Hp [(A1 & A2 & A3) | (A1 & _)]; [ | congruence ].
  repeat split; congruence.
Qed.



(* ================================================================= *)
(** * Variable declarations *)

Lemma compiling_chunk_with_current f s :
  (forall c, chunk (function (f c)) = chunk (function c)) ->
  compiling_chunk (with_current f s) = compiling_chunk s.
Proof.
  intros Hf. unfold compiling_chunk, current. rewrite compilers_with_current.
  destruct (compilers s); simpl; [ reflexivity | rewrite Hf; reflexivity ].
Qed.

Lemma compilers_declare_scan i ls d nm s :
  compilers (declare_scan i ls d nm s) = compilers s.
Proof.
  revert s. induction i as [| j IH]; simpl; intros s; [ reflexivity | ].
  destruct (nth_error ls j) as [l |]; [ | reflexivity ].
  destruct (_ && _); [ reflexivity | ].
  rewrite IH. apply compilers_cond_error.
Qed.

Lemma compiling_chunk_declare_variable s :
  compiling_chunk (declare_variable s) = compiling_chunk s.
Proof.
  unfold declare_variable. destruct (_ =? 0); [ reflexivity | ].
  unfold add_local. destruct (_ =? _).
  - rewrite compiling_chunk_error. unfold compiling_chunk, current.
    rewrite compilers_declare_scan. reflexivity.
  - rewrite compiling_chunk_with_current by reflexivity.
    unfold compiling_chunk, current. rewrite compilers_declare_scan. reflexivity.
Qed.

Lemma compiling_chunk_mark_initialized s :
  compiling_chunk (mark_initialized s) = compiling_chunk s.
Proof.
  unfold mark_initialized. destruct (_ =? 0); [ reflexivity | ].
  apply compiling_chunk_with_current. reflexivity.
Qed.

Lemma compiling_chunk_advance s : compiling_chunk (advance s) = compiling_chunk s.
Proof. unfold compiling_chunk, current. rewrite compilers_advance. reflexivity. Qed.

(** The initializer of a variable declaration: the expression behind
    [:=], or [OP_NIL]. *)
Lemma initializer_appends (fuel : nat) (x y z : State) (m : bool) :
  match_ WALRUS x = (m, y) ->
  (if m then expression (run fuel) y else Some (emit_byte (Op OP_NIL) y)) = Some z ->
  compilers x <> [] ->
  let w := consume SEMICOLON "Expect ';' after variable declaration." z in
  frame x w /\
  exists init,
    code (compiling_chunk w) = code (compiling_chunk x) ++ init /\
    (exists more, constants (compiling_chunk w) = constants (compiling_chunk x) ++ more) /\
    (check WALRUS x = false -> init = [Op OP_NIL]).
Proof.
  intros E2 E3 Hne w.
  pose proof (run_sound fuel) as Hs. pose proof (run_appending fuel) as Ha.
  assert (F : frame x w).
  { unfold w. destruct m; [ | inversion E3; subst ]; fr. }
  split; [ exact F | ].
  destruct m.
  - assert (A : appends true x w) by (unfold w; ap).
    destruct A as [_ ((c & C) & _ & K) _ _].
    exists c. split; [ exact C | ]. split; [ exact K | ].
    intros Hc. unfold match_ in E2. rewrite Hc in E2. discriminate E2.
  - inversion E3; subst. exists [Op OP_NIL].
    apply match_false in E2; [ | reflexivity ]. subst y.
    unfold w. rewrite compiling_chunk_consume.
    rewrite code_emit_byte by exact Hne.
    split; [ reflexivity | ]. split; [ | reflexivity ].
    exists []. rewrite app_nil_r. unfold emit_byte.
    rewrite compiling_chunk_set_chunk by exact Hne. reflexivity.
Qed.





(* ================================================================= *)
(** * The layout of a [for] loop *)

Lemma end_scope_loop_code k x :
  compilers x <> [] ->
  exists j, code (compiling_chunk (end_scope_loop k x))
            = code (compiling_chunk x) ++ repeat (Op OP_POP) j.
Proof.
  revert x. induction k as [| k IH]; simpl; intros x Hne.
  - exists 0%nat. simpl. rewrite app_nil_r. reflexivity.
  - destruct (nth_error _ _) as [l |];
      [ | exists 0%nat; simpl; rewrite app_nil_r; reflexivity ].
    destruct (_ && _);
      [ | exists 0%nat; simpl; rewrite app_nil_r; reflexivity ].
    set (x1 := with_current _ (emit_byte (Op OP_POP) x)).
    assert (N1 : compilers x1 <> [])
      by (apply nonempty_with_current, nonempty_emit_byte, Hne).
    destruct (IH x1 N1) as (j & C).
    exists (S j). rewrite C. unfold x1.
    rewrite compiling_chunk_with_current by reflexivity.
    rewrite code_emit_byte by exact Hne.
    rewrite <- app_assoc. reflexivity.
Qed.

Lemma end_scope_code x :
  compilers x <> [] ->
  exists j, code (compiling_chunk (end_scope x))
            = code (compiling_chunk x) ++ repeat (Op OP_POP) j.
Proof.
  intros Hne. unfold end_scope.
  set (x1 := with_current _ x).
  assert (N1 : compilers x1 <> []) by (apply nonempty_with_current, Hne).
  destruct (end_scope_loop_code (List.length (locals (current x1))) x1 N1) as (j & C).
  exists j. rewrite C. unfold x1.
  rewrite compiling_chunk_with_current by reflexivity. reflexivity.
Qed.

Section ForClauses.

Variable rec : Rec.
Hypothesis Hrec : sound rec.
Hypothesis Happ : appending rec.

(** The condition clause: nothing when the next token is the semicolon;
    else the condition, a conditional jump that is still to be patched,
    and a pop. *)
Lemma for_condition_layout x ej x4 :
  compilers x <> [] ->
  for_condition rec x = Some (ej, x4) ->
  (check SEMICOLON x = true ->
   ej = -1 /\ code (compiling_chunk x4) = code (compiling_chunk x)) /\
  (check SEMICOLON x = false ->
   exists xc cond,
      expression rec x = Some xc /\
      code (compiling_chunk xc) = code (compiling_chunk x) ++ cond /\
      ej = size (code (compiling_chunk x) ++ cond ++ [Op OP_JUMP_IF_FALSE]) /\
      code (compiling_chunk x4)
      = (code (compiling_chunk x) ++ cond ++ [Op OP_JUMP_IF_FALSE])
        ++ [Raw 255; Raw 255; Op OP_POP]).
Proof.
  intros Hne H. unfold for_condition, match_ in H.
  destruct (check SEMICOLON x) eqn:K; cbn [negb] in H.
  - inversion H; subst. split; [ intros _ | discriminate ].
    split; [ reflexivity | rewrite compiling_chunk_advance; reflexivity ].
  - split; [ discriminate | intros _ ].
    destruct (expression rec x) as [c1 |] eqn:E2; [ | discriminate ].
    destruct (emit_jump _ _) as [j c3] eqn:E3.
    inversion H; subst; clear H.
    pose proof (expression_appends _ Happ true _ _ E2) as A2.
    destruct (appended_code _ _ _ A2) as (cond & C2).
    pose proof (appends_nonempty _ _ _ A2 Hne) as N2.
    assert (N2' : compilers (consume SEMICOLON "Expect ';' after loop condition." c1) <> [])
      by (rewrite compilers_consume; exact N2).
    destruct (emit_jump_at _ _ _ _ N2' E3) as (J & C3 & N3).
    rewrite compiling_chunk_consume, C2 in J, C3.
    exists c1, cond. split; [ reflexivity | ]. split; [ exact C2 | ]. split.
    + rewrite J. f_equal. lists.
    + rewrite code_emit_byte by exact N3. rewrite C3. lists.
Qed.

(** The increment clause: nothing when the next token is the closing
    parenthesis; else a jump over the clause to the body, the
    increment, a pop, and a jump back to the loop start recorded so far;
    the loop start is then the start of the increment. *)
Lemma for_increment_layout x x5 :
  compilers x <> [] ->
  for_increment rec x = Some x5 ->
  (check RIGHT_PAREN x = true ->
   code (compiling_chunk x5) = code (compiling_chunk x) /\
   inner_most_loop_start x5 = inner_most_loop_start x) /\
  (check RIGHT_PAREN x = false ->
   exists xi incr,
      expression rec (snd (emit_jump (Op OP_JUMP) x)) = Some xi /\
      code (compiling_chunk xi)
      = code (compiling_chunk x) ++ jump_bytes OP_JUMP 65535 ++ incr /\
      code (compiling_chunk x5)
      = code (compiling_chunk x) ++ jump_bytes OP_JUMP (size incr + 4) ++ incr
        ++ [Op OP_POP]
        ++ jump_bytes OP_LOOP (count (compiling_chunk x) + size incr + 7
                               - inner_most_loop_start x) /\
      inner_most_loop_start x5 = count (compiling_chunk x) + 3).
Proof.
  intros Hne H. unfold for_increment, match_ in H.
  destruct (check RIGHT_PAREN x) eqn:K; cbn [negb] in H.
  - inversion H; subst. split; [ intros _ | discriminate ].
    split; [ rewrite compiling_chunk_advance; reflexivity
           | apply (fr_start _ _ (advance_frame x)) ].
  - split; [ discriminate | intros _ ].
    destruct (emit_jump _ x) as [bj i1] eqn:E2.
    destruct (expression rec i1) as [i2 |] eqn:E3; [ | discriminate ].
    inversion H; subst; clear H.
    destruct (emit_jump_at _ _ _ _ Hne E2) as (J & C2 & N2).
    pose proof (expression_appends _ Happ true _ _ E3) as A3.
    destruct (appended_code _ _ _ A3) as (incr & C3). rewrite C2 in C3.
    pose proof (appends_nonempty _ _ _ A3 N2) as N3.
    set (i4 := consume RIGHT_PAREN "Expect ')' after for clauses."
                 (emit_byte (Op OP_POP) i2)) in *.
    assert (C4 : code (compiling_chunk i4)
                 = code (compiling_chunk i2) ++ [Op OP_POP]).
    { unfold i4. rewrite compiling_chunk_consume. apply code_emit_byte. exact N3. }
    assert (N4 : compilers i4 <> []).
    { unfold i4. rewrite compilers_consume. apply nonempty_emit_byte. exact N3. }
    assert (F4 : frame x i4) by (unfold i4; fr).
    rewrite (fr_start _ _ F4).
    destruct (emit_loop_code (inner_most_loop_start x) i4 N4) as [C5 _].
    cbv zeta in C5.
    replace (count (compiling_chunk i4) + 3 - inner_most_loop_start x)
      with (count (compiling_chunk x) + size incr + 7 - inner_most_loop_start x) in C5
      by (rewrite !count_size, C4, C3; sz; lia).
    set (back := count (compiling_chunk x) + size incr + 7 - inner_most_loop_start x) in *.
    set (i5 := emit_loop (inner_most_loop_start x) i4) in *.
    assert (N5 : compilers i5 <> []).
    { eapply nonempty_length; [ apply (fr_len _ _ (emit_loop_frame _ i4)) | exact N4 ]. }
    set (i6 := set_loop (count (compiling_chunk i1)) (inner_most_loop_scope_depth i5) i5).
    assert (C6 : code (compiling_chunk i6)
                 = (code (compiling_chunk x) ++ [Op OP_JUMP])
                   ++ Raw 255 :: Raw 255
                      :: (incr ++ [Op OP_POP] ++ jump_bytes OP_LOOP back)).
    { change (compiling_chunk i6) with (compiling_chunk i5).
      fold (jump_bytes OP_LOOP back) in C5.
      rewrite C5, C4, C3. lists. }
    assert (N6 : compilers i6 <> []) by exact N5.
    pose proof (patch_jump_at _ _ _ _ _ N6 C6) as P. rewrite <- J in P.
    replace (size (incr ++ [Op OP_POP] ++ jump_bytes OP_LOOP back))
      with (size incr + 4) in P by (sz; lia).
    exists i2, incr. split; [ exact E3 | ]. split.
    { rewrite C3. change (jump_bytes OP_JUMP 65535) with [Op OP_JUMP; Raw 255; Raw 255].
      lists. }
    split.
    + rewrite P. lists.
    + rewrite (fr_start _ _ (patch_jump_frame bj i6)).
      change (inner_most_loop_start i6) with (count (compiling_chunk i1)).
      rewrite (count_size i1), (count_size x), C2. sz. lia.
Qed.

End ForClauses.

(** The pops of [end_scope] in a well-formed state: one for every local
    above the depth of the enclosing scope. *)
Lemma end_scope_pops x :
  WF x ->
  code (compiling_chunk (end_scope x))
  = code (compiling_chunk x)
    ++ repeat (Op OP_POP)
         (List.length (above (scope_depth (current x) - 1) (locals (current x)))).
Proof.
  intros W. pose proof (WF_WFC x W) as [_ _ _ C4].
  destruct (nondecreasing_split (locals (current x)) (scope_depth (current x) - 1) C4)
    as (a & b & Hl & Ha & Hb).
  rewrite (ex_code _ _ _ _ (end_scope_exited x a b (WF_nonempty x W) Hl Ha Hb)).
  rewrite Hl, (above_split _ a b Ha Hb). reflexivity.
Qed.

(** X18.  The code of [for ( init ; cond ; incr ) body], for
    [for_statement] called behind the [for] token in a well-formed state.
    The four parts are compiled one after the other, each in the state
    that the one before leaves: the initializer; the condition, if the
    token behind the initializer is not a semicolon; the increment, if the
    token behind the condition clause is not the closing parenthesis; the
    body.  The code is: the initializer; with a condition, the condition,
    a conditional jump and a pop; with an increment, a jump over it, the
    increment, a pop and a jump back to the condition; the body; a jump
    back, to the increment if there is one and to the condition if not;
    with a condition, the pop of the exit; and one pop for every local of
    the loop's scope.  The conditional jump leads to the pop of the exit,
    the jump over the increment to the body.  The code there was in front
    is untouched. *)
Theorem for_statement_layout (fuel : nat) (s s' : State) :
  WF s ->
  for_statement (run fuel) s = Some s' ->
  let before := code (compiling_chunk s) in
  exists x1 ej x4 x5 x6 init cond_clause incr_clause body exit back,
    let x1l := set_loop (count (compiling_chunk x1)) (scope_depth (current x1)) x1 in
    let k := List.length (above (scope_depth (current s)) (locals (current x6))) in
    let body_start := size (before ++ init ++ cond_clause ++ incr_clause) in
    (* the four parts *)
    for_initializer (run fuel)
      (consume LEFT_PAREN "Expect '(' after 'for'." (begin_scope s)) = Some x1 /\
    for_condition (run fuel) x1l = Some (ej, x4) /\
    for_increment (run fuel) x4 = Some x5 /\
    run fuel Statement x5 = Some x6 /\
    code (compiling_chunk x1) = before ++ init /\
    code (compiling_chunk x6) = code (compiling_chunk x5) ++ body /\
    (* the condition clause *)
    (check SEMICOLON x1 = true -> cond_clause = [] /\ exit = []) /\
    (check SEMICOLON x1 = false ->
     exists xc cond,
       expression (run fuel) x1l = Some xc /\
       code (compiling_chunk xc) = before ++ init ++ cond /\
       cond_clause
       = cond ++ jump_bytes OP_JUMP_IF_FALSE (4 + size incr_clause + size body)
         ++ [Op OP_POP] /\
       exit = [Op OP_POP] /\
       size (before ++ init ++ cond) + 3 + (4 + size incr_clause + size body)
       = body_start + size body + 3) /\
    (* the increment clause *)
    (check RIGHT_PAREN x4 = true ->
     incr_clause = [] /\ back = size cond_clause + size body + 3) /\
    (check RIGHT_PAREN x4 = false ->
     exists xi incr,
       expression (run fuel) (snd (emit_jump (Op OP_JUMP) x4)) = Some xi /\
       code (compiling_chunk xi)
       = code (compiling_chunk x4) ++ jump_bytes OP_JUMP 65535 ++ incr /\
       incr_clause
       = jump_bytes OP_JUMP (size incr + 4) ++ incr ++ [Op OP_POP]
         ++ jump_bytes OP_LOOP (size cond_clause + size incr + 7) /\
       back = size incr + size body + 7 /\
       size (before ++ init ++ cond_clause) + 3 + (size incr + 4) = body_start /\
       body_start - (size cond_clause + size incr + 7) = size (before ++ init)) /\
    (* the whole loop *)
    code (compiling_chunk s')
      = before ++ init ++ cond_clause ++ incr_clause ++ body
        ++ jump_bytes OP_LOOP back ++ exit ++ repeat (Op OP_POP) k /\
    body_start + size body + 3 - back
      = (if check RIGHT_PAREN x4 then size (before ++ init)
         else size (before ++ init ++ cond_clause) + 3).
Proof.
  intros W H before. unfold for_statement in H.
  pose proof (run_sound fuel) as Hs. pose proof (run_appending fuel) as Ha.
  set (b1 := consume LEFT_PAREN "Expect '(' after 'for'." (begin_scope s)) in *.
  destruct (for_initializer (run fuel) b1) as [x2 |] eqn:E1 in H; [ | discriminate ].
  destruct (for_condition (run fuel) _) as [[ej x4] |] eqn:E2; [ | discriminate ].
  destruct (for_increment (run fuel) x4) as [x5 |] eqn:E3; [ | discriminate ].
  destruct (statement_call (run fuel) x5) as [x6 |] eqn:E4; [ | discriminate ].
  inversion H; subst; clear H.
  assert (Cb : compiling_chunk b1 = compiling_chunk s).
  { unfold b1. rewrite compiling_chunk_consume.
    apply compiling_chunk_with_current. reflexivity. }
  (* the initializer *)
  assert (I2 : inner s x2).
  { unfold b1 in E1.
    pose proof (for_initializer_sframe (run fuel) Hs _ _ E1) as S1.
    eapply inner_step; [ | exact S1 ].
    eapply inner_frame; [ apply inner_begin; exact W | apply consume_frame ]. }
  pose proof (for_initializer_appends (run fuel) Ha true _ _ E1) as A1.
  destruct (appended_code _ _ _ A1) as (init & C2). rewrite Cb in C2.
  fold before in C2.
  pose proof (WF_nonempty _ (in_wf _ _ I2)) as N2.
  set (x2' := set_loop (count (compiling_chunk x2)) (scope_depth (current x2)) x2) in *.
  assert (I2' : inner s x2') by (apply inner_set_loop; exact I2).
  (* the condition clause *)
  pose proof (for_condition_frame (run fuel) Hs _ _ _ E2) as F4.
  assert (I4 : inner s x4) by (eapply inner_frame; eauto).
  pose proof (WF_nonempty _ (in_wf _ _ I4)) as N4.
  assert (St4 : inner_most_loop_start x4 = count (compiling_chunk x2))
    by (rewrite (fr_start _ _ F4); reflexivity).
  pose proof (for_condition_layout (run fuel) Ha x2' ej x4 N2 E2) as [LC1 LC2].
  change (compiling_chunk x2') with (compiling_chunk x2) in LC1, LC2.
  change (check SEMICOLON x2') with (check SEMICOLON x2) in LC1, LC2.
  (* the increment clause *)
  pose proof (for_increment_inner (run fuel) Hs _ _ _ I4 E3) as I5.
  pose proof (for_increment_layout (run fuel) Hs Ha x4 x5 N4 E3) as [LI1 LI2].
  rewrite St4 in LI1, LI2.
  (* the body *)
  pose proof (in_wf _ _ I5) as W5.
  pose proof (Ha Statement _ _ E4 W5) as A6.
  pose proof (Hs Statement _ _ E4 W5) as [W6 _ Sc6 _ St6 _ _ _ _].
  destruct (appended_code _ _ _ A6) as (body & C6).
  pose proof (WF_nonempty _ W6) as N6.
  rewrite St6.
  destruct (emit_loop_code (inner_most_loop_start x5) x6 N6) as [C7 _].
  cbv zeta in C7.
  fold (jump_bytes OP_LOOP (count (compiling_chunk x6) + 3 - inner_most_loop_start x5))
    in C7.
  pose proof (emit_loop_frame (inner_most_loop_start x5) x6) as F7.
  set (x7 := emit_loop (inner_most_loop_start x5) x6) in *.
  assert (N7 : compilers x7 <> []).
  { eapply nonempty_length; [ apply (fr_len _ _ F7) | exact N6 ]. }
  set (back := count (compiling_chunk x6) + 3 - inner_most_loop_start x5) in *.
  (* the exit and the pops *)
  set (x8 := if negb (ej =? -1) then emit_byte (Op OP_POP) (patch_jump ej x7) else x7).
  assert (F8 : frame x6 x8).
  { unfold x8. destruct (negb (ej =? -1)); fr. }
  pose proof (frame_WF _ _ F8 W6) as W8.
  set (x9 := set_loop (inner_most_loop_start x2) (inner_most_loop_scope_depth x2) x8).
  assert (W9 : WF x9) by exact W8.
  pose proof (end_scope_pops x9 W9) as CE.
  change (compiling_chunk x9) with (compiling_chunk x8) in CE.
  change (current x9) with (current x8) in CE.
  rewrite (fr_locals _ _ F8), (fr_scope _ _ F8), Sc6, (in_scope _ _ I5) in CE.
  replace (scope_depth (current s) + 1 - 1) with (scope_depth (current s)) in CE by lia.
  fold x8 x9.
  exists x2, ej, x4, x5, x6, init.
  assert (First : forall P : Prop,
             (code (compiling_chunk x6) = code (compiling_chunk x5) ++ body -> P) ->
             for_initializer (run fuel) b1 = Some x2 /\
             for_condition (run fuel) x2' = Some (ej, x4) /\
             for_increment (run fuel) x4 = Some x5 /\
             run fuel Statement x5 = Some x6 /\
             code (compiling_chunk x2) = before ++ init /\
             code (compiling_chunk x6) = code (compiling_chunk x5) ++ body /\ P).
  { intros P HP. repeat (split; [ assumption | ]). apply HP. exact C6. }
  (* the four forms *)
  destruct (check SEMICOLON x2) eqn:KS; destruct (check RIGHT_PAREN x4) eqn:KR.
  - destruct (LC1 eq_refl) as (Ej & C4). destruct (LI1 eq_refl) as (C5 & St5).
    exists [], [], body, [], back. cbv zeta. apply First. intros _.
    assert (X : x8 = x7) by (unfold x8; rewrite Ej; reflexivity).
    assert (B : back = size (@nil Byte) + size body + 3).
    { unfold back. rewrite St5, (count_size x6), (count_size x2), C6, C5, C4, C2.
      sz. lia. }
    split; [ intros _; split; reflexivity | ].
    split; [ intros D; discriminate D | ].
    split; [ intros _; split; [ reflexivity | exact B ] | ].
    split; [ intros D; discriminate D | ].
    split; [ rewrite CE, X, C7, C6, C5, C4, C2; lists | ].
    rewrite B. sz. lia.
  - destruct (LC1 eq_refl) as (Ej & C4).
    destruct (LI2 eq_refl) as (xi & incr & Ei & Ci & C5 & St5).
    assert (X : x8 = x7) by (unfold x8; rewrite Ej; reflexivity).
    assert (B1 : count (compiling_chunk x4) + size incr + 7 - count (compiling_chunk x2)
                 = size (@nil Byte) + size incr + 7).
    { rewrite (count_size x4), (count_size x2), C4. sz. lia. }
    rewrite B1 in C5.
    assert (B : back = size incr + size body + 7).
    { unfold back. rewrite St5, (count_size x6), (count_size x4), C6, C5. sz. lia. }
    exists [],
      (jump_bytes OP_JUMP (size incr + 4) ++ incr ++ [Op OP_POP]
       ++ jump_bytes OP_LOOP (size (@nil Byte) + size incr + 7)),
      body, [], back. cbv zeta. apply First. intros _.
    split; [ intros _; split; reflexivity | ].
    split; [ intros D; discriminate D | ].
    split; [ intros D; discriminate D | ].
    split.
    { intros _. exists xi, incr. split; [ exact Ei | ]. split; [ exact Ci | ].
      split; [ reflexivity | ]. split; [ exact B | ]. split; sz; lia. }
    split; [ rewrite CE, X, C7, C6, C5, C4, C2; lists | ].
    rewrite B. sz. lia.
  - destruct (LC2 eq_refl) as (xc & cond & Ec & Cc & Ej & C4).
    destruct (LI1 eq_refl) as (C5 & St5).
    assert (Ne : (ej =? -1) = false).
    { apply Z.eqb_neq. rewrite Ej. pose proof (size_nonneg
        (code (compiling_chunk x2) ++ cond ++ [Op OP_JUMP_IF_FALSE])). lia. }
    assert (C7' : code (compiling_chunk x7)
                  = (before ++ init ++ cond ++ [Op OP_JUMP_IF_FALSE])
                    ++ Raw 255 :: Raw 255
                       :: (Op OP_POP :: body ++ jump_bytes OP_LOOP back)).
    { rewrite C7, C6, C5, C4, C2. lists. }
    pose proof (patch_jump_at _ _ _ _ _ N7 C7') as P.
    replace (size (before ++ init ++ cond ++ [Op OP_JUMP_IF_FALSE])) with ej in P
      by (rewrite Ej, C2; f_equal; lists).
    replace (size (Op OP_POP :: body ++ jump_bytes OP_LOOP back))
      with (4 + size (@nil Byte) + size body) in P by (sz; lia).
    assert (N7p : compilers (patch_jump ej x7) <> []).
    { eapply nonempty_length; [ apply (fr_len _ _ (patch_jump_frame _ _)) | exact N7 ]. }
    assert (B : back = size (cond ++ jump_bytes OP_JUMP_IF_FALSE
                                       (4 + size (@nil Byte) + size body)
                             ++ [Op OP_POP]) + size body + 3).
    { unfold back. rewrite St5, (count_size x6), (count_size x2), C6, C5, C4, C2.
      sz. lia. }
    exists (cond ++ jump_bytes OP_JUMP_IF_FALSE (4 + size (@nil Byte) + size body)
            ++ [Op OP_POP]),
      [], body, [Op OP_POP], back. cbv zeta. apply First. intros _.
    split; [ intros D; discriminate D | ].
    split.
    { intros _. exists xc, cond. split; [ exact Ec | ].
      split; [ rewrite Cc, C2; lists | ]. split; [ reflexivity | ].
      split; [ reflexivity | sz; lia ]. }
    split; [ intros _; split; [ reflexivity | exact B ] | ].
    split; [ intros D; discriminate D | ].
    split.
    { rewrite CE. unfold x8. rewrite Ne. cbn [negb].
      rewrite code_emit_byte by exact N7p. rewrite P. lists. }
    rewrite B. sz. lia.
  - destruct (LC2 eq_refl) as (xc & cond & Ec & Cc & Ej & C4).
    destruct (LI2 eq_refl) as (xi & incr & Ei & Ci & C5 & St5).
    assert (Ne : (ej =? -1) = false).
    { apply Z.eqb_neq. rewrite Ej. pose proof (size_nonneg
        (code (compiling_chunk x2) ++ cond ++ [Op OP_JUMP_IF_FALSE])). lia. }
    set (ip := jump_bytes OP_JUMP (size incr + 4) ++ incr ++ [Op OP_POP]
               ++ jump_bytes OP_LOOP (size cond + 4 + size incr + 7)).
    assert (B1 : count (compiling_chunk x4) + size incr + 7 - count (compiling_chunk x2)
                 = size cond + 4 + size incr + 7).
    { rewrite (count_size x4), (count_size x2), C4. sz. lia. }
    rewrite B1 in C5. fold ip in C5.
    assert (C7' : code (compiling_chunk x7)
                  = (before ++ init ++ cond ++ [Op OP_JUMP_IF_FALSE])
                    ++ Raw 255 :: Raw 255
                       :: (Op OP_POP :: ip ++ body ++ jump_bytes OP_LOOP back)).
    { rewrite C7, C6, C5, C4, C2. unfold ip. lists. }
    pose proof (patch_jump_at _ _ _ _ _ N7 C7') as P.
    replace (size (before ++ init ++ cond ++ [Op OP_JUMP_IF_FALSE])) with ej in P
      by (rewrite Ej, C2; f_equal; lists).
    replace (size (Op OP_POP :: ip ++ body ++ jump_bytes OP_LOOP back))
      with (4 + size ip + size body) in P by (sz; lia).
    assert (N7p : compilers (patch_jump ej x7) <> []).
    { eapply nonempty_length; [ apply (fr_len _ _ (patch_jump_frame _ _)) | exact N7 ]. }
    assert (B : back = size incr + size body + 7).
    { unfold back. rewrite St5, (count_size x6), (count_size x4), C6, C5.
      unfold ip. sz. lia. }
    assert (Sip : size ip = size incr + 7) by (unfold ip; sz; lia).
    exists (cond ++ jump_bytes OP_JUMP_IF_FALSE (4 + size ip + size body)
            ++ [Op OP_POP]),
      ip, body, [Op OP_POP], back. cbv zeta. apply First. intros _.
    split; [ intros D; discriminate D | ].
    split.
    { intros _. exists xc, cond. split; [ exact Ec | ].
      split; [ rewrite Cc, C2; lists | ]. split; [ reflexivity | ].
      split; [ reflexivity | sz; lia ]. }
    split; [ intros D; discriminate D | ].
    split.
    { intros _. exists xi, incr. split; [ exact Ei | ]. split; [ exact Ci | ].
      split; [ unfold ip; do 4 f_equal; f_equal; sz; lia | ].
      split; [ exact B | ]. split; sz; lia. }
    split.
    { rewrite CE. unfold x8. rewrite Ne. cbn [negb].
      rewrite code_emit_byte by exact N7p. rewrite P. unfold ip. lists. }
    rewrite B. sz. lia.
Qed.

(** X18 (witness): [for ( have i := 0 ; i ; i ) info i ;] behind the [for]
    token. *)
Lemma for_statement_layout_witness :
  WF for_state /\
  exists s',
    for_statement (run 6) for_state = Some s' /\
    code (compiling_chunk s')
      = [Op OP_CONSTANT; Raw 0]
        ++ ([Op OP_GET_LOCAL; Raw 1] ++ jump_bytes OP_JUMP_IF_FALSE 16 ++ [Op OP_POP])
        ++ (jump_bytes OP_JUMP 6 ++ [Op OP_GET_LOCAL; Raw 1] ++ [Op OP_POP]
            ++ jump_bytes OP_LOOP 15)
        ++ [Op OP_GET_LOCAL; Raw 1; Op OP_INFO]
        ++ jump_bytes OP_LOOP 12 ++ [Op OP_POP] ++ repeat (Op OP_POP) 1.
Proof.
  assert (W : WF for_state) by apply WF_start_state.
  split; [ exact W | ].
  destruct (for_statement (run 6) for_state) as [s' |] eqn:E;
    [ | vm_compute in E; discriminate E ].
  exists s'. split; [ reflexivity | ].
  destruct (for_statement_layout 6 for_state s' W E) as (x1 & _).
  vm_compute in E. inversion E; subst s'. reflexivity.
Defined.



(* ================================================================= *)
(** * The sweep of [free_objects] *)

Lemma lookup_remove_block p q h :
  lookup p (remove_block q h) = if Nat.eqb p q then None else lookup p h.
Proof.
  unfold lookup, remove_block.
  induction h as [| [a o] h IH]; simpl.
  - destruct (Nat.eqb p q); reflexivity.
  - destruct (Nat.eqb_spec a q) as [-> | Haq]; simpl.
    + destruct (Nat.eqb_spec q p) as [-> | Hqp].
      * rewrite Nat.eqb_refl in *. exact IH.
      * rewrite IH. destruct (Nat.eqb_spec p q); [ congruence | reflexivity ].
    + destruct (Nat.eqb_spec a p) as [-> | Hap].
      * destruct (Nat.eqb_spec p q); [ congruence | reflexivity ].
      * exact IH.
Qed.

Lemma linked_unchanged h h' ps p :
  (forall q, In q ps -> lookup q h' = lookup q h) ->
  linked h p ps -> linked h' p ps.
Proof.
  revert p. induction ps as [| q qs IH]; simpl; intros p Hq H; [ exact H | ].
  destruct H as (E & Hn & o & Lo & Hl).
  split; [ exact E | ]. split; [ exact Hn | ].
  exists o. split.
  - rewrite Hq by (left; reflexivity). exact Lo.
  - apply IH; [ | exact Hl ]. intros r Hr. apply Hq. right. exact Hr.
Qed.

Lemma existsb_eqb_In p ps : existsb (Nat.eqb p) ps = true <-> In p ps.
Proof.
  rewrite existsb_exists. split.
  - intros (x & Hx & E). apply Nat.eqb_eq in E. subst. exact Hx.
  - intros H. exists p. split; [ exact H | apply Nat.eqb_refl ].
Qed.

Section Sweep.

Variable realloc_ : Ptr -> Z -> Heap -> Ptr * Heap.
Variable sizeof_ObjString : Z.

(** One object of the list: a string is released, anything else is
    left alone. *)
Lemma free_obj_allocated q o h :
  q <> nullptr -> lookup q h = Some o ->
  free_obj realloc_ sizeof_ObjString q h
  = Done tt (match obj_type o with
             | OBJ_STRING => remove_block q h
             | _ => h
             end).
Proof.
  intros Hn Lo. unfold free_obj. rewrite Lo.
  destruct (obj_type o); [ | reflexivity ].
  unfold reallocate, free_. simpl.
  destruct (Nat.eqb_spec q nullptr); [ contradiction | ].
  rewrite Lo. reflexivity.
Qed.

Lemma free_objects_loop_sweeps ps : forall n p h,
  linked h p ps -> NoDup ps -> (List.length ps <= n)%nat ->
  exists h',
    free_objects_loop realloc_ sizeof_ObjString n p h = Some (Done tt h') /\
    forall q, lookup q h' = if swept h ps q then None else lookup q h.
Proof.
  induction ps as [| a ps IH]; intros n p h L D Hn.
  - simpl in L. subst p. exists h. split.
    + destruct n; reflexivity.
    + intros q. reflexivity.
  - simpl in L. destruct L as (-> & Ha & o & Lo & L).
    inversion D as [| ? ? Hnot D']; subst.
    destruct n as [| n]; [ simpl in Hn; lia | ].
    simpl. destruct (Nat.eqb_spec a nullptr); [ contradiction | ].
    rewrite Lo, (free_obj_allocated a o h Ha Lo).
    set (h1 := match obj_type o with OBJ_STRING => remove_block a h | _ => h end).
    assert (U : forall q, q <> a -> lookup q h1 = lookup q h).
    { intros q Hq. unfold h1. destruct (obj_type o); [ | reflexivity ].
      rewrite lookup_remove_block.
      destruct (Nat.eqb_spec q a); [ contradiction | reflexivity ]. }
    assert (L1 : linked h1 (obj_next o) ps).
    { apply (linked_unchanged h); [ | exact L ].
      intros q Hq. apply U. intros ->. contradiction. }
    destruct (IH n (obj_next o) h1 L1 D' ltac:(simpl in Hn; lia)) as (h' & R & Q).
    exists h'. split; [ exact R | ].
    intros q. rewrite Q. unfold swept. simpl existsb.
    destruct (Nat.eqb_spec q a) as [-> | Hqa].
    + assert (Ea : existsb (Nat.eqb a) ps = false).
      { destruct (existsb (Nat.eqb a) ps) eqn:E; [ | reflexivity ].
        apply existsb_eqb_In in E. contradiction. }
      rewrite Ea, Lo. simpl. unfold h1.
      destruct (obj_type o); [ | exact Lo ].
      rewrite lookup_remove_block, Nat.eqb_refl. reflexivity.
    + simpl. rewrite (U q Hqa). reflexivity.
Qed.

End Sweep.

(** X19.  [free_objects] on a list of distinct allocated objects that
    ends with the null pointer: the loop returns, without an access to a
    released block, and it has released exactly the string objects of the
    list.  Every other block is still allocated and unchanged, also the
    function objects of the list: the switch of [free_obj] has a case
    for strings only.  The result does not depend on [realloc] or on the
    sizes handed to [reallocate]. *)
Theorem free_objects_releases_the_strings
        (realloc_ : Ptr -> Z -> Heap -> Ptr * Heap) (sizeof_ObjString : Z)
        (h : Heap) (vm_objects : Ptr) (ps : list Ptr) (n : nat) :
  linked h vm_objects ps -> NoDup ps -> (List.length ps <= n)%nat ->
  exists h',
    free_objects realloc_ sizeof_ObjString n vm_objects h = Some (Done tt h') /\
    (forall q, lookup q h' = if swept h ps q then None else lookup q h) /\
    (forall q o, In q ps -> lookup q h = Some o ->
                 obj_type o = OBJ_STRING -> lookup q h' = None) /\
    (forall q o, lookup q h = Some o ->
                 obj_type o <> OBJ_STRING -> lookup q h' = Some o).
Proof.
  intros L D Hn.
  destruct (free_objects_loop_sweeps realloc_ sizeof_ObjString ps n vm_objects h L D Hn)
    as (h' & R & Q).
  exists h'. split; [ exact R | ]. split; [ exact Q | ]. split.
  - intros q o Hq Lo Ht. rewrite Q. unfold swept.
    rewrite (proj2 (existsb_eqb_In q ps) Hq), Lo, Ht. reflexivity.
  - intros q o Lo Ht. rewrite Q. unfold swept. rewrite Lo.
    destruct (obj_type o); [ congruence | ].
    rewrite andb_false_r. reflexivity.
Qed.

(** X19 (witness): a function linked to a string; the string is released,
    the function is not. *)
Lemma free_objects_releases_the_strings_witness :
  linked sample_heap 1%nat [1%nat; 2%nat] /\
  NoDup [1%nat; 2%nat] /\
  exists h',
    free_objects (fun p _ h => (p, h)) 24 2 1%nat sample_heap = Some (Done tt h') /\
    lookup 2%nat h' = None /\
    lookup 1%nat h' = lookup 1%nat sample_heap.
Proof.
  assert (L : linked sample_heap 1%nat [1%nat; 2%nat]).
  { simpl. split; [ reflexivity | ]. split; [ discriminate | ].
    eexists. split; [ reflexivity | ]. simpl.
    split; [ reflexivity | ]. split; [ discriminate | ].
    eexists. split; reflexivity. }
  assert (D : NoDup [1%nat; 2%nat]).
  { constructor; [ simpl; intros [H | []]; discriminate H | ].
    constructor; [ simpl; tauto | constructor ]. }
  split; [ exact L | ]. split; [ exact D | ].
  destruct (free_objects_releases_the_strings (fun p _ h => (p, h)) 24
              sample_heap 1%nat [1%nat; 2%nat] 2 L D (le_n _))
    as (h' & R & Q & _).
  exists h'. split; [ exact R | ].
  split; rewrite Q; reflexivity.
Defined.

(** X20.  [free_objects] does not reset the head of the list.  When the
    first object of the list is a string, a second sweep from the same
    head reads the [next] field of a block that the first sweep has
    released: its behaviour is undefined. *)
Theorem second_sweep_reads_a_released_block
        (realloc_ : Ptr -> Z -> Heap -> Ptr * Heap) (sizeof_ObjString : Z)
        (h : Heap) (vm_objects : Ptr) (ps : list Ptr) (n : nat) (o : Obj) :
  linked h vm_objects ps -> NoDup ps -> (List.length ps <= n)%nat ->
  vm_objects <> nullptr ->
  lookup vm_objects h = Some o -> obj_type o = OBJ_STRING ->
  exists h',
    free_objects realloc_ sizeof_ObjString n vm_objects h = Some (Done tt h') /\
    forall m, free_objects realloc_ sizeof_ObjString (S m) vm_objects h'
              = Some Undefined.
Proof.
  intros L D Hn Hnull Lo Ht.
  destruct (free_objects_loop_sweeps realloc_ sizeof_ObjString ps n vm_objects h L D Hn)
    as (h' & R & Q).
  exists h'. split; [ exact R | ].
  intros m. unfold free_objects. simpl.
  destruct (Nat.eqb_spec vm_objects nullptr); [ contradiction | ].
  assert (Hin : In vm_objects ps).
  { destruct ps as [| a ps]; simpl in L; [ contradiction | ].
    destruct L as (-> & _). left. reflexivity. }
  rewrite Q. unfold swept.
  rewrite (proj2 (existsb_eqb_In vm_objects ps) Hin), Lo, Ht. reflexivity.
Qed.

(** X20 (witness): a string linked to a function. *)
Lemma second_sweep_reads_a_released_block_witness :
  linked sample_heap_string_first 1%nat [1%nat; 2%nat] /\
  NoDup [1%nat; 2%nat] /\
  exists h',
    free_objects (fun p _ h => (p, h)) 24 2 1%nat sample_heap_string_first
      = Some (Done tt h') /\
    free_objects (fun p _ h => (p, h)) 24 2 1%nat h' = Some Undefined.
Proof.
  assert (L : linked sample_heap_string_first 1%nat [1%nat; 2%nat]).
  { simpl. split; [ reflexivity | ]. split; [ discriminate | ].
    eexists. split; [ reflexivity | ]. simpl.
    split; [ reflexivity | ]. split; [ discriminate | ].
    eexists. split; reflexivity. }
  assert (D : NoDup [1%nat; 2%nat]).
  { constructor; [ simpl; intros [H | []]; discriminate H | ].
    constructor; [ simpl; tauto | constructor ]. }
  split; [ exact L | ]. split; [ exact D | ].
  destruct (second_sweep_reads_a_released_block (fun p _ h => (p, h)) 24
              sample_heap_string_first 1%nat [1%nat; 2%nat] 2
              {| obj_type := OBJ_STRING; obj_next := 2%nat; obj_length := 3 |}
              L D (le_n _) ltac:(discriminate) eq_refl eq_refl)
    as (h' & R & U).
  exists h'. split; [ exact R | apply (U 1%nat) ].
Defined.



(* ================================================================= *)
(** * The arity and the name of a function are fixed by its declaration *)

Create HintDb signed discriminated.

Lemma signed_refl s : signed s s.
Proof. reflexivity. Qed.

Lemma signed_trans s1 s2 s3 : signed s1 s2 -> signed s2 s3 -> signed s1 s3.
Proof. unfold signed. congruence. Qed.

Lemma parser_signed s s' : compilers s' = compilers s -> signed s s'.
Proof. intros H. unfold signed, signature, current. rewrite H. reflexivity. Qed.

Lemma with_current_signed f s :
  (forall c, arity (function (f c)) = arity (function c) /\
             name (function (f c)) = name (function c)) ->
  signed s (with_current f s).
Proof.
  intros Hf. unfold signed, signature, current. rewrite compilers_with_current.
  destruct (compilers s); simpl; [ reflexivity | ].
  destruct (Hf c) as [-> ->]. reflexivity.
Qed.

Lemma set_chunk_signed ch s : signed s (set_chunk ch s).
Proof. apply with_current_signed. intros c. split; reflexivity. Qed.

Lemma advance_signed s : signed s (advance s).
Proof. apply parser_signed, compilers_advance. Qed.

Lemma error_signed msg s : signed s (error msg s).
Proof. apply parser_signed, compilers_error. Qed.

Lemma error_at_current_signed msg s : signed s (error_at_current msg s).
Proof. apply error_signed. Qed.

Lemma cond_error_signed (b : bool) msg s : signed s (if b then error msg s else s).
Proof. destruct b; [ apply error_signed | apply signed_refl ]. Qed.

Lemma consume_signed k msg s : signed s (consume k msg s).
Proof. apply parser_signed, compilers_consume. Qed.

Lemma match_signed k s m s' : match_ k s = (m, s') -> signed s s'.
Proof.
  unfold match_. destruct (check k s); intros H; inversion H; subst;
    [ apply advance_signed | apply signed_refl ].
Qed.

Lemma set_panic_mode_signed b s : signed s (set_panic_mode b s).
Proof. apply parser_signed. reflexivity. Qed.

Lemma set_loop_signed a b s : signed s (set_loop a b s).
Proof. apply parser_signed. reflexivity. Qed.

Lemma emit_byte_signed b s : signed s (emit_byte b s).
Proof. apply set_chunk_signed. Qed.

Lemma emit_bytes_signed b1 b2 s : signed s (emit_bytes b1 b2 s).
Proof. unfold emit_bytes. eapply signed_trans; apply emit_byte_signed. Qed.

Lemma emit_return_signed s : signed s (emit_return s).
Proof. unfold emit_return. eapply signed_trans; apply emit_byte_signed. Qed.

Lemma emit_loop_signed l s : signed s (emit_loop l s).
Proof.
  unfold emit_loop.
  eapply signed_trans; [ | apply emit_byte_signed ].
  eapply signed_trans; [ | apply emit_byte_signed ].
  eapply signed_trans; [ | apply cond_error_signed ].
  apply emit_byte_signed.
Qed.

Lemma emit_jump_signed b s j s' : emit_jump b s = (j, s') -> signed s s'.
Proof.
  unfold emit_jump. intros H. inversion H; subst.
  eapply signed_trans; [ | apply emit_byte_signed ].
  eapply signed_trans; [ | apply emit_byte_signed ].
  apply emit_byte_signed.
Qed.

Lemma make_constant_signed v s c s' : make_constant v s = (c, s') -> signed s s'.
Proof.
  unfold make_constant. destruct (add_constant (compiling_chunk s) v) as [ch k].
  destruct (k >? UINT8_MAX); intros H; inversion H; subst.
  - eapply signed_trans; [ apply set_chunk_signed | apply error_signed ].
  - apply set_chunk_signed.
Qed.

Lemma emit_constant_signed v s : signed s (emit_constant v s).
Proof.
  unfold emit_constant. destruct (make_constant v s) as [c s1] eqn:E.
  eapply signed_trans; [ eapply make_constant_signed; eauto | apply emit_bytes_signed ].
Qed.

Lemma patch_jump_signed o s : signed s (patch_jump o s).
Proof.
  unfold patch_jump.
  eapply signed_trans; [ | apply set_chunk_signed ].
  eapply signed_trans; [ | apply set_chunk_signed ].
  apply cond_error_signed.
Qed.

Lemma identifier_constant_signed nm s c s' :
  identifier_constant nm s = (c, s') -> signed s s'.
Proof. apply make_constant_signed. Qed.

Lemma resolve_local_from_signed i ls nm s r s' :
  resolve_local_from i ls nm s = (r, s') -> signed s s'.
Proof.
  intros H. apply parser_signed. revert s H.
  induction i as [| j IH]; simpl; intros s H.
  - inversion H; subst. reflexivity.
  - destruct (nth_error ls j) as [l |].
    + destruct (identifiers_equal nm (l_name l)).
      * inversion H; subst. reflexivity.
      * apply IH in H. rewrite H. apply compilers_cond_error.
    + inversion H; subst. reflexivity.
Qed.

Lemma resolve_local_signed c nm s r s' :
  resolve_local c nm s = (r, s') -> signed s s'.
Proof. apply resolve_local_from_signed. Qed.

Lemma discard_locals_signed i ls d s : signed s (discard_locals i ls d s).
Proof.
  revert s. induction i as [| j IH]; simpl; intros s.
  - apply signed_refl.
  - destruct (nth_error ls j) as [l |]; [ | apply signed_refl ].
    destruct (depth l >? d); [ | apply signed_refl ].
    eapply signed_trans; [ apply emit_byte_signed | apply IH ].
Qed.

Lemma continue_statement_signed s : signed s (continue_statement s).
Proof.
  unfold continue_statement. destruct (inner_most_loop_start s =? -1).
  - apply error_signed.
  - eapply signed_trans; [ | apply consume_signed ].
    eapply signed_trans; [ | apply emit_loop_signed ].
    apply discard_locals_signed.
Qed.

Lemma break_statement_signed s : signed s (break_statement s).
Proof.
  unfold break_statement. destruct (inner_most_loop_start s =? -1).
  - apply error_signed.
  - eapply signed_trans; [ | apply consume_signed ].
    eapply signed_trans; [ | apply emit_byte_signed ].
    apply discard_locals_signed.
Qed.

Lemma using_statement_signed s : signed s (using_statement s).
Proof.
  unfold using_statement.
  eapply signed_trans; [ | apply emit_byte_signed ].
  eapply signed_trans; [ | apply emit_constant_signed ].
  eapply signed_trans; apply consume_signed.
Qed.

Lemma synchronize_loop_signed k s : signed s (synchronize_loop k s).
Proof.
  revert s. induction k as [| k IH]; simpl; intros s.
  - apply signed_refl.
  - destruct (negb (check EOF_TOKEN s)); [ | apply signed_refl ].
    destruct (kind_is SEMICOLON (previous (parser s))); [ apply signed_refl | ].
    destruct (return_context (kind (current_tok (parser s)))); [ apply signed_refl | ].
    eapply signed_trans; [ apply advance_signed | apply IH ].
Qed.

Lemma synchronize_signed s : signed s (synchronize s).
Proof.
  unfold synchronize.
  eapply signed_trans; [ apply set_panic_mode_signed | apply synchronize_loop_signed ].
Qed.

Lemma begin_scope_signed s : signed s (begin_scope s).
Proof. apply with_current_signed. intros c. split; reflexivity. Qed.

Lemma end_scope_loop_signed k s : signed s (end_scope_loop k s).
Proof.
  revert s. induction k as [| k IH]; simpl; intros s.
  - apply signed_refl.
  - destruct (nth_error _ _) as [l |]; [ | apply signed_refl ].
    destruct (_ && _); [ | apply signed_refl ].
    eapply signed_trans; [ | apply IH ].
    eapply signed_trans; [ apply emit_byte_signed | ].
    apply with_current_signed. intros c. split; reflexivity.
Qed.

Lemma end_scope_signed s : signed s (end_scope s).
Proof.
  unfold end_scope.
  eapply signed_trans; [ | apply end_scope_loop_signed ].
  apply with_current_signed. intros c. split; reflexivity.
Qed.

Lemma add_local_signed nm s : signed s (add_local nm s).
Proof.
  unfold add_local. destruct (_ =? _).
  - apply error_signed.
  - apply with_current_signed. intros c. split; reflexivity.
Qed.

Lemma declare_variable_signed s : signed s (declare_variable s).
Proof.
  unfold declare_variable. destruct (_ =? 0); [ apply signed_refl | ].
  eapply signed_trans; [ | apply add_local_signed ].
  apply parser_signed, compilers_declare_scan.
Qed.

Lemma parser_variable_signed msg s g s' :
  parser_variable msg s = (g, s') -> signed s s'.
Proof.
  unfold parser_variable. intros H.
  assert (A : signed s (declare_variable (consume IDENTIFIER msg s))).
  { eapply signed_trans; [ apply consume_signed | apply declare_variable_signed ]. }
  destruct (_ >? 0).
  - inversion H; subst. exact A.
  - eapply signed_trans; [ exact A | ].
    eapply identifier_constant_signed; eauto.
Qed.

Lemma mark_initialized_signed s : signed s (mark_initialized s).
Proof.
  unfold mark_initialized. destruct (_ =? 0); [ apply signed_refl | ].
  apply with_current_signed. intros c. split; reflexivity.
Qed.

Lemma define_variable_signed g s : signed s (define_variable g s).
Proof.
  unfold define_variable. destruct (_ >? 0).
  - apply mark_initialized_signed.
  - apply emit_bytes_signed.
Qed.

#[export] Hint Resolve advance_signed error_signed error_at_current_signed
  cond_error_signed consume_signed match_signed set_loop_signed
  emit_byte_signed emit_bytes_signed emit_return_signed emit_loop_signed
  emit_jump_signed emit_constant_signed identifier_constant_signed
  patch_jump_signed resolve_local_signed continue_statement_signed
  break_statement_signed using_statement_signed synchronize_signed
  begin_scope_signed end_scope_signed parser_variable_signed
  mark_initialized_signed define_variable_signed : signed.

(** [signed] along a sequence of steps, from the last one backwards. *)
Ltac sg :=
  solve [ repeat first
            [ apply signed_refl
            | eassumption
            | eapply signed_trans; [ | solve [ eauto 3 with signed ] ] ] ].

Section ExpressionSigned.

Variable n : nat.
Variable rec : Rec.
Hypothesis Hrec : signing rec.

Lemma parse_precedence_call_signed p s s' :
  parse_precedence_call rec p s = Some s' -> signed s s'.
Proof. intros H. apply (Hrec (ParsePrecedence p)). exact H. Qed.

Lemma expression_signed s s' : expression rec s = Some s' -> signed s s'.
Proof. apply parse_precedence_call_signed. Qed.

Hint Resolve parse_precedence_call_signed expression_signed : signed.

Lemma argument_loop_signed k a s r s' :
  argument_loop rec k a s = Some (r, s') -> signed s s'.
Proof.
  revert a s. induction k as [| k IH]; simpl; intros a s H; [discriminate | ].
  destruct (expression rec s) as [s1 |] eqn:E1; [ | discriminate ].
  destruct (match_ COMMA _) as [m s2] eqn:E2.
  destruct m.
  - apply IH in H. sg.
  - inversion H; subst. sg.
Qed.

Hint Resolve argument_loop_signed : signed.

Lemma argument_list_signed s r s' :
  argument_list n rec s = Some (r, s') -> signed s s'.
Proof. unfold argument_list. intros H. break_in H; sg. Qed.

Lemma and_signed ca s s' : and_ rec ca s = Some s' -> signed s s'.
Proof. unfold and_. intros H. break_in H; sg. Qed.

Lemma binary_signed ca s s' : binary rec ca s = Some s' -> signed s s'.
Proof.
  unfold binary. intros H.
  destruct (parse_precedence_call rec _ s) as [s1 |] eqn:E; [ | discriminate ].
  inversion H; subst; clear H.
  destruct (kind (previous (parser s))); sg.
Qed.

Lemma literal_signed ca s s' : literal ca s = Some s' -> signed s s'.
Proof.
  unfold literal. intros H. inversion H; subst; clear H.
  destruct (kind (previous (parser s))); sg.
Qed.

Lemma grouping_signed ca s s' : grouping rec ca s = Some s' -> signed s s'.
Proof. unfold grouping. intros H. break_in H; sg. Qed.

Lemma named_variable_signed nm ca s s' :
  named_variable rec nm ca s = Some s' -> signed s s'.
Proof. unfold named_variable. intros H. break_in H; sg. Qed.

Lemma _number_signed ca s s' : _number ca s = Some s' -> signed s s'.
Proof. unfold _number. intros H. break_in H; sg. Qed.

Lemma or_signed ca s s' : or_ rec ca s = Some s' -> signed s s'.
Proof. unfold or_. intros H. break_in H; sg. Qed.

Lemma _string_signed ca s s' : _string ca s = Some s' -> signed s s'.
Proof. unfold _string. intros H. break_in H; sg. Qed.

Lemma _variable_signed ca s s' : _variable rec ca s = Some s' -> signed s s'.
Proof. apply named_variable_signed. Qed.

Lemma unary_signed ca s s' : unary rec ca s = Some s' -> signed s s'.
Proof.
  unfold unary. intros H.
  destruct (parse_precedence_call rec _ s) as [s1 |] eqn:E; [ | discriminate ].
  inversion H; subst; clear H.
  destruct (kind (previous (parser s))); sg.
Qed.

Lemma call_signed ca s s' : call n rec ca s = Some s' -> signed s s'.
Proof.
  unfold call. intros H.
  destruct (argument_list n rec s) as [[a s1] |] eqn:E; [ | discriminate ].
  inversion H; subst; clear H.
  apply argument_list_signed in E. sg.
Qed.

Lemma apply_rule_signed f ca s s' :
  apply_rule n rec f ca s = Some s' -> signed s s'.
Proof.
  destruct f; simpl;
    eauto using grouping_signed, call_signed, unary_signed, binary_signed,
      _variable_signed, _string_signed, _number_signed, and_signed,
      or_signed, literal_signed.
Qed.

Hint Resolve apply_rule_signed : signed.

Lemma infix_loop_signed k p ca s s' :
  infix_loop n rec k p ca s = Some s' -> signed s s'.
Proof.
  revert s. induction k as [| k IH]; simpl; intros s H.
  - destruct (p <=? _); [discriminate | inversion H; subst; sg].
  - destruct (p <=? _); [ | inversion H; subst; sg].
    destruct (infix _) as [f |]; [ | discriminate ].
    destruct (apply_rule n rec f ca (advance s)) as [s1 |] eqn:E; [ | discriminate ].
    apply IH in H. sg.
Qed.

Hint Resolve infix_loop_signed : signed.

Lemma parse_precedence_signed p s s' :
  parse_precedence n rec p s = Some s' -> signed s s'.
Proof. unfold parse_precedence. intros H. break_in H; sg. Qed.

End ExpressionSigned.

#[export] Hint Resolve parse_precedence_call_signed expression_signed
  argument_list_signed apply_rule_signed infix_loop_signed
  parse_precedence_signed : signed.



Section StatementSigned.

Variable n : nat.
Variable rec : Rec.
Hypothesis Hrec : sound rec.
Hypothesis Hsig : signing rec.

Hint Resolve statement_call_sframe declaration_call_sframe block_loop_sframe
  block_sframe scoped_block var_declaration_sframe func_declaration_sframe
  for_initializer_sframe for_statement_sframe if_statement_sframe
  while_statement_sframe : sframe.
Hint Resolve expression_statement_frame for_condition_frame
  info_statement_frame return_statement_frame : frame.

Lemma statement_call_signed s s' :
  WF s -> statement_call rec s = Some s' -> signed s s'.
Proof. intros W H. apply (Hsig Statement); assumption. Qed.

Lemma declaration_call_signed s s' :
  WF s -> declaration_call rec s = Some s' -> signed s s'.
Proof. intros W H. apply (Hsig Declaration); assumption. Qed.

Lemma block_loop_signed k s s' :
  WF s -> block_loop rec k s = Some s' -> signed s s'.
Proof.
  revert s. induction k as [| k IH]; simpl; intros s W H.
  - destruct (negb _ && negb _); [discriminate | inversion H; subst; sg].
  - destruct (negb _ && negb _); [ | inversion H; subst; sg].
    destruct (declaration_call rec s) as [s1 |] eqn:E; [ | discriminate ].
    pose proof (declaration_call_signed _ _ W E) as A.
    pose proof (declaration_call_sframe rec Hrec _ _ E W) as [W1 _ _ _ _ _ _ _ _].
    apply IH in H; auto. sg.
Qed.

Lemma block_signed s s' :
  WF s -> block n rec s = Some s' -> signed s s'.
Proof.
  unfold block. intros W H.
  destruct (block_loop rec n s) as [s1 |] eqn:E; [ | discriminate ].
  inversion H; subst; clear H.
  pose proof (block_loop_signed _ _ _ W E). sg.
Qed.

Lemma var_declaration_signed s s' :
  var_declaration rec s = Some s' -> signed s s'.
Proof. unfold var_declaration. intros H. break_in H; sg. Qed.

Lemma expression_statement_signed s s' :
  expression_statement rec s = Some s' -> signed s s'.
Proof. unfold expression_statement. intros H. break_in H. sg. Qed.

Hint Resolve var_declaration_signed expression_statement_signed : signed.

(** The nested compiler is popped: [current] is again the compiler of
    the call. *)
Lemma function_signed ty s s' :
  WF s -> function_ n rec ty s = Some s' -> signed s s'.
Proof.
  intros W H.
  pose proof (function_frame n rec Hrec ty s s' W H) as [T N _ _ _ _ _ _ _].
  unfold function_ in H.
  pose proof (WF_init_compiler ty s W) as W1.
  assert (T1 : tl (compilers (init_compiler ty s)) = compilers s) by reflexivity.
  set (s1 := init_compiler ty s) in *. clearbody s1.
  assert (I : inner s1 (begin_scope s1)) by (apply inner_begin; auto).
  pose proof (in_wf _ _ I) as W2.
  pose proof (in_tl _ _ I) as T2.
  set (s2 := begin_scope s1) in *. clearbody s2. clear I.
  destruct (if negb _ then _ else _) as [sP |] eqn:EP; [ | discriminate ].
  destruct (block n rec _) as [sB |] eqn:EB; [ | discriminate ].
  unfold end_compiler in H.
  destruct (make_constant _ _) as [c sC] eqn:EC.
  inversion H; subst; clear H.
  assert (P : sframe true s2 sP).
  { destruct (negb _); [ | inversion EP; subst ]; sfr. }
  assert (B : sframe true s2 sB) by sfr.
  destruct (B W2) as [_ BT _ _ _ _ _ _ _].
  destruct (emit_return_frame sB) as [RT _ _ _ _ _ _ _ _].
  assert (TR : tl (compilers (emit_return sB)) = compilers s) by congruence.
  assert (AE : signed s (set_compilers (tl (compilers (emit_return sB)))
                                       (emit_return sB))).
  { apply parser_signed. simpl. exact TR. }
  pose proof (make_constant_signed _ _ _ _ EC) as AC.
  sg.
Qed.

Lemma func_declaration_signed s s' :
  WF s -> func_declaration n rec s = Some s' -> signed s s'.
Proof.
  unfold func_declaration. intros W H.
  destruct (parser_variable _ s) as [g x] eqn:E1.
  destruct (function_ n rec TYPE_FUNCTION (mark_initialized x)) as [y |] eqn:E2;
    [ | discriminate ].
  inversion H; subst; clear H.
  pose proof (parser_variable_mark _ _ _ _ E1 W) as [W1 _ _ _ _ _ _ _ _].
  pose proof (function_signed _ _ _ W1 E2) as F.
  sg.
Qed.

Lemma for_initializer_signed s s' :
  for_initializer rec s = Some s' -> signed s s'.
Proof. unfold for_initializer. intros H. break_in H; sg. Qed.

Lemma for_condition_signed s ej s' :
  for_condition rec s = Some (ej, s') -> signed s s'.
Proof. unfold for_condition. intros H. break_in H; sg. Qed.

Lemma for_increment_signed s s' :
  for_increment rec s = Some s' -> signed s s'.
Proof. unfold for_increment. intros H. break_in H; sg. Qed.

Hint Resolve for_initializer_signed for_condition_signed for_increment_signed
  : signed.

Lemma for_statement_signed s s' :
  WF s -> for_statement rec s = Some s' -> signed s s'.
Proof.
  unfold for_statement. intros W H.
  destruct (for_initializer rec _) as [x2 |] eqn:E1; [ | discriminate ].
  destruct (for_condition rec _) as [[ej x4] |] eqn:E2; [ | discriminate ].
  destruct (for_increment rec x4) as [x5 |] eqn:E3; [ | discriminate ].
  destruct (statement_call rec x5) as [x6 |] eqn:E4; [ | discriminate ].
  inversion H; subst; clear H.
  assert (I2 : inner s x2) by inr.
  assert (I4 : inner s x4) by inr.
  pose proof (for_increment_inner rec Hrec _ _ _ I4 E3) as I5.
  pose proof (statement_call_signed _ _ (in_wf _ _ I5) E4) as A6.
  destruct (negb (ej =? -1)); sg.
Qed.

Lemma if_statement_signed s s' :
  WF s -> if_statement rec s = Some s' -> signed s s'.
Proof.
  unfold if_statement. intros W H.
  destruct (expression rec _) as [x2 |] eqn:E2; [ | discriminate ].
  destruct (emit_jump _ _) as [tj x4] eqn:E4.
  destruct (statement_call rec _) as [x6 |] eqn:E6; [ | discriminate ].
  destruct (emit_jump _ x6) as [ej x7] eqn:E7.
  destruct (match_ ELSE _) as [m x10] eqn:E10.
  assert (F5 : frame s (emit_byte (Op OP_POP) x4)) by fr.
  pose proof (statement_call_signed _ _ (frame_WF _ _ F5 W) E6) as A6.
  assert (S10 : sframe false s x10) by sfr.
  destruct (S10 W) as [W10 _ _ _ _ _ _ _ _].
  destruct m.
  - destruct (statement_call rec x10) as [x11 |] eqn:E11; [ | discriminate ].
    inversion H; subst; clear H.
    pose proof (statement_call_signed _ _ W10 E11) as A11. sg.
  - inversion H; subst; clear H. sg.
Qed.

Lemma info_statement_signed s s' :
  info_statement rec s = Some s' -> signed s s'.
Proof. unfold info_statement. intros H. break_in H; sg. Qed.

Lemma return_statement_signed s s' :
  return_statement rec s = Some s' -> signed s s'.
Proof.
  unfold return_statement. intros H.
  assert (F : signed s (match type (current s) with
                        | TYPE_SCRIPT => error "Can't return from top-level code!" s
                        | TYPE_FUNCTION => s
                        end)).
  { destruct (type (current s)); [ apply signed_refl | apply error_signed ]. }
  destruct (match_ SEMICOLON _) as [m x] eqn:E. destruct m.
  - inversion H; subst. sg.
  - break_in H. sg.
Qed.

Lemma while_statement_signed s s' :
  WF s -> while_statement rec s = Some s' -> signed s s'.
Proof.
  unfold while_statement. intros W H.
  destruct (expression rec _) as [x2 |] eqn:E2; [ | discriminate ].
  destruct (emit_jump _ _) as [ej x4] eqn:E4.
  destruct (statement_call rec _) as [x6 |] eqn:E6; [ | discriminate ].
  inversion H; subst; clear H.
  assert (F5 : frame s (emit_byte (Op OP_POP) x4)) by fr.
  pose proof (statement_call_signed _ _ (frame_WF _ _ F5 W) E6) as A6.
  sg.
Qed.

Hint Resolve info_statement_signed return_statement_signed : signed.

Lemma statement_signed s s' :
  WF s -> statement n rec s = Some s' -> signed s s'.
Proof.
  unfold statement. intros W H.
  destruct (match_ INFO s) as [m1 x1] eqn:E1. destruct m1; [ sg | ].
  destruct (match_ RETURN x1) as [m2 x2] eqn:E2. destruct m2; [ sg | ].
  destruct (match_ IF x2) as [m3 x3] eqn:E3.
  assert (F3 : frame s x3) by fr.
  pose proof (frame_WF _ _ F3 W) as W3.
  destruct m3.
  { pose proof (if_statement_signed _ _ W3 H). sg. }
  destruct (match_ CONTINUE x3) as [m4 x4] eqn:E4.
  destruct m4; [ inversion H; subst; sg | ].
  destruct (match_ BREAK x4) as [m5 x5] eqn:E5.
  destruct m5; [ inversion H; subst; sg | ].
  destruct (match_ WHILE x5) as [m6 x6] eqn:E6.
  assert (F6 : frame s x6) by fr.
  pose proof (frame_WF _ _ F6 W) as W6.
  destruct m6.
  { pose proof (while_statement_signed _ _ W6 H). sg. }
  destruct (match_ FOR x6) as [m7 x7] eqn:E7.
  assert (F7 : frame s x7) by fr.
  pose proof (frame_WF _ _ F7 W) as W7.
  destruct m7.
  { pose proof (for_statement_signed _ _ W7 H). sg. }
  destruct (match_ USING x7) as [m8 x8] eqn:E8.
  destruct m8; [ inversion H; subst; sg | ].
  destruct (match_ LEFT_BRACE x8) as [m9 x9] eqn:E9.
  assert (F9 : frame s x9) by fr.
  pose proof (frame_WF _ _ F9 W) as W9.
  destruct m9; [ | sg ].
  destruct (block n rec (begin_scope x9)) as [xB |] eqn:EB; [ | discriminate ].
  inversion H; subst; clear H.
  pose proof (block_signed _ _ (in_wf _ _ (inner_begin x9 W9)) EB) as AB.
  sg.
Qed.

Lemma declaration_signed s s' :
  WF s -> declaration n rec s = Some s' -> signed s s'.
Proof.
  unfold declaration. intros W H.
  destruct (panic_mode (parser s)); [ inversion H; subst; sg | ].
  destruct (match_ FUNC s) as [m1 x1] eqn:E1.
  assert (F1 : frame s x1) by fr.
  pose proof (frame_WF _ _ F1 W) as W1.
  destruct m1.
  { pose proof (func_declaration_signed _ _ W1 H). sg. }
  destruct (match_ HAVE x1) as [m2 x2] eqn:E2.
  assert (F2 : frame s x2) by fr.
  pose proof (frame_WF _ _ F2 W) as W2.
  destruct m2; [ sg | ].
  pose proof (statement_call_signed _ _ W2 H). sg.
Qed.

Lemma step_signing : signing (step n rec).
Proof.
  intros [p | | ] s s' H; simpl in *.
  - eapply parse_precedence_signed; eauto.
  - intros W. apply statement_signed; auto.
  - intros W. apply declaration_signed; auto.
Qed.

End StatementSigned.

(** Every call of the compiler keeps the signature. *)
Lemma run_signing fuel : signing (run fuel).
Proof.
  induction fuel as [| fuel IH].
  - intros c s s' H. discriminate H.
  - simpl. apply step_signing; [ apply run_sound | exact IH ].
Qed.



(* ================================================================= *)
(** * A compilation that records no error *)

Lemma parser_mark_initialized s : parser (mark_initialized s) = parser s.
Proof.
  unfold mark_initialized. destruct (_ =? 0); [ reflexivity | ].
  apply parser_with_current.
Qed.

Lemma parser_define_variable g s : parser (define_variable g s) = parser s.
Proof.
  unfold define_variable. destruct (_ >? 0).
  - apply parser_mark_initialized.
  - unfold emit_bytes. rewrite !parser_emit_byte. reflexivity.
Qed.

Lemma no_error_before s x :
  (had_error (parser s) = true -> had_error (parser x) = true) ->
  had_error (parser x) = false -> had_error (parser s) = false.
Proof.
  intros H Hx. destruct (had_error (parser s)); [ | reflexivity ].
  rewrite H in Hx by reflexivity. discriminate Hx.
Qed.

Lemma signed_arity s s' :
  signed s s' -> arity (function (current s')) = arity (function (current s)).
Proof. unfold signed, signature. intros H. inversion H. reflexivity. Qed.

Lemma signed_name s s' :
  signed s s' -> name (function (current s')) = name (function (current s)).
Proof. unfold signed, signature. intros H. inversion H. reflexivity. Qed.

(** Without an error the parser is what its tokens are. *)
Lemma clean_parser a b :
  quiet a b -> good a -> good b ->
  had_error (parser a) = false -> had_error (parser b) = false ->
  parser b = parser a.
Proof.
  intros [Q1 Q2 Q3] [Ga1 Ga2] [Gb1 Gb2] Ha Hb.
  destruct (parser a) as [ra pa ca ha ma ea], (parser b) as [rb pb cb hb mb eb].
  simpl in *. subst.
  rewrite (proj1 Ga2 eq_refl), (proj1 Gb2 eq_refl).
  destruct ma; [ discriminate (Ga1 eq_refl) | ].
  destruct mb; [ discriminate (Gb1 eq_refl) | ].
  reflexivity.
Qed.

(** [advance] looks at the parser only. *)
Lemma parser_advance a b : parser a = parser b -> parser (advance a) = parser (advance b).
Proof. intros H. unfold advance. rewrite H. destruct (rest (parser b)); reflexivity. Qed.

Lemma parser_iter_advance j a b :
  parser a = parser b -> parser (Nat.iter j advance a) = parser (Nat.iter j advance b).
Proof.
  intros H. induction j as [| j IH]; simpl; [ exact H | ].
  apply parser_advance, IH.
Qed.

Lemma iter_advance_add i j s :
  Nat.iter i advance (Nat.iter j advance s) = Nat.iter (i + j) advance s.
Proof. induction i as [| i IH]; simpl; [ reflexivity | rewrite IH; reflexivity ]. Qed.

Lemma iter_advance_loop j s :
  inner_most_loop_start (Nat.iter j advance s) = inner_most_loop_start s /\
  inner_most_loop_scope_depth (Nat.iter j advance s) = inner_most_loop_scope_depth s.
Proof.
  induction j as [| j [I1 I2]]; simpl; [ auto | ].
  destruct (advance_frame (Nat.iter j advance s)) as [_ _ _ _ _ A D _ _].
  split; congruence.
Qed.

Lemma good_advance s : good s -> good (advance s).
Proof. apply (fr_good _ _ (advance_frame s)). Qed.

(** A token that is consumed without an error was there. *)
Lemma consume_clean k msg s :
  good s -> had_error (parser (consume k msg s)) = false ->
  check k s = true /\ consume k msg s = advance s.
Proof.
  intros G H. unfold consume in *. destruct (check k s); [ auto | ].
  unfold error_at_current in H. rewrite error_had_error in H by exact G.
  discriminate H.
Qed.

Lemma cond_error_clean (b : bool) msg s :
  good s -> had_error (parser (if b then error msg s else s)) = false ->
  b = false.
Proof.
  intros G H. destruct b; [ | reflexivity ].
  rewrite error_had_error in H by exact G. discriminate H.
Qed.

Lemma declare_scan_clean i ls d nm : forall s,
  good s -> had_error (parser (declare_scan i ls d nm s)) = false ->
  declare_scan i ls d nm s = s.
Proof.
  induction i as [| j IH]; simpl; intros s G H; [ reflexivity | ].
  destruct (nth_error ls j) as [l |]; [ | reflexivity ].
  destruct (_ && _); [ reflexivity | ].
  pose proof (fr_good _ _ (cond_error_frame (identifiers_equal nm (l_name l))
                "Already a variable with this name in this scope." s) G) as G1.
  rewrite (IH _ G1 H) in H |- *.
  rewrite (cond_error_clean _ _ _ G H). reflexivity.
Qed.

(** Two updates of [current] in a row are one. *)
Lemma with_current_twice f g s :
  with_current f (with_current g s) = with_current (fun c => f (g c)) s.
Proof.
  unfold with_current. destruct (compilers s) eqn:E; simpl;
    [ rewrite E; reflexivity | reflexivity ].
Qed.

Lemma with_current_ext f g s :
  (forall c, f c = g c) -> with_current f s = with_current g s.
Proof. intros H. unfold with_current. destruct (compilers s); [ reflexivity | rewrite H; reflexivity ]. Qed.

(** A declaration inside a scope that records no error: the identifier is
    there, the table has room, and the local is added, initialized. *)
Lemma local_is_declared msg s g x :
  WF s -> good s -> 0 < scope_depth (current s) ->
  parser_variable msg s = (g, x) ->
  had_error (parser x) = false ->
  check IDENTIFIER s = true /\
  mark_initialized x
    = with_current
        (fun c => set_locals
                    (locals c ++ [ {| l_name := current_tok (parser s);
                                      depth := scope_depth c |} ]) c)
        (advance s) /\
  define_variable g x = mark_initialized x.
Proof.
  intros W G Hd H He.
  pose proof (WF_nonempty s W) as Hne.
  unfold parser_variable in H.
  pose proof (consume_frame IDENTIFIER msg s) as F1.
  set (x1 := consume IDENTIFIER msg s) in *.
  assert (Hid : x1 = consume IDENTIFIER msg s) by reflexivity.
  clearbody x1.
  pose proof (frame_WF _ _ F1 W) as W1.
  destruct F1 as [_ N1 L1 S1 _ _ _ E1 G1].
  pose proof (WF_nonempty x1 W1) as Hne1.
  unfold declare_variable in H. rewrite S1 in H.
  destruct (Z.eqb_spec (scope_depth (current s)) 0); [ lia | ].
  pose proof (declare_scan_frame (List.length (locals (current x1)))
                (locals (current x1)) (scope_depth (current s))
                (previous (parser x1)) x1) as F2.
  pose proof (declare_scan_clean (List.length (locals (current x1)))
                (locals (current x1)) (scope_depth (current s))
                (previous (parser x1)) x1 (G1 G)) as D2.
  set (s2 := declare_scan _ _ _ _ x1) in *. clearbody s2.
  pose proof (frame_WF _ _ F2 W1) as W2.
  destruct F2 as [_ N2 L2 S2 _ _ _ E2 G2].
  pose proof (WF_nonempty s2 W2) as Hne2.
  assert (Room : local_count (current s2) < UINT8_COUNT).
  { destruct (Z.eqb_spec (local_count (current s2)) UINT8_COUNT) as [Hf | Hf].
    - exfalso.
      assert (X : had_error (parser (add_local (previous (parser x1)) s2)) = true).
      { unfold add_local. rewrite (proj2 (Z.eqb_eq _ _) Hf).
        apply error_had_error. auto. }
      destruct (scope_depth (current (add_local (previous (parser x1)) s2)) >? 0).
      + inversion H; subst. congruence.
      + pose proof (fr_err _ _ (identifier_constant_frame _ _ _ _ H) X). congruence.
    - pose proof (wf_capacity _ (WF_WFC _ W2)) as Cap.
      unfold local_count, UINT8_COUNT in *. lia. }
  destruct (add_local_appends (previous (parser x1)) s2 Hne2 Room) as [AP AL].
  assert (AS : scope_depth (current (add_local (previous (parser x1)) s2))
               = scope_depth (current s)).
  { unfold add_local. rewrite (proj2 (Z.eqb_neq _ _)) by lia.
    rewrite current_with_current by exact Hne2. simpl. congruence. }
  rewrite AS in H. rewrite gtb_true in H by lia.
  inversion H; subst g x; clear H.
  rewrite AP in He. pose proof (D2 He) as Ds. clear D2. subst s2.
  destruct (consume_clean IDENTIFIER msg s G) as [Hc Ha]; [ rewrite <- Hid; exact He | ].
  rewrite <- Hid in Ha.
  split; [ exact Hc | ].
  assert (Pv : previous (parser x1) = current_tok (parser s))
    by (rewrite Ha; apply previous_advance).
  split.
  - unfold mark_initialized. rewrite AS.
    destruct (Z.eqb_spec (scope_depth (current s)) 0); [ lia | ].
    unfold add_local. rewrite (proj2 (Z.eqb_neq _ _)) by lia.
    rewrite with_current_twice, Pv, Ha.
    apply with_current_ext. intros c. unfold set_locals. simpl.
    rewrite set_last_depth_snoc. reflexivity.
  - unfold define_variable. rewrite AS, gtb_true by lia. reflexivity.
Qed.

Lemma compilers_declared f s :
  WF s ->
  compilers (with_current f (advance s)) = f (current s) :: tl (compilers s).
Proof.
  intros W. rewrite compilers_with_current, compilers_advance.
  rewrite (WF_current s W) at 1. reflexivity.
Qed.

(** The parameter list of a function that compiles without an error: the
    tokens are identifiers separated by commas; each one becomes a local
    of the scope and counts for the arity, which stays below 256; nothing
    else changes. *)
Lemma parameters_loop_reads k : forall z s' j s0,
  parameters_loop k z = Some s' ->
  WF z -> good z -> 0 < scope_depth (current z) ->
  had_error (parser s') = false ->
  parser z = parser (Nat.iter j advance s0) ->
  exists params,
    separated_by_commas j s0 params /\ params <> [] /\
    parser s' = parser (Nat.iter (j + 2 * List.length params - 1) advance s0) /\
    compilers s' = with_parameters (current z) params :: tl (compilers z) /\
    inner_most_loop_start s' = inner_most_loop_start z /\
    inner_most_loop_scope_depth s' = inner_most_loop_scope_depth z /\
    arity (function (current z)) + Z.of_nat (List.length params) <= 255.
Proof.
  induction k as [| k IH]; simpl; intros z s' j s0 H W G Hd He Hp; [ discriminate | ].
  pose proof (WF_nonempty z W) as Hne.
  destruct (parser_variable _ _) as [c x] eqn:E1.
  destruct (match_ COMMA _) as [m y] eqn:E2.
  set (sa := with_current incr_arity z) in *.
  assert (Fa : frame z sa).
  { apply with_current_frame. intros c0. auto. }
  assert (Ca : compilers sa = incr_arity (current z) :: tl (compilers z)).
  { unfold sa. rewrite compilers_with_current. rewrite (WF_current z W) at 1.
    reflexivity. }
  assert (Pa : parser sa = parser z) by apply parser_with_current.
  assert (La : inner_most_loop_start sa = inner_most_loop_start z /\
               inner_most_loop_scope_depth sa = inner_most_loop_scope_depth z).
  { split; [ apply (fr_start _ _ Fa) | apply (fr_depth _ _ Fa) ]. }
  clearbody sa.
  assert (Cu : current sa = incr_arity (current z)) by (unfold current; rewrite Ca; reflexivity).
  pose proof (frame_WF _ _ Fa W) as Wa.
  pose proof (fr_good _ _ Fa G) as Ga.
  assert (S1 : sframe true sa (define_variable c x)) by
    (eapply sframe_trans; [ apply frame_sframe, cond_error_frame
                          | eapply parser_variable_define_now; eauto ]).
  destruct (S1 Wa) as [Wd _ _ _ _ _ _ Gd _].
  pose proof (match_frame _ _ _ _ E2) as Fm.
  pose proof (frame_WF _ _ Fm Wd) as Wy.
  pose proof (fr_good _ _ Fm (Gd Ga)) as Gy.
  assert (Ey : had_error (parser y) = false).
  { destruct m.
    - apply (no_error_before y s'); [ | exact He ].
      apply (sf_err _ _ _ (parameters_loop_sframe _ _ _ H Wy)).
    - inversion H; subst. exact He. }
  assert (Ex : had_error (parser x) = false).
  { rewrite <- (parser_define_variable c x).
    apply (no_error_before _ y); [ apply (fr_err _ _ Fm) | exact Ey ]. }
  assert (Ar : arity (function (current sa)) <= 255).
  { destruct (Z.gtb_spec (arity (function (current sa))) 255) as [Hgt | Hle];
      [ exfalso | lia ].
    assert (X : had_error (parser (error_at_current
                  "Can't have more than 255 parameters!" sa)) = true)
      by (apply error_had_error; exact Ga).
    pose proof (parser_variable_define_now _ _ c _ _ E1
                  (frame_WF _ _ (error_at_current_frame _ sa) Wa)) as Sx.
    pose proof (sf_err _ _ _ Sx X) as Y. rewrite parser_define_variable in Y.
    congruence. }
  rewrite gtb_false in E1 by exact Ar.
  assert (Hda : 0 < scope_depth (current sa)) by (rewrite Cu; exact Hd).
  destruct (local_is_declared _ _ _ _ Wa Ga Hda E1 Ex) as (Hid & Md & Dd).
  rewrite Dd, Md in E2. clear Dd Md S1 Wd Gd E1 Ex.
  set (F := fun c0 : Compiler =>
              set_locals (locals c0 ++ [ {| l_name := current_tok (parser sa);
                                            depth := scope_depth c0 |} ]) c0) in *.
  pose proof (compilers_declared F sa Wa) as Ct.
  assert (Pt : parser (with_current F (advance sa))
               = parser (Nat.iter (S j) advance s0)).
  { rewrite parser_with_current. simpl. apply parser_advance. congruence. }
  assert (Lt : inner_most_loop_start (with_current F (advance sa))
               = inner_most_loop_start z /\
               inner_most_loop_scope_depth (with_current F (advance sa))
               = inner_most_loop_scope_depth z).
  { rewrite loop_start_with_current, loop_scope_with_current.
    destruct (advance_frame sa) as [_ _ _ _ _ A D _ _]. destruct La.
    split; congruence. }
  set (T := with_current F (advance sa)) in *. clearbody T.
  assert (Tok : current_tok (parser sa) = token_at j s0)
    by (unfold token_at; congruence).
  unfold check in Hid. rewrite Tok in Hid.
  assert (C1 : F (current sa) = with_parameters (current z) [token_at j s0]).
  { unfold F, with_parameters, set_locals. rewrite Cu, Tok. reflexivity. }
  rewrite Cu in Ar. simpl in Ar.
  unfold match_ in E2.
  assert (Ck : check COMMA T = kind_is COMMA (token_at (S j) s0))
    by (unfold check, token_at; rewrite Pt; reflexivity).
  rewrite Ck in E2.
  destruct (kind_is COMMA (token_at (S j) s0)) eqn:Kc.
  - inversion E2; subst m y; clear E2.
    assert (Py : parser (advance T) = parser (Nat.iter (S (S j)) advance s0))
      by (simpl; apply parser_advance; exact Pt).
    assert (Cy : current (advance T) = with_parameters (current z) [token_at j s0]).
    { unfold current. rewrite compilers_advance, Ct, Ca. simpl. exact C1. }
    assert (Hdy : 0 < scope_depth (current (advance T))) by (rewrite Cy; exact Hd).
    destruct (IH _ _ _ s0 H Wy Gy Hdy He Py) as (ps & Sp & Np & Pp & Cp & L1 & L2 & Ap).
    exists (token_at j s0 :: ps).
    split.
    { simpl. split; [ reflexivity | ]. split; [ exact Hid | ].
      destruct ps; [ congruence | ]. split; [ exact Kc | exact Sp ]. }
    split; [ discriminate | ].
    split.
    { rewrite Pp. f_equal. f_equal. simpl List.length. lia. }
    split.
    { rewrite Cp, Cy, compilers_advance, Ct, Ca. simpl tl. f_equal.
      unfold with_parameters. simpl. f_equal.
      - f_equal. rewrite Zpos_P_of_succ_nat. lia.
      - rewrite <- app_assoc. reflexivity. }
    destruct (advance_frame T) as [_ _ _ _ _ A D _ _]. destruct Lt as [Lt1 Lt2].
    split; [ congruence | ]. split; [ congruence | ].
    rewrite Cy in Ap. simpl in Ap. simpl List.length. lia.
  - inversion E2; subst m y; clear E2. inversion H; subst s'; clear H.
    exists [token_at j s0].
    split; [ simpl; auto | ]. split; [ discriminate | ].
    split; [ rewrite Pt; f_equal; f_equal; simpl; lia | ].
    split; [ rewrite Ct, Ca, C1; reflexivity | ].
    destruct Lt as [Lt1 Lt2].
    split; [ exact Lt1 | ]. split; [ exact Lt2 | simpl; lia ].
Qed.

Lemma state_ext (a b : State) :
  parser a = parser b -> compilers a = compilers b ->
  inner_most_loop_start a = inner_most_loop_start b ->
  inner_most_loop_scope_depth a = inner_most_loop_scope_depth b ->
  a = b.
Proof. destruct a, b. simpl. intros; subst; reflexivity. Qed.

Lemma header_length_cons params :
  params <> [] -> header_length params = (2 * List.length params + 2)%nat.
Proof. destruct params; [ congruence | reflexivity ]. Qed.

Lemma separated_identifiers params : forall j s,
  separated_by_commas j s params ->
  Forall (fun nm => kind_is IDENTIFIER nm = true) params.
Proof.
  induction params as [| p ps IH]; simpl; intros j s H; [ constructor | ].
  destruct H as (_ & Hp & H). constructor; [ exact Hp | ].
  destruct ps; [ constructor | ]. destruct H as [_ H]. eapply IH; eauto.
Qed.

(** * The function object of a function declaration *)

(** [function], called behind the name of a function, when the
    compilation records no error: the tokens that follow are a parameter
    list and an opening brace; the body is compiled by [block] in the
    state [body_state], and the function that [end_compiler] returns for
    the result becomes a constant of the enclosing chunk. *)
Lemma function_compiles_the_body (fuel n : nat) (s s' : State) :
  WF s -> good s ->
  function_ n (run fuel) TYPE_FUNCTION s = Some s' ->
  had_error (parser s') = false ->
  let i := Z.of_nat (List.length (constants (compiling_chunk s))) in
  exists params y,
    parameter_list s params /\
    (List.length params <= 255)%nat /\
    WF (body_state s params) /\
    block n (run fuel) (body_state s params) = Some y /\
    WF y /\ good y /\ had_error (parser y) = false /\
    tl (compilers y) = compilers s /\
    signed (body_state s params) y /\
    i <= 255 /\
    s' = emit_bytes (Op OP_CONSTANT) (Raw i)
           (snd (make_constant (OBJ_VAL (fst (end_compiler y)))
                               (snd (end_compiler y)))).
Proof.
  intros W G H He i.
  pose proof (run_sound fuel) as Hs. pose proof (run_signing fuel) as Hg.
  unfold function_ in H.
  pose proof (WF_init_compiler TYPE_FUNCTION s W) as W1.
  pose proof (inner_begin _ W1) as I.
  pose proof (in_wf _ _ I) as W2.
  assert (G2 : good (begin_scope (init_compiler TYPE_FUNCTION s))).
  { apply (good_parser s); [ | exact G ].
    unfold begin_scope. rewrite parser_with_current. reflexivity. }
  assert (C2 : compilers (begin_scope (init_compiler TYPE_FUNCTION s))
               = function_compiler (lexeme (previous (parser s))) [] :: compilers s)
    by reflexivity.
  assert (P2 : parser (begin_scope (init_compiler TYPE_FUNCTION s)) = parser s)
    by reflexivity.
  assert (L2 : inner_most_loop_start (begin_scope (init_compiler TYPE_FUNCTION s))
               = inner_most_loop_start s /\
               inner_most_loop_scope_depth (begin_scope (init_compiler TYPE_FUNCTION s))
               = inner_most_loop_scope_depth s) by (split; reflexivity).
  clear I.
  set (s2 := begin_scope (init_compiler TYPE_FUNCTION s)) in *. clearbody s2.
  pose proof (consume_frame LEFT_PAREN "Expected a '(' after a function name!" s2) as F3.
  pose proof (consume_clean LEFT_PAREN "Expected a '(' after a function name!" s2 G2)
    as K3.
  set (s3 := consume LEFT_PAREN _ s2) in *. clearbody s3.
  pose proof (frame_WF _ _ F3 W2) as W3.
  pose proof (fr_good _ _ F3 G2) as G3.
  destruct (if negb _ then _ else _) as [sP |] eqn:EP; [ | discriminate ].
  destruct (block n (run fuel) _) as [sB |] eqn:EB; [ | discriminate ].
  assert (P : sframe true s3 sP).
  { destruct (negb _); [ | inversion EP; subst ]; sfr. }
  destruct (P W3) as [WP _ _ _ _ _ EPerr GP _].
  pose proof (consume_frame RIGHT_PAREN "Expected a ')' after parameters!" sP) as F4.
  pose proof (consume_clean RIGHT_PAREN "Expected a ')' after parameters!" sP (GP G3))
    as K4.
  set (s4 := consume RIGHT_PAREN _ sP) in *. clearbody s4.
  pose proof (fr_good _ _ F4 (GP G3)) as G4.
  pose proof (consume_frame LEFT_BRACE "Expected a '{' after a function body!" s4) as F5.
  pose proof (consume_clean LEFT_BRACE "Expected a '{' after a function body!" s4 G4)
    as K5.
  set (s5 := consume LEFT_BRACE _ s4) in *. clearbody s5.
  pose proof (fr_good _ _ F5 G4) as G5.
  pose proof (frame_WF _ _ F5 (frame_WF _ _ F4 WP)) as W5.
  destruct (block_sframe n (run fuel) Hs _ _ EB W5) as [WB TB _ _ _ _ EBerr GB _].
  pose proof (block_signed n (run fuel) Hs Hg _ _ W5 EB) as SgB.
  pose proof (WF_nonempty _ WB) as NB.
  assert (Tf : compilers (snd (end_compiler sB)) = tl (compilers sB))
    by apply (end_compiler_appends_return sB NB).
  assert (GE : good (snd (end_compiler sB))) by (apply good_end_compiler, GB, G5).
  assert (PE : parser (snd (end_compiler sB)) = parser sB).
  { unfold end_compiler. simpl. unfold emit_return. rewrite !parser_emit_byte.
    reflexivity. }
  destruct (end_compiler sB) as [f sE] eqn:EE. simpl in Tf, GE, PE.
  (* the enclosing compiler is current again *)
  assert (T5 : tl (compilers s5) = compilers s).
  { rewrite (fr_tl _ _ F5), (fr_tl _ _ F4), (sf_tl _ _ _ (P W3)), (fr_tl _ _ F3), C2.
    reflexivity. }
  assert (TE : compilers sE = compilers s) by congruence.
  pose proof (WF_nonempty s W) as N0.
  assert (NE : compilers sE <> []) by (rewrite TE; exact N0).
  assert (ChE : compiling_chunk sE = compiling_chunk s).
  { unfold compiling_chunk, current. rewrite TE. reflexivity. }
  destruct (make_constant_chunk (OBJ_VAL f) sE NE) as (_ & _ & MI & MP).
  destruct (make_constant (OBJ_VAL f) sE) as [c sC] eqn:EC.
  simpl in MI, MP. rewrite ChE in MI, MP. fold i in MI, MP.
  inversion H; subst s'; clear H.
  unfold emit_bytes in He. rewrite !parser_emit_byte in He.
  assert (Hi : i <= 255).
  { destruct (Z.gtb_spec i UINT8_MAX) as [Hgt | Hle];
      [ exfalso | unfold UINT8_MAX in Hle; lia ].
    rewrite MP in He. rewrite error_had_error in He by exact GE. discriminate He. }
  unfold UINT8_MAX in MI, MP. rewrite gtb_false in MI, MP by exact Hi. subst c.
  assert (HeB : had_error (parser sB) = false) by congruence.
  assert (He5 : had_error (parser s5) = false)
    by (apply (no_error_before s5 sB); assumption).
  destruct (K5 He5) as [Ck5 A5].
  assert (He4 : had_error (parser s4) = false)
    by (apply (no_error_before s4 s5); [ apply (fr_err _ _ F5) | exact He5 ]).
  destruct (K4 He4) as [Ck4 A4].
  assert (HeP : had_error (parser sP) = false)
    by (apply (no_error_before sP s4); [ apply (fr_err _ _ F4) | exact He4 ]).
  assert (He3 : had_error (parser s3) = false)
    by (apply (no_error_before s3 sP); assumption).
  destruct (K3 He3) as [Ck3 A3].
  clear K3 K4 K5 F3 F4 F5.
  assert (P3 : parser s3 = parser (Nat.iter 1 advance s))
    by (rewrite A3; simpl; apply parser_advance; exact P2).
  assert (C3 : compilers s3
               = function_compiler (lexeme (previous (parser s))) [] :: compilers s)
    by (rewrite A3, compilers_advance; exact C2).
  assert (L3 : inner_most_loop_start s3 = inner_most_loop_start s /\
               inner_most_loop_scope_depth s3 = inner_most_loop_scope_depth s).
  { destruct (advance_frame s2) as [_ _ _ _ _ A D _ _]. destruct L2.
    rewrite A3. split; congruence. }
  (* the parameters *)
  assert (Q : exists params,
             (match params with
              | [] => kind_is RIGHT_PAREN (token_at 1 s) = true
              | _ :: _ => kind_is RIGHT_PAREN (token_at 1 s) = false /\
                          separated_by_commas 1 s params
              end) /\
             (List.length params <= 255)%nat /\
             parser sP = parser (Nat.iter (header_length params - 2) advance s) /\
             compilers sP
             = function_compiler (lexeme (previous (parser s))) params :: compilers s /\
             inner_most_loop_start sP = inner_most_loop_start s /\
             inner_most_loop_scope_depth sP = inner_most_loop_scope_depth s).
  { assert (Ck : check RIGHT_PAREN s3 = kind_is RIGHT_PAREN (token_at 1 s))
      by (unfold check, token_at; rewrite P3; reflexivity).
    rewrite Ck in EP.
    destruct (kind_is RIGHT_PAREN (token_at 1 s)) eqn:Kr; cbn [negb] in EP.
    - inversion EP; subst sP. exists []. simpl.
      split; [ reflexivity | ]. split; [ lia | ]. split; [ exact P3 | ].
      split; [ exact C3 | exact L3 ].
    - assert (Hd3 : 0 < scope_depth (current s3))
        by (unfold current; rewrite C3; simpl; lia).
      destruct (parameters_loop_reads n s3 sP 1 s EP W3 G3 Hd3 HeP P3)
        as (ps & Sp & Np & Pp & Cp & L1 & L2' & Ap).
      exists ps. destruct L3 as [L3a L3b].
      assert (Cu : current s3 = function_compiler (lexeme (previous (parser s))) [])
        by (unfold current; rewrite C3; reflexivity).
      rewrite Cu in Cp, Ap. simpl in Ap.
      split; [ destruct ps; [ congruence | split; [ reflexivity | exact Sp ] ] | ].
      split; [ lia | ].
      split.
      { rewrite Pp, (header_length_cons ps Np). f_equal. f_equal.
        destruct ps; [ congruence | simpl List.length; lia ]. }
      split; [ rewrite Cp, C3; reflexivity | ].
      split; congruence. }
  destruct Q as (params & Tk & Len & PP & CP & LP1 & LP2).
  assert (HL : exists h, header_length params = S (S h))
    by (unfold header_length; destruct params; simpl; eauto).
  destruct HL as (h & HL).
  assert (P4 : parser s4 = parser (Nat.iter (header_length params - 1) advance s)).
  { rewrite A4. rewrite HL in PP |- *.
    replace (S (S h) - 2)%nat with h in PP by lia.
    replace (S (S h) - 1)%nat with (S h) by lia.
    simpl. apply parser_advance. exact PP. }
  assert (P5 : parser s5 = parser (Nat.iter (header_length params) advance s)).
  { rewrite A5. rewrite HL in P4 |- *.
    replace (S (S h) - 1)%nat with (S h) in P4 by lia.
    change (Nat.iter (S (S h)) advance s) with (advance (Nat.iter (S h) advance s)).
    apply parser_advance. exact P4. }
  assert (X5 : s5 = body_state s params).
  { apply state_ext.
    - rewrite P5. reflexivity.
    - rewrite A5, compilers_advance, A4, compilers_advance. exact CP.
    - unfold body_state. simpl.
      rewrite (proj1 (iter_advance_loop _ s)).
      destruct (advance_frame s4) as [_ _ _ _ _ A _ _ _].
      destruct (advance_frame sP) as [_ _ _ _ _ B _ _ _].
      rewrite A5, A, A4, B. exact LP1.
    - unfold body_state. simpl.
      rewrite (proj2 (iter_advance_loop _ s)).
      destruct (advance_frame s4) as [_ _ _ _ _ _ A _ _].
      destruct (advance_frame sP) as [_ _ _ _ _ _ B _ _].
      rewrite A5, A, A4, B. exact LP2. }
  clear A5. subst s5.
  exists params, sB.
  split.
  { unfold parameter_list. split.
    - unfold token_at. simpl. rewrite <- P2. exact Ck3.
    - split; [ exact Tk | ]. split.
      + unfold token_at. rewrite <- PP. exact Ck4.
      + unfold token_at. rewrite <- P4. exact Ck5. }
  split; [ exact Len | ]. split; [ exact W5 | ]. split; [ exact EB | ].
  split; [ exact WB | ]. split; [ apply GB, G5 | ]. split; [ exact HeB | ].
  split; [ congruence | ]. split; [ exact SgB | ]. split; [ exact Hi | ].
  rewrite EE. simpl. rewrite EC. reflexivity.
Qed.

Lemma constants_emit_byte b s :
  compilers s <> [] ->
  constants (compiling_chunk (emit_byte b s)) = constants (compiling_chunk s).
Proof.
  intros H. unfold emit_byte. rewrite compiling_chunk_set_chunk by exact H.
  reflexivity.
Qed.

(** The function that [end_compiler] returns: the function of the current
    compiler with the implicit return appended to its code. *)
Lemma end_compiler_function y :
  compilers y <> [] ->
  let f := fst (end_compiler y) in
  arity f = arity (function (current y)) /\
  name f = name (function (current y)) /\
  code (chunk f) = code (compiling_chunk y) ++ [Op OP_NIL; Op OP_RETURN] /\
  constants (chunk f) = constants (compiling_chunk y) /\
  parser (snd (end_compiler y)) = parser y.
Proof.
  intros N. cbv zeta.
  pose proof (emit_return_signed y) as Sg.
  destruct (end_compiler_appends_return y N) as [C _].
  split; [ apply (signed_arity _ _ Sg) | ].
  split; [ apply (signed_name _ _ Sg) | ].
  split; [ exact C | ].
  split.
  - unfold end_compiler. simpl.
    change (chunk (function (current (emit_return y))))
      with (compiling_chunk (emit_return y)).
    unfold emit_return.
    rewrite !constants_emit_byte by (auto using nonempty_emit_byte). reflexivity.
  - unfold end_compiler. simpl. unfold emit_return. rewrite !parser_emit_byte.
    reflexivity.
Qed.

(** The function constant of [function]: what the header, the body and
    the enclosing chunk are when no error is recorded. *)
Lemma function_constant (fuel n : nat) (s s' : State) :
  WF s -> good s ->
  function_ n (run fuel) TYPE_FUNCTION s = Some s' ->
  had_error (parser s') = false ->
  let i := Z.of_nat (List.length (constants (compiling_chunk s))) in
  exists params y,
    parameter_list s params /\
    block n (run fuel) (body_state s params) = Some y /\
    tl (compilers y) = compilers s /\
    let f := fst (end_compiler y) in
    arity f = Z.of_nat (List.length params) /\ arity f <= 255 /\
    name f = Some (lexeme (previous (parser s))) /\
    code (chunk f) = code (compiling_chunk y) ++ [Op OP_NIL; Op OP_RETURN] /\
    constants (chunk f) = constants (compiling_chunk y) /\
    constants (compiling_chunk s') = constants (compiling_chunk s) ++ [OBJ_VAL f] /\
    code (compiling_chunk s')
      = code (compiling_chunk s) ++ [Op OP_CONSTANT; Raw i] /\
    i <= 255 /\
    parser s' = parser y /\
    tl (compilers s') = tl (compilers s) /\
    locals (current s') = locals (current s) /\
    scope_depth (current s') = scope_depth (current s).
Proof.
  intros W G H He i.
  destruct (function_frame n (run fuel) (run_sound fuel) _ _ _ W H)
    as [FT _ FL FS _ _ _ _ _].
  destruct (function_compiles_the_body fuel n s s' W G H He)
    as (params & y & Tk & Len & Wx & EB & Wy & Gy & Hy & Ty & Sg & Hi & Es).
  fold i in Hi, Es.
  exists params, y. split; [ exact Tk | ]. split; [ exact EB | ].
  split; [ exact Ty | ]. cbv zeta.
  pose proof (WF_nonempty _ Wy) as Ny.
  destruct (end_compiler_function y Ny) as (A & N & C & K & PE).
  destruct (end_compiler_appends_return y Ny) as [_ TE].
  rewrite Ty in TE.
  set (f := fst (end_compiler y)) in *. set (sE := snd (end_compiler y)) in *.
  clearbody f sE.
  pose proof (WF_nonempty s W) as N0.
  assert (NE : compilers sE <> []) by (rewrite TE; exact N0).
  assert (ChE : compiling_chunk sE = compiling_chunk s).
  { unfold compiling_chunk, current. rewrite TE. reflexivity. }
  destruct (make_constant_chunk (OBJ_VAL f) sE NE) as (MC & NC & _ & MP).
  rewrite ChE in MC, MP. fold i in MP.
  unfold UINT8_MAX in MP. rewrite gtb_false in MP by exact Hi.
  set (sC := snd (make_constant (OBJ_VAL f) sE)) in *. clearbody sC.
  assert (Ab : arity (function (current (body_state s params)))
               = Z.of_nat (List.length params)) by reflexivity.
  assert (Nb : name (function (current (body_state s params)))
               = Some (lexeme (previous (parser s)))) by reflexivity.
  split; [ rewrite A, (signed_arity _ _ Sg); exact Ab | ].
  split; [ rewrite A, (signed_arity _ _ Sg), Ab; lia | ].
  split; [ rewrite N, (signed_name _ _ Sg); exact Nb | ].
  split; [ exact C | ]. split; [ exact K | ].
  subst s'. unfold emit_bytes.
  split; [ rewrite !constants_emit_byte by (auto using nonempty_emit_byte);
           rewrite MC; reflexivity | ].
  split; [ rewrite !code_emit_byte by (auto using nonempty_emit_byte);
           rewrite MC; simpl; rewrite <- app_assoc; reflexivity | ].
  split; [ exact Hi | ].
  split; [ rewrite !parser_emit_byte; congruence | ].
  unfold emit_bytes in FT, FL, FS. auto.
Qed.

(** X6.  [function], called behind the name of a function in a
    well-formed state, when the compilation records no error.  The tokens
    that follow the name are an opening parenthesis, the parameters
    (identifiers separated by commas), a closing parenthesis and an
    opening brace.  The body is compiled by [block] in the state
    [body_state]: the header is consumed, and on top of the compilers of
    the call there is a compiler with an empty chunk, the name of the
    function, scope depth 1 and the parameters as the locals behind
    slot 0; behind the body the compilers below it are those of the call.
    For the function [f] that [end_compiler] returns behind the body: its arity is the number of parameters, at most 255, its name is
    the lexeme of the name token, its code is the code of the body
    followed by [OP_NIL; OP_RETURN].  The chunk of the call gets exactly
    one more constant, [f], and the two bytes [OP_CONSTANT i] with [i] the
    index of that constant; the locals and the scope depth of the call
    are as before. *)
Theorem function_object (fuel n : nat) (s s' : State) :
  WF s -> good s ->
  function_ n (run fuel) TYPE_FUNCTION s = Some s' ->
  had_error (parser s') = false ->
  let i := Z.of_nat (List.length (constants (compiling_chunk s))) in
  exists params y,
    parameter_list s params /\
    block n (run fuel) (body_state s params) = Some y /\
    tl (compilers y) = compilers s /\
    let f := fst (end_compiler y) in
    arity f = Z.of_nat (List.length params) /\ arity f <= 255 /\
    name f = Some (lexeme (previous (parser s))) /\
    code (chunk f) = code (compiling_chunk y) ++ [Op OP_NIL; Op OP_RETURN] /\
    constants (chunk f) = constants (compiling_chunk y) /\
    constants (compiling_chunk s') = constants (compiling_chunk s) ++ [OBJ_VAL f] /\
    code (compiling_chunk s')
      = code (compiling_chunk s) ++ [Op OP_CONSTANT; Raw i] /\
    i <= 255 /\
    parser s' = parser y /\
    tl (compilers s') = tl (compilers s) /\
    locals (current s') = locals (current s) /\
    scope_depth (current s') = scope_depth (current s).
Proof. apply function_constant. Qed.

(** X6 (witness): [f(a, b) {}] behind the name [f]. *)
Lemma function_object_witness :
  WF function_state /\ good function_state /\
  exists s' params y,
    function_ 3 (run 3) TYPE_FUNCTION function_state = Some s' /\
    had_error (parser s') = false /\
    parameter_list function_state params /\
    block 3 (run 3) (body_state function_state params) = Some y /\
    constants (compiling_chunk s') = [OBJ_VAL (fst (end_compiler y))] /\
    code (compiling_chunk s') = [Op OP_CONSTANT; Raw 0] /\
    OBJ_VAL (fst (end_compiler y))
      = FUNCTION_OBJ 2 (Some "f") [Op OP_NIL; Op OP_RETURN] [1; 1] [].
Proof.
  assert (W : WF function_state).
  { split; simpl; [ discriminate | ]. repeat constructor; simpl; auto; lia. }
  assert (G : good function_state).
  { unfold good. simpl. split; [ discriminate | tauto ]. }
  split; [ exact W | ]. split; [ exact G | ].
  destruct (function_ 3 (run 3) TYPE_FUNCTION function_state) as [s' |] eqn:E;
    [ | vm_compute in E; discriminate E ].
  assert (He : had_error (parser s') = false).
  { vm_compute in E. inversion E; subst s'. reflexivity. }
  destruct (function_object 3 3 function_state s' W G E He)
    as (params & y & Tk & EB & _ & _ & _ & _ & _ & _ & K & C & _).
  exists s', params, y. split; [ reflexivity | ]. split; [ exact He | ].
  split; [ exact Tk | ]. split; [ exact EB | ].
  split; [ exact K | ]. split; [ exact C | ].
  assert (V : constants (compiling_chunk s')
              = [FUNCTION_OBJ 2 (Some "f") [Op OP_NIL; Op OP_RETURN] [1; 1] []]).
  { vm_compute in E. inversion E; subst s'. reflexivity. }
  rewrite K in V. simpl in V. inversion V. reflexivity.
Defined.

(** X21.  A declaration compiled in a well-formed state leaves the
    function under compilation as it was: its arity, its name and its
    type.  The parameters of a nested function count for the nested
    function only. *)
Theorem declaration_keeps_the_function (fuel : nat) (s s' : State) :
  WF s -> run fuel Declaration s = Some s' ->
  arity (function (current s')) = arity (function (current s)) /\
  name (function (current s')) = name (function (current s)) /\
  type (current s') = type (current s).
Proof.
  intros W H.
  pose proof (run_signing fuel Declaration s s' H W) as Sg.
  pose proof (run_sound fuel Declaration s s' H W) as [_ _ _ T _ _ _ _ _].
  split; [ apply signed_arity; exact Sg | ].
  split; [ apply signed_name; exact Sg | exact T ].
Qed.

(** X21 (witness): the declaration of [fib(n)] at top level; the script
    keeps arity 0. *)
Lemma declaration_keeps_the_function_witness :
  WF (start_state prog_fib) /\
  exists s',
    run 20 Declaration (start_state prog_fib) = Some s' /\
    arity (function (current s')) = 0 /\
    name (function (current s')) = None /\
    type (current s') = TYPE_SCRIPT.
Proof.
  split; [ apply WF_start_state | ].
  destruct (run 20 Declaration (start_state prog_fib)) as [s' |] eqn:E;
    [ | vm_compute in E; discriminate E ].
  exists s'. split; [ reflexivity | ].
  exact (declaration_keeps_the_function 20 _ s' (WF_start_state _) E).
Defined.



(* ================================================================= *)
(** * C8 *)

(** A name that no local of the compiler has, none of them being
    uninitialized, is not found, and nothing is reported. *)
Lemma resolve_local_from_absent nm ls s : forall i,
  Forall (fun l => identifiers_equal nm (l_name l) = false /\ depth l <> -1) ls ->
  resolve_local_from i ls nm s = (-1, s).
Proof.
  intros i H. induction i as [| j IH]; simpl; [ reflexivity | ].
  destruct (nth_error ls j) as [l |] eqn:E; [ | reflexivity ].
  apply nth_error_In in E. rewrite Forall_forall in H.
  destruct (H l E) as [H1 H2]. rewrite H1.
  destruct (Z.eqb_spec (depth l) (-1)); [ contradiction | exact IH ].
Qed.

(** A reference to such a name is compiled as a read of the global of
    that name: the locals of the enclosing compilers are not looked at. *)
Lemma named_variable_global rec nm can_assign z :
  Forall (fun l => identifiers_equal nm (l_name l) = false /\ depth l <> -1)
         (locals (current z)) ->
  check EQUAL z = false ->
  named_variable rec nm can_assign z
  = Some (emit_bytes (Op OP_GET_GLOBAL)
            (Raw (fst (identifier_constant nm z) mod 256))
            (snd (identifier_constant nm z))).
Proof.
  intros H Hc. unfold named_variable, resolve_local.
  rewrite (resolve_local_from_absent nm _ z _ H). simpl.
  destruct (identifier_constant nm z) as [c z1] eqn:E. simpl.
  unfold match_.
  rewrite (quiet_check _ _ _ (quiet_identifier_constant _ _ _ _ E)), Hc.
  reflexivity.
Qed.

(** The declaration of the name of a function, when no error is recorded:
    the name is an identifier and the state is [name_declared]. *)
Lemma name_is_declared msg s g x :
  WF s -> good s ->
  parser_variable msg s = (g, x) ->
  had_error (parser x) = false ->
  kind_is IDENTIFIER (current_tok (parser s)) = true /\
  mark_initialized x = name_declared s /\
  (scope_depth (current s) = 0 ->
   g = Z.of_nat (List.length (constants (compiling_chunk s))) /\ g <= 255).
Proof.
  intros W G H He.
  pose proof (WF_nonempty s W) as Hne.
  pose proof (wf_depths _ (WF_WFC s W)) as Wd.
  assert (D0 : 0 <= scope_depth (current s)).
  { pose proof (wf_slot0 _ (WF_WFC s W)) as S0. unfold slot0_reserved in S0.
    destruct (locals (current s)) as [| l ls]; [ contradiction | ].
    inversion Wd; subst. lia. }
  destruct (Z.eq_dec (scope_depth (current s)) 0) as [E0 | E0].
  - (* a global *)
    unfold parser_variable in H.
    pose proof (consume_frame IDENTIFIER msg s) as F1.
    pose proof (consume_clean IDENTIFIER msg s G) as K1.
    set (x1 := consume IDENTIFIER msg s) in *. clearbody x1.
    unfold declare_variable in H. rewrite (fr_scope _ _ F1), E0 in H.
    cbn [Z.eqb] in H. rewrite (fr_scope _ _ F1), E0 in H.
    cbn [Z.gtb Z.compare] in H.
    assert (He1 : had_error (parser x1) = false).
    { apply (no_error_before x1 x); [ | exact He ].
      apply (fr_err _ _ (identifier_constant_frame _ _ _ _ H)). }
    destruct (K1 He1) as [Ck A1]. subst x1.
    rewrite previous_advance in H. unfold identifier_constant, copy_string in H.
    assert (N1 : compilers (advance s) <> []) by (rewrite compilers_advance; exact Hne).
    destruct (make_constant_chunk (STRING_OBJ (lexeme (current_tok (parser s))))
                (advance s) N1) as (_ & _ & MI & MP).
    rewrite H in MI, MP. simpl in MI, MP. rewrite compiling_chunk_advance in MI, MP.
    split; [ exact Ck | ]. split.
    + unfold name_declared. rewrite E0. cbn [Z.gtb Z.compare]. rewrite H. simpl.
      unfold mark_initialized.
      rewrite (fr_scope _ _ (make_constant_frame _ _ _ _ H)).
      rewrite (fr_scope _ _ (advance_frame s)), E0. reflexivity.
    + intros _.
      destruct (Z.gtb_spec (Z.of_nat (List.length (constants (compiling_chunk s))))
                           UINT8_MAX) as [Hgt | Hle].
      * exfalso. rewrite MP in He.
        rewrite error_had_error in He by (apply good_advance; exact G).
        discriminate He.
      * unfold UINT8_MAX in Hle. split; [ exact MI | lia ].
  - (* a local *)
    assert (Hd : 0 < scope_depth (current s)) by lia.
    destruct (local_is_declared _ _ _ _ W G Hd H He) as (Ck & Md & _).
    split; [ exact Ck | ]. split; [ | intros; lia ].
    rewrite Md. unfold name_declared. rewrite gtb_true by lia. reflexivity.
Qed.

Lemma name_declared_previous s :
  previous (parser (name_declared s)) = current_tok (parser s).
Proof.
  unfold name_declared. destruct (_ >? 0).
  - rewrite parser_with_current. apply previous_advance.
  - destruct (make_constant _ _) as [c z] eqn:E. simpl.
    rewrite (q_prev _ _ (quiet_make_constant _ _ _ _ E)). apply previous_advance.
Qed.

Lemma name_declared_local s :
  WF s -> 0 < scope_depth (current s) ->
  locals (current (name_declared s))
    = locals (current s)
      ++ [ {| l_name := current_tok (parser s); depth := scope_depth (current s) |} ] /\
  compiling_chunk (name_declared s) = compiling_chunk s.
Proof.
  intros W Hd. pose proof (WF_nonempty s W) as Hne.
  unfold name_declared. rewrite gtb_true by lia.
  assert (N1 : compilers (advance s) <> []) by (rewrite compilers_advance; exact Hne).
  assert (C1 : current (advance s) = current s)
    by (unfold current; rewrite compilers_advance; reflexivity).
  split.
  - rewrite current_with_current by exact N1. simpl. rewrite C1. reflexivity.
  - rewrite compiling_chunk_with_current by reflexivity.
    apply compiling_chunk_advance.
Qed.

Lemma name_declared_global s :
  WF s -> scope_depth (current s) = 0 ->
  locals (current (name_declared s)) = locals (current s) /\
  constants (compiling_chunk (name_declared s))
    = constants (compiling_chunk s) ++ [STRING_OBJ (lexeme (current_tok (parser s)))] /\
  code (compiling_chunk (name_declared s)) = code (compiling_chunk s).
Proof.
  intros W Hd. pose proof (WF_nonempty s W) as Hne.
  unfold name_declared. rewrite Hd. cbn [Z.gtb Z.compare].
  assert (N1 : compilers (advance s) <> []) by (rewrite compilers_advance; exact Hne).
  destruct (make_constant_chunk (STRING_OBJ (lexeme (current_tok (parser s))))
              (advance s) N1) as (MC & _).
  rewrite compiling_chunk_advance in MC.
  destruct (make_constant _ _) as [c z] eqn:E. simpl in *.
  split.
  - rewrite (fr_locals _ _ (make_constant_frame _ _ _ _ E)).
    apply (fr_locals _ _ (advance_frame s)).
  - rewrite MC. split; reflexivity.
Qed.

(** C8 (amended).  For a function declaration [func name ( params ) { body }]
    that is compiled in a well-formed state without an error: the name is
    declared before the body is compiled (inside a scope as a local that
    is initialized at once, at scope depth 0 as a constant that holds the
    name of the global); the body is compiled by [block] in a compiler
    that is newly put on top of the compilers with the name declared, and
    that carries the name and has the parameters as its locals; the
    function always ends with the implicit [OP_NIL; OP_RETURN] behind the
    code of the body; then the enclosing chunk receives the function as a
    constant and [OP_CONSTANT] with its index, and at depth 0
    [OP_DEFINE_GLOBAL] with the index of the name.  A reference to the
    name is looked up in the locals of the current compiler only: where
    that is the compiler of the function and none of its locals has the
    name or is uninitialized, the reference is compiled as a read of the
    global of that name. *)
Theorem function_declaration_protocol (fuel n : nat) (s s' : State) :
  WF s -> good s ->
  func_declaration n (run fuel) s = Some s' ->
  had_error (parser s') = false ->
  let nm := current_tok (parser s) in
  let d := scope_depth (current s) in
  let declared := name_declared s in
  let i := Z.of_nat (List.length (constants (compiling_chunk declared))) in
  exists params y,
    (* the name and the header *)
    kind_is IDENTIFIER nm = true /\
    parameter_list declared params /\
    (* the name is declared *)
    (0 < d ->
     locals (current declared)
       = locals (current s) ++ [ {| l_name := nm; depth := d |} ] /\
     compiling_chunk declared = compiling_chunk s) /\
    (d = 0 ->
     locals (current declared) = locals (current s) /\
     constants (compiling_chunk declared)
       = constants (compiling_chunk s) ++ [STRING_OBJ (lexeme nm)] /\
     code (compiling_chunk declared) = code (compiling_chunk s)) /\
    (* the body is compiled in a new compiler on top of that *)
    block n (run fuel) (body_state declared params) = Some y /\
    compilers (body_state declared params)
      = function_compiler (lexeme nm) params :: compilers declared /\
    tl (compilers y) = compilers declared /\
    (* the function ends with the implicit return *)
    (let f := fst (end_compiler y) in
     name f = Some (lexeme nm) /\
     arity f = Z.of_nat (List.length params) /\
     code (chunk f) = code (compiling_chunk y) ++ [Op OP_NIL; Op OP_RETURN] /\
     (* the enclosing compiler *)
     constants (compiling_chunk s')
       = constants (compiling_chunk declared) ++ [OBJ_VAL f] /\
     code (compiling_chunk s')
       = code (compiling_chunk declared) ++ [Op OP_CONSTANT; Raw i]
         ++ (if d =? 0 then [Op OP_DEFINE_GLOBAL; Raw (i - 1)] else []) /\
     locals (current s') = locals (current declared) /\
     tl (compilers s') = tl (compilers s)) /\
    (* a reference to the name *)
    (forall z can_assign,
        Forall (fun l => identifiers_equal nm (l_name l) = false /\ depth l <> -1)
               (locals (current z)) ->
        check EQUAL z = false ->
        named_variable (run fuel) nm can_assign z
        = Some (emit_bytes (Op OP_GET_GLOBAL)
                  (Raw (fst (identifier_constant nm z) mod 256))
                  (snd (identifier_constant nm z)))).
Proof.
  intros W G H He. cbv zeta.
  pose proof (run_sound fuel) as Hs.
  unfold func_declaration in H.
  destruct (parser_variable _ s) as [g x] eqn:E1.
  destruct (function_ n (run fuel) TYPE_FUNCTION (mark_initialized x)) as [s1 |] eqn:E2;
    [ | discriminate ].
  inversion H; subst s'; clear H.
  destruct (parser_variable_mark _ _ _ _ E1 W) as [W1 T1 S1 _ _ _ _ G1 _].
  rewrite parser_define_variable in He.
  pose proof (function_frame n (run fuel) Hs _ _ _ W1 E2) as F2.
  assert (He1 : had_error (parser (mark_initialized x)) = false)
    by (apply (no_error_before _ s1); [ apply (fr_err _ _ F2) | exact He ]).
  assert (Hex : had_error (parser x) = false)
    by (rewrite <- parser_mark_initialized; exact He1).
  destruct (name_is_declared _ _ _ _ W G E1 Hex) as (Ck & Md & Gi).
  rewrite Md in *. clear Md E1 Hex.
  set (declared := name_declared s) in *.
  destruct (function_constant fuel n declared s1 W1 (G1 G) E2 He)
    as (params & y & Tk & EB & Ty & A & _ & N & Cf & _ & Ks & Cs & Hi & _ & Ts & Ls & Ss).
  exists params, y.
  split; [ exact Ck | ]. split; [ exact Tk | ].
  split; [ apply name_declared_local; exact W | ].
  split; [ apply name_declared_global; exact W | ].
  split; [ exact EB | ].
  assert (Pv : previous (parser declared) = current_tok (parser s))
    by apply name_declared_previous.
  split; [ unfold body_state; simpl; rewrite Pv; reflexivity | ].
  split; [ exact Ty | ].
  split; [ | intros z can_assign; apply named_variable_global ].
  cbv zeta in *. rewrite Pv in N.
  split; [ exact N | ]. split; [ exact A | ]. split; [ exact Cf | ].
  pose proof (WF_nonempty _ (frame_WF _ _ F2 W1)) as N1.
  unfold define_variable. rewrite Ss, S1.
  destruct (Z.eq_dec (scope_depth (current s)) 0) as [E0 | E0].
  - (* a global: [OP_DEFINE_GLOBAL] *)
    rewrite E0. cbn [Z.gtb Z.compare Z.eqb].
    destruct (Gi E0) as [Eg _].
    destruct (name_declared_global s W E0) as (_ & Kd & _). fold declared in Kd.
    assert (Ei : Z.of_nat (List.length (constants (compiling_chunk declared))) - 1 = g).
    { rewrite Kd, length_app. simpl. lia. }
    rewrite Ei. unfold emit_bytes.
    rewrite !constants_emit_byte by (auto using nonempty_emit_byte).
    rewrite !code_emit_byte by (auto using nonempty_emit_byte).
    split; [ exact Ks | ].
    split; [ rewrite Cs, <- !app_assoc; reflexivity | ].
    pose proof (emit_bytes_frame (Op OP_DEFINE_GLOBAL) (Raw g) s1) as [FT _ FL _ _ _ _ _ _].
    unfold emit_bytes in FT, FL.
    split; [ congruence | congruence ].
  - (* a local: nothing more is emitted *)
    assert (Hd : 0 < scope_depth (current s)).
    { pose proof (wf_depths _ (WF_WFC s W)) as Wd.
      pose proof (wf_slot0 _ (WF_WFC s W)) as S0. unfold slot0_reserved in S0.
      destruct (locals (current s)) as [| l ls]; [ contradiction | ].
      inversion Wd; subst. lia. }
    rewrite gtb_true by lia.
    rewrite (proj2 (Z.eqb_neq _ _) E0), app_nil_r.
    rewrite compiling_chunk_mark_initialized.
    split; [ exact Ks | ]. split; [ exact Cs | ].
    destruct (name_declared_local s W Hd) as (Ld & _). fold declared in Ld.
    unfold mark_initialized. rewrite Ss, S1.
    rewrite (proj2 (Z.eqb_neq _ _) E0).
    split.
    + rewrite current_with_current by exact N1. simpl.
      rewrite Ls, Ss, S1, Ld, set_last_depth_snoc. reflexivity.
    + rewrite tl_with_current. congruence.
Qed.

(** C8 (witness): [func f(a, b) {}] at top level, behind [func]. *)
Lemma function_declaration_protocol_witness :
  WF func_state /\ good func_state /\
  exists s' params y,
    func_declaration 3 (run 3) func_state = Some s' /\
    had_error (parser s') = false /\
    parameter_list (name_declared func_state) params /\
    block 3 (run 3) (body_state (name_declared func_state) params) = Some y /\
    constants (compiling_chunk s')
      = [STRING_OBJ "f"; OBJ_VAL (fst (end_compiler y))] /\
    code (compiling_chunk s')
      = [Op OP_CONSTANT; Raw 1; Op OP_DEFINE_GLOBAL; Raw 0] /\
    OBJ_VAL (fst (end_compiler y))
      = FUNCTION_OBJ 2 (Some "f") [Op OP_NIL; Op OP_RETURN] [1; 1] [].
Proof.
  assert (W : WF func_state).
  { split; simpl; [ discriminate | ]. repeat constructor; simpl; auto; lia. }
  assert (G : good func_state).
  { unfold good. simpl. split; [ discriminate | tauto ]. }
  split; [ exact W | ]. split; [ exact G | ].
  destruct (func_declaration 3 (run 3) func_state) as [s' |] eqn:E;
    [ | vm_compute in E; discriminate E ].
  assert (He : had_error (parser s') = false).
  { vm_compute in E. inversion E; subst s'. reflexivity. }
  destruct (function_declaration_protocol 3 3 func_state s' W G E He)
    as (params & y & _ & Tk & _ & _ & EB & _ & _ & (_ & _ & _ & K & C & _) & _).
  assert (Kd : constants (compiling_chunk (name_declared func_state))
               = [STRING_OBJ "f"]) by (vm_compute; reflexivity).
  assert (Cd : code (compiling_chunk (name_declared func_state)) = [])
    by (vm_compute; reflexivity).
  assert (Dd : scope_depth (current func_state) = 0) by reflexivity.
  rewrite Kd in K. rewrite Cd, Kd, Dd in C.
  change ([STRING_OBJ "f"] ++ [OBJ_VAL (fst (end_compiler y))])
    with [STRING_OBJ "f"; OBJ_VAL (fst (end_compiler y))] in K.
  exists s', params, y. split; [ reflexivity | ]. split; [ exact He | ].
  split; [ exact Tk | ]. split; [ exact EB | ].
  split; [ exact K | ]. split; [ exact C | ].
  assert (V : constants (compiling_chunk s')
              = [STRING_OBJ "f";
                 FUNCTION_OBJ 2 (Some "f") [Op OP_NIL; Op OP_RETURN] [1; 1] []]).
  { vm_compute in E. inversion E; subst s'. reflexivity. }
  rewrite K in V. inversion V. reflexivity.
Defined.

